(** * simpledb: branchless lower bound, B+tree nodes, B+tree, buffer manager

  A shallow embedding of
    - include/simpledb/binary_search.h   (lower_bound_branchless)
    - include/simpledb/btree.h           (Node, InnerNode, LeafNode, BTree)
    - include/simpledb/buffer_manager.h, src/buffer_manager.cc
  and the properties of these that the specification states. *)

From Stdlib Require Import ZArith Lia Bool List.
From stdpp Require Import base option list gmap.

Local Open Scope nat_scope.

(** ** binary_search.h *)

Section lower_bound.
(** [It] is an iterator into contiguous storage; the range [[low, up)] is
    the list of the elements it spans.  [size_t] positions are natural
    numbers: they never exceed [up - low].  A read outside the range has
    no defined result and yields [None]. *)
Context {T : Type}.
Variable cmp : T → T → bool.

(** The body of [while (auto half = l / 2)], one iteration per unit of
    [fuel]; the loop is left when [half] is zero. *)
Fixpoint lbb_loop (fuel : nat) (rng : list T) (val : T) (i l : nat)
  : option (nat * nat) :=
  let half := l / 2 in
  if Nat.eqb half 0 then Some (i, l)
  else match fuel with
       | O => None
       | S fuel' =>
           mid ← rng !! (i + half);
           let i' := if cmp mid val then i + half else i in
           lbb_loop fuel' rng val i' (l - half)
       end.

Definition lower_bound_branchless (rng : list T) (val : T) : option nat :=
  let l := length rng in
  if Nat.eqb l 0 then Some 0
  else
    '(i, _) ← lbb_loop l rng val 0 l;
    x ← rng !! i;
    Some (if cmp x val then S i else i).

(** The reference of the specification: the smallest index [i] in
    [[0, len]] whose element is not less than [val], [len] if none. *)
Fixpoint reference_lower_bound (rng : list T) (val : T) : nat :=
  match rng with
  | [] => 0
  | x :: rest => if cmp x val then S (reference_lower_bound rest val) else 0
  end.

(** Sorted under the comparator: no later element is less than an
    earlier one. *)
Definition sorted_under (rng : list T) : Prop :=
  ∀ i j x y, i < j → rng !! i = Some x → rng !! j = Some y → cmp y x = false.
End lower_bound.

(** ** btree.h: nodes *)

(** [uint16_t] arithmetic wraps modulo 2^16. *)
Definition u16 (n : nat) : nat := n mod 2 ^ 16.

(** C arrays of [uint64_t] cells.  An access outside the array has no
  defined result: [None]. *)
Module Mem.
Definition store (a : list Z) (i : nat) (x : Z) : option (list Z) :=
  if decide (i < length a) then Some (<[i:=x]> a) else None.

(** [memmove(&a[dst], &a[src], n * sizeof(cell))]: the [n] cells are
    copied as if through a temporary buffer. *)
Definition memmove (a : list Z) (dst src n : nat) : option (list Z) :=
  if decide (src + n ≤ length a ∧ dst + n ≤ length a)
  then Some (take dst a ++ take n (drop src a) ++ drop (dst + n) a)
  else None.

(** The iterator range [[&a[0], &a[n])]. *)
Definition range (a : list Z) (n : nat) : option (list Z) :=
  if decide (n ≤ length a) then Some (take n a) else None.
End Mem.

(** A page viewed as a node.  The tree is instantiated as in the
  repository, [BTree<uint64_t, uint64_t, std::less<>>]: keys and values
  are [uint64_t], the comparator is [<], and [InnerNode] and [LeafNode]
  have the same layout, the header [{level, count}], [keys[kCapacity]],
  and then [kCapacity] 64-bit cells which are [children] of an inner node
  and [values] of a leaf.  [slots] are these cells. *)
Record Node := mkNode {
  level : nat;       (* uint16_t *)
  count : nat;       (* uint16_t *)
  keys : list Z;
  slots : list Z
}.

Definition is_leaf (nd : Node) : bool := Nat.eqb (level nd) 0.

Section nodes.
(** [PageSize] is the template parameter; [sizeof(Node)] is 4 and a key
    with its value or child takes 16 bytes. *)
Variable PageSize : nat.
(** [NDEBUG]: whether [assert] is compiled out. *)
Variable NDEBUG : bool.

(** [assert(c)]: aborts when [c] is false, unless compiled out, in which
    case [c] is not evaluated. *)
Definition cassert (c : option bool) : option unit :=
  if NDEBUG then Some ()
  else b ← c; if b : bool then Some () else None.

(** The loop [for (i = newCount; i < count; ++i)] of both [split]s, with
    [n] iterations left. *)
Fixpoint copy_upper (n i newCount : nat) (ks vs oks ovs : list Z)
  : option (list Z * list Z) :=
  match n with
  | O => Some (oks, ovs)
  | S n' =>
      k ← ks !! i;
      oks' ← Mem.store oks (i - newCount) k;
      v ← vs !! i;
      ovs' ← Mem.store ovs (i - newCount) v;
      copy_upper n' (S i) newCount ks vs oks' ovs'
  end.

Definition InnerNode_kCapacity : nat := (PageSize - 4) / (8 + 8).
Definition LeafNode_kCapacity : nat := (PageSize - 4) / (8 + 8).

(** *** InnerNode *)

Definition InnerNode_has_space (nd : Node) : bool :=
  count nd <? InnerNode_kCapacity.

Definition InnerNode_lower_bound (nd : Node) (key : Z) : option (nat * bool) :=
  if Nat.eqb (count nd) 0 then Some (0, false)
  else
    rng ← Mem.range (keys nd) (count nd - 1);
    i ← lower_bound_branchless Z.ltb rng key;
    if i <? count nd - 1
    then x ← keys nd !! i; Some (i, Z.eqb x key)
    else Some (i, false).

Definition InnerNode_insert_split (nd : Node) (key : Z) (split_page : Z)
  : option Node :=
  _ ← cassert (Some (InnerNode_has_space nd));
  '(pos, found) ← InnerNode_lower_bound nd key;
  _ ← cassert (Some (negb found));
  '(ks, cs) ←
    (if pos + 1 <? count nd
     then ks ← Mem.memmove (keys nd) (pos + 1) pos (count nd - pos - 1);
          cs ← Mem.memmove (slots nd) (pos + 1) pos (count nd - pos);
          Some (ks, cs)
     else Some (keys nd, slots nd));
  ks ← Mem.store ks pos key;
  cs ← Mem.store cs (pos + 1) split_page;
  Some {| level := level nd; count := u16 (count nd + 1);
          keys := ks; slots := cs |}.

(** [split] returns this node, the node written into [buffer], and the
    separator key. *)
Definition InnerNode_split (nd : Node) (buffer : Node)
  : option (Node * Node * Z) :=
  let other_count := count nd / 2 in
  let newCount := count nd - other_count in
  '(oks, ocs) ← copy_upper (count nd - newCount) newCount newCount
                  (keys nd) (slots nd) (keys buffer) (slots buffer);
  if Nat.eqb newCount 0 then None
  else
    sep ← keys nd !! (newCount - 1);
    Some ({| level := level nd; count := newCount;
             keys := keys nd; slots := slots nd |},
          {| level := level nd; count := other_count;
             keys := oks; slots := ocs |},
          sep).

Definition InnerNode_get_key_vector (nd : Node) : list Z :=
  take (count nd - 1) (keys nd).

Definition InnerNode_get_children_vector (nd : Node) : list Z :=
  take (count nd) (slots nd).

(** *** LeafNode *)

Definition LeafNode_has_space (nd : Node) : bool :=
  count nd <? LeafNode_kCapacity.

Definition LeafNode_lower_bound (nd : Node) (key : Z) : option (nat * bool) :=
  if Nat.eqb (count nd) 0 then Some (0, false)
  else
    rng ← Mem.range (keys nd) (count nd);
    i ← lower_bound_branchless Z.ltb rng key;
    if i <? count nd
    then x ← keys nd !! i; Some (i, Z.eqb x key)
    else Some (i, false).

Definition LeafNode_insert (nd : Node) (key value : Z) : option Node :=
  _ ← cassert (Some (LeafNode_has_space nd));
  '(pos, found) ← LeafNode_lower_bound nd key;
  if found : bool then
    vs ← Mem.store (slots nd) pos value;
    Some {| level := level nd; count := count nd;
            keys := keys nd; slots := vs |}
  else
    ks ← Mem.memmove (keys nd) (pos + 1) pos (count nd - pos);
    vs ← Mem.memmove (slots nd) (pos + 1) pos (count nd - pos);
    ks ← Mem.store ks pos key;
    vs ← Mem.store vs pos value;
    Some {| level := level nd; count := u16 (count nd + 1);
            keys := ks; slots := vs |}.

Definition LeafNode_erase (nd : Node) (key : Z) : option (Node * bool) :=
  if Nat.eqb (count nd) 0 then Some (nd, false)
  else
    '(pos, found) ← LeafNode_lower_bound nd key;
    if negb found then Some (nd, false)
    else
      _ ← cassert (x ← keys nd !! pos; Some (negb (Z.ltb x key)));
      '(ks, vs) ←
        (if pos + 1 <? count nd
         then ks ← Mem.memmove (keys nd) pos (pos + 1) (count nd - (pos + 1));
              vs ← Mem.memmove (slots nd) pos (pos + 1) (count nd - (pos + 1));
              Some (ks, vs)
         else Some (keys nd, slots nd));
      Some ({| level := level nd; count := u16 (count nd + (2 ^ 16 - 1));
               keys := ks; slots := vs |}, true).

Definition LeafNode_split (nd : Node) (buffer : Node)
  : option (Node * Node * Z) :=
  let other_count := count nd / 2 in
  let newCount := count nd - other_count in
  '(oks, ovs) ← copy_upper (count nd - newCount) newCount newCount
                  (keys nd) (slots nd) (keys buffer) (slots buffer);
  if Nat.eqb newCount 0 then None
  else
    sep ← keys nd !! (newCount - 1);
    Some ({| level := level nd; count := newCount;
             keys := keys nd; slots := slots nd |},
          {| level := level nd; count := other_count;
             keys := oks; slots := ovs |},
          sep).

Definition LeafNode_get_key_vector (nd : Node) : list Z :=
  take (count nd) (keys nd).

Definition LeafNode_get_value_vector (nd : Node) : list Z :=
  take (count nd) (slots nd).
End nodes.

(** ** buffer_manager.h, buffer_manager.cc *)

Inductive PageState := IN_FIFO | IN_LRU | NOT_LOADED | LOADING.

#[export] Instance PageState_eq_dec : EqDecision PageState.
Proof. solve_decision. Defined.

(** The state of a [std::shared_mutex]: free, held shared by [n + 1]
    threads, or held exclusively.  A call runs to its end without
    interleaving; a latch that another thread holds is a latch that is not
    free when the call starts. *)
Inductive Latch := Unlocked | SharedBy (n : nat) | Exclusive.

#[export] Instance Latch_eq_dec : EqDecision Latch.
Proof. solve_decision. Defined.

(** [lock], [lock_shared]: [None] when the call would block.  [try_lock]
    succeeds exactly when [lock] would not block. *)
Definition latch_lock (l : Latch) : option Latch :=
  match l with Unlocked => Some Exclusive | _ => None end.

Definition latch_lock_shared (l : Latch) : option Latch :=
  match l with
  | Unlocked => Some (SharedBy 0)
  | SharedBy n => Some (SharedBy (S n))
  | Exclusive => None
  end.

Definition latch_try_lock (l : Latch) : option Latch := latch_lock l.

(** [unlock], which the code calls for holders of either mode: one hold is
    given up.  Unlocking a free latch has no defined result. *)
Definition latch_unlock (l : Latch) : option Latch :=
  match l with
  | Exclusive => Some Unlocked
  | SharedBy 0 => Some Unlocked
  | SharedBy (S n) => Some (SharedBy n)
  | Unlocked => None
  end.

(** [data] is the address of the page buffer, 0 for [nullptr]. *)
Record BufferFrame := mkFrame {
  pid : Z;
  pageState : PageState;
  pageLatch : Latch;
  loadingLatch : bool;
  isDirty : bool;
  data : Z
}.

Definition BufferFrame_new (pid : Z) : BufferFrame :=
  mkFrame pid NOT_LOADED Unlocked false false 0.

Inductive exn := buffer_full_error | runtime_error.

(** Frames are referred to by address; the page table keeps one frame per
    page id at a stable address, so a [BufferFrame*] is modelled by the page
    id.  [heap] holds the [malloc]ed page buffers by address, [segments]
    the bytes of each segment file. *)
Record BufferManager := mkBM {
  pageSize : nat;
  pageCount : nat;
  segments : gmap Z (list Z);
  pageTable : gmap Z BufferFrame;
  fifoList : list Z;
  lruList : list Z;
  heap : gmap Z (list Z)
}.

(** How a call ends: it returns, it throws, it would block on a latch held
    by another thread, or it has no defined behaviour (a failed [assert], a
    null dereference, an unlock of a free latch). *)
Inductive outcome (A : Type) :=
  | Ok (a : A) (bm : BufferManager)
  | Throw (e : exn) (bm : BufferManager)
  | Blocked
  | Undefined.
Arguments Ok {A} a bm.
Arguments Throw {A} e bm.
Arguments Blocked {A}.
Arguments Undefined {A}.

Definition BM (A : Type) : Type := BufferManager → outcome A.

#[export] Instance BM_ret : MRet BM := λ A a bm, Ok a bm.
#[export] Instance BM_bind : MBind BM := λ A B f m bm,
  match m bm with
  | Ok a bm' => f a bm'
  | Throw e bm' => Throw e bm'
  | Blocked => Blocked
  | Undefined => Undefined
  end.

Definition bm_get : BM BufferManager := λ bm, Ok bm bm.
Definition bm_put (bm : BufferManager) : BM unit := λ _, Ok () bm.
Definition bm_throw {A} (e : exn) : BM A := λ bm, Throw e bm.
Definition bm_undefined {A} : BM A := λ _, Undefined.
Definition bm_blocked {A} : BM A := λ _, Blocked.

(** A value that must be there: its absence is a null dereference. *)
Definition bm_some {A} (o : option A) : BM A :=
  match o with Some a => mret a | None => bm_undefined end.

(** A latch operation: its absence of result is blocking. *)
Definition bm_wait {A} (o : option A) : BM A :=
  match o with Some a => mret a | None => bm_blocked end.

Definition get_frame (p : Z) : BM BufferFrame :=
  bm ← bm_get; bm_some (pageTable bm !! p).

Definition set_frame (p : Z) (f : BufferFrame) : BM unit :=
  λ bm, Ok () (mkBM (pageSize bm) (pageCount bm) (segments bm)
                 (<[p:=f]> (pageTable bm)) (fifoList bm) (lruList bm) (heap bm)).

Definition set_fifoList (l : list Z) : BM unit :=
  λ bm, Ok () (mkBM (pageSize bm) (pageCount bm) (segments bm)
                 (pageTable bm) l (lruList bm) (heap bm)).

Definition set_lruList (l : list Z) : BM unit :=
  λ bm, Ok () (mkBM (pageSize bm) (pageCount bm) (segments bm)
                 (pageTable bm) (fifoList bm) l (heap bm)).

Definition set_heap (h : gmap Z (list Z)) : BM unit :=
  λ bm, Ok () (mkBM (pageSize bm) (pageCount bm) (segments bm)
                 (pageTable bm) (fifoList bm) (lruList bm) h).

Definition set_segments (sg : gmap Z (list Z)) : BM unit :=
  λ bm, Ok () (mkBM (pageSize bm) (pageCount bm) sg
                 (pageTable bm) (fifoList bm) (lruList bm) (heap bm)).

Definition set_pageState (p : Z) (st : PageState) : BM unit :=
  f ← get_frame p;
  set_frame p (mkFrame (pid f) st (pageLatch f) (loadingLatch f) (isDirty f) (data f)).

Definition set_pageLatch (p : Z) (l : Latch) : BM unit :=
  f ← get_frame p;
  set_frame p (mkFrame (pid f) (pageState f) l (loadingLatch f) (isDirty f) (data f)).

Definition set_loadingLatch (p : Z) (b : bool) : BM unit :=
  f ← get_frame p;
  set_frame p (mkFrame (pid f) (pageState f) (pageLatch f) b (isDirty f) (data f)).

Definition set_isDirty (p : Z) (b : bool) : BM unit :=
  f ← get_frame p;
  set_frame p (mkFrame (pid f) (pageState f) (pageLatch f) (loadingLatch f) b (data f)).

Definition set_data (p : Z) (d : Z) : BM unit :=
  f ← get_frame p;
  set_frame p (mkFrame (pid f) (pageState f) (pageLatch f) (loadingLatch f) (isDirty f) d).

(** [get_segment_id], [get_segment_page_id] on a 64-bit page id. *)
Definition get_segment_id (page_id : Z) : Z := Z.shiftr page_id 48.
Definition get_segment_page_id (page_id : Z) : Z := Z.land page_id (2 ^ 48 - 1).

(** Modelled from the spec: the segment file collaborator [File]
    (simpledb/file.h is not among the sources).  A file is its bytes;
    [resize] to a larger size pads with zero bytes, [read_block] and
    [write_block] transfer [len] bytes at [offset], a write past the end
    extending the file. *)
Definition File_resize (file : list Z) (new_size : nat) : list Z :=
  take new_size file ++ replicate (new_size - length file) 0%Z.

Definition File_read_block (file : list Z) (offset len : nat) : list Z :=
  take len (drop offset file).

Definition File_write_block (file : list Z) (block : list Z) (offset len : nat)
  : list Z :=
  let file' := File_resize file (Nat.max (length file) (offset + len)) in
  take offset file' ++ take len block ++ drop (offset + len) file'.

Section buffer_manager.
Variable NDEBUG : bool.
(** [malloc(pageSize)], as a function of the live buffers. *)
Variable malloc : gmap Z (list Z) → Z.

Definition bm_assert (c : bool) : BM unit :=
  if NDEBUG || c then mret () else bm_undefined.

(** [BufferManager::BufferManager] *)
Definition BufferManager_new (page_size page_count : nat) : BufferManager :=
  mkBM page_size page_count ∅ ∅ [] [] ∅.

(** [BufferFrame::get_data] *)
Definition get_data (p : Z) : BM Z :=
  f ← get_frame p;
  _ ← bm_assert (bool_decide (pageState f = IN_FIFO ∨ pageState f = IN_LRU));
  mret (data f).

(** [BufferManager::getBufferFrame] *)
Definition getBufferFrame (pageId : Z) : BM Z :=
  bm ← bm_get;
  match pageTable bm !! pageId with
  | Some _ => mret pageId
  | None => _ ← set_frame pageId (BufferFrame_new pageId); mret pageId
  end.

(** [BufferManager::getSegmentData] *)
Definition getSegmentData (pid : Z) : BM (list Z) :=
  bm ← bm_get;
  let segId := get_segment_id pid in
  let segPageId := Z.to_nat (get_segment_page_id pid) in
  let minSize := segPageId * pageSize bm + pageSize bm in
  let file := default [] (segments bm !! segId) in
  let file := if length file <? minSize then File_resize file minSize else file in
  _ ← set_segments (<[segId:=file]> (segments bm));
  mret (File_read_block file (segPageId * pageSize bm) (pageSize bm)).

(** [BufferManager::flushPage] *)
Definition flushPage (p : Z) : BM unit :=
  bm ← bm_get;
  f ← get_frame p;
  let segId := get_segment_id (pid f) in
  let segPageId := Z.to_nat (get_segment_page_id (pid f)) in
  file ← bm_some (segments bm !! segId);
  d ← get_data p;
  bytes ← bm_some (heap bm !! d);
  _ ← set_segments (<[segId:=File_write_block file bytes (segPageId * pageSize bm)
                              (pageSize bm)]> (segments bm));
  set_isDirty p false.

(** [BufferManager::lockEvictableFrame]: the index of the first frame of
    the list whose page latch [try_lock] acquires; that latch is then held.
    [i] counts the positions already passed. *)
Fixpoint lockEvictableFrame (frameList : list Z) (i : nat) : BM (option nat) :=
  match frameList with
  | [] => mret None
  | p :: rest =>
      f ← get_frame p;
      match latch_try_lock (pageLatch f) with
      | Some l => _ ← set_pageLatch p l; mret (Some i)
      | None => lockEvictableFrame rest (S i)
      end
  end.

(** [free(bf->data)]: the buffer is released, the pointer is left as it
    is. *)
Definition free_data (p : Z) : BM unit :=
  bm ← bm_get;
  f ← get_frame p;
  set_heap (delete (data f) (heap bm)).

(** The eviction of the frame at position [i] of a list, after it has been
    taken out of the list: flush if dirty, mark unloaded, free, unlock. *)
Definition evict (bf : Z) (st : PageState) : BM unit :=
  f ← get_frame bf;
  _ ← (if isDirty f then flushPage bf else mret ());
  f ← get_frame bf;
  _ ← bm_assert (bool_decide (pageState f = st));
  _ ← set_pageState bf NOT_LOADED;
  f ← get_frame bf;
  _ ← bm_assert (negb (Z.eqb (data f) 0));
  _ ← free_data bf;
  f ← get_frame bf;
  l ← bm_some (latch_unlock (pageLatch f));
  set_pageLatch bf l.

(** [BufferManager::insertBufferFrame] *)
Definition insertBufferFrame (frame : Z) : BM bool :=
  bm ← bm_get;
  if length (fifoList bm) + length (lruList bm) <? pageCount bm then
    _ ← set_fifoList (fifoList bm ++ [frame]);
    mret true
  else
    i ← lockEvictableFrame (fifoList bm) 0;
    match i with
    | Some i =>
        bf ← bm_some (fifoList bm !! i);
        f ← get_frame bf;
        _ ← bm_assert (bool_decide (pageState f = IN_FIFO));
        _ ← set_fifoList (delete i (fifoList bm) ++ [frame]);
        _ ← evict bf IN_FIFO;
        mret true
    | None =>
        i ← lockEvictableFrame (lruList bm) 0;
        match i with
        | Some i =>
            bf ← bm_some (lruList bm !! i);
            f ← get_frame bf;
            _ ← bm_assert (bool_decide (pageState f = IN_LRU));
            _ ← set_lruList (delete i (lruList bm));
            _ ← set_fifoList (fifoList bm ++ [frame]);
            _ ← evict bf IN_LRU;
            mret true
        | None => mret false
        end
    end.

(** [BufferManager::loadPage] *)
Definition loadPage (frame : Z) : BM bool :=
  f ← get_frame frame;
  _ ← (if loadingLatch f then bm_blocked else set_loadingLatch frame true);
  if decide (pageState f = LOADING) then bm_throw runtime_error
  else if decide (pageState f = IN_FIFO ∨ pageState f = IN_LRU) then
    _ ← set_loadingLatch frame false; mret true
  else
    _ ← set_pageState frame LOADING;
    ok ← insertBufferFrame frame;
    if negb ok then
      _ ← set_pageState frame NOT_LOADED;
      _ ← set_loadingLatch frame false;
      mret false
    else
      bytes ← getSegmentData (pid f);
      bm ← bm_get;
      let d := malloc (heap bm) in
      _ ← set_data frame d;
      _ ← bm_assert (negb (Z.eqb d 0));
      _ ← set_heap (<[d:=take (pageSize bm) bytes]> (heap bm));
      _ ← set_pageState frame IN_FIFO;
      _ ← set_loadingLatch frame false;
      mret true.

(** The loop that finds [frame] in a list and erases it there; whether it
    was found, and the list after. *)
Fixpoint find_erase (frame : Z) (l : list Z) : bool * list Z :=
  match l with
  | [] => (false, [])
  | p :: rest =>
      if Z.eqb p frame then (true, rest)
      else let '(erased, rest') := find_erase frame rest in (erased, p :: rest')
  end.

(** [BufferManager::updateLru] *)
Definition updateLru (frame : Z) : BM unit :=
  bm ← bm_get;
  let '(erased, l) := find_erase frame (lruList bm) in
  _ ← bm_assert erased;
  set_lruList (l ++ [frame]).

(** [BufferManager::fix_page] *)
Definition fix_page (page_id : Z) (exclusive : bool) : BM Z :=
  frame ← getBufferFrame page_id;
  f ← get_frame frame;
  l ← bm_wait (if exclusive then latch_lock (pageLatch f)
               else latch_lock_shared (pageLatch f));
  _ ← set_pageLatch frame l;
  f ← get_frame frame;
  _ ← match pageState f with
      | IN_FIFO =>
          f ← get_frame frame;
          if decide (pageState f = IN_LRU) then updateLru frame
          else
            _ ← bm_assert (bool_decide (pageState f = IN_FIFO));
            bm ← bm_get;
            let '(erased, l) := find_erase frame (fifoList bm) in
            _ ← bm_assert erased;
            _ ← set_fifoList l;
            _ ← set_lruList (lruList bm ++ [frame]);
            set_pageState frame IN_LRU
      | IN_LRU => updateLru frame
      | NOT_LOADED =>
          ok ← loadPage frame;
          if negb ok then
            f ← get_frame frame;
            l ← bm_some (latch_unlock (pageLatch f));
            _ ← set_pageLatch frame l;
            bm_throw buffer_full_error
          else mret ()
      | LOADING =>
          (if loadingLatch f then bm_blocked else mret ());;
          f ← get_frame frame;
          if decide (pageState f ≠ IN_FIFO ∧ pageState f ≠ IN_LRU) then
            l ← bm_some (latch_unlock (pageLatch f));
            _ ← set_pageLatch frame l;
            bm_throw buffer_full_error
          else mret ()
      end;
  mret frame.

(** [BufferManager::unfix_page] *)
Definition unfix_page (page : Z) (is_dirty : bool) : BM unit :=
  f ← get_frame page;
  _ ← set_isDirty page (isDirty f || is_dirty);
  f ← get_frame page;
  l ← bm_some (latch_unlock (pageLatch f));
  set_pageLatch page l.

(** [BufferManager::get_fifo_list], [BufferManager::get_lru_list] *)
Definition get_fifo_list (bm : BufferManager) : list Z :=
  omap (λ p, pid <$> pageTable bm !! p) (fifoList bm).

Definition get_lru_list (bm : BufferManager) : list Z :=
  omap (λ p, pid <$> pageTable bm !! p) (lruList bm).
End buffer_manager.

(** ** btree.h: the tree *)

(** The tree reaches its pages through [buffer_manager.fix_page] and
    [unfix_page].  Here the buffer manager is seen from the tree: a store
    that gives for a page id the node last written into that page, the
    pages this thread has fixed and not yet unfixed, and the calls made so
    far, in order.  A page that was never written reads as zeros, as a new
    segment file does.  [fix_page] is taken to return: the tree holds at
    most three pages fixed at a time (a node, its parent or the new root,
    and the new sibling), and a buffer manager with three frames or more
    then has a frame it can evict.  [std::shared_mutex] gives no defined
    result when a thread locks a latch it holds, or unlocks one it does
    not hold: [None]. *)
Inductive Event :=
  | Fix (page_id : Z) (exclusive : bool)
  | Unfix (page_id : Z) (is_dirty : bool).

#[export] Instance Event_eq_dec : EqDecision Event.
Proof. solve_decision. Defined.

Record BTree := mkBTree {
  segment_id : Z;      (* uint16_t, of Segment *)
  root : Z;            (* uint64_t *)
  nodeCount : Z;       (* std::atomic<uint64_t> *)
  treeHeight : nat;    (* std::atomic<uint16_t> *)
  pages : gmap Z Node;
  fixed : list Z;
  trace : list Event
}.

(** [uint64_t] arithmetic wraps modulo 2^64. *)
Definition u64 (z : Z) : Z := (z mod 2 ^ 64)%Z.

(** How one pass over the body of an operation ends: at [goto restart] or
    at its end. *)
Inductive Pass (A : Type) :=
  | Restart (exclusive : bool)
  | Done (a : A).
Arguments Restart {A} exclusive.
Arguments Done {A} a.

(** How the [while] loop of [insert] ends: at a [goto restart] or at a
    leaf. *)
Inductive LoopExit :=
  | Goto (exclusive : bool)
  | AtLeaf (parentFrame : option Z) (currentPid : Z).

Fixpoint release (page_id : Z) (l : list Z) : list Z :=
  match l with
  | [] => []
  | q :: l' => if decide (q = page_id) then l' else q :: release page_id l'
  end.

(** The label [restart:] and the [goto]s to it: [pass] is the body from the
    label on, [n] bounds the number of passes. *)
Fixpoint restart_loop {A} (pass : bool → BTree → option (Pass A * BTree))
    (n : nat) (exclusive : bool) (t : BTree) : option (A * BTree) :=
  match n with
  | O => None
  | S n' =>
      '(r, t) ← pass exclusive t;
      match r with
      | Restart e => restart_loop pass n' e t
      | Done a => Some (a, t)
      end
  end.

Section btree.
Variable PageSize : nat.
Variable NDEBUG : bool.

Definition blank_page : Node :=
  mkNode 0 0 (replicate (InnerNode_kCapacity PageSize) 0%Z)
             (replicate (InnerNode_kCapacity PageSize) 0%Z).

(** [reinterpret_cast<Node*>(frame->get_data())] *)
Definition page (t : BTree) (page_id : Z) : Node :=
  default blank_page (pages t !! page_id).

(** A write through such a pointer. *)
Definition set_page (page_id : Z) (nd : Node) (t : BTree) : BTree :=
  mkBTree (segment_id t) (root t) (nodeCount t) (treeHeight t)
    (<[page_id:=nd]> (pages t)) (fixed t) (trace t).

Definition tree_fix_page (page_id : Z) (exclusive : bool) (t : BTree)
  : option BTree :=
  if decide (page_id ∈ fixed t) then None
  else Some (mkBTree (segment_id t) (root t) (nodeCount t) (treeHeight t)
               (pages t) (page_id :: fixed t)
               (trace t ++ [Fix page_id exclusive])).

Definition tree_unfix_page (page_id : Z) (is_dirty : bool) (t : BTree)
  : option BTree :=
  if decide (page_id ∈ fixed t)
  then Some (mkBTree (segment_id t) (root t) (nodeCount t) (treeHeight t)
               (pages t) (release page_id (fixed t))
               (trace t ++ [Unfix page_id is_dirty]))
  else None.

(** [unfix_page] of the parent frame [if (parentFrame)]. *)
Definition unfix_if (parentFrame : option Z) (is_dirty : bool) (t : BTree)
  : option BTree :=
  match parentFrame with
  | Some pf => tree_unfix_page pf is_dirty t
  | None => Some t
  end.

(** [BTree::create_new_node].  [segment_id] is a [uint16_t], so the shift
    stays within 64 bits. *)
Definition BTree_create_new_node (t : BTree) : Z * BTree :=
  (Z.lxor (Z.shiftl (segment_id t) 48) (nodeCount t),
   mkBTree (segment_id t) (root t) (u64 (nodeCount t + 1)) (treeHeight t)
     (pages t) (fixed t) (trace t)).

(** [BTree::grow_root]; the new root stays fixed. *)
Definition BTree_grow_root (level : nat) (sep_key left_child right_child : Z)
    (t : BTree) : option (Z * BTree) :=
  let '(pid, t) := BTree_create_new_node t in
  t ← tree_fix_page pid true t;
  let newRoot := page t pid in
  ks ← Mem.store (keys newRoot) 0 sep_key;
  cs ← Mem.store (slots newRoot) 0 left_child;
  cs ← Mem.store cs 1 right_child;
  let t := set_page pid (mkNode level 2 ks cs) t in
  Some (pid, mkBTree (segment_id t) pid (nodeCount t) (u16 (treeHeight t + 1))
               (pages t) (fixed t) (trace t)).

(** The constructor, on a buffer manager whose segment file is new.
    [LeafNode()] sets the header and leaves the arrays as they are. *)
Definition BTree_new (segment_id : Z) : option BTree :=
  let t := mkBTree segment_id 0 0 0 ∅ [] [] in
  let '(pid, t) := BTree_create_new_node t in
  t ← tree_fix_page pid true t;
  let t := set_page pid (mkNode 0 0 (keys (page t pid)) (slots (page t pid))) t in
  let t := mkBTree segment_id pid (nodeCount t) 1 (pages t) (fixed t) (trace t) in
  tree_unfix_page pid true t.

(** The [while (!is_leaf())] loop of [lookup] and of [erase], which differ
    in the mode in which the child is fixed: [mode innerNode].  [fuel]
    bounds the number of iterations. *)
Fixpoint descend (mode : Node → bool) (fuel : nat) (key : Z)
    (parentFrame : option Z) (currentFrame : Z) (t : BTree)
  : option (option Z * Z * BTree) :=
  match fuel with
  | O => None
  | S fuel' =>
      let innerNode := page t currentFrame in
      if is_leaf innerNode then Some (parentFrame, currentFrame, t)
      else
        '(pos, _) ← InnerNode_lower_bound innerNode key;
        _ ← cassert NDEBUG (Some (pos <=? count innerNode));
        t ← unfix_if parentFrame false t;
        child ← slots innerNode !! pos;
        t ← tree_fix_page child (mode innerNode) t;
        descend mode fuel' key (Some currentFrame) child t
  end.

(** [BTree::lookup], one pass. *)
Definition BTree_lookup_pass (fuel : nat) (key : Z) (t : BTree)
  : option (Pass (option Z) * BTree) :=
  let rootPid := root t in
  t ← tree_fix_page rootPid false t;
  if decide (root t ≠ rootPid) then
    t ← tree_unfix_page rootPid false t;
    Some (Restart false, t)
  else
    '(parentFrame, currentFrame, t) ← descend (λ _, false) fuel key None rootPid t;
    let leafNode := page t currentFrame in
    _ ← cassert NDEBUG (Some (is_leaf leafNode));
    '(pos, found) ← LeafNode_lower_bound leafNode key;
    _ ← cassert NDEBUG (Some (pos <=? count leafNode));
    val ← (if found : bool
           then v ← slots leafNode !! pos; Some (Some v)
           else Some None);
    t ← unfix_if parentFrame false t;
    t ← tree_unfix_page currentFrame false t;
    Some (Done val, t).

Definition BTree_lookup (fuel : nat) (key : Z) (t : BTree)
  : option (option Z * BTree) :=
  restart_loop (λ _, BTree_lookup_pass fuel key) fuel false t.

(** [BTree::erase], one pass. *)
Definition BTree_erase_pass (fuel : nat) (key : Z) (t : BTree)
  : option (Pass unit * BTree) :=
  let rootPid := root t in
  t ← tree_fix_page rootPid (treeHeight t =? 1) t;
  if decide (root t ≠ rootPid) then
    t ← tree_unfix_page rootPid false t;
    Some (Restart false, t)
  else
    '(parentFrame, currentFrame, t) ←
      descend (λ innerNode, level innerNode =? 1) fuel key None rootPid t;
    let leafNode := page t currentFrame in
    _ ← cassert NDEBUG (Some (is_leaf leafNode));
    '(leafNode, erased) ← LeafNode_erase NDEBUG leafNode key;
    let t := set_page currentFrame leafNode t in
    t ← unfix_if parentFrame false t;
    t ← tree_unfix_page currentFrame erased t;
    Some (Done (), t).

Definition BTree_erase (fuel : nat) (key : Z) (t : BTree) : option BTree :=
  snd <$> restart_loop (λ _, BTree_erase_pass fuel key) fuel false t.

(** The two "we have to split" blocks of [insert] after their test of
    [exclusive]; they differ in the [split] they call. *)
Definition split_node (split : Node → Node → option (Node * Node * Z))
    (parentFrame : option Z) (currentPid : Z) (t : BTree) : option BTree :=
  let '(rightPid, t) := BTree_create_new_node t in
  t ← tree_fix_page rightPid true t;
  '(nd, other, splitKey) ← split (page t currentPid) (page t rightPid);
  let t := set_page currentPid nd (set_page rightPid other t) in
  '(parentFrame, t) ←
    match parentFrame with
    | Some pf =>
        innerParent ←
          InnerNode_insert_split PageSize NDEBUG (page t pf) splitKey rightPid;
        Some (pf, set_page pf innerParent t)
    | None =>
        BTree_grow_root (u16 (level (page t currentPid) + 1)) splitKey
          currentPid rightPid t
    end;
  t ← tree_unfix_page rightPid true t;
  t ← tree_unfix_page currentPid true t;
  tree_unfix_page parentFrame true t.

(** The [while (!is_leaf())] loop of [insert]. *)
Fixpoint BTree_insert_loop (fuel : nat) (key : Z) (exclusive : bool)
    (parentFrame : option Z) (currentPid : Z) (t : BTree)
  : option (LoopExit * BTree) :=
  match fuel with
  | O => None
  | S fuel' =>
      let innerNode := page t currentPid in
      if is_leaf innerNode then Some (AtLeaf parentFrame currentPid, t)
      else if negb (InnerNode_has_space PageSize innerNode) then
        if negb exclusive then
          t ← tree_unfix_page currentPid false t;
          t ← unfix_if parentFrame false t;
          Some (Goto true, t)
        else
          t ← split_node InnerNode_split parentFrame currentPid t;
          Some (Goto false, t)
      else
        '(pos, _) ← InnerNode_lower_bound innerNode key;
        _ ← cassert NDEBUG (Some (pos <=? count innerNode));
        t ← unfix_if parentFrame false t;
        child ← slots innerNode !! pos;
        t ← tree_fix_page child (exclusive || (level innerNode =? 1)) t;
        BTree_insert_loop fuel' key exclusive (Some currentPid) child t
  end.

(** [BTree::insert], one pass from [restart:]. *)
Definition BTree_insert_pass (fuel : nat) (key value : Z) (exclusive : bool)
    (t : BTree) : option (Pass unit * BTree) :=
  let currentPid := root t in
  t ← tree_fix_page currentPid (exclusive || (treeHeight t =? 1)) t;
  if decide (root t ≠ currentPid) then
    t ← tree_unfix_page currentPid false t;
    Some (Restart exclusive, t)
  else
    '(exit, t) ← BTree_insert_loop fuel key exclusive None currentPid t;
    match exit with
    | Goto e => Some (Restart e, t)
    | AtLeaf parentFrame currentPid =>
        let leafNode := page t currentPid in
        _ ← cassert NDEBUG (Some (is_leaf leafNode));
        if negb (LeafNode_has_space PageSize leafNode) then
          if negb exclusive then
            t ← tree_unfix_page currentPid false t;
            t ← unfix_if parentFrame false t;
            Some (Restart true, t)
          else
            t ← split_node LeafNode_split parentFrame currentPid t;
            Some (Restart false, t)
        else
          leafNode ← LeafNode_insert PageSize NDEBUG leafNode key value;
          let t := set_page currentPid leafNode t in
          t ← tree_unfix_page currentPid true t;
          t ← unfix_if parentFrame false t;
          Some (Done (), t)
    end.

Definition BTree_insert (fuel : nat) (key value : Z) (t : BTree)
  : option BTree :=
  snd <$> restart_loop (BTree_insert_pass fuel key value) fuel false t.
End btree.

(** * Specification vocabulary *)

Abbreviation ref_lb := (reference_lower_bound Z.ltb).
Abbreviation lkeys := LeafNode_get_key_vector.
Abbreviation lvals := LeafNode_get_value_vector.
Abbreviation ikeys := InnerNode_get_key_vector.
Abbreviation ichildren := InnerNode_get_children_vector.

(** Keys strictly increasing under [<]. *)
Definition strictly_increasing (l : list Z) : Prop :=
  ∀ i j x y, i < j → l !! i = Some x → l !! j = Some y → (x < y)%Z.

(** The same, decided. *)
Fixpoint increasingb (l : list Z) : bool :=
  match l with
  | x :: (y :: _) as t => Z.ltb x y && increasingb t
  | _ => true
  end.

(** The arrays of a page have [kCapacity] cells each. *)
Definition node_sized (cap : nat) (nd : Node) : Prop :=
  length (keys nd) = cap ∧ length (slots nd) = cap.

(** [x] put in front of position [pos] of a list. *)
Definition list_ins {A} (pos : nat) (x : A) (l : list A) : list A :=
  take pos l ++ x :: drop pos l.

(** A leaf: [count] entries with strictly increasing keys. *)
Definition leaf_wf (cap : nat) (nd : Node) : Prop :=
  node_sized cap nd ∧ count nd ≤ cap ∧
  strictly_increasing (LeafNode_get_key_vector nd).

(** An inner node: [count] children and [count - 1] strictly increasing
    separator keys. *)
Definition inner_wf (cap : nat) (nd : Node) : Prop :=
  node_sized cap nd ∧ count nd ≤ cap ∧
  strictly_increasing (InnerNode_get_key_vector nd).

(** Every node operation that changes keys keeps them strictly increasing:
    [LeafNode::insert] with space or on a key the leaf holds,
    [LeafNode::erase], [InnerNode::insert_split] with space and a new
    separator, and the two [split]s. *)
Definition key_order_kept (PageSize : nat) (NDEBUG : bool) : Prop :=
  (∀ nd key value,
     leaf_wf (LeafNode_kCapacity PageSize) nd →
     LeafNode_has_space PageSize nd = true ∨ key ∈ LeafNode_get_key_vector nd →
     (∀ nd', LeafNode_insert PageSize NDEBUG nd key value = Some nd' →
             leaf_wf (LeafNode_kCapacity PageSize) nd') ∧
     (LeafNode_has_space PageSize nd = true ∨ NDEBUG = true →
      is_Some (LeafNode_insert PageSize NDEBUG nd key value))) ∧
  (∀ nd key,
     leaf_wf (LeafNode_kCapacity PageSize) nd →
     ∃ nd' erased, LeafNode_erase NDEBUG nd key = Some (nd', erased) ∧
       leaf_wf (LeafNode_kCapacity PageSize) nd') ∧
  (∀ nd key split_page,
     inner_wf (InnerNode_kCapacity PageSize) nd →
     InnerNode_has_space PageSize nd = true →
     key ∉ InnerNode_get_key_vector nd →
     (∀ nd', InnerNode_insert_split PageSize NDEBUG nd key split_page = Some nd' →
             strictly_increasing (InnerNode_get_key_vector nd')) ∧
     (1 ≤ count nd →
      ∃ nd', InnerNode_insert_split PageSize NDEBUG nd key split_page = Some nd' ∧
             inner_wf (InnerNode_kCapacity PageSize) nd')) ∧
  (∀ nd buffer l r sep,
     leaf_wf (LeafNode_kCapacity PageSize) nd →
     node_sized (LeafNode_kCapacity PageSize) buffer →
     LeafNode_split nd buffer = Some (l, r, sep) →
     leaf_wf (LeafNode_kCapacity PageSize) l ∧
     leaf_wf (LeafNode_kCapacity PageSize) r) ∧
  (∀ nd buffer l r sep,
     inner_wf (InnerNode_kCapacity PageSize) nd →
     node_sized (InnerNode_kCapacity PageSize) buffer →
     InnerNode_split nd buffer = Some (l, r, sep) →
     inner_wf (InnerNode_kCapacity PageSize) l ∧
     inner_wf (InnerNode_kCapacity PageSize) r).

(** ** Buffer manager *)

(** An allocator for examples: the address after the highest live one. *)
Definition bump_malloc (h : gmap Z (list Z)) : Z :=
  (1 + map_fold (λ a _ m, Z.max a m) 0 h)%Z.

Definition resident (f : BufferFrame) : Prop :=
  pageState f = IN_FIFO ∨ pageState f = IN_LRU.

(** The frame of [p] replaced. *)
Definition with_frame (p : Z) (f : BufferFrame) (bm : BufferManager) : BufferManager :=
  mkBM (pageSize bm) (pageCount bm) (segments bm) (<[p:=f]> (pageTable bm))
       (fifoList bm) (lruList bm) (heap bm).

Definition with_latch (l : Latch) (f : BufferFrame) : BufferFrame :=
  mkFrame (pid f) (pageState f) l (loadingLatch f) (isDirty f) (data f).

(** Whether [try_lock] on the page latch of [p] succeeds. *)
Definition evictable (bm : BufferManager) (p : Z) : bool :=
  match pageTable bm !! p with
  | Some f => bool_decide (pageLatch f = Unlocked)
  | None => false
  end.

(** The position of the first evictable frame of a list. *)
Fixpoint first_evictable (bm : BufferManager) (l : list Z) : option nat :=
  match l with
  | [] => None
  | p :: rest => if evictable bm p then Some 0 else S <$> first_evictable bm rest
  end.

(** The weakest precondition of a call for a postcondition [Q] on return
    and [R] on a throw. *)
Definition wp {A} (m : BM A) (Q : A → BufferManager → Prop)
    (R : exn → BufferManager → Prop) (bm : BufferManager) : Prop :=
  match m bm with
  | Ok a bm' => Q a bm'
  | Throw e bm' => R e bm'
  | Blocked | Undefined => True
  end.

(** Every resident frame has a buffer. *)
Definition resident_has_data (bm : BufferManager) : Prop :=
  ∀ p f, pageTable bm !! p = Some f → resident f → data f ≠ 0%Z.

(** The states a buffer manager goes through: from construction, by
    [fix_page] (returning or throwing) and [unfix_page]. *)
Inductive bm_reachable (NDEBUG : bool) (malloc : gmap Z (list Z) → Z)
  : BufferManager → Prop :=
  | reach_new page_size page_count :
      bm_reachable NDEBUG malloc (BufferManager_new page_size page_count)
  | reach_fix bm page_id exclusive frame bm' :
      bm_reachable NDEBUG malloc bm →
      fix_page NDEBUG malloc page_id exclusive bm = Ok frame bm' →
      bm_reachable NDEBUG malloc bm'
  | reach_fix_throw bm page_id exclusive e bm' :
      bm_reachable NDEBUG malloc bm →
      fix_page NDEBUG malloc page_id exclusive bm = Throw e bm' →
      bm_reachable NDEBUG malloc bm'
  | reach_unfix bm page is_dirty bm' :
      bm_reachable NDEBUG malloc bm →
      unfix_page page is_dirty bm = Ok () bm' →
      bm_reachable NDEBUG malloc bm'.

(** The same for a call that must end: it neither blocks nor leaves the
    defined behaviour. *)
Definition twp {A} (m : BM A) (Q : A → BufferManager → Prop)
    (R : exn → BufferManager → Prop) (bm : BufferManager) : Prop :=
  match m bm with
  | Ok a bm' => Q a bm'
  | Throw e bm' => R e bm'
  | Blocked | Undefined => False
  end.

(** The state after the eviction of the frame [fq] of page [q]: flushed if
    dirty, unloaded, its buffer freed, its latch free. *)
Definition evicted (q : Z) (fq : BufferFrame) (bm : BufferManager) : BufferManager :=
  let segId := get_segment_id (pid fq) in
  let off := Z.to_nat (get_segment_page_id (pid fq)) * pageSize bm in
  mkBM (pageSize bm) (pageCount bm)
    (if isDirty fq
     then <[segId := File_write_block (default [] (segments bm !! segId))
                       (default [] (heap bm !! data fq)) off (pageSize bm)]>
            (segments bm)
     else segments bm)
    (<[q := mkFrame (pid fq) NOT_LOADED Unlocked (loadingLatch fq) false (data fq)]>
       (pageTable bm))
    (fifoList bm) (lruList bm) (delete (data fq) (heap bm)).

(** What [insertBufferFrame] relies on: every frame in a queue exists, is
    in the state of its queue, and has a buffer and a segment file. *)
Definition queued_ok (bm : BufferManager) (st : PageState) (q : Z) : Prop :=
  ∃ f, pageTable bm !! q = Some f ∧ pageState f = st ∧ data f ≠ 0%Z ∧
       is_Some (heap bm !! data f) ∧
       is_Some (segments bm !! get_segment_id (pid f)).

Definition queues_ok (bm : BufferManager) : Prop :=
  (∀ q, q ∈ fifoList bm → queued_ok bm IN_FIFO q) ∧
  (∀ q, q ∈ lruList bm → queued_ok bm IN_LRU q).

(** The frame of page [p] is not loaded and nobody is loading it. *)
Definition not_loaded (bm : BufferManager) (p : Z) : Prop :=
  match pageTable bm !! p with
  | Some f => pageState f = NOT_LOADED ∧ loadingLatch f = false
  | None => True
  end.

(** The frame of page [p] as [getBufferFrame] gives it. *)
Definition frame_of (bm : BufferManager) (p : Z) : BufferFrame :=
  default (BufferFrame_new p) (pageTable bm !! p).

(** The page latch after it has been acquired in the given mode. *)
Definition acquire (exclusive : bool) (l : Latch) : option Latch :=
  if exclusive then latch_lock l else latch_lock_shared l.

(** The frame [f] while it is being loaded. *)
Definition loading (f : BufferFrame) : BufferFrame :=
  mkFrame (pid f) LOADING (pageLatch f) true (isDirty f) (data f).

(** The state after the page of frame [f] has been read into a new buffer:
    the second half of [loadPage]. *)
Definition loaded (malloc : gmap Z (list Z) → Z) (p : Z) (f : BufferFrame)
    (bm : BufferManager) : BufferManager :=
  let segId := get_segment_id (pid f) in
  let segPageId := Z.to_nat (get_segment_page_id (pid f)) in
  let minSize := segPageId * pageSize bm + pageSize bm in
  let file := default [] (segments bm !! segId) in
  let file := if length file <? minSize then File_resize file minSize else file in
  let d := malloc (heap bm) in
  mkBM (pageSize bm) (pageCount bm) (<[segId:=file]> (segments bm))
    (<[p:=mkFrame (pid f) IN_FIFO (pageLatch f) false (isDirty f) d]> (pageTable bm))
    (fifoList bm) (lruList bm)
    (<[d:=take (pageSize bm)
            (File_read_block file (segPageId * pageSize bm) (pageSize bm))]>
       (heap bm)).

(** What [fix_page] does for a page that is not loaded, once its latch [l]
    is acquired.  With room left the page is appended to the FIFO queue and
    loaded.  Without, the FIFO queue and then the LRU queue are scanned from
    the front for the first frame whose latch is free; that frame is taken
    out of its queue and evicted, and the page is appended to the FIFO queue
    and loaded.  With no such frame, [buffer_full_error] is thrown from the
    state before the call, in which the frame of the page exists. *)
Definition fix_page_not_loaded (malloc : gmap Z (list Z) → Z)
    (bm : BufferManager) (p : Z) (l : Latch) : outcome Z :=
  let fl := with_latch l (frame_of bm p) in
  let tbl := <[p:=loading fl]> (pageTable bm) in
  let victim (q : Z) (fifo lru : list Z) : outcome Z :=
    match pageTable bm !! q with
    | Some fq =>
        Ok p (loaded malloc p (loading fl)
                (evicted q (with_latch Exclusive fq)
                   (mkBM (pageSize bm) (pageCount bm) (segments bm)
                      (<[q:=with_latch Exclusive fq]> tbl) fifo lru (heap bm))))
    | None => Undefined
    end in
  if length (fifoList bm) + length (lruList bm) <? pageCount bm then
    Ok p (loaded malloc p (loading fl)
            (mkBM (pageSize bm) (pageCount bm) (segments bm) tbl
               (fifoList bm ++ [p]) (lruList bm) (heap bm)))
  else
    match first_evictable bm (fifoList bm) with
    | Some j =>
        match fifoList bm !! j with
        | Some q => victim q (delete j (fifoList bm) ++ [p]) (lruList bm)
        | None => Undefined
        end
    | None =>
        match first_evictable bm (lruList bm) with
        | Some j =>
            match lruList bm !! j with
            | Some q => victim q (fifoList bm ++ [p]) (delete j (lruList bm))
            | None => Undefined
            end
        | None => Throw buffer_full_error (with_frame p (frame_of bm p) bm)
        end
    end.

(** During a call that started in [bm0]: no frame has been dropped from
    the table, every data pointer is as it was in [bm0] (null for a frame
    made since), and only the frame [x] may be in [LOADING]. *)
Definition data_kept (bm0 : BufferManager) (x : option Z) (bm : BufferManager) : Prop :=
  ∀ p, match pageTable bm !! p with
       | Some f => (pageState f = LOADING → x = Some p) ∧
                   data f = data (frame_of bm0 p)
       | None => pageTable bm0 !! p = None
       end.

(** After a call that started in [bm0]: no frame has been dropped, none
    is in [LOADING], and a data pointer is as it was in [bm0] unless the
    frame is resident with a buffer. *)
Definition data_step (bm0 bm : BufferManager) : Prop :=
  ∀ p, match pageTable bm !! p with
       | Some f => pageState f ≠ LOADING ∧
                   (data f = data (frame_of bm0 p) ∨ resident f ∧ data f ≠ 0%Z)
       | None => pageTable bm0 !! p = None
       end.

Definition no_loading (bm : BufferManager) : Prop :=
  ∀ p f, pageTable bm !! p = Some f → pageState f ≠ LOADING.

(** A run of the buffer manager: the states after each call, the last one
    first. *)
Inductive bm_run (NDEBUG : bool) (malloc : gmap Z (list Z) → Z)
  : list BufferManager → Prop :=
  | run_new page_size page_count :
      bm_run NDEBUG malloc [BufferManager_new page_size page_count]
  | run_fix bm hist page_id exclusive frame bm' :
      bm_run NDEBUG malloc (bm :: hist) →
      fix_page NDEBUG malloc page_id exclusive bm = Ok frame bm' →
      bm_run NDEBUG malloc (bm' :: bm :: hist)
  | run_fix_throw bm hist page_id exclusive e bm' :
      bm_run NDEBUG malloc (bm :: hist) →
      fix_page NDEBUG malloc page_id exclusive bm = Throw e bm' →
      bm_run NDEBUG malloc (bm' :: bm :: hist)
  | run_unfix bm hist page is_dirty bm' :
      bm_run NDEBUG malloc (bm :: hist) →
      unfix_page page is_dirty bm = Ok () bm' →
      bm_run NDEBUG malloc (bm' :: bm :: hist).

(** The page [p] has been loaded: it was resident after some call of the
    run.  A page loaded during a call is resident when the call returns. *)
Definition was_loaded (hist : list BufferManager) (p : Z) : Prop :=
  ∃ bm f, bm ∈ hist ∧ pageTable bm !! p = Some f ∧ resident f.

(** What a run keeps: no frame is being loaded, and the frames with a
    non-null data pointer are those of the pages that have been loaded. *)
Definition run_inv (bm : BufferManager) (hist : list BufferManager) : Prop :=
  no_loading bm ∧
  (∀ p f, pageTable bm !! p = Some f → data f ≠ 0%Z → was_loaded hist p) ∧
  (∀ p, was_loaded hist p → ∃ f, pageTable bm !! p = Some f ∧ data f ≠ 0%Z).

(** The queues [F] and [L] of a manager for [N] pages hold at most [N]
    pages, and every frame in [IN_FIFO] or [IN_LRU], but for those of
    [ex], is in the queue of its state. *)
Definition queues_hold (F L : list Z) (N : nat) (ex : list Z) (bm : BufferManager)
  : Prop :=
  fifoList bm = F ∧ lruList bm = L ∧ pageCount bm = N ∧
  length F + length L ≤ N ∧
  ∀ p f, pageTable bm !! p = Some f → p ∉ ex →
    (pageState f = IN_FIFO → p ∈ F) ∧ (pageState f = IN_LRU → p ∈ L).

Definition queues_within (bm : BufferManager) : Prop :=
  queues_hold (fifoList bm) (lruList bm) (pageCount bm) [] bm.

(** ** The tree behind a page *)

(** Key bounds of a subtree: keys lie in [(lo, hi]], [None] is no bound. *)
Definition above (lo : option Z) (k : Z) : Prop :=
  match lo with Some a => (a < k)%Z | None => True end.

Definition below (hi : option Z) (k : Z) : Prop :=
  match hi with Some b => (k ≤ b)%Z | None => True end.

Definition sbelow (hi : option Z) (k : Z) : Prop :=
  match hi with Some b => (k < b)%Z | None => True end.

(** The bounds of child [i] of an inner node with separators [ks]. *)
Definition clo (lo : option Z) (ks : list Z) (i : nat) : option Z :=
  match i with O => lo | S j => ks !! j end.

Definition chi (hi : option Z) (ks : list Z) (i : nat) : option Z :=
  match ks !! i with Some b => Some b | None => hi end.

(** The child the descent for [key] takes. *)
Definition child_of (nd : Node) (key : Z) : Z :=
  default 0%Z (ichildren nd !! ref_lb (ikeys nd) key).

(** The page id made from the node counter [n]. *)
Definition mint (seg n : Z) : Z := Z.lxor (Z.shiftl seg 48) n.

Section tree_spec.
Variable cap : nat.
Variable pg : Z → Node.

(** Page [x] belongs to the subtree of level [l] at page [p]. *)
Fixpoint own (l : nat) (p x : Z) : Prop :=
  x = p ∨
  match l with
  | O => False
  | S l' => ∃ i c, ichildren (pg p) !! i = Some c ∧ own l' c x
  end.

(** The subtree of level [l] at page [p] is a search tree for keys in
    [(lo, hi]]: levels go down by one, inner nodes have at least two
    children, separators bound the keys of the children, and no page is
    used twice. *)
Fixpoint wf (l : nat) (lo hi : option Z) (p : Z) : Prop :=
  level (pg p) = l ∧
  match l with
  | O => leaf_wf cap (pg p) ∧ ∀ k, k ∈ lkeys (pg p) → above lo k ∧ below hi k
  | S l' =>
      inner_wf cap (pg p) ∧ 2 ≤ count (pg p) ∧
      (∀ k, k ∈ ikeys (pg p) → above lo k ∧ sbelow hi k) ∧
      (∀ i c, ichildren (pg p) !! i = Some c →
              wf l' (clo lo (ikeys (pg p)) i) (chi hi (ikeys (pg p)) i) c) ∧
      (∀ i j ci cj x, ichildren (pg p) !! i = Some ci →
                      ichildren (pg p) !! j = Some cj →
                      own l' ci x → own l' cj x → i = j)
  end.

(** The subtree maps [k] to [v]. *)
Fixpoint holds (l : nat) (p : Z) (k v : Z) : Prop :=
  match l with
  | O => ∃ i, lkeys (pg p) !! i = Some k ∧ lvals (pg p) !! i = Some v
  | S l' => ∃ i c, ichildren (pg p) !! i = Some c ∧ holds l' c k v
  end.

(** The sum of [f] over the nodes of the subtree. *)
Fixpoint wsum (f : Node → nat) (l : nat) (p : Z) : nat :=
  f (pg p) +
  match l with
  | O => 0
  | S l' => sum_list (map (wsum f l') (ichildren (pg p)))
  end.

(** The full nodes on the way to [key], a node of level [l] counting
    [C - l]: what the restarts of [insert] use up. *)
Fixpoint phi (C : nat) (key : Z) (l : nat) (p : Z) : nat :=
  (if count (pg p) <? cap then 0 else C - l) +
  match l with
  | O => 0
  | S l' => phi C key l' (child_of (pg p) key)
  end.

(** The descent for [key] from [p] (level [l], bounds [lo], [hi], parent
    [pp]) comes to [q] (level [l'], bounds [lo'], [hi'], parent [qp]),
    moving down only from nodes that are [ok]. *)
Inductive on_path (ok : Node → Prop) (key : Z) :
    nat → option Z → option Z → option Z → Z →
    nat → option Z → option Z → option Z → Z → Prop :=
  | on_path_here l lo hi pp p : on_path ok key l lo hi pp p l lo hi pp p
  | on_path_down l lo hi pp p l' lo' hi' qp q :
      ok (pg p) →
      on_path ok key l
        (clo lo (ikeys (pg p)) (ref_lb (ikeys (pg p)) key))
        (chi hi (ikeys (pg p)) (ref_lb (ikeys (pg p)) key))
        (Some p) (child_of (pg p) key) l' lo' hi' qp q →
      on_path ok key (S l) lo hi pp p l' lo' hi' qp q.
End tree_spec.

(** What a node weighs in the count of nodes a run can have made: one,
    and two for every entry above half of the capacity. *)
Definition node_weight (cap : nat) (nd : Node) : nat :=
  1 + 2 * (count nd - (cap - cap / 2)).

Section tree_inv.
Variable PageSize : nat.

(** The state between two operations: [root] is a search tree of
    [treeHeight] levels, its pages were made by [create_new_node], the
    node counter is within the count of nodes, every page has arrays of
    [kCapacity] cells, and no page is fixed.  [B] bounds the weight of the
    tree. *)
Record tree_inv (B : Z) (t : BTree) : Prop := {
  inv_height : 1 ≤ treeHeight t;
  inv_wf : wf (InnerNode_kCapacity PageSize) (page PageSize t)
             (pred (treeHeight t)) None None (root t);
  inv_minted : ∀ x, own (page PageSize t) (pred (treeHeight t)) (root t) x →
                    ∃ n, (0 ≤ n < nodeCount t)%Z ∧ x = mint (segment_id t) n;
  inv_count : (0 ≤ nodeCount t
               ≤ Z.of_nat (wsum (page PageSize t) (λ _, 1%nat)
                             (pred (treeHeight t)) (root t)))%Z;
  inv_weight : (Z.of_nat (wsum (page PageSize t)
                            (node_weight (InnerNode_kCapacity PageSize))
                            (pred (treeHeight t)) (root t)) ≤ B)%Z;
  inv_fixed : fixed t = [];
  inv_sized : ∀ x, node_sized (InnerNode_kCapacity PageSize) (page PageSize t x)
}.

(** The key-value pairs of the tree are those of the map [m]. *)
Definition tree_contents (t : BTree) (m : gmap Z Z) : Prop :=
  ∀ k v, holds (page PageSize t) (pred (treeHeight t)) (root t) k v ↔ m !! k = Some v.
End tree_inv.

(** Sequences of operations and what they should do to a map. *)
Inductive Op :=
  | OpInsert (key value : Z)
  | OpErase (key : Z).

Definition apply_op (m : gmap Z Z) (o : Op) : gmap Z Z :=
  match o with
  | OpInsert k v => <[k:=v]> m
  | OpErase k => delete k m
  end.

Definition run_op (PageSize : nat) (NDEBUG : bool) (fuel : nat) (o : Op)
    (t : BTree) : option BTree :=
  match o with
  | OpInsert k v => BTree_insert PageSize NDEBUG fuel k v t
  | OpErase k => BTree_erase PageSize NDEBUG fuel k t
  end.

Fixpoint run_ops (PageSize : nat) (NDEBUG : bool) (fuel : nat) (ops : list Op)
    (t : BTree) : option BTree :=
  match ops with
  | [] => Some t
  | o :: ops' => t ← run_op PageSize NDEBUG fuel o t; run_ops PageSize NDEBUG fuel ops' t
  end.

(** The state [t] with other pages fixed and a longer trace. *)
Definition with_fixed (fx : list Z) (tr : list Event) (t : BTree) : BTree :=
  mkBTree (segment_id t) (root t) (nodeCount t) (treeHeight t) (pages t) fx tr.

(** The pages a descent holds: the current one and its parent. *)
Definition held (pp : option Z) (p : Z) : list Z := p :: option_list pp.

(** The calls a descent makes: pages are fixed in the mode [m] gives them
    and unfixed clean. *)
Definition descent_event (m : Z → bool) (e : Event) : Prop :=
  match e with
  | Fix p x => x = m p
  | Unfix _ d => d = false
  end.

(** The calls of an operation that writes at most the leaf: a page is
    fixed exclusively exactly when [m] says so, and only such a page is
    unfixed dirty. *)
Definition leaf_event (m : Z → bool) (e : Event) : Prop :=
  match e with
  | Fix p x => x = m p
  | Unfix p d => d = true → m p = true
  end.

(** Every [fix_page] in a list of calls asks for the mode [m] gives. *)
Definition fix_mode (m : Z → bool) (e : Event) : Prop :=
  match e with
  | Fix p x => x = m p
  | Unfix _ _ => True
  end.

(** The full node at page [c] has been split at [sep] into the nodes at
    [c] and [r]: what the tree above them needs to know. *)
Record halves (cap : nat) (pg pg' : Z → Node) (l : nat) (lo hi : option Z)
    (c r sep : Z) : Prop := {
  hv_left : wf cap pg' l lo (Some sep) c;
  hv_right : wf cap pg' l (Some sep) hi r;
  hv_lo : above lo sep;
  hv_hi : sbelow hi sep;
  hv_own : ∀ x, own pg' l c x ∨ own pg' l r x ↔ own pg l c x ∨ x = r;
  hv_disj : ∀ x, own pg' l c x → own pg' l r x → False;
  hv_holds : ∀ k v, holds pg' l c k v ∨ holds pg' l r k v ↔ holds pg l c k v;
  hv_sum : ∀ f, wsum pg' f l c + wsum pg' f l r + f (pg c)
                = wsum pg f l c + f (pg' c) + f (pg' r);
  hv_full : count (pg c) = cap;
  hv_count_left : count (pg' c) = cap - cap / 2;
  hv_count_right : count (pg' r) = cap / 2;
  hv_phi : ∀ C key,
    phi cap pg' C key l (if bool_decide (key ≤ sep)%Z then c else r) + (C - l)
    = phi cap pg C key l c
}.

(** The [split] that [insert] calls on a node of level [l]. *)
Definition split_function (l : nat) : Node → Node → option (Node * Node * Z) :=
  match l with
  | O => LeafNode_split
  | S _ => InnerNode_split
  end.

(** What the last operation on [k] in a sequence left for [k]: the value
    of an [insert], nothing after an [erase] or when there was none. *)
Definition last_write (ops : list Op) (k : Z) : option Z :=
  foldl (λ acc o,
           match o with
           | OpInsert k' v => if decide (k' = k) then Some v else acc
           | OpErase k' => if decide (k' = k) then None else acc
           end) None ops.

(** Passes and iterations that are enough for any tree whose node counter
    fits 64 bits. *)
Definition enough_fuel : nat := 2 * (64 * 65) + 2.

(** The leaf the descent for [key] ends at. *)
Fixpoint leaf_of (pg : Z → Node) (key : Z) (l : nat) (p : Z) : Z :=
  match l with
  | O => p
  | S l' => leaf_of pg key l' (child_of (pg p) key)
  end.

(** No node on the way to [key] is full. *)
Fixpoint path_has_space (cap : nat) (pg : Z → Node) (key : Z) (l : nat) (p : Z)
  : bool :=
  (count (pg p) <? cap) &&
  match l with
  | O => true
  | S l' => path_has_space cap pg key l' (child_of (pg p) key)
  end.

(** ** Example runs of the tree *)

(** Two inserts and an erase. *)
Definition three_ops : list Op := [OpInsert 1 10; OpInsert 2 20; OpErase 1]%Z.

(** Five inserts: with capacity 4 the root leaf splits at the fifth. *)
Definition five_keys : list Op :=
  [OpInsert 1 10; OpInsert 2 20; OpInsert 3 30; OpInsert 4 40; OpInsert 5 50]%Z.

(** Four inserts: with capacity 4 they fill the root leaf. *)
Definition four_keys : list Op :=
  [OpInsert 1 10; OpInsert 2 20; OpInsert 3 30; OpInsert 4 40]%Z.

(** The tree that [BTree_new 68 0] makes. *)
Definition tree_new_0 : BTree :=
  mkBTree 0 0 1 1 {[0%Z := mkNode 0 0 [0; 0; 0; 0]%Z [0; 0; 0; 0]%Z]} []
    [Fix 0 true; Unfix 0 true].

(** The tree after [four_keys]: one full leaf. *)
Definition tree_one_full_leaf : BTree :=
  mkBTree 0 0 1 1 {[0%Z := mkNode 0 4 [1; 2; 3; 4]%Z [10; 20; 30; 40]%Z]} []
    [Fix 0 true; Unfix 0 true; Fix 0 true; Unfix 0 true; Fix 0 true; Unfix 0 true;
     Fix 0 true; Unfix 0 true; Fix 0 true; Unfix 0 true].

(** A leaf with two entries and an inner node with three children,
    both with room for four. *)
Definition leaf2 : Node := mkNode 0 2 [5; 10; 0; 0]%Z [50; 100; 0; 0]%Z.

Definition inner3 : Node := mkNode 1 3 [10; 20; 0; 0]%Z [1; 2; 3; 0]%Z.

(** ** Example runs of the buffer manager *)

(** One frame: page 0 is fixed exclusively, unfixed dirty, and then page 1
    is fixed, which evicts page 0. *)
Definition bm_after_fix : BufferManager :=
  match fix_page false bump_malloc 0%Z true (BufferManager_new 4 1) with
  | Ok _ bm => bm
  | _ => BufferManager_new 4 1
  end.

Definition bm_after_unfix : BufferManager :=
  match unfix_page 0%Z true bm_after_fix with
  | Ok _ bm => bm
  | _ => bm_after_fix
  end.

Definition bm_after_evict : BufferManager :=
  match fix_page false bump_malloc 1%Z false bm_after_unfix with
  | Ok _ bm => bm
  | _ => bm_after_unfix
  end.

(** * Proofs *)

(** ** The branchless lower bound *)

Section lower_bound_facts.
Context {T : Type}.
Variable cmp : T → T → bool.
Abbreviation reference_lower_bound := (reference_lower_bound cmp).
Abbreviation lower_bound_branchless := (lower_bound_branchless cmp).
Abbreviation lbb_loop := (lbb_loop cmp).
Abbreviation sorted_under := (sorted_under cmp).

Lemma reference_le_length rng val :
  reference_lower_bound rng val ≤ length rng.
Proof. induction rng as [|x rng IH]; simpl; [lia|]. destruct (cmp x val); lia. Qed.

Lemma reference_below rng val j x :
  j < reference_lower_bound rng val → rng !! j = Some x → cmp x val = true.
Proof.
  revert j. induction rng as [|y rng IH]; simpl; intros j Hj Hx; [lia|].
  destruct (cmp y val) eqn:Hy; [|lia].
  destruct j as [|j]; simpl in Hx.
  - by inversion Hx; subst.
  - apply (IH j); [lia|done].
Qed.

Lemma reference_at rng val x :
  rng !! reference_lower_bound rng val = Some x → cmp x val = false.
Proof.
  induction rng as [|y rng IH]; simpl; [done|].
  destruct (cmp y val) eqn:Hy; simpl; [done|].
  intros [= <-]. done.
Qed.

(** A strict weak order is co-transitive; [std::less] is. *)
Hypothesis cmp_cotrans : ∀ a b c, cmp a c = true → cmp a b = true ∨ cmp b c = true.

Lemma reference_above rng val j x :
  sorted_under rng → reference_lower_bound rng val ≤ j →
  rng !! j = Some x → cmp x val = false.
Proof.
  intros Hs Hj Hx.
  destruct (decide (reference_lower_bound rng val = j)) as [<-|Hne].
  { by eapply reference_at. }
  destruct (lookup_lt_is_Some_2 rng (reference_lower_bound rng val)) as [y Hy].
  { apply lookup_lt_Some in Hx. lia. }
  destruct (cmp x val) eqn:Hc; [|done].
  destruct (cmp_cotrans x y val Hc) as [H|H].
  - rewrite (Hs (reference_lower_bound rng val) j y x) in H; [done|lia|done|done].
  - by rewrite (reference_at _ _ _ Hy) in H.
Qed.

Lemma lbb_loop_unfold fuel rng val i l :
  lbb_loop fuel rng val i l =
  if Nat.eqb (l / 2) 0 then Some (i, l)
  else match fuel with
       | O => None
       | S fuel' =>
           mid ← rng !! (i + l / 2);
           lbb_loop fuel' rng val (if cmp mid val then i + l / 2 else i) (l - l / 2)
       end.
Proof. by destruct fuel. Qed.

Lemma lbb_loop_spec rng val (Hs : sorted_under rng) :
  ∀ fuel i l,
    l ≤ fuel → 1 ≤ l → i + l ≤ length rng →
    i ≤ reference_lower_bound rng val ≤ i + l →
    ∃ i', lbb_loop fuel rng val i l = Some (i', 1) ∧ i' < length rng ∧
          i' ≤ reference_lower_bound rng val ≤ i' + 1.
Proof.
  induction fuel as [|fuel IH]; intros i l Hf Hl Hlen Hr; [lia|].
  rewrite lbb_loop_unfold. destruct (Nat.eqb_spec (l / 2) 0) as [Hz|Hnz].
  - assert (l = 1) as ->.
    { destruct (decide (l = 1)); [done|].
      assert (1 ≤ l / 2) by (apply Nat.div_le_lower_bound; lia). lia. }
    exists i. split; [done|]. lia.
  - assert (Hhalf : 1 ≤ l / 2 ∧ l / 2 < l ∧ 2 * (l / 2) ≤ l).
    { split; [lia|]. split.
      - apply Nat.div_lt; lia.
      - apply Nat.Div0.mul_div_le. }
    destruct (lookup_lt_is_Some_2 rng (i + l / 2)) as [mid Hmid]; [lia|].
    rewrite Hmid. cbn [mbind option_bind].
    destruct (cmp mid val) eqn:Hc.
    + apply IH; try lia.
      assert (¬ reference_lower_bound rng val ≤ i + l / 2); [|lia].
      intros Hle. by rewrite (reference_above _ _ _ _ Hs Hle Hmid) in Hc.
    + apply IH; try lia.
      assert (¬ i + l / 2 < reference_lower_bound rng val); [|lia].
      intros Hlt. by rewrite (reference_below _ _ _ _ Hlt Hmid) in Hc.
Qed.

Lemma lower_bound_branchless_reference rng val :
  sorted_under rng →
  lower_bound_branchless rng val = Some (reference_lower_bound rng val).
Proof.
  intros Hs. unfold lower_bound_branchless.
  destruct (Nat.eqb_spec (length rng) 0) as [Hz|Hnz].
  { destruct rng; [done|simpl in Hz; lia]. }
  destruct (lbb_loop_spec rng val Hs (length rng) 0 (length rng))
    as (i & -> & Hi & Hr); try lia.
  { pose proof (reference_le_length rng val). lia. }
  simpl. destruct (lookup_lt_is_Some_2 rng i Hi) as [x Hx]. rewrite Hx. simpl.
  f_equal. destruct (cmp x val) eqn:Hc.
  - destruct (decide (reference_lower_bound rng val = i)) as [He|]; [|lia].
    rewrite <- He in Hx. by rewrite (reference_at _ _ _ Hx) in Hc.
  - destruct (decide (reference_lower_bound rng val = i)) as [He|]; [done|].
    assert (Hlt : i < reference_lower_bound rng val) by lia.
    by rewrite (reference_below _ _ _ _ Hlt Hx) in Hc.
Qed.
End lower_bound_facts.

(** ** Lists as arrays *)

Create Rewrite HintDb len.
#[export] Hint Rewrite @length_app @length_take @length_drop @length_insert
  @length_cons @length_nil @length_replicate @length_fmap @length_seq
  @length_delete : len.

Ltac len_goal :=
  cbn [keys slots level count];
  repeat first
    [ rewrite length_app | rewrite length_insert | rewrite length_drop
    | rewrite length_cons | rewrite length_nil | rewrite length_delete
    | rewrite length_replicate | rewrite length_fmap
    | rewrite length_take_le by (len_goal; lia)
    | rewrite length_take_ge by (len_goal; lia)
    | rewrite length_take ].
Ltac len_simp :=
  cbn [keys slots level count] in *;
  len_goal; autorewrite with len in *; simpl length in *.
Ltac solve_len := len_simp; lia.

Lemma lookup_app_decide {A} (l1 l2 : list A) i :
  (l1 ++ l2) !! i = if decide (i < length l1) then l1 !! i else l2 !! (i - length l1).
Proof. case_decide; [by apply lookup_app_l|apply lookup_app_r; lia]. Qed.

Lemma lookup_cons_decide {A} (x : A) l i :
  (x :: l) !! i = if decide (i = 0) then Some x else l !! (i - 1).
Proof.
  case_decide; subst; [done|]. destruct i; [done|]. simpl. by rewrite Nat.sub_0_r.
Qed.

Ltac idx_rewrite :=
  repeat first
    [ rewrite lookup_drop
    | rewrite lookup_take
    | rewrite lookup_app_decide
    | rewrite lookup_cons_decide
    | rewrite lookup_nil
    | rewrite list_lookup_insert
    | rewrite list_lookup_delete ].

Ltac idx_close :=
  lazymatch goal with
  | |- Some ?x = Some ?x => reflexivity
  | |- @None _ = None => reflexivity
  | |- ?l !! _ = ?l !! _ => f_equal; lia
  | |- _ !! _ = None => apply lookup_ge_None_2; lia
  | |- None = _ !! _ => symmetry; apply lookup_ge_None_2; lia
  | |- _ => exfalso; lia
  end.

(** Equality of two lists built from [take], [drop], [++], [::], [delete]
    and [<[_:=_]>], cell by cell. *)
Ltac list_idx :=
  apply list_eq; intros ?;
  idx_rewrite; len_simp;
  repeat case_decide; try idx_close.

Lemma pow2_16 : 2 ^ 16 = 256 * 256.
Proof. change 256 with (2 ^ 8). by rewrite <- Nat.pow_add_r. Qed.

Lemma u16_small n : n < 2 ^ 16 → u16 n = n.
Proof. intros. unfold u16. by apply Nat.mod_small. Qed.

Lemma u16_pred n : 1 ≤ n < 2 ^ 16 → u16 (n + (2 ^ 16 - 1)) = n - 1.
Proof.
  intros. unfold u16.
  replace (n + (2 ^ 16 - 1)) with ((n - 1) + 1 * 2 ^ 16) by lia.
  rewrite Nat.Div0.mod_add. apply Nat.mod_small. lia.
Qed.

Lemma store_Some a i x : i < length a → Mem.store a i x = Some (<[i:=x]> a).
Proof. intros. unfold Mem.store. by rewrite decide_True. Qed.

Lemma memmove_Some a dst src n :
  src + n ≤ length a → dst + n ≤ length a →
  Mem.memmove a dst src n = Some (take dst a ++ take n (drop src a) ++ drop (dst + n) a).
Proof. intros. unfold Mem.memmove. by rewrite decide_True. Qed.

Lemma memmove_length a dst src n a' :
  Mem.memmove a dst src n = Some a' → length a' = length a.
Proof.
  unfold Mem.memmove. case_decide; [|done]. intros [= <-]. solve_len.
Qed.

Lemma range_Some a n : n ≤ length a → Mem.range a n = Some (take n a).
Proof. intros. unfold Mem.range. by rewrite decide_True. Qed.

(** Opening a gap at [pos] in the first [cnt] cells and writing [x] there. *)
Lemma shift_right_store (a : list Z) pos cnt x :
  pos ≤ cnt → cnt < length a →
  take (S cnt)
    (<[pos:=x]> (take (pos + 1) a ++ take (cnt - pos) (drop pos a)
                 ++ drop (pos + 1 + (cnt - pos)) a))
  = list_ins pos x (take cnt a).
Proof. intros. unfold list_ins. list_idx. Qed.

(** Closing the gap at [pos] among the first [cnt] cells. *)
Lemma shift_left (a : list Z) pos cnt :
  pos < cnt → cnt ≤ length a →
  take (cnt - 1)
    (take pos a ++ take (cnt - (pos + 1)) (drop (pos + 1) a)
     ++ drop (pos + (cnt - (pos + 1))) a)
  = delete pos (take cnt a).
Proof. intros. list_idx. Qed.

Lemma list_ins_length {A} pos (x : A) l : length (list_ins pos x l) = S (length l).
Proof. unfold list_ins. solve_len. Qed.

Lemma list_ins_lookup_lt {A} pos (x : A) l i :
  i < pos → pos ≤ length l → list_ins pos x l !! i = l !! i.
Proof.
  intros. unfold list_ins. rewrite lookup_app_l by solve_len.
  by rewrite lookup_take_lt.
Qed.

Lemma list_ins_lookup_eq {A} pos (x : A) l :
  pos ≤ length l → list_ins pos x l !! pos = Some x.
Proof.
  intros. unfold list_ins. rewrite lookup_app_r by solve_len.
  replace (pos - length (take pos l)) with 0 by solve_len. done.
Qed.

Lemma list_ins_lookup_gt {A} pos (x : A) l i :
  pos < i → pos ≤ length l → list_ins pos x l !! i = l !! (i - 1).
Proof.
  intros. unfold list_ins. rewrite lookup_app_r by solve_len.
  replace (i - length (take pos l)) with (S (i - 1 - pos)) by solve_len.
  simpl. rewrite lookup_drop. f_equal. lia.
Qed.

Lemma list_ins_lookup {A} pos (x : A) l i :
  pos ≤ length l →
  list_ins pos x l !! i =
  if decide (i < pos) then l !! i
  else if decide (i = pos) then Some x else l !! (i - 1).
Proof.
  intros. repeat case_decide; subst.
  - by apply list_ins_lookup_lt.
  - by apply list_ins_lookup_eq.
  - apply list_ins_lookup_gt; lia.
Qed.

(** ** Lower bound over [uint64_t] keys *)

Lemma ltb_cotrans (a b c : Z) :
  Z.ltb a c = true → Z.ltb a b = true ∨ Z.ltb b c = true.
Proof. destruct (Z.ltb_spec a c), (Z.ltb_spec a b), (Z.ltb_spec b c); auto; lia. Qed.

Lemma increasing_sorted_under l : strictly_increasing l → sorted_under Z.ltb l.
Proof.
  intros Hs i j x y Hij Hx Hy. specialize (Hs i j x y Hij Hx Hy).
  apply Z.ltb_ge. lia.
Qed.

Lemma ref_lb_le l key : ref_lb l key ≤ length l.
Proof. apply reference_le_length. Qed.

Lemma ref_lb_lt l key j x : j < ref_lb l key → l !! j = Some x → (x < key)%Z.
Proof. intros Hj Hx. apply Z.ltb_lt. by eapply reference_below. Qed.

Lemma ref_lb_ge l key j x :
  strictly_increasing l → ref_lb l key ≤ j → l !! j = Some x → (key ≤ x)%Z.
Proof.
  intros Hs Hj Hx. apply Z.ltb_ge.
  eapply reference_above; eauto using ltb_cotrans, increasing_sorted_under.
Qed.

(** The lower bound is the only position that splits the keys below
    [key] from the others. *)
Lemma ref_lb_unique l key i :
  strictly_increasing l → i ≤ length l →
  (∀ j x, j < i → l !! j = Some x → (x < key)%Z) →
  (∀ j x, i ≤ j → l !! j = Some x → (key ≤ x)%Z) →
  ref_lb l key = i.
Proof.
  intros Hs Hi Hlo Hhi. pose proof (ref_lb_le l key) as Hle.
  destruct (decide (ref_lb l key < i)) as [Hlt|Hge].
  - destruct (lookup_lt_is_Some_2 l (ref_lb l key)) as [x Hx]; [lia|].
    pose proof (Hlo _ _ Hlt Hx). pose proof (ref_lb_ge l key _ x Hs (le_n _) Hx). lia.
  - destruct (decide (i < ref_lb l key)) as [Hlt|]; [|lia].
    destruct (lookup_lt_is_Some_2 l i) as [x Hx]; [lia|].
    pose proof (ref_lb_lt l key i x Hlt Hx). pose proof (Hhi i x (le_n _) Hx). lia.
Qed.

Lemma ref_lb_found l key :
  strictly_increasing l → l !! ref_lb l key = Some key ↔ key ∈ l.
Proof.
  intros Hs. split.
  - intros H. eapply list_elem_of_lookup_2; eauto.
  - intros (j & Hj)%list_elem_of_lookup_1.
    destruct (decide (ref_lb l key ≤ j)) as [Hle|Hgt].
    + destruct (decide (ref_lb l key = j)) as [->|Hne]; [done|].
      destruct (lookup_lt_is_Some_2 l (ref_lb l key)) as [x Hx].
      { apply lookup_lt_Some in Hj. lia. }
      pose proof (ref_lb_ge l key _ x Hs (le_n _) Hx).
      assert (x < key)%Z by (eapply (Hs (ref_lb l key) j); eauto; lia). lia.
    + assert (key < key)%Z by (eapply ref_lb_lt; eauto; lia). lia.
Qed.

Lemma strictly_increasing_take l n : strictly_increasing l → strictly_increasing (take n l).
Proof.
  intros Hs i j x y Hij Hx Hy.
  apply lookup_take_Some in Hx as [Hx _]. apply lookup_take_Some in Hy as [Hy _].
  eauto.
Qed.

Lemma strictly_increasing_drop l n : strictly_increasing l → strictly_increasing (drop n l).
Proof.
  intros Hs i j x y Hij Hx Hy. rewrite lookup_drop in Hx, Hy.
  eapply (Hs (n + i) (n + j)); eauto. lia.
Qed.

Lemma strictly_increasing_delete l n : strictly_increasing l → strictly_increasing (delete n l).
Proof.
  intros Hs i j x y Hij Hx Hy.
  rewrite list_lookup_delete in Hx, Hy.
  repeat case_decide; (eapply Hs; [|exact Hx|exact Hy]; lia).
Qed.

Lemma strictly_increasing_ins l key :
  strictly_increasing l → key ∉ l →
  strictly_increasing (list_ins (ref_lb l key) key l).
Proof.
  intros Hs Hnot i j x y Hij Hx Hy.
  pose proof (ref_lb_le l key) as Hle.
  assert (Hlow : ∀ i x, i < ref_lb l key → l !! i = Some x → (x < key)%Z).
  { intros. by eapply ref_lb_lt. }
  assert (Hhigh : ∀ i x, ref_lb l key ≤ i → l !! i = Some x → (key < x)%Z).
  { intros i' x' Hi' Hx'. pose proof (ref_lb_ge l key i' x' Hs Hi' Hx').
    destruct (decide (x' = key)) as [->|]; [|lia].
    exfalso. apply Hnot. by eapply list_elem_of_lookup_2. }
  rewrite list_ins_lookup in Hx, Hy by done.
  repeat case_decide; simplify_eq; try lia.
  - eapply Hs; [|exact Hx|exact Hy]; done.
  - eauto.
  - assert (x < key)%Z by eauto.
    assert (key < y)%Z by (eapply Hhigh; [|exact Hy]; lia). lia.
  - eapply Hhigh; [|exact Hy]; lia.
  - eapply Hs; [|exact Hx|exact Hy]; lia.
Qed.

Lemma strictly_increasing_cons x y l :
  (x < y)%Z → strictly_increasing (y :: l) → strictly_increasing (x :: y :: l).
Proof.
  intros Hxy Hs i j a b Hij Ha Hb.
  destruct j as [|j]; [lia|]. simpl in Hb.
  destruct i as [|i]; simpl in Ha.
  - simplify_eq. destruct j as [|j]; simpl in Hb; [by simplify_eq|].
    assert (y < b)%Z; [|lia]. eapply (Hs 0 (S j)); [lia|done|done].
  - eapply (Hs i j); [lia|done|done].
Qed.

Lemma increasingb_sound l : increasingb l = true → strictly_increasing l.
Proof.
  induction l as [|x [|y l] IH]; intros Hb.
  - intros i j a b _ Ha; by destruct i.
  - intros i j a b Hij Ha Hb'. destruct j as [|j]; [lia|by destruct j].
  - simpl in Hb. apply andb_true_iff in Hb as [Hxy Hb].
    apply strictly_increasing_cons; [by apply Z.ltb_lt|by apply IH].
Qed.

(** ** Node operations on the logical contents *)

Lemma search_cells_spec (a : list Z) n key :
  n ≤ length a → strictly_increasing (take n a) →
  (rng ← Mem.range a n;
   i ← lower_bound_branchless Z.ltb rng key;
   if i <? n then x ← a !! i; Some (i, Z.eqb x key) else Some (i, false))
  = Some (ref_lb (take n a) key, bool_decide (key ∈ take n a)).
Proof.
  intros Hn Hs. rewrite range_Some by done. cbn [mbind option_bind].
  rewrite (lower_bound_branchless_reference Z.ltb ltb_cotrans)
    by by apply increasing_sorted_under.
  cbn [mbind option_bind].
  pose proof (ref_lb_le (take n a) key) as Hle. rewrite length_take in Hle.
  pose proof (ref_lb_found (take n a) key Hs) as Hf.
  destruct (Nat.ltb_spec (ref_lb (take n a) key) n) as [Hlt|Hge].
  - destruct (lookup_lt_is_Some_2 a (ref_lb (take n a) key)) as [x Hx]; [lia|].
    rewrite Hx. cbn [mbind option_bind]. do 2 f_equal.
    rewrite lookup_take_lt in Hf by done. rewrite Hx in Hf.
    destruct (Z.eqb_spec x key) as [->|Hne].
    + symmetry. apply bool_decide_eq_true. by apply Hf.
    + symmetry. apply bool_decide_eq_false. intros Hin. apply Hf in Hin. congruence.
  - do 2 f_equal. symmetry. apply bool_decide_eq_false. intros Hin.
    apply Hf in Hin. apply lookup_lt_Some in Hin. rewrite length_take in Hin. lia.
Qed.

Lemma LeafNode_lower_bound_spec nd key :
  count nd ≤ length (keys nd) →
  strictly_increasing (LeafNode_get_key_vector nd) →
  LeafNode_lower_bound nd key =
  Some (ref_lb (LeafNode_get_key_vector nd) key,
        bool_decide (key ∈ LeafNode_get_key_vector nd)).
Proof.
  intros Hn Hs. unfold LeafNode_lower_bound, LeafNode_get_key_vector in *.
  destruct (Nat.eqb_spec (count nd) 0) as [Hz|Hnz].
  - by rewrite Hz.
  - by apply search_cells_spec.
Qed.

Lemma InnerNode_lower_bound_spec nd key :
  count nd - 1 ≤ length (keys nd) →
  strictly_increasing (InnerNode_get_key_vector nd) →
  InnerNode_lower_bound nd key =
  Some (ref_lb (InnerNode_get_key_vector nd) key,
        bool_decide (key ∈ InnerNode_get_key_vector nd)).
Proof.
  intros Hn Hs. unfold InnerNode_lower_bound, InnerNode_get_key_vector in *.
  destruct (Nat.eqb_spec (count nd) 0) as [Hz|Hnz].
  - by rewrite Hz.
  - by apply search_cells_spec.
Qed.

(** The lower bound of any key after [sep] has been put at its own. *)
Lemma ref_lb_list_ins_any ks key sep :
  strictly_increasing ks → sep ∉ ks →
  ref_lb (list_ins (ref_lb ks sep) sep ks) key =
  if bool_decide (key ≤ sep)%Z then ref_lb ks key else S (ref_lb ks key).
Proof.
  intros Hs Hnot.
  pose proof (strictly_increasing_ins ks sep Hs Hnot) as Hs'.
  pose proof (ref_lb_le ks key) as Hlek. pose proof (ref_lb_le ks sep) as Hles.
  set (rk := ref_lb ks key) in *. set (rs := ref_lb ks sep) in *.
  assert (Hltk : ∀ j x, j < rk → ks !! j = Some x → (x < key)%Z).
  { intros j x Hj Hx. by eapply (ref_lb_lt ks key j). }
  assert (Hgek : ∀ j x, rk ≤ j → ks !! j = Some x → (key ≤ x)%Z).
  { intros j x Hj Hx. by eapply (ref_lb_ge ks key j). }
  assert (Hlts : ∀ j x, j < rs → ks !! j = Some x → (x < sep)%Z).
  { intros j x Hj Hx. by eapply (ref_lb_lt ks sep j). }
  assert (Hges : ∀ j x, rs ≤ j → ks !! j = Some x → (sep ≤ x)%Z).
  { intros j x Hj Hx. by eapply (ref_lb_ge ks sep j). }
  assert (Hord1 : (key ≤ sep)%Z → rk ≤ rs).
  { intros Hk. destruct (decide (rk ≤ rs)) as [|Hn]; [done|].
    destruct (lookup_lt_is_Some_2 ks rs) as [x Hx]; [lia|].
    pose proof (Hltk rs x ltac:(lia) Hx). pose proof (Hges rs x ltac:(lia) Hx). lia. }
  assert (Hord2 : (sep < key)%Z → rs ≤ rk).
  { intros Hk. destruct (decide (rs ≤ rk)) as [|Hn]; [done|].
    destruct (lookup_lt_is_Some_2 ks rk) as [x Hx]; [lia|].
    pose proof (Hlts rk x ltac:(lia) Hx). pose proof (Hgek rk x ltac:(lia) Hx). lia. }
  assert (Hfacts : ∀ j x, ks !! j = Some x →
            (j < rk → (x < key)%Z) ∧ (rk ≤ j → (key ≤ x)%Z) ∧
            (j < rs → (x < sep)%Z) ∧ (rs ≤ j → (sep ≤ x)%Z)).
  { intros j x Hx. repeat split; intros; eauto. }
  case_bool_decide as Hk.
  - specialize (Hord1 Hk). apply ref_lb_unique; [done|rewrite list_ins_length; lia|..].
    all: intros j x Hj Hx; rewrite list_ins_lookup in Hx by done.
    all: repeat case_decide; simplify_eq; try lia.
    all: destruct (Hfacts _ _ Hx) as (? & ? & ? & ?); lia.
  - assert (Hk' : (sep < key)%Z) by lia. specialize (Hord2 Hk').
    apply ref_lb_unique; [done|rewrite list_ins_length; lia|..].
    all: intros j x Hj Hx; rewrite list_ins_lookup in Hx by done.
    all: repeat case_decide; simplify_eq; try lia.
    all: destruct (Hfacts _ _ Hx) as (? & ? & ? & ?); lia.
Qed.
Lemma copy_upper_spec n : ∀ i nc ks vs oks ovs,
  nc ≤ i → i + n ≤ length ks → i + n ≤ length vs →
  i - nc + n ≤ length oks → i - nc + n ≤ length ovs →
  copy_upper n i nc ks vs oks ovs =
  Some (take (i - nc) oks ++ take n (drop i ks) ++ drop (i - nc + n) oks,
        take (i - nc) ovs ++ take n (drop i vs) ++ drop (i - nc + n) ovs).
Proof.
  induction n as [|n IH]; intros i nc ks vs oks ovs Hi Hks Hvs Hoks Hovs.
  - simpl. rewrite !Nat.add_0_r, !take_drop. done.
  - simpl.
    destruct (lookup_lt_is_Some_2 ks i) as [k Hk]; [lia|].
    destruct (lookup_lt_is_Some_2 vs i) as [v Hv]; [lia|].
    rewrite Hk. cbn [mbind option_bind]. rewrite store_Some by lia.
    cbn [mbind option_bind]. rewrite Hv. cbn [mbind option_bind].
    rewrite store_Some by lia. cbn [mbind option_bind].
    rewrite IH by solve_len. f_equal. f_equal.
    + list_idx. all: try (rewrite <- Hk; f_equal; lia).
    + list_idx. all: try (rewrite <- Hv; f_equal; lia).
Qed.

Section node_ops.
Variable PageSize : nat.
Variable NDEBUG : bool.
Abbreviation lcap := (LeafNode_kCapacity PageSize).
Abbreviation icap := (InnerNode_kCapacity PageSize).
Abbreviation leaf_insert := (LeafNode_insert PageSize NDEBUG).
Abbreviation leaf_erase := (LeafNode_erase NDEBUG).
Abbreviation insert_split := (InnerNode_insert_split PageSize NDEBUG).

Lemma cassert_true b : b = true → cassert NDEBUG (Some b) = Some ().
Proof. intros ->. unfold cassert. by destruct NDEBUG. Qed.

Lemma cassert_ndebug c : NDEBUG = true → cassert NDEBUG c = Some ().
Proof. intros ->. done. Qed.

(** [LeafNode::insert] of a new key into a leaf with space. *)
Lemma LeafNode_insert_absent nd key value :
  leaf_wf lcap nd → lcap < 2 ^ 16 →
  LeafNode_has_space PageSize nd = true → key ∉ lkeys nd →
  ∃ nd', leaf_insert nd key value = Some nd' ∧
    level nd' = level nd ∧ count nd' = S (count nd) ∧ node_sized lcap nd' ∧
    lkeys nd' = list_ins (ref_lb (lkeys nd) key) key (lkeys nd) ∧
    lvals nd' = list_ins (ref_lb (lkeys nd) key) value (lvals nd).
Proof.
  intros ((Hk & Hv) & Hc & Hs) Hcap Hsp Hnot.
  apply Nat.ltb_lt in Hsp.
  unfold LeafNode_insert. rewrite cassert_true by by apply Nat.ltb_lt.
  cbn [mbind option_bind].
  rewrite LeafNode_lower_bound_spec by (try done; lia).
  cbn [mbind option_bind]. rewrite bool_decide_eq_false_2 by done.
  pose proof (ref_lb_le (lkeys nd) key) as Hr.
  unfold LeafNode_get_key_vector, LeafNode_get_value_vector in *.
  rewrite length_take in Hr.
  set (r := ref_lb (take (count nd) (keys nd)) key) in *.
  rewrite !memmove_Some by lia. cbn [mbind option_bind].
  rewrite !store_Some by solve_len. cbn [mbind option_bind].
  eexists. split; [done|]. cbn [level count keys slots].
  rewrite u16_small by lia. replace (count nd + 1) with (S (count nd)) by lia.
  split; [done|]. split; [done|]. split; [split; solve_len|].
  split; apply shift_right_store; lia.
Qed.

(** [LeafNode::insert] of a key the leaf holds: the value is replaced. *)
Lemma LeafNode_insert_present nd key value :
  leaf_wf lcap nd →
  NDEBUG = true ∨ LeafNode_has_space PageSize nd = true →
  key ∈ lkeys nd →
  ∃ nd', leaf_insert nd key value = Some nd' ∧
    level nd' = level nd ∧ count nd' = count nd ∧ node_sized lcap nd' ∧
    lkeys nd' = lkeys nd ∧
    lvals nd' = <[ref_lb (lkeys nd) key := value]> (lvals nd).
Proof.
  intros ((Hk & Hv) & Hc & Hs) Hsp Hin.
  unfold LeafNode_insert.
  assert (cassert NDEBUG (Some (LeafNode_has_space PageSize nd)) = Some ()) as ->.
  { destruct Hsp; [by apply cassert_ndebug|by apply cassert_true]. }
  cbn [mbind option_bind].
  rewrite LeafNode_lower_bound_spec by (try done; lia).
  cbn [mbind option_bind]. rewrite bool_decide_eq_true_2 by done.
  apply ref_lb_found in Hin; [|done]. pose proof (lookup_lt_Some _ _ _ Hin) as Hr.
  unfold LeafNode_get_key_vector, LeafNode_get_value_vector in *.
  rewrite length_take in Hr.
  rewrite store_Some by lia. cbn [mbind option_bind].
  eexists. split; [done|]. cbn [level count keys slots].
  split; [done|]. split; [done|]. split; [split; solve_len|].
  split; [done|]. by rewrite take_insert_lt by lia.
Qed.

(** [LeafNode::erase]. *)
Lemma LeafNode_erase_present nd key :
  leaf_wf lcap nd → lcap < 2 ^ 16 → key ∈ lkeys nd →
  ∃ nd', leaf_erase nd key = Some (nd', true) ∧
    level nd' = level nd ∧ S (count nd') = count nd ∧ node_sized lcap nd' ∧
    lkeys nd' = delete (ref_lb (lkeys nd) key) (lkeys nd) ∧
    lvals nd' = delete (ref_lb (lkeys nd) key) (lvals nd).
Proof.
  intros ((Hk & Hv) & Hc & Hs) Hcap Hin.
  unfold LeafNode_erase.
  apply ref_lb_found in Hin as Hr; [|done].
  pose proof (lookup_lt_Some _ _ _ Hr) as Hlt.
  unfold LeafNode_get_key_vector, LeafNode_get_value_vector in *.
  rewrite length_take in Hlt.
  destruct (Nat.eqb_spec (count nd) 0) as [Hz|Hnz]; [lia|].
  fold (LeafNode_get_key_vector nd) in *.
  rewrite LeafNode_lower_bound_spec by (try done; lia).
  cbn [mbind option_bind]. rewrite bool_decide_eq_true_2 by done.
  cbn [negb]. unfold LeafNode_get_key_vector in *.
  set (r := ref_lb (take (count nd) (keys nd)) key) in *.
  rewrite lookup_take_lt in Hr by lia.
  assert (cassert NDEBUG (x ← keys nd !! r; Some (negb (x <? key)%Z)) = Some ()) as ->.
  { unfold cassert. destruct NDEBUG; [done|]. rewrite Hr. simpl.
    by rewrite Z.ltb_irrefl. }
  cbn [mbind option_bind].
  assert (Hcount : u16 (count nd + (2 ^ 16 - 1)) = count nd - 1)
    by (apply u16_pred; lia).
  destruct (Nat.ltb_spec (r + 1) (count nd)) as [Hlast|Hlast].
  - rewrite !memmove_Some by lia. cbn [mbind option_bind].
    eexists. split; [done|]. cbn [level count keys slots]. rewrite Hcount.
    split; [done|]. split; [lia|]. split; [split; solve_len|].
    split; apply shift_left; lia.
  - cbn [mbind option_bind].
    eexists. split; [done|]. cbn [level count keys slots]. rewrite Hcount.
    split; [done|]. split; [lia|]. split; [done|].
    split; list_idx.
Qed.

Lemma LeafNode_erase_absent nd key :
  leaf_wf lcap nd → key ∉ lkeys nd → leaf_erase nd key = Some (nd, false).
Proof.
  intros ((Hk & Hv) & Hc & Hs) Hnot. unfold LeafNode_erase.
  destruct (Nat.eqb_spec (count nd) 0) as [Hz|Hnz]; [done|].
  rewrite LeafNode_lower_bound_spec by (try done; lia).
  cbn [mbind option_bind]. by rewrite bool_decide_eq_false_2 by done.
Qed.

(** [InnerNode::insert_split]: the separator goes to its lower bound, the
    new child to its right. *)
Lemma InnerNode_insert_split_spec nd key split_page :
  inner_wf icap nd → icap < 2 ^ 16 → 1 ≤ count nd →
  InnerNode_has_space PageSize nd = true → key ∉ ikeys nd →
  ∃ nd', insert_split nd key split_page = Some nd' ∧
    level nd' = level nd ∧ count nd' = S (count nd) ∧ node_sized icap nd' ∧
    ikeys nd' = list_ins (ref_lb (ikeys nd) key) key (ikeys nd) ∧
    ichildren nd' =
      list_ins (S (ref_lb (ikeys nd) key)) split_page (ichildren nd).
Proof.
  intros ((Hk & Hv) & Hc & Hs) Hcap Hone Hsp Hnot.
  apply Nat.ltb_lt in Hsp.
  unfold InnerNode_insert_split. rewrite cassert_true by by apply Nat.ltb_lt.
  cbn [mbind option_bind].
  rewrite InnerNode_lower_bound_spec by (try done; lia).
  cbn [mbind option_bind]. rewrite bool_decide_eq_false_2 by done.
  rewrite cassert_true by done. cbn [mbind option_bind].
  pose proof (ref_lb_le (ikeys nd) key) as Hr.
  unfold InnerNode_get_key_vector, InnerNode_get_children_vector in *.
  rewrite length_take in Hr.
  set (r := ref_lb (take (count nd - 1) (keys nd)) key) in *.
  destruct (Nat.ltb_spec (r + 1) (count nd)) as [Hlast|Hlast].
  - rewrite !memmove_Some by lia. cbn [mbind option_bind].
    rewrite !store_Some by solve_len. cbn [mbind option_bind].
    eexists. split; [done|]. cbn [level count keys slots].
    rewrite u16_small by lia. replace (count nd + 1) with (S (count nd)) by lia.
    split; [done|]. split; [done|]. split; [split; solve_len|].
    unfold list_ins. split; list_idx.
  - cbn [mbind option_bind].
    rewrite !store_Some by solve_len. cbn [mbind option_bind].
    eexists. split; [done|]. cbn [level count keys slots].
    rewrite u16_small by lia. replace (count nd + 1) with (S (count nd)) by lia.
    split; [done|]. split; [done|]. split; [split; solve_len|].
    unfold list_ins. split; list_idx.
Qed.

End node_ops.

(** [LeafNode::split]: the upper [count / 2] entries move to [buffer]. *)
Lemma LeafNode_split_spec cap nd buffer :
  node_sized cap nd → node_sized cap buffer → 1 ≤ count nd ≤ cap →
  ∃ l r sep, LeafNode_split nd buffer = Some (l, r, sep) ∧
    level l = level nd ∧ level r = level nd ∧
    count l = count nd - count nd / 2 ∧ count r = count nd / 2 ∧
    node_sized cap l ∧ node_sized cap r ∧
    LeafNode_get_key_vector l = take (count l) (LeafNode_get_key_vector nd) ∧
    LeafNode_get_key_vector r = drop (count l) (LeafNode_get_key_vector nd) ∧
    LeafNode_get_value_vector l = take (count l) (LeafNode_get_value_vector nd) ∧
    LeafNode_get_value_vector r = drop (count l) (LeafNode_get_value_vector nd) ∧
    LeafNode_get_key_vector nd !! (count l - 1) = Some sep.
Proof.
  intros (Hk & Hv) (Hbk & Hbv) Hc. unfold LeafNode_split.
  assert (Hhalf : 2 * (count nd / 2) ≤ count nd) by apply Nat.Div0.mul_div_le.
  rewrite copy_upper_spec by lia. cbn [mbind option_bind].
  destruct (Nat.eqb_spec (count nd - count nd / 2) 0) as [Hz|Hnz]; [lia|].
  destruct (lookup_lt_is_Some_2 (keys nd) (count nd - count nd / 2 - 1))
    as [sep Hsep]; [lia|].
  rewrite Hsep. cbn [mbind option_bind].
  eexists _, _, _. split; [done|].
  unfold LeafNode_get_key_vector, LeafNode_get_value_vector.
  cbn [level count keys slots].
  repeat split; try done; try solve_len; try list_idx.
  rewrite lookup_take_lt by lia. done.
Qed.

(** [InnerNode::split]: the upper [count / 2] children move to [buffer];
    the separator is the key between the two halves. *)
Lemma InnerNode_split_spec cap nd buffer :
  node_sized cap nd → node_sized cap buffer → 1 ≤ count nd ≤ cap →
  ∃ l r sep, InnerNode_split nd buffer = Some (l, r, sep) ∧
    level l = level nd ∧ level r = level nd ∧
    count l = count nd - count nd / 2 ∧ count r = count nd / 2 ∧
    node_sized cap l ∧ node_sized cap r ∧
    InnerNode_get_key_vector l = take (count l - 1) (InnerNode_get_key_vector nd) ∧
    InnerNode_get_key_vector r = drop (count l) (InnerNode_get_key_vector nd) ∧
    InnerNode_get_children_vector l = take (count l) (InnerNode_get_children_vector nd) ∧
    InnerNode_get_children_vector r = drop (count l) (InnerNode_get_children_vector nd) ∧
    (2 ≤ count nd → InnerNode_get_key_vector nd !! (count l - 1) = Some sep).
Proof.
  intros (Hk & Hv) (Hbk & Hbv) Hc. unfold InnerNode_split.
  assert (Hhalf : 2 * (count nd / 2) ≤ count nd) by apply Nat.Div0.mul_div_le.
  rewrite copy_upper_spec by lia. cbn [mbind option_bind].
  destruct (Nat.eqb_spec (count nd - count nd / 2) 0) as [Hz|Hnz]; [lia|].
  destruct (lookup_lt_is_Some_2 (keys nd) (count nd - count nd / 2 - 1))
    as [sep Hsep]; [lia|].
  rewrite Hsep. cbn [mbind option_bind].
  eexists _, _, _. split; [done|].
  unfold InnerNode_get_key_vector, InnerNode_get_children_vector.
  cbn [level count keys slots].
  repeat split; try done; try solve_len; try list_idx.
  intros Htwo.
  assert (Hpos : 1 ≤ count nd / 2) by (apply Nat.div_le_lower_bound; lia).
  rewrite lookup_take_lt by lia. done.
Qed.

Lemma LeafNode_split_empty nd buffer : count nd = 0 → LeafNode_split nd buffer = None.
Proof. intros Hz. unfold LeafNode_split. rewrite Hz. done. Qed.

Lemma InnerNode_split_empty nd buffer : count nd = 0 → InnerNode_split nd buffer = None.
Proof. intros Hz. unfold InnerNode_split. rewrite Hz. done. Qed.

(** ** The buffer manager: weakest preconditions *)

Section bm_wp.
Context {A B : Type}.
Implicit Types (Q : A → BufferManager → Prop) (R : exn → BufferManager → Prop).

Lemma wp_ret (a : A) Q R bm : Q a bm → wp (mret a) Q R bm.
Proof. done. Qed.

Lemma wp_bind (m : BM A) (f : A → BM B) (Q : B → BufferManager → Prop) R bm :
  wp m (λ a, wp (f a) Q R) R bm → wp (m ≫= f) Q R bm.
Proof. unfold wp, mbind, BM_bind. by destruct (m bm). Qed.

Lemma wp_mono (m : BM A) Q Q' R R' bm :
  wp m Q' R' bm →
  (∀ a bm', Q' a bm' → Q a bm') → (∀ e bm', R' e bm' → R e bm') →
  wp m Q R bm.
Proof. unfold wp. destruct (m bm); auto. Qed.

Lemma wp_throw e Q R bm : R e bm → wp (bm_throw (A:=A) e) Q R bm.
Proof. done. Qed.

Lemma wp_undefined Q R bm : wp (bm_undefined (A:=A)) Q R bm.
Proof. done. Qed.

Lemma wp_blocked Q R bm : wp (bm_blocked (A:=A)) Q R bm.
Proof. done. Qed.

Lemma wp_some (o : option A) Q R bm :
  (∀ a, o = Some a → Q a bm) → wp (bm_some o) Q R bm.
Proof. destruct o; simpl; [|done]. intros H. by apply H. Qed.

Lemma wp_wait (o : option A) Q R bm :
  (∀ a, o = Some a → Q a bm) → wp (bm_wait o) Q R bm.
Proof. destruct o; simpl; [|done]. intros H. by apply H. Qed.
End bm_wp.

Lemma wp_get (Q : BufferManager → BufferManager → Prop) R bm :
  Q bm bm → wp bm_get Q R bm.
Proof. done. Qed.

Lemma wp_assert NDEBUG c (Q : unit → BufferManager → Prop) R bm :
  (NDEBUG = true ∨ c = true → Q () bm) → wp (bm_assert NDEBUG c) Q R bm.
Proof.
  unfold bm_assert. intros H. destruct NDEBUG; simpl; [apply H; by left|].
  destruct c; simpl; [apply H; by right|done].
Qed.

Lemma wp_get_frame p (Q : BufferFrame → BufferManager → Prop) R bm :
  (∀ f, pageTable bm !! p = Some f → Q f bm) → wp (get_frame p) Q R bm.
Proof.
  intros H. unfold get_frame. apply wp_bind, wp_get, wp_some. done.
Qed.

Lemma wp_set_frame p f (Q : unit → BufferManager → Prop) R bm :
  Q () (with_frame p f bm) → wp (set_frame p f) Q R bm.
Proof. done. Qed.

Lemma wp_set_fifoList l (Q : unit → BufferManager → Prop) R bm :
  Q () (mkBM (pageSize bm) (pageCount bm) (segments bm) (pageTable bm) l
          (lruList bm) (heap bm)) →
  wp (set_fifoList l) Q R bm.
Proof. done. Qed.

Lemma wp_set_lruList l (Q : unit → BufferManager → Prop) R bm :
  Q () (mkBM (pageSize bm) (pageCount bm) (segments bm) (pageTable bm)
          (fifoList bm) l (heap bm)) →
  wp (set_lruList l) Q R bm.
Proof. done. Qed.

Lemma wp_set_heap h (Q : unit → BufferManager → Prop) R bm :
  Q () (mkBM (pageSize bm) (pageCount bm) (segments bm) (pageTable bm)
          (fifoList bm) (lruList bm) h) →
  wp (set_heap h) Q R bm.
Proof. done. Qed.

Lemma wp_set_segments sg (Q : unit → BufferManager → Prop) R bm :
  Q () (mkBM (pageSize bm) (pageCount bm) sg (pageTable bm)
          (fifoList bm) (lruList bm) (heap bm)) →
  wp (set_segments sg) Q R bm.
Proof. done. Qed.

(** One step of a call: the rule of the operation at its head. *)
Ltac wp_step :=
  lazymatch goal with
  | |- wp (mbind _ _) _ _ _ => apply wp_bind
  | |- wp (mret _) _ _ _ => apply wp_ret
  | |- wp bm_get _ _ _ => apply wp_get
  | |- wp (bm_throw _) _ _ _ => apply wp_throw
  | |- wp bm_undefined _ _ _ => apply wp_undefined
  | |- wp bm_blocked _ _ _ => apply wp_blocked
  | |- wp (bm_some _) _ _ _ => apply wp_some; intros ? ?
  | |- wp (bm_wait _) _ _ _ => apply wp_wait; intros ? ?
  | |- wp (bm_assert _ _) _ _ _ => apply wp_assert; intros ?
  | |- wp (get_frame _) _ _ _ => apply wp_get_frame; intros ? ?
  | |- wp (set_frame _ _) _ _ _ => apply wp_set_frame
  | |- wp (set_fifoList _) _ _ _ => apply wp_set_fifoList
  | |- wp (set_lruList _) _ _ _ => apply wp_set_lruList
  | |- wp (set_heap _) _ _ _ => apply wp_set_heap
  | |- wp (set_segments _) _ _ _ => apply wp_set_segments
  | |- wp (set_pageState _ _) _ _ _ => unfold set_pageState
  | |- wp (set_pageLatch _ _) _ _ _ => unfold set_pageLatch
  | |- wp (set_loadingLatch _ _) _ _ _ => unfold set_loadingLatch
  | |- wp (set_isDirty _ _) _ _ _ => unfold set_isDirty
  | |- wp (set_data _ _) _ _ _ => unfold set_data
  | |- wp (free_data _) _ _ _ => unfold free_data
  | |- wp (if ?c then _ else _) _ _ _ => destruct c eqn:?
  | |- wp (match ?c with _ => _ end) _ _ _ => destruct c eqn:?
  | |- wp (let '(_, _) := ?c in _) _ _ _ => destruct c eqn:?
  end.

Ltac wp_go := repeat wp_step.

(** *** Calls that end *)

Section bm_twp.
Context {A B : Type}.
Implicit Types (Q : A → BufferManager → Prop) (R : exn → BufferManager → Prop).

Lemma twp_ret (a : A) Q R bm : Q a bm → twp (mret a) Q R bm.
Proof. done. Qed.

Lemma twp_bind (m : BM A) (f : A → BM B) (Q : B → BufferManager → Prop) R bm :
  twp m (λ a, twp (f a) Q R) R bm → twp (m ≫= f) Q R bm.
Proof. unfold twp, mbind, BM_bind. by destruct (m bm). Qed.

Lemma twp_mono (m : BM A) Q Q' R R' bm :
  twp m Q' R' bm →
  (∀ a bm', Q' a bm' → Q a bm') → (∀ e bm', R' e bm' → R e bm') →
  twp m Q R bm.
Proof. unfold twp. destruct (m bm); auto. Qed.

Lemma twp_throw e Q R bm : R e bm → twp (bm_throw (A:=A) e) Q R bm.
Proof. done. Qed.

Lemma twp_some (o : option A) a Q R bm :
  o = Some a → Q a bm → twp (bm_some o) Q R bm.
Proof. by intros ->. Qed.

Lemma twp_wait (o : option A) a Q R bm :
  o = Some a → Q a bm → twp (bm_wait o) Q R bm.
Proof. by intros ->. Qed.

Lemma twp_eq (m : BM A) Q R bm :
  twp m Q R bm ↔
  (∃ a bm', m bm = Ok a bm' ∧ Q a bm') ∨ (∃ e bm', m bm = Throw e bm' ∧ R e bm').
Proof.
  unfold twp. destruct (m bm) as [a b|e b| |]; split.
  - intros H. left. eauto.
  - intros [(a' & b' & Heq & H)|(e' & b' & Heq & H)]; by simplify_eq.
  - intros H. right. eauto.
  - intros [(a' & b' & Heq & H)|(e' & b' & Heq & H)]; by simplify_eq.
  - done.
  - intros [(a' & b' & Heq & H)|(e' & b' & Heq & H)]; by simplify_eq.
  - done.
  - intros [(a' & b' & Heq & H)|(e' & b' & Heq & H)]; by simplify_eq.
Qed.
End bm_twp.

Lemma twp_get (Q : BufferManager → BufferManager → Prop) R bm :
  Q bm bm → twp bm_get Q R bm.
Proof. done. Qed.

Lemma twp_assert NDEBUG c (Q : unit → BufferManager → Prop) R bm :
  c = true → Q () bm → twp (bm_assert NDEBUG c) Q R bm.
Proof. intros ->. unfold bm_assert. by rewrite orb_true_r. Qed.

Lemma twp_get_frame p f (Q : BufferFrame → BufferManager → Prop) R bm :
  pageTable bm !! p = Some f → Q f bm → twp (get_frame p) Q R bm.
Proof.
  intros Hp HQ. unfold get_frame. apply twp_bind, twp_get.
  by eapply twp_some.
Qed.

Lemma twp_set_frame p f (Q : unit → BufferManager → Prop) R bm :
  Q () (with_frame p f bm) → twp (set_frame p f) Q R bm.
Proof. done. Qed.

Lemma twp_set_fifoList l (Q : unit → BufferManager → Prop) R bm :
  Q () (mkBM (pageSize bm) (pageCount bm) (segments bm) (pageTable bm) l
          (lruList bm) (heap bm)) →
  twp (set_fifoList l) Q R bm.
Proof. done. Qed.

Lemma twp_set_lruList l (Q : unit → BufferManager → Prop) R bm :
  Q () (mkBM (pageSize bm) (pageCount bm) (segments bm) (pageTable bm)
          (fifoList bm) l (heap bm)) →
  twp (set_lruList l) Q R bm.
Proof. done. Qed.

Lemma twp_set_heap h (Q : unit → BufferManager → Prop) R bm :
  Q () (mkBM (pageSize bm) (pageCount bm) (segments bm) (pageTable bm)
          (fifoList bm) (lruList bm) h) →
  twp (set_heap h) Q R bm.
Proof. done. Qed.

Lemma twp_set_segments sg (Q : unit → BufferManager → Prop) R bm :
  Q () (mkBM (pageSize bm) (pageCount bm) sg (pageTable bm)
          (fifoList bm) (lruList bm) (heap bm)) →
  twp (set_segments sg) Q R bm.
Proof. done. Qed.

(** The frame table of a state written out. *)
Ltac tbl_norm :=
  cbn [pageTable fifoList lruList heap segments pageSize pageCount with_frame
       evicted pid pageState pageLatch loadingLatch isDirty data with_latch];
  rewrite ?lookup_insert_eq.

Ltac twp_step :=
  lazymatch goal with
  | |- twp (mbind _ _) _ _ _ => apply twp_bind
  | |- twp (mret _) _ _ _ => apply twp_ret
  | |- twp bm_get _ _ _ => apply twp_get
  | |- twp (bm_throw _) _ _ _ => apply twp_throw
  | |- twp (get_frame _) _ _ _ =>
      eapply twp_get_frame; [tbl_norm; first [reflexivity|eassumption]|]
  | |- twp (set_frame _ _) _ _ _ => apply twp_set_frame
  | |- twp (set_fifoList _) _ _ _ => apply twp_set_fifoList
  | |- twp (set_lruList _) _ _ _ => apply twp_set_lruList
  | |- twp (set_heap _) _ _ _ => apply twp_set_heap
  | |- twp (set_segments _) _ _ _ => apply twp_set_segments
  | |- twp (set_pageState _ _) _ _ _ => unfold set_pageState
  | |- twp (set_pageLatch _ _) _ _ _ => unfold set_pageLatch
  | |- twp (set_loadingLatch _ _) _ _ _ => unfold set_loadingLatch
  | |- twp (set_isDirty _ _) _ _ _ => unfold set_isDirty
  | |- twp (set_data _ _) _ _ _ => unfold set_data
  | |- twp (free_data _) _ _ _ => unfold free_data
  end.

Ltac twp_go := repeat (twp_step; cbn [pid pageState pageLatch loadingLatch isDirty data]).

(** ** Resident frames have a buffer *)

Lemma rhd_with_frame bm p f f' :
  resident_has_data bm → pageTable bm !! p = Some f →
  (resident f' → resident f ∧ data f' = data f ∨ data f' ≠ 0%Z) →
  resident_has_data (with_frame p f' bm).
Proof.
  intros HI Hp Hf q g Hq Hres. cbn in Hq.
  destruct (decide (p = q)) as [->|Hne].
  - rewrite lookup_insert_eq in Hq. simplify_eq.
    destruct (Hf Hres) as [[Hr ->]|?]; [|done]. by eapply HI.
  - rewrite lookup_insert_ne in Hq by done. by eapply HI.
Qed.

Lemma rhd_new_frame bm p f' :
  resident_has_data bm → (resident f' → data f' ≠ 0%Z) →
  resident_has_data (with_frame p f' bm).
Proof.
  intros HI Hf q g Hq Hres. cbn in Hq.
  destruct (decide (p = q)) as [->|Hne].
  - rewrite lookup_insert_eq in Hq. simplify_eq. auto.
  - rewrite lookup_insert_ne in Hq by done. by eapply HI.
Qed.

Lemma rhd_table bm bm' :
  pageTable bm' = pageTable bm → resident_has_data bm → resident_has_data bm'.
Proof. intros Ht HI q g Hq. rewrite Ht in Hq. by apply (HI q g). Qed.

Ltac rhd_side :=
  cbn; unfold resident; cbn; intros;
  first [ solve [tauto] | solve [left; split; [assumption|reflexivity]]
        | solve [intuition congruence] | idtac ].

Ltac rhd_solve :=
  lazymatch goal with
  | H : resident_has_data ?bm |- resident_has_data ?bm => exact H
  | |- resident_has_data (with_frame ?p _ ?bm) =>
      lazymatch goal with
      | H : pageTable bm !! p = Some ?f |- _ =>
          apply (rhd_with_frame bm p f); [rhd_solve|exact H|rhd_side]
      end
  | |- resident_has_data (mkBM _ _ _ (pageTable ?bm) _ _ _) =>
      apply (rhd_table bm); [reflexivity|rhd_solve]
  end.

(** A call of a procedure that keeps the invariant [I]. *)
Ltac wp_call lem :=
  eapply wp_mono; [eapply lem|cbn beta; intros ? ? ?|cbn beta; intros ? ? ?; try assumption].

Section bm_invariant.
Variable NDEBUG : bool.
Variable malloc : gmap Z (list Z) → Z.
Hypothesis malloc_nonnull : ∀ h, malloc h ≠ 0%Z.

Abbreviation I0 := (λ _ : unit, resident_has_data).
Abbreviation keeps m := (∀ bm, resident_has_data bm →
  wp m (λ _, resident_has_data) (λ _, resident_has_data) bm).

Lemma unfix_page_rhd page is_dirty : keeps (unfix_page page is_dirty).
Proof. intros bm HI. unfold unfix_page. wp_go. rhd_solve. Qed.

Lemma get_data_rhd p : keeps (get_data NDEBUG p).
Proof. intros bm HI. unfold get_data. wp_go. done. Qed.

Lemma flushPage_rhd p : keeps (flushPage NDEBUG p).
Proof.
  intros bm HI. unfold flushPage. wp_go.
  wp_call get_data_rhd; [done|]. wp_go. rhd_solve.
Qed.

Lemma lockEvictableFrame_rhd l : ∀ i, keeps (lockEvictableFrame l i).
Proof.
  induction l as [|p l IH]; intros i bm HI; simpl; wp_go.
  - done.
  - rhd_solve.
  - by apply IH.
Qed.

Lemma evict_rhd bf st : keeps (evict NDEBUG bf st).
Proof.
  intros bm HI. unfold evict. wp_go.
  - wp_call flushPage_rhd; [done|]. wp_go. rhd_solve.
  - rhd_solve.
Qed.

Lemma insertBufferFrame_rhd frame : keeps (insertBufferFrame NDEBUG frame).
Proof.
  intros bm HI. unfold insertBufferFrame. wp_go.
  - rhd_solve.
  - wp_call lockEvictableFrame_rhd; [done|]. wp_go.
    + wp_call evict_rhd; [rhd_solve|]. wp_go. done.
    + wp_call lockEvictableFrame_rhd; [done|]. wp_go.
      * wp_call evict_rhd; [rhd_solve|]. wp_go. done.
      * done.
Qed.

Lemma getSegmentData_rhd p : keeps (getSegmentData p).
Proof. intros bm HI. unfold getSegmentData. wp_go; rhd_solve. Qed.

Lemma loadPage_rhd frame : keeps (loadPage NDEBUG malloc frame).
Proof.
  intros bm HI. unfold loadPage. wp_go; try rhd_solve.
  wp_call insertBufferFrame_rhd; [rhd_solve|]. wp_go.
  - rhd_solve.
  - wp_call getSegmentData_rhd; [done|]. wp_go.
    repeat match goal with
    | H : pageTable _ !! frame = Some _ |- _ =>
        progress cbn in H; rewrite lookup_insert_eq in H; injection H as <-
    end.
    do 2 (apply rhd_new_frame; [|cbn; intros _; apply malloc_nonnull]).
    eapply rhd_table; [reflexivity|].
    apply rhd_new_frame; [done|cbn; intros _; apply malloc_nonnull].
Qed.

Lemma updateLru_rhd frame : keeps (updateLru NDEBUG frame).
Proof. intros bm HI. unfold updateLru. wp_go. rhd_solve. Qed.

Lemma getBufferFrame_rhd p : keeps (getBufferFrame p).
Proof.
  intros bm HI. unfold getBufferFrame. wp_go; [done|].
  apply rhd_new_frame; [done|]. unfold resident. cbn. intros [|]; done.
Qed.

Lemma fix_page_rhd page_id exclusive :
  keeps (fix_page NDEBUG malloc page_id exclusive).
Proof.
  intros bm HI. unfold fix_page. wp_go.
  all: wp_call getBufferFrame_rhd; [done|]; wp_go.
  all: try (wp_call updateLru_rhd; [rhd_solve|]; wp_go; done).
  all: try (wp_call loadPage_rhd; [rhd_solve|]; wp_go; try rhd_solve; done).
  all: try rhd_solve.
  left. split; [|done]. left.
  match goal with
  | H1 : pageTable ?s1 !! ?a = Some ?f1, H2 : pageTable ?s2 !! ?a = Some ?f3,
    Hst : pageState ?f1 = IN_FIFO |- pageState ?f3 = IN_FIFO =>
      cbn in H1, H2; rewrite H1 in H2; by injection H2 as <-
  end.
Qed.

(** In every reachable state a frame in [IN_FIFO] or [IN_LRU] has a
    non-null [data]. *)
Lemma reachable_resident_has_data bm :
  bm_reachable NDEBUG malloc bm → resident_has_data bm.
Proof.
  induction 1 as [ps pc|bm p e fr bm' _ IH Hfix|bm p e ex bm' _ IH Hfix|bm p d bm' _ IH Hun].
  - intros p f Hp. cbn in Hp. by rewrite lookup_empty in Hp.
  - pose proof (fix_page_rhd p e bm IH) as Hwp. unfold wp in Hwp. by rewrite Hfix in Hwp.
  - pose proof (fix_page_rhd p e bm IH) as Hwp. unfold wp in Hwp. by rewrite Hfix in Hwp.
  - pose proof (unfix_page_rhd p d bm IH) as Hwp. unfold wp in Hwp. by rewrite Hun in Hwp.
Qed.
End bm_invariant.

(** ** [fix_page] of a page that is not loaded *)

Lemma first_evictable_app bm l1 l2 :
  first_evictable bm (l1 ++ l2) =
  match first_evictable bm l1 with
  | Some j => Some j
  | None => (λ j, length l1 + j) <$> first_evictable bm l2
  end.
Proof.
  induction l1 as [|p l1 IH]; simpl.
  - by destruct (first_evictable bm l2).
  - destruct (evictable bm p); [done|]. rewrite IH.
    destruct (first_evictable bm l1); [done|].
    by destruct (first_evictable bm l2).
Qed.

Lemma first_evictable_Some bm l j :
  first_evictable bm l = Some j →
  ∃ q, l !! j = Some q ∧ evictable bm q = true ∧
       ∀ i q', i < j → l !! i = Some q' → evictable bm q' = false.
Proof.
  revert j. induction l as [|p l IH]; intros j; simpl; [done|].
  destruct (evictable bm p) eqn:Hp.
  - intros [= <-]. exists p. split; [done|]. split; [done|]. intros; lia.
  - destruct (first_evictable bm l) as [j'|]; [|done]. intros [= <-].
    destruct (IH j' eq_refl) as (q & Hq & Hev & Hmin).
    exists q. split; [done|]. split; [done|].
    intros [|i] q' Hi Hq'; simpl in Hq'; [by simplify_eq|].
    eapply Hmin; [|done]. lia.
Qed.

Lemma first_evictable_None bm l :
  first_evictable bm l = None ↔ ∀ q, q ∈ l → evictable bm q = false.
Proof.
  induction l as [|p l IH]; simpl.
  - split; [by intros _ q ?%elem_of_nil|done].
  - destruct (evictable bm p) eqn:Hp.
    + split; [done|]. intros H. rewrite H in Hp; [done|by left].
    + destruct (first_evictable bm l); simpl.
      * split; [done|]. intros H. destruct IH as [_ IH].
        discriminate IH. intros q Hq. apply H. by right.
      * split; [|done]. intros _ q [->|Hq]%elem_of_cons; [done|].
        by apply IH.
Qed.

Lemma lockEvictableFrame_twp l : ∀ i bm (Q : option nat → BufferManager → Prop) R,
  (∀ q, q ∈ l → is_Some (pageTable bm !! q)) →
  match first_evictable bm l with
  | None => Q None bm
  | Some j =>
      ∀ q f, l !! j = Some q → pageTable bm !! q = Some f →
             pageLatch f = Unlocked →
             Q (Some (i + j)) (with_frame q (with_latch Exclusive f) bm)
  end →
  twp (lockEvictableFrame l i) Q R bm.
Proof.
  induction l as [|p l IH]; intros i bm Q R Hex HQ; simpl in *.
  - by apply twp_ret.
  - destruct (Hex p) as [f Hf]; [by left|].
    twp_go. unfold evictable in HQ. rewrite Hf in HQ.
    destruct (pageLatch f) eqn:Hl; simpl in *.
    + twp_go. rewrite Nat.add_0_r in HQ.
      specialize (HQ p f eq_refl Hf Hl). done.
    + apply IH; [intros; apply Hex; by right|].
      destruct (first_evictable bm l) as [j|]; simpl in *; [|done].
      intros q f' Hq Hf' Hl'. specialize (HQ q f' Hq Hf' Hl').
      by replace (S (i + j)) with (i + S j) by lia.
    + apply IH; [intros; apply Hex; by right|].
      destruct (first_evictable bm l) as [j|]; simpl in *; [|done].
      intros q f' Hq Hf' Hl'. specialize (HQ q f' Hq Hf' Hl').
      by replace (S (i + j)) with (i + S j) by lia.
Qed.

Section bm_fix.
Variable NDEBUG : bool.
Variable malloc : gmap Z (list Z) → Z.

Lemma evict_twp q st bm fq (Q : unit → BufferManager → Prop) R :
  pageTable bm !! q = Some fq → pageLatch fq = Exclusive → pageState fq = st →
  st = IN_FIFO ∨ st = IN_LRU → data fq ≠ 0%Z →
  is_Some (heap bm !! data fq) →
  is_Some (segments bm !! get_segment_id (pid fq)) →
  Q () (evicted q fq bm) →
  twp (evict NDEBUG q st) Q R bm.
Proof.
  intros Hq Hl Hst Hres Hd [bytes Hb] [file Hf] HQ. unfold evict. twp_go.
  destruct (isDirty fq) eqn:Hdirty.
  - unfold flushPage. twp_go.
    eapply twp_some; [done|]. unfold get_data. twp_go.
    apply twp_assert; [apply bool_decide_eq_true; by subst|]. twp_go.
    eapply twp_some; [done|]. twp_go.
    apply twp_assert; [by apply bool_decide_eq_true|]. twp_go.
    apply twp_assert; [apply negb_true_iff; by apply Z.eqb_neq|]. twp_go.
    eapply twp_some; [by rewrite Hl|]. twp_go.
    match goal with |- Q () ?s => replace s with (evicted q fq bm); [done|] end.
    unfold evicted, with_frame. cbn. rewrite Hdirty, Hb, Hf. cbn.
    f_equal. by rewrite !insert_insert_eq.
  - twp_go.
    apply twp_assert; [by apply bool_decide_eq_true|]. twp_go.
    apply twp_assert; [apply negb_true_iff; by apply Z.eqb_neq|]. twp_go.
    eapply twp_some; [by rewrite Hl|]. twp_go.
    match goal with |- Q () ?s => replace s with (evicted q fq bm); [done|] end.
    unfold evicted, with_frame. cbn. rewrite Hdirty. cbn.
    f_equal. by rewrite !insert_insert_eq.
Qed.


Lemma insertBufferFrame_twp frame bm (Q : bool → BufferManager → Prop) R :
  queues_ok bm →
  (length (fifoList bm) + length (lruList bm) < pageCount bm →
   Q true (mkBM (pageSize bm) (pageCount bm) (segments bm) (pageTable bm)
             (fifoList bm ++ [frame]) (lruList bm) (heap bm))) →
  (pageCount bm ≤ length (fifoList bm) + length (lruList bm) →
   match first_evictable bm (fifoList bm) with
   | Some j =>
       ∀ q fq, fifoList bm !! j = Some q → pageTable bm !! q = Some fq →
         pageLatch fq = Unlocked →
         Q true (evicted q (with_latch Exclusive fq)
                   (mkBM (pageSize bm) (pageCount bm) (segments bm)
                      (<[q:=with_latch Exclusive fq]> (pageTable bm))
                      (delete j (fifoList bm) ++ [frame]) (lruList bm) (heap bm)))
   | None =>
       match first_evictable bm (lruList bm) with
       | Some j =>
           ∀ q fq, lruList bm !! j = Some q → pageTable bm !! q = Some fq →
             pageLatch fq = Unlocked →
             Q true (evicted q (with_latch Exclusive fq)
                       (mkBM (pageSize bm) (pageCount bm) (segments bm)
                          (<[q:=with_latch Exclusive fq]> (pageTable bm))
                          (fifoList bm ++ [frame]) (delete j (lruList bm)) (heap bm)))
       | None => Q false bm
       end
   end) →
  twp (insertBufferFrame NDEBUG frame) Q R bm.
Proof.
  intros [Hfifo Hlru] Hfree Hfull. unfold insertBufferFrame. twp_go.
  destruct (Nat.ltb_spec (length (fifoList bm) + length (lruList bm)) (pageCount bm))
    as [Hlt|Hge].
  { twp_go. by apply Hfree. }
  specialize (Hfull Hge). twp_go.
  apply lockEvictableFrame_twp.
  { intros q Hq. destruct (Hfifo q Hq) as (f & -> & _). by eexists. }
  destruct (first_evictable bm (fifoList bm)) as [j|] eqn:Hj.
  - intros q fq Hq Hfq Hl. specialize (Hfull q fq Hq Hfq Hl).
    destruct (Hfifo q) as (f & Hf & Hst & Hd & Hh & Hs);
      [by eapply list_elem_of_lookup_2|]. simplify_eq.
    twp_go. eapply twp_some; [tbl_norm; done|]. twp_go.
    apply twp_assert; [by apply bool_decide_eq_true|]. twp_go.
    eapply evict_twp; try (tbl_norm; done). by left.
  - twp_go. apply lockEvictableFrame_twp.
    { intros q Hq. destruct (Hlru q Hq) as (f & -> & _). by eexists. }
    destruct (first_evictable bm (lruList bm)) as [j|] eqn:Hj'.
    + intros q fq Hq Hfq Hl. specialize (Hfull q fq Hq Hfq Hl).
      destruct (Hlru q) as (f & Hf & Hst & Hd & Hh & Hs);
        [by eapply list_elem_of_lookup_2|]. simplify_eq.
      twp_go. eapply twp_some; [tbl_norm; done|]. twp_go.
      apply twp_assert; [by apply bool_decide_eq_true|]. twp_go.
      eapply evict_twp; try (tbl_norm; done). by right.
    + twp_go. done.
Qed.


Lemma with_frame_twice p f1 f2 bm :
  with_frame p f2 (with_frame p f1 bm) = with_frame p f2 bm.
Proof. unfold with_frame. cbn. by rewrite insert_insert_eq. Qed.

Lemma loadPage_twp p f bm (Q : bool → BufferManager → Prop) R :
  (∀ h, malloc h ≠ 0%Z) →
  pageTable bm !! p = Some f → pageState f = NOT_LOADED → loadingLatch f = false →
  twp (insertBufferFrame NDEBUG p)
    (λ ok bm', pageTable bm' !! p = Some (loading f) ∧
       if ok then Q true (loaded malloc p (loading f) bm')
       else Q false (with_frame p f bm'))
    R (with_frame p (loading f) bm) →
  twp (loadPage NDEBUG malloc p) Q R bm.
Proof.
  intros Hm Hp Hst Hll Hins. unfold loadPage. twp_go. rewrite Hll. twp_go.
  rewrite decide_False by (rewrite Hst; done).
  rewrite decide_False by (rewrite Hst; intros [|]; done).
  twp_go. rewrite with_frame_twice.
  eapply twp_mono; [exact Hins| |done].
  cbn beta. intros ok bm' [Hp' HQ]. destruct ok; cbn [negb].
  - unfold getSegmentData. twp_go.
    apply twp_assert; [apply negb_true_iff, Z.eqb_neq, Hm|]. twp_go.
    match goal with |- Q true ?s => replace s with (loaded malloc p (loading f) bm'); [done|] end.
    unfold loaded, with_frame. cbn. f_equal. by rewrite !insert_insert_eq.
  - twp_go.
    match goal with |- Q false ?s => replace s with (with_frame p f bm'); [done|] end.
    rewrite with_frame_twice. destruct f. cbn in *. by subst.
Qed.


Lemma acquire_unlock exclusive l0 l :
  acquire exclusive l0 = Some l → latch_unlock l = Some l0.
Proof.
  unfold acquire. destruct exclusive, l0; simpl; intros [= <-]; done.
Qed.

Lemma not_loaded_not_queued bm p :
  queues_ok bm → not_loaded bm p → (p ∉ fifoList bm) ∧ (p ∉ lruList bm).
Proof.
  intros [Hfifo Hlru] Hp. unfold not_loaded in Hp. split; intros Hin.
  - destruct (Hfifo p Hin) as (f & Hf & Hst & _). rewrite Hf in Hp.
    destruct Hp as [Hp _]. congruence.
  - destruct (Hlru p Hin) as (f & Hf & Hst & _). rewrite Hf in Hp.
    destruct Hp as [Hp _]. congruence.
Qed.

Lemma queues_ok_with_frame bm p f :
  queues_ok bm → p ∉ fifoList bm → p ∉ lruList bm → queues_ok (with_frame p f bm).
Proof.
  intros [Hfifo Hlru] Hp1 Hp2. split; intros q Hq; cbn in Hq.
  - destruct (Hfifo q Hq) as (g & Hg & ?). exists g. split; [|done].
    cbn. rewrite lookup_insert_ne; [done|]. by intros ->.
  - destruct (Hlru q Hq) as (g & Hg & ?). exists g. split; [|done].
    cbn. rewrite lookup_insert_ne; [done|]. by intros ->.
Qed.

Lemma first_evictable_with_frame bm p f l :
  p ∉ l → (first_evictable (with_frame p f bm) l = first_evictable bm l).
Proof.
  induction l as [|q l IH]; intros Hp; simpl; [done|].
  apply not_elem_of_cons in Hp as [Hne Hp].
  unfold evictable at 1. cbn. rewrite lookup_insert_ne by done.
  fold (evictable bm q). by rewrite IH.
Qed.

Lemma fix_page_not_loaded_twp p exclusive bm l (Q : Z → BufferManager → Prop) R :
  (∀ h, malloc h ≠ 0%Z) → queues_ok bm → not_loaded bm p →
  acquire exclusive (pageLatch (frame_of bm p)) = Some l →
  let fl := with_latch l (frame_of bm p) in
  let bm1 := with_frame p (loading fl) bm in
  (length (fifoList bm) + length (lruList bm) < pageCount bm →
   Q p (loaded malloc p (loading fl)
          (mkBM (pageSize bm) (pageCount bm) (segments bm) (pageTable bm1)
             (fifoList bm ++ [p]) (lruList bm) (heap bm)))) →
  (pageCount bm ≤ length (fifoList bm) + length (lruList bm) →
   match first_evictable bm (fifoList bm) with
   | Some j =>
       ∀ q fq, fifoList bm !! j = Some q → pageTable bm !! q = Some fq →
         pageLatch fq = Unlocked → q ≠ p →
         Q p (loaded malloc p (loading fl)
                (evicted q (with_latch Exclusive fq)
                   (mkBM (pageSize bm) (pageCount bm) (segments bm)
                      (<[q:=with_latch Exclusive fq]> (pageTable bm1))
                      (delete j (fifoList bm) ++ [p]) (lruList bm) (heap bm))))
   | None =>
       match first_evictable bm (lruList bm) with
       | Some j =>
           ∀ q fq, lruList bm !! j = Some q → pageTable bm !! q = Some fq →
             pageLatch fq = Unlocked → q ≠ p →
             Q p (loaded malloc p (loading fl)
                    (evicted q (with_latch Exclusive fq)
                       (mkBM (pageSize bm) (pageCount bm) (segments bm)
                          (<[q:=with_latch Exclusive fq]> (pageTable bm1))
                          (fifoList bm ++ [p]) (delete j (lruList bm)) (heap bm))))
       | None => R buffer_full_error (with_frame p (frame_of bm p) bm)
       end
   end) →
  twp (fix_page NDEBUG malloc p exclusive) Q R bm.
Proof.
  intros Hm Hq Hnl Hacq fl bm1 Hfree Hfull.
  destruct (not_loaded_not_queued bm p Hq Hnl) as [Hpf Hpl].
  assert (Hst : pageState (frame_of bm p) = NOT_LOADED ∧
                loadingLatch (frame_of bm p) = false).
  { unfold frame_of, not_loaded in *. by destruct (pageTable bm !! p). }
  destruct Hst as [Hst Hll].
  assert (Hstart : twp (getBufferFrame p)
            (λ a s, a = p ∧ (with_frame p (frame_of bm p) s = with_frame p (frame_of bm p) bm) ∧
                    pageTable s !! p = Some (frame_of bm p)) R bm).
  { unfold getBufferFrame, frame_of. twp_go.
    destruct (pageTable bm !! p) as [f|] eqn:Hp; twp_go; cbn.
    - done.
    - split; [done|]. split; [by rewrite with_frame_twice|]. cbn.
      by rewrite lookup_insert_eq. }
  unfold fix_page. apply twp_bind.
  eapply twp_mono; [exact Hstart| |done]. cbn beta.
  intros a s (-> & Hs & Hps). twp_go.
  eapply twp_wait; [exact Hacq|]. twp_go.
  assert (Hs1 : with_frame p fl s = with_frame p fl bm).
  { rewrite <- (with_frame_twice p (frame_of bm p) fl s), Hs.
    apply with_frame_twice. }
  fold (with_latch l (frame_of bm p)). fold fl. rewrite Hs1.
  rewrite Hst.
  twp_go.
  eapply (loadPage_twp p fl); [done|tbl_norm; done|done|done|].
  rewrite with_frame_twice. fold bm1.
  apply insertBufferFrame_twp.
  { by apply queues_ok_with_frame. }
  - subst bm1. cbn [fifoList lruList pageCount pageSize segments heap pageTable with_frame] in *.
    intros Hlt. split; [by rewrite lookup_insert_eq|]. cbn [negb]. twp_go. by apply Hfree.
  - intros Hge. subst bm1.
    rewrite !first_evictable_with_frame by done.
    cbn [fifoList lruList pageCount pageSize segments heap pageTable with_frame] in *.
    specialize (Hfull Hge).
    destruct (first_evictable bm (fifoList bm)) as [j|] eqn:Hj.
    + intros q fq Hqj Hfq Hl.
      assert (q ≠ p) by (intros ->; apply Hpf; by eapply list_elem_of_lookup_2).
      rewrite lookup_insert_ne in Hfq by done.
      split; [tbl_norm; by rewrite !lookup_insert_ne, lookup_insert_eq by done|].
      cbn [negb]. twp_go. by apply Hfull.
    + destruct (first_evictable bm (lruList bm)) as [j|] eqn:Hj'.
      * intros q fq Hqj Hfq Hl.
        assert (q ≠ p) by (intros ->; apply Hpl; by eapply list_elem_of_lookup_2).
        rewrite lookup_insert_ne in Hfq by done.
        split; [tbl_norm; by rewrite !lookup_insert_ne, lookup_insert_eq by done|].
        cbn [negb]. twp_go. by apply Hfull.
      * split; [by rewrite lookup_insert_eq|]. cbn [negb]. twp_go.
        eapply twp_some; [by eapply acquire_unlock|]. twp_go.
        match goal with |- R _ ?s => replace s with (with_frame p (frame_of bm p) bm); [done|] end.
        rewrite !with_frame_twice. unfold fl, with_latch.
        by destruct (frame_of bm p).
Qed.

End bm_fix.

(** ** Data pointers along a run *)

Lemma dk_with_frame bm0 x bm p f f' :
  data_kept bm0 x bm → pageTable bm !! p = Some f →
  (pageState f' = LOADING → pageState f = LOADING ∨ x = Some p) →
  data f' = data f →
  data_kept bm0 x (with_frame p f' bm).
Proof.
  intros HI Hp Hst Hd q. cbn. pose proof (HI q) as Hq.
  destruct (decide (p = q)) as [->|Hne].
  - rewrite lookup_insert_eq. rewrite Hp in Hq. destruct Hq as [Hl Hq].
    split; [|congruence]. intros H. destruct (Hst H); auto.
  - by rewrite lookup_insert_ne.
Qed.

Lemma dk_new_frame bm0 x bm p :
  data_kept bm0 x bm → pageTable bm !! p = None →
  data_kept bm0 x (with_frame p (BufferFrame_new p) bm).
Proof.
  intros HI Hp q. cbn. pose proof (HI q) as Hq.
  destruct (decide (p = q)) as [->|Hne].
  - rewrite lookup_insert_eq. rewrite Hp in Hq. split; [done|].
    unfold frame_of. by rewrite Hq.
  - by rewrite lookup_insert_ne.
Qed.

Lemma dk_table bm0 x bm bm' :
  pageTable bm' = pageTable bm → data_kept bm0 x bm → data_kept bm0 x bm'.
Proof. intros Ht HI q. rewrite Ht. apply HI. Qed.

Lemma dk_start bm : no_loading bm → data_kept bm None bm.
Proof.
  intros Hn p. destruct (pageTable bm !! p) as [f|] eqn:Hp; [|done].
  split; [by intros ?%(Hn p f Hp)|]. unfold frame_of. by rewrite Hp.
Qed.

Lemma dk_weaken bm0 x bm : data_kept bm0 None bm → data_kept bm0 x bm.
Proof.
  intros HI p. specialize (HI p). destruct (pageTable bm !! p); [|done].
  destruct HI as [Hl Hd]. split; [|done]. intros H. by specialize (Hl H).
Qed.

Lemma dk_step bm0 bm : data_kept bm0 None bm → data_step bm0 bm.
Proof.
  intros HI p. specialize (HI p). destruct (pageTable bm !! p); [|done].
  destruct HI as [Hl Hd]. split; [|by left]. intros H. by specialize (Hl H).
Qed.

Lemma ds_with_frame bm0 bm p f f' :
  data_step bm0 bm → pageTable bm !! p = Some f →
  pageState f' = pageState f → data f' = data f →
  data_step bm0 (with_frame p f' bm).
Proof.
  intros HI Hp Hst Hd q. cbn. pose proof (HI q) as Hq.
  destruct (decide (p = q)) as [->|Hne].
  - rewrite lookup_insert_eq. rewrite Hp in Hq. unfold resident in *.
    rewrite Hst, Hd. done.
  - by rewrite lookup_insert_ne.
Qed.

(** The end of a load: the frame [p] is the only one changed. *)
Lemma ds_loaded bm0 bm p bm2 f' :
  data_kept bm0 (Some p) bm →
  (∀ q, q ≠ p → pageTable bm2 !! q = pageTable bm !! q) →
  pageTable bm2 !! p = Some f' → pageState f' ≠ LOADING →
  data f' = data (frame_of bm0 p) ∨ resident f' ∧ data f' ≠ 0%Z →
  data_step bm0 bm2.
Proof.
  intros HI Hoth Hp Hst Hd q. destruct (decide (q = p)) as [->|Hne].
  - by rewrite Hp.
  - rewrite Hoth by done. specialize (HI q).
    destruct (pageTable bm !! q); [|done]. destruct HI as [Hl Hq].
    split; [|by left]. intros H. specialize (Hl H). congruence.
Qed.

(** The frames read back after writes to the same page. *)
Ltac frames_read :=
  repeat match goal with
  | H : pageTable _ !! ?p = Some _ |- _ =>
      progress cbn in H; rewrite lookup_insert_eq in H; injection H as <-
  end.

Ltac dk_side :=
  cbn; intros; first [ solve [tauto] | solve [auto] | solve [intuition congruence] | idtac ].

Ltac dk_solve :=
  lazymatch goal with
  | H : data_kept ?b ?x ?bm |- data_kept ?b ?x ?bm => exact H
  | |- data_kept _ _ (with_frame ?p _ ?bm) =>
      lazymatch goal with
      | H : pageTable bm !! p = Some ?f |- _ =>
          apply (dk_with_frame _ _ bm p f); [dk_solve|exact H|dk_side..]
      end
  | |- data_kept _ _ (mkBM _ _ _ (pageTable ?bm) _ _ _) =>
      apply (dk_table _ _ bm); [reflexivity|dk_solve]
  end.

(** A call of a procedure that keeps the data pointers and never throws. *)
Ltac dk_call lem :=
  eapply wp_mono; [eapply lem|cbn beta; intros ? ? ?|cbn beta; intros ? ? []].

Section bm_data.
Variable NDEBUG : bool.
Variable malloc : gmap Z (list Z) → Z.
Hypothesis malloc_nonnull : ∀ h, malloc h ≠ 0%Z.
Variable bm0 : BufferManager.

Abbreviation keeps_data x m := (∀ bm, data_kept bm0 x bm →
  wp m (λ _, data_kept bm0 x) (λ _ _, False) bm).

Lemma unfix_page_dk x page is_dirty : keeps_data x (unfix_page page is_dirty).
Proof. intros bm HI. unfold unfix_page. wp_go. dk_solve. Qed.

Lemma get_data_dk x p : keeps_data x (get_data NDEBUG p).
Proof. intros bm HI. unfold get_data. wp_go. done. Qed.

Lemma flushPage_dk x p : keeps_data x (flushPage NDEBUG p).
Proof.
  intros bm HI. unfold flushPage. wp_go.
  dk_call (get_data_dk x); [done|]. wp_go. dk_solve.
Qed.

Lemma lockEvictableFrame_dk x l : ∀ i, keeps_data x (lockEvictableFrame l i).
Proof.
  induction l as [|p l IH]; intros i bm HI; simpl; wp_go.
  - done.
  - dk_solve.
  - by apply IH.
Qed.

Lemma evict_dk x bf st : keeps_data x (evict NDEBUG bf st).
Proof.
  intros bm HI. unfold evict. wp_go.
  - dk_call (flushPage_dk x); [done|]. wp_go. dk_solve.
  - dk_solve.
Qed.

Lemma insertBufferFrame_dk x frame : keeps_data x (insertBufferFrame NDEBUG frame).
Proof.
  intros bm HI. unfold insertBufferFrame. wp_go.
  - dk_solve.
  - dk_call (lockEvictableFrame_dk x); [done|]. wp_go.
    + dk_call (evict_dk x); [dk_solve|]. wp_go. done.
    + dk_call (lockEvictableFrame_dk x); [done|]. wp_go.
      * dk_call (evict_dk x); [dk_solve|]. wp_go. done.
      * done.
Qed.

Lemma getSegmentData_dk x p : keeps_data x (getSegmentData p).
Proof. intros bm HI. unfold getSegmentData. wp_go; dk_solve. Qed.

Lemma updateLru_dk x frame : keeps_data x (updateLru NDEBUG frame).
Proof. intros bm HI. unfold updateLru. wp_go. dk_solve. Qed.

Lemma getBufferFrame_dk x p : keeps_data x (getBufferFrame p).
Proof.
  intros bm HI. unfold getBufferFrame. wp_go; [done|].
  by apply dk_new_frame.
Qed.

Lemma loadPage_ds frame bm :
  data_kept bm0 None bm →
  wp (loadPage NDEBUG malloc frame) (λ _, data_step bm0) (λ _, data_step bm0) bm.
Proof.
  intros HI. unfold loadPage. wp_go.
  - pose proof (HI frame) as Hf. rewrite H in Hf. destruct Hf as [Hl _].
    by specialize (Hl e).
  - apply dk_step. dk_solve.
  - dk_call (insertBufferFrame_dk (Some frame)).
    { apply (dk_weaken _ (Some frame)) in HI. dk_solve. }
    wp_go.
    + pose proof (H2 frame) as Hf. rewrite H3 in Hf. destruct Hf as [_ Hd].
      frames_read.
      eapply (ds_loaded bm0 bm' frame); [exact H2| | | |].
      * intros q Hq. cbn. by rewrite !lookup_insert_ne.
      * cbn. apply lookup_insert_eq.
      * done.
      * by left.
    + dk_call (getSegmentData_dk (Some frame)); [done|]. wp_go.
      frames_read.
      eapply (ds_loaded bm0 _ frame); [eassumption| | | |].
      * intros q Hq. cbn. by rewrite !lookup_insert_ne.
      * cbn. apply lookup_insert_eq.
      * done.
      * right. split; [by left|]. cbn. apply malloc_nonnull.
Qed.

Lemma fix_page_ds page_id exclusive bm :
  data_kept bm0 None bm →
  wp (fix_page NDEBUG malloc page_id exclusive) (λ _, data_step bm0)
    (λ _, data_step bm0) bm.
Proof.
  intros HI. unfold fix_page.
  apply wp_bind. dk_call (getBufferFrame_dk None); [done|].
  wp_go.
  all: try (dk_call (updateLru_dk None); [dk_solve|]; wp_go; by apply dk_step).
  all: try (apply dk_step; dk_solve).
  all: try (frames_read; cbn in *;
            match goal with
            | HI : data_kept _ None ?b, Hp : pageTable ?b !! ?a = Some ?f,
              Hl : pageState ?f = LOADING |- _ =>
                pose proof (HI a) as Hc; rewrite Hp in Hc;
                destruct Hc as [Hc _]; by specialize (Hc Hl)
            end).
  eapply wp_mono; [apply loadPage_ds; dk_solve|cbn beta; intros ok bm1 H1'|done].
  wp_go; [|done].
  eapply ds_with_frame; [done|done|done|done].
Qed.

Lemma unfix_page_ds page is_dirty bm :
  data_kept bm0 None bm →
  wp (unfix_page page is_dirty) (λ _, data_step bm0) (λ _, data_step bm0) bm.
Proof.
  intros HI. eapply wp_mono; [by apply (unfix_page_dk None)| |done].
  intros ? bm'. apply dk_step.
Qed.
End bm_data.

Section bm_runs.
Variable NDEBUG : bool.
Variable malloc : gmap Z (list Z) → Z.
Hypothesis malloc_nonnull : ∀ h, malloc h ≠ 0%Z.

Lemma bm_run_reachable bm hist :
  bm_run NDEBUG malloc (bm :: hist) → bm_reachable NDEBUG malloc bm.
Proof.
  remember (bm :: hist) as h eqn:Hh. intros Hr. revert bm hist Hh.
  induction Hr as [ps pc|bm hist p e fr bm' _ IH Hfix|bm hist p e ex bm' _ IH Hfix
                  |bm hist p d bm' _ IH Hun]; intros b h' [= <- <-].
  - constructor.
  - eapply reach_fix; [by eapply IH|done].
  - eapply reach_fix_throw; [by eapply IH|done].
  - eapply reach_unfix; [by eapply IH|done].
Qed.

Lemma run_inv_step bm hist bm' :
  resident_has_data bm' → run_inv bm (bm :: hist) → data_step bm bm' →
  run_inv bm' (bm' :: bm :: hist).
Proof.
  intros Hrhd (Hn & Hnz & Hwas) Hds. split; [|split].
  - intros p f Hp. specialize (Hds p). rewrite Hp in Hds. by destruct Hds.
  - intros p f Hp Hd. pose proof (Hds p) as Hs. rewrite Hp in Hs.
    destruct Hs as [_ [Heq|[Hres _]]].
    + unfold frame_of in Heq. destruct (pageTable bm !! p) as [g|] eqn:Hg.
      * destruct (Hnz p g Hg) as (b & g' & Hb & Hg' & Hr); [simpl in Heq; congruence|].
        exists b, g'. split; [by right|done].
      * simpl in Heq. congruence.
    + exists bm', f. split; [by left|done].
  - intros p (b & g & Hb & Hg & Hr). apply elem_of_cons in Hb as [->|Hb].
    + exists g. split; [done|]. by apply (Hrhd p g).
    + destruct (Hwas p) as (f & Hf & Hd); [by exists b, g|].
      pose proof (Hds p) as Hs. destruct (pageTable bm' !! p) as [f'|] eqn:Hf'.
      * exists f'. split; [done|]. destruct Hs as [_ [Heq|[_ ?]]]; [|done].
        unfold frame_of in Heq. rewrite Hf in Heq. simpl in Heq. congruence.
      * congruence.
Qed.

Lemma bm_run_inv bm hist :
  bm_run NDEBUG malloc (bm :: hist) → run_inv bm (bm :: hist).
Proof using malloc_nonnull.
  intros Hrun. pose proof Hrun as Hrun0.
  remember (bm :: hist) as h eqn:Hh. revert bm hist Hh Hrun0.
  induction Hrun as [ps pc|bm hist p e fr bm' Hr IH Hfix|bm hist p e ex bm' Hr IH Hfix
                    |bm hist p d bm' Hr IH Hun]; intros b h' [= <- <-] Hrun0.
  - split; [|split].
    + intros p f Hp. cbn in Hp. by rewrite lookup_empty in Hp.
    + intros p f Hp. cbn in Hp. by rewrite lookup_empty in Hp.
    + intros p (b & g & Hb & Hg & _). apply list_elem_of_singleton in Hb as ->.
      cbn in Hg. by rewrite lookup_empty in Hg.
  - specialize (IH bm hist eq_refl Hr).
    apply run_inv_step; [|done|].
    + by apply (reachable_resident_has_data NDEBUG malloc malloc_nonnull),
        (bm_run_reachable _ _ Hrun0).
    + pose proof (fix_page_ds NDEBUG malloc malloc_nonnull bm p e bm
                    (dk_start bm (proj1 IH))) as Hwp.
      unfold wp in Hwp. by rewrite Hfix in Hwp.
  - specialize (IH bm hist eq_refl Hr).
    apply run_inv_step; [|done|].
    + by apply (reachable_resident_has_data NDEBUG malloc malloc_nonnull),
        (bm_run_reachable _ _ Hrun0).
    + pose proof (fix_page_ds NDEBUG malloc malloc_nonnull bm p e bm
                    (dk_start bm (proj1 IH))) as Hwp.
      unfold wp in Hwp. by rewrite Hfix in Hwp.
  - specialize (IH bm hist eq_refl Hr).
    apply run_inv_step; [|done|].
    + by apply (reachable_resident_has_data NDEBUG malloc malloc_nonnull),
        (bm_run_reachable _ _ Hrun0).
    + pose proof (unfix_page_ds bm p d bm (dk_start bm (proj1 IH))) as Hwp.
      unfold wp in Hwp. by rewrite Hun in Hwp.
Qed.
End bm_runs.
(** ** The queues: resident pages and capacity *)

Lemma find_erase_elem p l :
  p ∈ l → ∃ l1 l2, l = l1 ++ p :: l2 ∧ (p ∉ l1) ∧ find_erase p l = (true, l1 ++ l2).
Proof.
  induction l as [|q l IH]; [by intros ?%elem_of_nil|].
  intros Hin. cbn [find_erase]. destruct (Z.eqb_spec q p) as [->|Hne].
  - exists [], l. split; [done|]. split; [apply not_elem_of_nil|done].
  - apply elem_of_cons in Hin as [->|Hin]; [done|].
    destruct (IH Hin) as (l1 & l2 & -> & Hn & ->).
    exists (q :: l1), l2. split; [done|]. split; [|done].
    apply not_elem_of_cons. split; [congruence|done].
Qed.

Lemma find_erase_first p l1 l2 :
  p ∉ l1 → find_erase p (l1 ++ p :: l2) = (true, l1 ++ l2).
Proof.
  induction l1 as [|q l1 IH]; intros Hn; cbn [find_erase app].
  - by rewrite Z.eqb_refl.
  - apply not_elem_of_cons in Hn as [Hne Hn].
    destruct (Z.eqb_spec q p) as [->|_]; [done|]. by rewrite IH.
Qed.

Section bm_resident.
Variable NDEBUG : bool.
Variable malloc : gmap Z (list Z) → Z.

Lemma fix_page_resident_twp p f exclusive l bm (Q : Z → BufferManager → Prop) R :
  pageTable bm !! p = Some f →
  acquire exclusive (pageLatch f) = Some l →
  match pageState f with
  | IN_FIFO =>
      ∃ l1 l2, fifoList bm = l1 ++ p :: l2 ∧ (p ∉ l1) ∧
        Q p (mkBM (pageSize bm) (pageCount bm) (segments bm)
               (<[p:=mkFrame (pid f) IN_LRU l (loadingLatch f) (isDirty f) (data f)]>
                  (pageTable bm))
               (l1 ++ l2) (lruList bm ++ [p]) (heap bm))
  | IN_LRU =>
      ∃ l1 l2, lruList bm = l1 ++ p :: l2 ∧ (p ∉ l1) ∧
        Q p (mkBM (pageSize bm) (pageCount bm) (segments bm)
               (<[p:=with_latch l f]> (pageTable bm))
               (fifoList bm) ((l1 ++ l2) ++ [p]) (heap bm))
  | _ => False
  end →
  twp (fix_page NDEBUG malloc p exclusive) Q R bm.
Proof.
  intros Hp Hacq HQ. unfold fix_page, getBufferFrame.
  twp_go. rewrite Hp. twp_go.
  eapply twp_wait; [exact Hacq|]. twp_go.
  destruct (pageState f) eqn:Hst; try done.
  - destruct HQ as (l1 & l2 & Hfifo & Hn & HQ).
    twp_go. rewrite decide_False by (cbn; congruence).
    apply twp_bind, twp_assert; [by apply bool_decide_eq_true_2|].
    twp_go. cbn [fifoList with_frame]. rewrite Hfifo, find_erase_first by done.
    apply twp_bind, twp_assert; [done|]. twp_go.
    unfold with_frame. tbl_norm. rewrite insert_insert_eq. exact HQ.
  - destruct HQ as (l1 & l2 & Hlru & Hn & HQ).
    unfold updateLru. twp_go. cbn [lruList with_frame]. rewrite Hlru, find_erase_first by done.
    apply twp_bind, twp_assert; [done|]. twp_go.
    unfold with_frame. tbl_norm.
    unfold with_latch in HQ. rewrite Hst in HQ. exact HQ.
Qed.
End bm_resident.

Lemma find_erase_spec p l :
  ((p ∉ l) ∧ find_erase p l = (false, l)) ∨
  ∃ l1 l2, l = l1 ++ p :: l2 ∧ (p ∉ l1) ∧ find_erase p l = (true, l1 ++ l2).
Proof.
  destruct (decide (p ∈ l)) as [Hin|Hn].
  - right. by apply find_erase_elem.
  - left. split; [done|]. induction l as [|q l IH]; [done|].
    apply not_elem_of_cons in Hn as [Hne Hn]. cbn [find_erase].
    destruct (Z.eqb_spec q p) as [->|_]; [done|]. by rewrite IH.
Qed.

Lemma elem_of_delete_ne {A} (l : list A) i x y :
  x ∈ l → l !! i = Some y → x ≠ y → x ∈ delete i l.
Proof.
  intros [j Hj]%list_elem_of_lookup_1 Hi Hne.
  assert (j ≠ i) by (intros ->; congruence).
  apply list_elem_of_lookup. destruct (decide (j < i)).
  - exists j. rewrite list_lookup_delete. by rewrite decide_True.
  - exists (j - 1). rewrite list_lookup_delete. rewrite decide_False by lia.
    by replace (S (j - 1)) with j by lia.
Qed.

Lemma qh_with_frame F L N ex bm p f f' :
  queues_hold F L N ex bm → pageTable bm !! p = Some f →
  (pageState f' = IN_FIFO → pageState f = IN_FIFO ∨ p ∈ F ∨ p ∈ ex) →
  (pageState f' = IN_LRU → pageState f = IN_LRU ∨ p ∈ L ∨ p ∈ ex) →
  queues_hold F L N ex (with_frame p f' bm).
Proof.
  intros (HF & HL & HN & Hlen & HI) Hp H1 H2. do 4 (split; [done|]).
  intros q g Hq Hex. cbn in Hq. destruct (decide (p = q)) as [->|Hne].
  - rewrite lookup_insert_eq in Hq. injection Hq as <-.
    destruct (HI q f Hp Hex) as [Ha Hb]. split.
    + intros Hs. destruct (H1 Hs) as [?|[?|?]]; auto. done.
    + intros Hs. destruct (H2 Hs) as [?|[?|?]]; auto. done.
  - rewrite lookup_insert_ne in Hq by done. by apply (HI q g).
Qed.

Lemma qh_new_frame F L N ex bm p f' :
  queues_hold F L N ex bm →
  (pageState f' = IN_FIFO → p ∈ F ∨ p ∈ ex) →
  (pageState f' = IN_LRU → p ∈ L ∨ p ∈ ex) →
  queues_hold F L N ex (with_frame p f' bm).
Proof.
  intros (HF & HL & HN & Hlen & HI) H1 H2. do 4 (split; [done|]).
  intros q g Hq Hex. cbn in Hq. destruct (decide (p = q)) as [->|Hne].
  - rewrite lookup_insert_eq in Hq. injection Hq as <-. split.
    + intros Hs. destruct (H1 Hs) as [?|?]; auto. done.
    + intros Hs. destruct (H2 Hs) as [?|?]; auto. done.
  - rewrite lookup_insert_ne in Hq by done. by apply (HI q g).
Qed.

Lemma qh_same F L N ex bm bm' :
  pageTable bm' = pageTable bm → fifoList bm' = fifoList bm →
  lruList bm' = lruList bm → pageCount bm' = pageCount bm →
  queues_hold F L N ex bm → queues_hold F L N ex bm'.
Proof.
  intros Ht Hf Hl Hn (HF & HL & HN & Hlen & HI).
  split; [congruence|]. split; [congruence|]. split; [congruence|]. split; [done|].
  intros q g Hq. rewrite Ht in Hq. by apply HI.
Qed.

(** The queues replaced. *)
Lemma qh_lists F L N ex F' L' ex' bm bm' :
  queues_hold F L N ex bm →
  pageTable bm' = pageTable bm → pageCount bm' = pageCount bm →
  fifoList bm' = F' → lruList bm' = L' →
  length F' + length L' ≤ N →
  (∀ p f, pageTable bm !! p = Some f → p ∉ ex' →
          (pageState f = IN_FIFO → (p ∉ ex → p ∈ F) → p ∈ F') ∧
          (pageState f = IN_LRU → (p ∉ ex → p ∈ L) → p ∈ L')) →
  queues_hold F' L' N ex' bm'.
Proof.
  intros (HF & HL & HN & Hlen & HI) Ht Hn Hf Hl Hlen' Hmove.
  split; [done|]. split; [done|]. split; [congruence|]. split; [done|].
  intros p f Hp Hex. rewrite Ht in Hp. destruct (Hmove p f Hp Hex) as [H1 H2].
  split; intros Hs; [apply H1|apply H2]; try done; intros Hn'; by apply (HI p f Hp Hn').
Qed.

Lemma qh_unexempt F L N ex bf bm :
  queues_hold F L N (bf :: ex) bm →
  (∀ f, pageTable bm !! bf = Some f →
        pageState f ≠ IN_FIFO ∧ pageState f ≠ IN_LRU) →
  queues_hold F L N ex bm.
Proof.
  intros (HF & HL & HN & Hlen & HI) Hbf. do 4 (split; [done|]).
  intros p f Hp Hex. destruct (decide (p = bf)) as [->|Hne].
  - destruct (Hbf f Hp). done.
  - apply (HI p f Hp). by apply not_elem_of_cons.
Qed.

Lemma qh_exempt F L N ex bf bm :
  queues_hold F L N ex bm → queues_hold F L N (bf :: ex) bm.
Proof.
  intros (HF & HL & HN & Hlen & HI). do 4 (split; [done|]).
  intros p f Hp [_ Hex]%not_elem_of_cons. by apply (HI p f).
Qed.

Ltac qh_side :=
  cbn; intros; first [ solve [tauto] | solve [auto] | solve [intuition congruence] | idtac ].

Ltac qh_solve :=
  lazymatch goal with
  | H : queues_hold ?F ?L ?N ?ex ?bm |- queues_hold ?F ?L ?N ?ex ?bm => exact H
  | |- queues_hold _ _ _ _ (with_frame ?p _ ?bm) =>
      lazymatch goal with
      | H : pageTable bm !! p = Some ?f |- _ =>
          apply (qh_with_frame _ _ _ _ bm p f); [qh_solve|exact H|qh_side..]
      end
  | |- queues_hold _ _ _ _ (mkBM _ _ _ (pageTable ?bm) (fifoList ?bm) (lruList ?bm) _) =>
      apply (qh_same _ _ _ _ bm); [reflexivity..|qh_solve]
  end.

Ltac qh_call lem :=
  eapply wp_mono; [eapply lem|cbn beta; intros ? ? ?|cbn beta; intros ? ? []].

Section bm_queues.
Variable NDEBUG : bool.
Variable malloc : gmap Z (list Z) → Z.

Abbreviation keeps_queues F L N ex m := (∀ bm, queues_hold F L N ex bm →
  wp m (λ _, queues_hold F L N ex) (λ _ _, False) bm).

Lemma unfix_page_qh F L N ex page is_dirty : keeps_queues F L N ex (unfix_page page is_dirty).
Proof. intros bm HI. unfold unfix_page. wp_go. qh_solve. Qed.

Lemma get_data_qh F L N ex p : keeps_queues F L N ex (get_data NDEBUG p).
Proof. intros bm HI. unfold get_data. wp_go. done. Qed.

Lemma flushPage_qh F L N ex p : keeps_queues F L N ex (flushPage NDEBUG p).
Proof.
  intros bm HI. unfold flushPage. wp_go.
  qh_call (get_data_qh F L N ex); [done|]. wp_go. qh_solve.
Qed.

Lemma lockEvictableFrame_qh F L N ex l : ∀ i, keeps_queues F L N ex (lockEvictableFrame l i).
Proof.
  induction l as [|p l IH]; intros i bm HI; simpl; wp_go.
  - done.
  - qh_solve.
  - by apply IH.
Qed.

Lemma getSegmentData_qh F L N ex p : keeps_queues F L N ex (getSegmentData p).
Proof. intros bm HI. unfold getSegmentData. wp_go; qh_solve. Qed.

Lemma getBufferFrame_qh F L N ex p : keeps_queues F L N ex (getBufferFrame p).
Proof.
  intros bm HI. unfold getBufferFrame. wp_go; [done|].
  apply qh_new_frame; [done|done|done].
Qed.

(** The eviction of [bf], which has been taken out of its queue. *)
Lemma evict_qh F L N ex bf st bm :
  queues_hold F L N (bf :: ex) bm →
  wp (evict NDEBUG bf st) (λ _, queues_hold F L N ex) (λ _ _, False) bm.
Proof.
  intros HI. unfold evict. wp_go.
  - qh_call (flushPage_qh F L N (bf :: ex)); [done|]. wp_go.
    apply (qh_unexempt _ _ _ _ bf); [qh_solve|].
    frames_read. cbn. rewrite lookup_insert_eq. by intros ? [= <-].
  - apply (qh_unexempt _ _ _ _ bf); [qh_solve|].
    frames_read. cbn. rewrite lookup_insert_eq. by intros ? [= <-].
Qed.

Lemma insertBufferFrame_qh F L N ex frame bm :
  queues_hold F L N ex bm →
  wp (insertBufferFrame NDEBUG frame)
    (λ ok bm', ∃ F' L', queues_hold F' L' N ex bm' ∧ (ok = true → frame ∈ F'))
    (λ _ _, False) bm.
Proof.
  intros HI. pose proof HI as (HF & HL & HN & Hlen & Htab).
  unfold insertBufferFrame. wp_go.
  - exists (F ++ [frame]), L. split; [|intros _; apply elem_of_app; right; by left].
    apply Nat.ltb_lt in Heqb. rewrite HF, HL, HN in Heqb.
    eapply (qh_lists F L N ex); [exact HI|reflexivity|reflexivity|cbn; by rewrite HF|
                                 cbn; by rewrite HL| |].
    + rewrite length_app. cbn. lia.
    + intros p f Hp Hex. split; intros Hs Hin; [|by apply Hin].
      apply elem_of_app. left. by apply Hin.
  - qh_call (lockEvictableFrame_qh F L N ex); [done|]. wp_go.
    + match goal with H : fifoList bm !! _ = Some _ |- _ => rename H into Hi end.
      rewrite HF in Hi. pose proof (lookup_lt_Some _ _ _ Hi) as Hlt.
      qh_call (evict_qh (delete n F ++ [frame]) L N ex).
      * eapply (qh_lists F L N ex); [eassumption|reflexivity|reflexivity|
                                     cbn; by rewrite HF|cbn; by destruct H as (_ & -> & _)| |].
        { rewrite length_app, length_delete by (by eexists). cbn. lia. }
        intros p g Hp [Hne Hex]%not_elem_of_cons. split; intros Hs Hin; [|by apply Hin].
        apply elem_of_app. left. eapply elem_of_delete_ne; [by apply Hin|done|done].
      * wp_go. eexists _, _. split; [done|].
        intros _. apply elem_of_app. right. by left.
    + qh_call (lockEvictableFrame_qh F L N ex); [done|]. wp_go.
      * match goal with H : lruList bm !! _ = Some _ |- _ => rename H into Hi end.
        rewrite HL in Hi. pose proof (lookup_lt_Some _ _ _ Hi) as Hlt.
        qh_call (evict_qh (F ++ [frame]) (delete n L) N ex).
        -- eapply (qh_lists F L N ex); [eassumption|reflexivity|reflexivity|
                                        cbn; by rewrite HF|cbn; by rewrite HL| |].
           { rewrite length_app, length_delete by (by eexists). cbn. lia. }
           intros p g Hp [Hne Hex]%not_elem_of_cons. split; intros Hs Hin.
           ++ apply elem_of_app. left. by apply Hin.
           ++ eapply elem_of_delete_ne; [by apply Hin|done|done].
        -- wp_go. eexists _, _. split; [done|].
           intros _. apply elem_of_app. right. by left.
      * eexists _, _. split; [done|]. done.
Qed.

Lemma loadPage_qh F L N frame bm :
  queues_hold F L N [] bm →
  wp (loadPage NDEBUG malloc frame)
    (λ _ bm', ∃ F' L', queues_hold F' L' N [] bm')
    (λ _ bm', ∃ F' L', queues_hold F' L' N [] bm') bm.
Proof.
  intros HI. unfold loadPage. wp_go.
  - exists F, L. qh_solve.
  - exists F, L. qh_solve.
  - eapply wp_mono; [apply (insertBufferFrame_qh F L N []); qh_solve| |by intros ? ? []].
    cbn beta. intros ok bm1 (F' & L' & HI1 & Hin). wp_go.
    + exists F', L'. qh_solve.
    + qh_call (getSegmentData_qh F' L' N []); [done|]. wp_go.
      exists F', L'. frames_read.
      assert (Hfr : frame ∈ F') by (apply Hin; by destruct ok).
      do 2 (apply qh_new_frame; [|by left|by cbn]).
      eapply qh_same; [reflexivity..|].
      apply (qh_with_frame _ _ _ _ bm' frame f2); [done|done|by left|by left].
Qed.

Lemma updateLru_qh F L N frame f bm :
  queues_hold F L N [] bm →
  pageTable bm !! frame = Some f → pageState f = IN_LRU →
  wp (updateLru NDEBUG frame) (λ _ bm', ∃ L', queues_hold F L' N [] bm')
    (λ _ _, False) bm.
Proof.
  intros HI Hp Hst. pose proof HI as (HF & HL & HN & Hlen & Htab).
  assert (Hin : frame ∈ L) by (apply (Htab frame f Hp); [apply not_elem_of_nil|done]).
  unfold updateLru. wp_go. rewrite HL in *.
  destruct (find_erase_spec frame L) as [[Hn _]|(l1 & l2 & HLeq & Hn & Hfe)]; [done|].
  match goal with H : find_erase _ _ = _ |- _ => rewrite Hfe in H; injection H as <- <- end.
  exists ((l1 ++ l2) ++ [frame]).
  eapply (qh_lists F L N []); [exact HI|reflexivity|reflexivity|cbn; by rewrite HF|
                               reflexivity| |].
  - rewrite HLeq in Hlen. rewrite !length_app in *. cbn in *. lia.
  - intros p g Hg _. split; intros Hs Hq; [by apply Hq; apply not_elem_of_nil|].
    specialize (Hq (not_elem_of_nil _)). rewrite HLeq in Hq.
    rewrite elem_of_app, elem_of_cons in Hq.
    rewrite !elem_of_app, list_elem_of_singleton. tauto.
Qed.

Lemma fix_page_qh F L N page_id exclusive bm :
  queues_hold F L N [] bm →
  wp (fix_page NDEBUG malloc page_id exclusive)
    (λ _ bm', ∃ F' L', queues_hold F' L' N [] bm')
    (λ _ bm', ∃ F' L', queues_hold F' L' N [] bm') bm.
Proof.
  intros HI. unfold fix_page.
  apply wp_bind. qh_call (getBufferFrame_qh F L N []); [done|].
  wp_go.
  - frames_read. cbn in *. congruence.
  - frames_read. cbn in *.
    pose proof H as (HF & HL & HN & Hlen & Htab).
    assert (Hin : a ∈ F) by (apply (Htab a f0 H2); [apply not_elem_of_nil|done]).
    rewrite HF in *.
    destruct (find_erase_spec a F) as [[Hn _]|(l1 & l2 & HFeq & Hn & Hfe)]; [done|].
    rewrite Hfe in Heqp0. injection Heqp0 as <- <-.
    exists (l1 ++ l2), (L ++ [a]).
    split; [done|]. split; [cbn; by rewrite HL|]. split; [done|]. split.
    { rewrite HFeq in Hlen. rewrite !length_app in *. cbn in *. lia. }
    intros p g Hp _. cbn in Hp. rewrite insert_insert_eq in Hp.
    destruct (decide (p = a)) as [->|Hne].
    + rewrite lookup_insert_eq in Hp. injection Hp as <-. cbn.
      split; [done|]. intros _. apply elem_of_app. right. by left.
    + rewrite lookup_insert_ne in Hp by done.
      destruct (Htab p g Hp (not_elem_of_nil _)) as [Ha Hb]. split; intros Hs.
      * specialize (Ha Hs). rewrite HFeq in Ha.
        rewrite elem_of_app, elem_of_cons in Ha. rewrite elem_of_app. tauto.
      * apply elem_of_app. left. by apply Hb.
  - eapply wp_mono; [eapply (updateLru_qh F L N a)| |by intros ? ? []].
    + qh_solve.
    + cbn. apply lookup_insert_eq.
    + frames_read. done.
    + cbn beta. intros _ bm1 [L' HI1]. wp_go. by exists F, L'.
  - eapply wp_mono; [apply (loadPage_qh F L N); qh_solve| |done].
    cbn beta. intros ok bm1 (F' & L' & HI1). wp_go.
    + exists F', L'. qh_solve.
    + by exists F', L'.
  - exists F, L. qh_solve.
  - exists F, L. qh_solve.
Qed.

(** In every reachable state the queues hold at most [pageCount] pages
    and every resident frame is in the queue of its state. *)
Lemma reachable_queues_within bm :
  bm_reachable NDEBUG malloc bm → queues_within bm.
Proof.
  assert (Hfix : ∀ N s, (∃ F' L', queues_hold F' L' N [] s) → queues_within s).
  { intros N s (F' & L' & HI'). unfold queues_within.
    pose proof HI' as (<- & <- & <- & _). done. }
  induction 1 as [ps pc|bm p e fr bm' _ IH Hfix'|bm p e ex bm' _ IH Hfix'|bm p d bm' _ IH Hun].
  - do 3 (split; [done|]). split; [cbn; lia|].
    intros p f Hp. cbn in Hp. by rewrite lookup_empty in Hp.
  - pose proof (fix_page_qh _ _ _ p e bm IH) as Hwp. unfold wp in Hwp.
    rewrite Hfix' in Hwp. by eapply Hfix.
  - pose proof (fix_page_qh _ _ _ p e bm IH) as Hwp. unfold wp in Hwp.
    rewrite Hfix' in Hwp. by eapply Hfix.
  - pose proof (unfix_page_qh _ _ _ [] p d bm IH) as Hwp. unfold wp in Hwp.
    rewrite Hun in Hwp. eapply Hfix. by eexists _, _.
Qed.
End bm_queues.

Lemma length_omap_le {A B} (g : A → option B) (l : list A) :
  length (omap g l) ≤ length l.
Proof. induction l as [|x l IH]; cbn; [done|]. destruct (g x); cbn; lia. Qed.
(** ** The segment file: what is written is read back *)

Lemma File_resize_length file n : length file ≤ n → length (File_resize file n) = n.
Proof.
  intros. unfold File_resize. rewrite length_app, length_take, length_replicate. lia.
Qed.

Lemma File_write_block_length file block off len :
  len ≤ length block →
  length (File_write_block file block off len) = Nat.max (length file) (off + len).
Proof.
  intros Hb. unfold File_write_block.
  rewrite !length_app, !length_take, length_drop.
  rewrite File_resize_length by lia. lia.
Qed.

Lemma File_read_write file block off len :
  len ≤ length block →
  File_read_block (File_write_block file block off len) off len = take len block.
Proof.
  intros Hb. unfold File_read_block, File_write_block.
  set (f' := File_resize file (Nat.max (length file) (off + len))).
  assert (Hf' : length f' = Nat.max (length file) (off + len))
    by (apply File_resize_length; lia).
  rewrite drop_app_length'; [|rewrite length_take; lia].
  rewrite take_app_length'; [done|rewrite length_take; lia].
Qed.

Lemma File_read_resize file n off len :
  length file ≤ n → off + len ≤ length file →
  File_read_block (File_resize file n) off len = File_read_block file off len.
Proof.
  intros Hn Hlen. unfold File_read_block, File_resize.
  rewrite (take_ge file n) by lia. rewrite drop_app_le by lia.
  rewrite take_app_le; [done|rewrite length_drop; lia].
Qed.
(** ** Search trees in the page store *)

Lemma inner_wf_lengths cap nd :
  inner_wf cap nd →
  length (ikeys nd) = count nd - 1 ∧ length (ichildren nd) = count nd.
Proof.
  intros ((Hk & Hv) & Hc & _).
  unfold InnerNode_get_key_vector, InnerNode_get_children_vector.
  rewrite !length_take. lia.
Qed.

Lemma leaf_wf_lengths cap nd :
  leaf_wf cap nd → length (lkeys nd) = count nd ∧ length (lvals nd) = count nd.
Proof.
  intros ((Hk & Hv) & Hc & _).
  unfold LeafNode_get_key_vector, LeafNode_get_value_vector.
  rewrite !length_take. lia.
Qed.

Lemma above_trans lo a k : above lo a → (a ≤ k)%Z → above lo k.
Proof. destruct lo; simpl; lia. Qed.

Lemma below_trans hi b k : below hi b → (k ≤ b)%Z → below hi k.
Proof. destruct hi; simpl; lia. Qed.

Lemma sbelow_below hi b : sbelow hi b → below hi b.
Proof. destruct hi; simpl; lia. Qed.

Lemma range_child lo hi ks i k :
  i ≤ length ks →
  (∀ x, x ∈ ks → above lo x ∧ sbelow hi x) →
  above (clo lo ks i) k → below (chi hi ks i) k → above lo k ∧ below hi k.
Proof.
  intros Hlen Hks Ha Hb. split.
  - destruct i as [|j]; [done|]. simpl in Ha.
    destruct (lookup_lt_is_Some_2 ks j) as [a Hj]; [lia|]. rewrite Hj in Ha.
    apply (above_trans lo a); [|simpl in Ha; lia].
    eapply Hks, list_elem_of_lookup_2, Hj.
  - unfold chi in Hb. destruct (ks !! i) as [b|] eqn:Hi; [|done].
    apply (below_trans hi b); [|done].
    apply sbelow_below. eapply Hks, list_elem_of_lookup_2, Hi.
Qed.

Lemma range_disjoint lo hi ks i j k :
  strictly_increasing ks → i < j → j ≤ length ks →
  below (chi hi ks i) k → above (clo lo ks j) k → False.
Proof.
  intros Hs Hij Hj Hb Ha. unfold chi in Hb.
  destruct (lookup_lt_is_Some_2 ks i) as [a Hia]; [lia|]. rewrite Hia in Hb.
  destruct j as [|j']; [lia|]. simpl in Ha, Hb.
  destruct (lookup_lt_is_Some_2 ks j') as [b Hjb]; [lia|]. rewrite Hjb in Ha.
  simpl in Ha. destruct (decide (i = j')) as [->|Hne].
  - simplify_eq. lia.
  - assert (a < b)%Z by (eapply (Hs i j'); [lia|done|done]). lia.
Qed.

Lemma range_at_ref_lb lo hi ks key :
  strictly_increasing ks → above lo key → below hi key →
  above (clo lo ks (ref_lb ks key)) key ∧ below (chi hi ks (ref_lb ks key)) key.
Proof.
  intros Hs Ha Hb. split.
  - destruct (ref_lb ks key) as [|j] eqn:Hr; [done|]. simpl.
    destruct (ks !! j) as [a|] eqn:Hj; [|done]. simpl.
    eapply (ref_lb_lt ks key j); [lia|done].
  - unfold chi. destruct (ks !! ref_lb ks key) as [b|] eqn:Hi; [|done]. simpl.
    by eapply (ref_lb_ge ks key (ref_lb ks key)).
Qed.

Lemma sum_list_map_ext (g h : Z → nat) cs :
  (∀ c, c ∈ cs → g c = h c) → sum_list (map g cs) = sum_list (map h cs).
Proof.
  induction cs as [|c cs IH]; intros Hg; simpl; [done|].
  rewrite (Hg c) by by left. rewrite IH; [done|]. intros; apply Hg; by right.
Qed.

Section tree_facts.
Variable cap : nat.

Lemma own_self pg l p : own pg l p p.
Proof. destruct l; by left. Qed.

Lemma own_child pg l p i c x :
  ichildren (pg p) !! i = Some c → own pg l c x → own pg (S l) p x.
Proof. intros Hc Hx. right. by exists i, c. Qed.

Lemma wf_level pg l lo hi p : wf cap pg l lo hi p → level (pg p) = l.
Proof. destruct l; by intros [? _]. Qed.

Lemma wf_child pg l lo hi p i c :
  wf cap pg (S l) lo hi p → ichildren (pg p) !! i = Some c →
  wf cap pg l (clo lo (ikeys (pg p)) i) (chi hi (ikeys (pg p)) i) c.
Proof. intros (_ & _ & _ & _ & Hc & _) Hi. by apply Hc. Qed.

Lemma own_level pg l lo hi p x :
  wf cap pg l lo hi p → own pg l p x → level (pg x) ≤ l.
Proof.
  revert lo hi p. induction l as [|l IH]; intros lo hi p Hwf Hx.
  - destruct Hx as [->|[]]. by rewrite (wf_level _ _ _ _ _ Hwf).
  - destruct Hx as [->|(i & c & Hc & Hx)].
    + by rewrite (wf_level _ _ _ _ _ Hwf).
    + pose proof (wf_child _ _ _ _ _ _ _ Hwf Hc) as Hwc.
      specialize (IH _ _ _ Hwc Hx). lia.
Qed.

Lemma own_child_ne pg l lo hi p i c x :
  wf cap pg (S l) lo hi p → ichildren (pg p) !! i = Some c → own pg l c x → x ≠ p.
Proof.
  intros Hwf Hc Hx ->.
  pose proof (own_level _ _ _ _ _ _ (wf_child _ _ _ _ _ _ _ Hwf Hc) Hx).
  rewrite (wf_level _ _ _ _ _ Hwf) in *. lia.
Qed.

Lemma own_frame pg pg' l p :
  (∀ x, own pg l p x → pg' x = pg x) → ∀ y, own pg' l p y ↔ own pg l p y.
Proof.
  revert p. induction l as [|l IH]; intros p Hf y; [done|].
  simpl. rewrite (Hf p) by apply own_self.
  split; (intros [->|(i & c & Hc & Hy)]; [by left|right; exists i, c; split; [done|]]).
  - apply IH; [|done]. intros x Hx. apply Hf. by eapply own_child.
  - apply IH; [|done]. intros x Hx. apply Hf. by eapply own_child.
Qed.

Lemma wf_frame pg pg' l lo hi p :
  (∀ x, own pg l p x → pg' x = pg x) → wf cap pg l lo hi p → wf cap pg' l lo hi p.
Proof.
  revert lo hi p. induction l as [|l IH]; intros lo hi p Hf Hwf.
  - simpl in *. by rewrite (Hf p) by by left.
  - simpl in *. rewrite (Hf p) by by left.
    destruct Hwf as (Hl & Hi & Hc & Hk & Hch & Hd).
    split; [done|]. split; [done|]. split; [done|]. split; [done|]. split.
    + intros i c Hic. apply IH; [|by apply Hch].
      intros x Hx. apply Hf. right. by exists i, c.
    + intros i j ci cj x Hi' Hj' Hxi Hxj. apply (Hd i j ci cj x); try done.
      * eapply (own_frame pg pg'); [|done]. intros y Hy. apply Hf. right. by exists i, ci.
      * eapply (own_frame pg pg'); [|done]. intros y Hy. apply Hf. right. by exists j, cj.
Qed.

Lemma holds_frame pg pg' l p :
  (∀ x, own pg l p x → pg' x = pg x) → ∀ k v, holds pg' l p k v ↔ holds pg l p k v.
Proof.
  revert p. induction l as [|l IH]; intros p Hf k v.
  - simpl. by rewrite (Hf p) by by left.
  - simpl. rewrite (Hf p) by by left.
    split; intros (i & c & Hc & Hh); exists i, c; (split; [done|]).
    + apply IH; [|done]. intros x Hx. apply Hf. by eapply own_child.
    + apply IH; [|done]. intros x Hx. apply Hf. by eapply own_child.
Qed.

Lemma wsum_frame pg pg' f l p :
  (∀ x, own pg l p x → pg' x = pg x) → wsum pg' f l p = wsum pg f l p.
Proof.
  revert p. induction l as [|l IH]; intros p Hf.
  - simpl. by rewrite (Hf p) by by left.
  - simpl. rewrite (Hf p) by by left. f_equal.
    apply sum_list_map_ext. intros c [i Hc]%list_elem_of_lookup_1.
    apply IH. intros x Hx. apply Hf. by eapply own_child.
Qed.

Lemma child_of_lookup pg l lo hi p key :
  wf cap pg (S l) lo hi p →
  ichildren (pg p) !! ref_lb (ikeys (pg p)) key = Some (child_of (pg p) key).
Proof.
  intros (_ & Hi & Hc & _).
  destruct (inner_wf_lengths _ _ Hi) as [Hlk Hlc].
  pose proof (ref_lb_le (ikeys (pg p)) key) as Hle.
  unfold child_of.
  destruct (lookup_lt_is_Some_2 (ichildren (pg p)) (ref_lb (ikeys (pg p)) key))
    as [c Hc']; [lia|]. by rewrite Hc'.
Qed.

Lemma wf_child_of pg l lo hi p key :
  wf cap pg (S l) lo hi p →
  wf cap pg l (clo lo (ikeys (pg p)) (ref_lb (ikeys (pg p)) key))
    (chi hi (ikeys (pg p)) (ref_lb (ikeys (pg p)) key)) (child_of (pg p) key).
Proof. intros Hwf. eapply wf_child; [done|]. exact (child_of_lookup _ _ _ _ _ key Hwf). Qed.

Lemma phi_frame pg pg' C key l lo hi p :
  wf cap pg l lo hi p →
  (∀ x, own pg l p x → pg' x = pg x) → phi cap pg' C key l p = phi cap pg C key l p.
Proof.
  revert lo hi p. induction l as [|l IH]; intros lo hi p Hwf Hf.
  - simpl. by rewrite (Hf p) by by left.
  - simpl. rewrite (Hf p) by by left. f_equal.
    eapply IH; [by eapply wf_child_of|].
    intros x Hx. apply Hf. eapply own_child; [|done].
    exact (child_of_lookup _ _ _ _ _ key Hwf).
Qed.

Lemma holds_range pg l lo hi p k v :
  wf cap pg l lo hi p → holds pg l p k v → above lo k ∧ below hi k.
Proof.
  revert lo hi p. induction l as [|l IH]; intros lo hi p Hwf Hh.
  - destruct Hwf as (_ & _ & Hr). destruct Hh as (i & Hk & _).
    apply Hr. by eapply list_elem_of_lookup_2.
  - destruct Hh as (i & c & Hc & Hh).
    pose proof (wf_child _ _ _ _ _ _ _ Hwf Hc) as Hwc.
    destruct (IH _ _ _ Hwc Hh) as [Ha Hb].
    destruct Hwf as (_ & Hi & _ & Hk & _).
    destruct (inner_wf_lengths _ _ Hi) as [Hlk Hlc].
    apply lookup_lt_Some in Hc.
    apply (range_child lo hi (ikeys (pg p)) i); [lia|done..].
Qed.

Lemma holds_child_of pg l lo hi p key v :
  wf cap pg (S l) lo hi p → above lo key → below hi key →
  holds pg (S l) p key v ↔ holds pg l (child_of (pg p) key) key v.
Proof.
  intros Hwf Ha Hb. split.
  - intros (i & c & Hc & Hh).
    pose proof (wf_child _ _ _ _ _ _ _ Hwf Hc) as Hwc.
    destruct (holds_range _ _ _ _ _ _ _ Hwc Hh) as [Hca Hcb].
    pose proof (child_of_lookup _ _ _ _ _ key Hwf) as Hco.
    destruct Hwf as (_ & Hi & Hcnt & Hk & _ & _).
    destruct (inner_wf_lengths _ _ Hi) as [Hlk Hlc].
    destruct Hi as (_ & _ & Hs).
    destruct (range_at_ref_lb lo hi (ikeys (pg p)) key Hs Ha Hb) as [Hra Hrb].
    pose proof (lookup_lt_Some _ _ _ Hc) as Hilt.
    pose proof (lookup_lt_Some _ _ _ Hco) as Hrlt.
    destruct (Nat.lt_trichotomy i (ref_lb (ikeys (pg p)) key)) as [Hlt|[Heq|Hgt]].
    + exfalso. eapply (range_disjoint lo hi (ikeys (pg p)) i); [done|exact Hlt|lia|done|done].
    + subst i. by simplify_eq.
    + exfalso. eapply (range_disjoint lo hi (ikeys (pg p)) _ i); [done|exact Hgt|lia|done|done].
  - intros Hh. eexists _, _. split; [exact (child_of_lookup _ _ _ _ _ key Hwf)|done].
Qed.

Lemma wsum_mono pg f g l p :
  (∀ nd, f nd ≤ g nd) → wsum pg f l p ≤ wsum pg g l p.
Proof.
  intros Hfg. revert p. induction l as [|l IH]; intros p; simpl.
  - specialize (Hfg (pg p)). lia.
  - specialize (Hfg (pg p)).
    enough (sum_list (map (wsum pg f l) (ichildren (pg p)))
            ≤ sum_list (map (wsum pg g l) (ichildren (pg p)))) by lia.
    induction (ichildren (pg p)) as [|c cs IHc]; simpl; [done|].
    specialize (IH c). lia.
Qed.

Lemma sum_list_ge (g : Z → nat) m cs :
  (∀ c, c ∈ cs → m ≤ g c) → length cs * m ≤ sum_list (map g cs).
Proof.
  induction cs as [|c cs IH]; intros Hg; simpl; [done|].
  assert (m ≤ g c) by (apply Hg; by left).
  assert (length cs * m ≤ sum_list (map g cs)) by (apply IH; intros; apply Hg; by right).
  lia.
Qed.

Lemma wsum_pow pg l lo hi p :
  wf cap pg l lo hi p → 2 ^ l ≤ wsum pg (λ _, 1) l p.
Proof.
  revert lo hi p. induction l as [|l IH]; intros lo hi p Hwf; simpl; [lia|].
  pose proof Hwf as (_ & Hi & Hc & _).
  destruct (inner_wf_lengths _ _ Hi) as [_ Hlc].
  assert (length (ichildren (pg p)) * 2 ^ l
          ≤ sum_list (map (wsum pg (λ _, 1) l) (ichildren (pg p)))).
  { apply sum_list_ge. intros c [i Hic]%list_elem_of_lookup_1.
    eapply IH, wf_child; done. }
  nia.
Qed.
End tree_facts.
(** ** The path of a key *)

Lemma sum_list_map_replace (g g' : Z → nat) cs i c :
  cs !! i = Some c →
  (∀ j c', cs !! j = Some c' → j ≠ i → g' c' = g c') →
  sum_list (map g' cs) + g c = sum_list (map g cs) + g' c.
Proof.
  revert i. induction cs as [|c0 cs IH]; intros i Hi Hg; [done|].
  destruct i as [|i]; simpl in *.
  - simplify_eq. rewrite (sum_list_map_ext g' g); [lia|].
    intros c' [j Hj]%list_elem_of_lookup_1. by apply (Hg (S j)).
  - rewrite (Hg 0 c0) by done.
    assert (Hg' : ∀ j c', cs !! j = Some c' → j ≠ i → g' c' = g c').
    { intros j c' Hj Hne. apply (Hg (S j)); [done|lia]. }
    specialize (IH i Hi Hg'). lia.
Qed.

Section path_facts.
Variable cap : nat.

Lemma on_path_le pg ok key L lo hi pp p l lo' hi' qp q :
  on_path pg ok key L lo hi pp p l lo' hi' qp q → l ≤ L.
Proof. induction 1; lia. Qed.

Lemma on_path_wf pg ok key L lo hi pp p l lo' hi' qp q :
  on_path pg ok key L lo hi pp p l lo' hi' qp q →
  wf cap pg L lo hi p → above lo key → below hi key →
  wf cap pg l lo' hi' q ∧ above lo' key ∧ below hi' key.
Proof.
  induction 1 as [|l lo hi pp p l' lo' hi' qp q Hok Hp IH]; intros Hwf Ha Hb; [done|].
  pose proof Hwf as (_ & (_ & _ & Hs) & _).
  destruct (range_at_ref_lb lo hi (ikeys (pg p)) key Hs Ha Hb) as [Hra Hrb].
  apply IH; [by apply wf_child_of|done..].
Qed.

Lemma on_path_own pg ok key L lo hi pp p l lo' hi' qp q x :
  on_path pg ok key L lo hi pp p l lo' hi' qp q →
  wf cap pg L lo hi p → own pg l q x → own pg L p x.
Proof.
  induction 1 as [|l lo hi pp p l' lo' hi' qp q Hok Hp IH]; intros Hwf Hx; [done|].
  eapply own_child; [exact (child_of_lookup _ _ _ _ _ _ key Hwf)|].
  apply IH; [by apply wf_child_of|done].
Qed.

Lemma on_path_holds_sub pg ok key L lo hi pp p l lo' hi' qp q k v :
  on_path pg ok key L lo hi pp p l lo' hi' qp q →
  wf cap pg L lo hi p → holds pg l q k v → holds pg L p k v.
Proof.
  induction 1 as [|l lo hi pp p l' lo' hi' qp q Hok Hp IH]; intros Hwf Hx; [done|].
  eexists _, _. split; [exact (child_of_lookup _ _ _ _ _ _ key Hwf)|].
  apply IH; [by apply wf_child_of|done].
Qed.

Lemma on_path_holds pg ok key L lo hi pp p l lo' hi' qp q v :
  on_path pg ok key L lo hi pp p l lo' hi' qp q →
  wf cap pg L lo hi p → above lo key → below hi key →
  holds pg L p key v ↔ holds pg l q key v.
Proof.
  induction 1 as [|l lo hi pp p l' lo' hi' qp q Hok Hp IH]; intros Hwf Ha Hb; [done|].
  pose proof Hwf as (_ & (_ & _ & Hs) & _).
  destruct (range_at_ref_lb lo hi (ikeys (pg p)) key Hs Ha Hb) as [Hra Hrb].
  rewrite (holds_child_of cap pg l lo hi p key v Hwf Ha Hb).
  apply IH; [by apply wf_child_of|done..].
Qed.

Lemma on_path_weaken pg (ok ok' : Node → Prop) key L lo hi pp p l lo' hi' qp q :
  (∀ nd, ok nd → ok' nd) →
  on_path pg ok key L lo hi pp p l lo' hi' qp q →
  on_path pg ok' key L lo hi pp p l lo' hi' qp q.
Proof. intros Hw. induction 1; [constructor|constructor; auto]. Qed.

Lemma on_path_snoc pg (ok : Node → Prop) key L lo hi pp p l lo' hi' qp q :
  on_path pg ok key L lo hi pp p (S l) lo' hi' qp q → ok (pg q) →
  on_path pg ok key L lo hi pp p l
    (clo lo' (ikeys (pg q)) (ref_lb (ikeys (pg q)) key))
    (chi hi' (ikeys (pg q)) (ref_lb (ikeys (pg q)) key))
    (Some q) (child_of (pg q) key).
Proof.
  intros Hp Hok. remember (S l) as l1 eqn:Hl1.
  induction Hp as [|l0 lo0 hi0 pp0 p0 l' lo1 hi1 qp0 q0 Hok0 Hp IH].
  - subst. constructor; [done|constructor].
  - constructor; [done|]. by apply IH.
Qed.

(** The last step of a path. *)
Lemma on_path_parent pg (ok : Node → Prop) key L lo hi pp p l lo' hi' qp q :
  on_path pg ok key L lo hi pp p l lo' hi' qp q →
  (l = L ∧ lo' = lo ∧ hi' = hi ∧ qp = pp ∧ q = p) ∨
  ∃ x lox hix xp,
    qp = Some x ∧ on_path pg ok key L lo hi pp p (S l) lox hix xp x ∧
    ok (pg x) ∧ q = child_of (pg x) key ∧
    lo' = clo lox (ikeys (pg x)) (ref_lb (ikeys (pg x)) key) ∧
    hi' = chi hix (ikeys (pg x)) (ref_lb (ikeys (pg x)) key).
Proof.
  induction 1 as [|l lo hi pp p l' lo' hi' qp q Hok Hp IH]; [by left|].
  right. destruct IH as [(-> & -> & -> & -> & ->)|(x & lox & hix & xp & -> & Hx & Hokx & -> & -> & ->)].
  - exists p, lo, hi, pp. split; [done|]. split; [constructor|]. done.
  - exists x, lox, hix, xp. split; [done|]. split; [by constructor|]. done.
Qed.

(** Every key has a path to a leaf. *)
Lemma path_to_leaf pg key l lo hi pp p :
  wf cap pg l lo hi p →
  ∃ lo' hi' qp q, on_path pg (λ _, True) key l lo hi pp p 0 lo' hi' qp q.
Proof.
  revert lo hi pp p. induction l as [|l IH]; intros lo hi pp p Hwf.
  - eexists _, _, _, _. constructor.
  - destruct (IH _ _ (Some p) _ (wf_child_of cap pg l lo hi p key Hwf))
      as (lo' & hi' & qp & q & Hp).
    exists lo', hi', qp, q. by constructor.
Qed.

(** The descent of [insert] stops at the first full node or at the leaf. *)
Lemma path_to_full pg key l lo hi pp p :
  wf cap pg l lo hi p →
  ∃ l' lo' hi' qp q,
    on_path pg (λ nd, count nd < cap) key l lo hi pp p l' lo' hi' qp q ∧
    (l' = 0 ∨ ¬ count (pg q) < cap).
Proof.
  revert lo hi pp p. induction l as [|l IH]; intros lo hi pp p Hwf.
  - eexists _, _, _, _, _. split; [constructor|by left].
  - destruct (decide (count (pg p) < cap)) as [Hsp|Hfull].
    + destruct (IH _ _ (Some p) _ (wf_child_of cap pg l lo hi p key Hwf))
        as (l' & lo' & hi' & qp & q & Hp & Hq).
      exists l', lo', hi', qp, q. split; [by constructor|done].
    + eexists _, _, _, _, _. split; [constructor|by right].
Qed.

(** Replacing the subtree at the end of a path. *)
Lemma replace_subtree pg pg' ok key L lo hi pp p l lo' hi' qp q :
  on_path pg ok key L lo hi pp p l lo' hi' qp q →
  wf cap pg L lo hi p → above lo key → below hi key →
  (∀ x, own pg L p x → ¬ own pg l q x → pg' x = pg x) →
  wf cap pg' l lo' hi' q →
  (∀ x, own pg' l q x → own pg l q x ∨ ¬ own pg L p x) →
  wf cap pg' L lo hi p ∧
  on_path pg' ok key L lo hi pp p l lo' hi' qp q ∧
  (∀ x, own pg' L p x ↔ (own pg L p x ∧ ¬ own pg l q x) ∨ own pg' l q x) ∧
  (∀ k v, holds pg' L p k v ↔
          (holds pg L p k v ∧ ¬ holds pg l q k v) ∨ holds pg' l q k v) ∧
  (∀ f, wsum pg' f L p + wsum pg f l q = wsum pg f L p + wsum pg' f l q) ∧
  (∀ C, phi cap pg' C key L p + phi cap pg C key l q
        = phi cap pg C key L p + phi cap pg' C key l q).
Proof.
  induction 1 as [l lo hi pp p|l lo hi pp p l' lo' hi' qp q Hok Hp IH];
    intros Hwf Ha Hb Hfr Hwq Hnew.
  { split; [done|]. split; [constructor|]. split; [tauto|]. split; [tauto|].
    split; intros; lia. }
  set (i := ref_lb (ikeys (pg p)) key) in *.
  set (c := child_of (pg p) key) in *.
  pose proof (child_of_lookup cap pg l lo hi p key Hwf) as Hic. fold i c in Hic.
  pose proof (wf_child_of cap pg l lo hi p key Hwf) as Hwc. fold i c in Hwc.
  pose proof Hwf as (Hlv & Hin & Hcnt & Hks & Hch & Hdis).
  pose proof Hin as (_ & _ & Hs).
  destruct (inner_wf_lengths _ _ Hin) as [Hlk Hlc].
  destruct (range_at_ref_lb lo hi (ikeys (pg p)) key Hs Ha Hb) as [Hra Hrb].
  fold i in Hra, Hrb.
  assert (Hqc : ∀ x, own pg l' q x → own pg l c x).
  { intros x. by eapply on_path_own. }
  assert (Hp' : pg' p = pg p).
  { apply Hfr; [apply own_self|]. intros Hx%Hqc.
    by eapply (own_child_ne cap pg l lo hi p i c p). }
  destruct IH as (Hwc' & Hp'' & Hown & Hholds & Hsum & Hphi); try done.
  { intros x Hx Hnx. apply Hfr; [by eapply own_child|done]. }
  { intros x Hx. destruct (Hnew x Hx) as [?|Hn]; [by left|right].
    intros Hcx. apply Hn. by eapply own_child. }
  (* the other children are untouched *)
  assert (Hother : ∀ j cj, ichildren (pg p) !! j = Some cj → j ≠ i →
            ∀ x, own pg l cj x → pg' x = pg x).
  { intros j cj Hj Hne x Hx. apply Hfr; [by eapply own_child|].
    intros Hx'%Hqc. apply Hne. by eapply (Hdis j i cj c x). }
  assert (Hweak : ∀ j cj x, ichildren (pg p) !! j = Some cj → own pg' l cj x →
            own pg l cj x ∨ (j = i ∧ ¬ own pg (S l) p x)).
  { intros j cj x Hj Hx. destruct (decide (j = i)) as [->|Hne].
    - assert (cj = c) as -> by congruence.
      apply Hown in Hx as [[? _]|Hx]; [by left|].
      destruct (Hnew x Hx) as [?%Hqc|?]; [by left|by right].
    - left. by apply (own_frame pg pg' l cj (Hother j cj Hj Hne)). }
  split; [|split; [|split; [|split; [|split]]]].
  - (* wf *)
    simpl. rewrite Hp'. split; [done|]. split; [done|]. split; [done|].
    split; [done|]. split.
    + intros j cj Hj. destruct (decide (j = i)) as [->|Hne].
      * assert (cj = c) as -> by congruence. done.
      * apply (wf_frame cap pg pg'); [by eapply Hother|by apply Hch].
    + intros j k cj ck x Hj Hk Hxj Hxk.
      destruct (Hweak j cj x Hj Hxj) as [Hoj|[Hej Hnj]].
      * destruct (Hweak k ck x Hk Hxk) as [Hok'|[Hek Hnk]].
        -- by eapply (Hdis j k cj ck x).
        -- exfalso. apply Hnk. by eapply (own_child pg l p j cj).
      * destruct (Hweak k ck x Hk Hxk) as [Hok'|[Hek Hnk]].
        -- exfalso. apply Hnj. by eapply (own_child pg l p k ck).
        -- congruence.
  - (* path *)
    constructor; rewrite Hp'; done.
  - (* pages *)
    intros x. simpl. rewrite Hp'. split.
    + intros [->|(j & cj & Hj & Hx)].
      * left. split; [by left|]. intros Hx%Hqc.
        by eapply (own_child_ne cap pg l lo hi p i c p).
      * destruct (decide (j = i)) as [->|Hne].
        -- assert (cj = c) as -> by congruence.
           apply Hown in Hx as [[Hx Hnq]|Hx]; [left|by right].
           split; [right; by exists i, c|done].
        -- apply (own_frame pg pg' l cj (Hother j cj Hj Hne)) in Hx.
           left. split; [right; by exists j, cj|].
           intros Hx'%Hqc. apply Hne. by eapply (Hdis j i cj c x).
    + intros [[[->|(j & cj & Hj & Hx)] Hnq]|Hx]; [by left| |].
      * right. exists j, cj. split; [done|].
        destruct (decide (j = i)) as [->|Hne].
        -- assert (cj = c) as -> by congruence. apply Hown. by left.
        -- by apply (own_frame pg pg' l cj (Hother j cj Hj Hne)).
      * right. exists i, c. split; [done|]. apply Hown. by right.
  - (* contents *)
    intros k v. simpl. rewrite Hp'. split.
    + intros (j & cj & Hj & Hx).
      destruct (decide (j = i)) as [->|Hne].
      * assert (cj = c) as -> by congruence.
        apply Hholds in Hx as [[Hx Hnq]|Hx]; [left|by right].
        split; [by exists i, c|done].
      * apply (holds_frame pg pg' l cj (Hother j cj Hj Hne)) in Hx.
        left. split; [by exists j, cj|].
        intros Hq. apply (on_path_holds_sub _ _ _ _ _ _ _ _ _ _ _ _ _ _ _ Hp Hwc) in Hq.
        destruct (holds_range cap pg l _ _ c k v Hwc Hq) as [Hca Hcb].
        destruct (holds_range cap pg l _ _ cj k v (Hch j cj Hj) Hx) as [Hja Hjb].
        apply lookup_lt_Some in Hj, Hic.
        destruct (Nat.lt_trichotomy j i) as [Hlt|[?|Hgt]]; [|done|].
        -- eapply (range_disjoint lo hi (ikeys (pg p)) j i); [done|done|lia|done|done].
        -- eapply (range_disjoint lo hi (ikeys (pg p)) i j); [done|done|lia|done|done].
    + intros [[(j & cj & Hj & Hx) Hnq]|Hx].
      * exists j, cj. split; [done|].
        destruct (decide (j = i)) as [->|Hne].
        -- assert (cj = c) as -> by congruence. apply Hholds. left. split; [done|].
           done.
        -- by apply (holds_frame pg pg' l cj (Hother j cj Hj Hne)).
      * exists i, c. split; [done|]. apply Hholds. by right.
  - (* weights *)
    intros f. simpl. rewrite Hp'.
    assert (Hrep : sum_list (map (wsum pg' f l) (ichildren (pg p))) + wsum pg f l c
                   = sum_list (map (wsum pg f l) (ichildren (pg p))) + wsum pg' f l c).
    { apply (sum_list_map_replace _ _ _ i); [done|].
      intros j cj Hj Hne. apply wsum_frame. by eapply Hother. }
    specialize (Hsum f). lia.
  - (* full nodes on the path *)
    intros C. simpl. rewrite Hp'. fold c. specialize (Hphi C). lia.
Qed.
End path_facts.
(** ** The descents *)

Lemma release_head p l : release p (p :: l) = l.
Proof. simpl. by rewrite decide_True. Qed.

Lemma release_second p q : p ≠ q → release q [p; q] = [p].
Proof. intros. simpl. rewrite decide_False by done. by rewrite decide_True. Qed.

Ltac in_list := repeat first [apply list_elem_of_here | apply list_elem_of_further].
Ltac notin_list :=
  repeat (apply not_elem_of_cons; split; [congruence|]); apply not_elem_of_nil.

Section descents.
Variable PageSize : nat.
Variable NDEBUG : bool.
Abbreviation cap := (InnerNode_kCapacity PageSize).
Abbreviation page' := (page PageSize).

Lemma page_with_fixed fx tr t : page' (with_fixed fx tr t) = page' t.
Proof. done. Qed.

Lemma tree_fix_page_Some p x fx tr t :
  p ∉ fx →
  tree_fix_page p x (with_fixed fx tr t) = Some (with_fixed (p :: fx) (tr ++ [Fix p x]) t).
Proof. intros. unfold tree_fix_page. cbn. by rewrite decide_False. Qed.

Lemma tree_unfix_page_Some p d fx tr t :
  p ∈ fx →
  tree_unfix_page p d (with_fixed fx tr t)
  = Some (with_fixed (release p fx) (tr ++ [Unfix p d]) t).
Proof. intros. unfold tree_unfix_page. cbn. by rewrite decide_True. Qed.

(** Unfixing the parent, if there is one, leaves the current page. *)
Lemma unfix_if_parent pp p d tr t :
  pp ≠ Some p →
  ∃ evs, unfix_if pp d (with_fixed (held pp p) tr t)
         = Some (with_fixed [p] (tr ++ evs) t) ∧
         Forall (λ e, ∃ x, e = Unfix x d) evs ∧
         evs = match pp with Some x => [Unfix x d] | None => [] end.
Proof.
  intros Hne. destruct pp as [x|]; unfold held; cbn [unfix_if option_list from_option app].
  - exists [Unfix x d]. rewrite tree_unfix_page_Some by in_list.
    rewrite release_second by congruence.
    split; [done|]. split; [|done]. repeat constructor. by eexists.
  - exists []. rewrite app_nil_r. done.
Qed.

(** One step down from an inner node. *)
Lemma inner_step pg l lo hi p key :
  wf cap pg (S l) lo hi p →
  is_leaf (pg p) = false ∧
  (∃ b, InnerNode_lower_bound (pg p) key = Some (ref_lb (ikeys (pg p)) key, b)) ∧
  cassert NDEBUG (Some (ref_lb (ikeys (pg p)) key <=? count (pg p))) = Some () ∧
  slots (pg p) !! ref_lb (ikeys (pg p)) key = Some (child_of (pg p) key) ∧
  child_of (pg p) key ≠ p.
Proof.
  intros Hwf. pose proof (child_of_lookup cap pg l lo hi p key Hwf) as Hc.
  pose proof Hwf as (Hl & Hin & Hcnt & _).
  destruct (inner_wf_lengths _ _ Hin) as [Hlk Hlc].
  pose proof Hin as ((Hk & Hv) & Hcc & Hs).
  pose proof (ref_lb_le (ikeys (pg p)) key) as Hle.
  split. { unfold is_leaf. rewrite Hl. done. }
  split. { eexists. apply InnerNode_lower_bound_spec; [lia|done]. }
  split. { apply cassert_true. apply Nat.leb_le. lia. }
  split.
  { unfold InnerNode_get_children_vector in Hc.
    apply lookup_take_Some in Hc. by destruct Hc. }
  intros Heq.
  pose proof (wf_child_of cap pg l lo hi p key Hwf) as Hwc.
  apply wf_level in Hwc. rewrite Heq in Hwc. lia.
Qed.

(** The loop of [lookup] and [erase] follows the path of the key. *)
Lemma descend_path mode m fuel key t L lo hi pp p l lo' hi' qp q :
  on_path (page' t) (λ _, True) key L lo hi pp p l lo' hi' qp q →
  wf cap (page' t) L lo hi p →
  (∀ x l lo hi, wf cap (page' t) (S l) lo hi x →
                mode (page' t x) = m (child_of (page' t x) key)) →
  pp ≠ Some p → L < fuel →
  ∀ tr, ∃ evs,
    descend PageSize NDEBUG mode fuel key pp p (with_fixed (held pp p) tr t)
    = descend PageSize NDEBUG mode (fuel - (L - l)) key qp q
        (with_fixed (held qp q) (tr ++ evs) t) ∧
    Forall (descent_event m) evs ∧ qp ≠ Some q.
Proof.
  intros Hp. revert fuel.
  induction Hp as [l lo hi pp p|l lo hi pp p l' lo' hi' qp q _ Hp IH];
    intros fuel Hwf Hmode Hne Hfuel tr.
  { exists []. rewrite app_nil_r. replace (fuel - (l - l)) with fuel by lia. done. }
  destruct fuel as [|fuel]; [lia|].
  destruct (inner_step _ _ _ _ _ key Hwf) as (Hleaf & [b Hlb] & Has & Hsl & Hcne).
  destruct (unfix_if_parent pp p false tr t Hne) as (ev1 & Hun & Hev1 & _).
  pose proof (on_path_le _ _ _ _ _ _ _ _ _ _ _ _ _ Hp) as Hle.
  destruct (IH fuel (wf_child_of cap _ l lo hi p key Hwf) Hmode) with
    (tr := (tr ++ ev1) ++ [Fix (child_of (page' t p) key) (mode (page' t p))])
    as (ev2 & Heq & Hev2 & Hne'); [congruence|lia|].
  exists (ev1 ++ [Fix (child_of (page' t p) key) (mode (page' t p))] ++ ev2).
  split; [|split; [|done]].
  - cbn [descend]. rewrite page_with_fixed, Hleaf, Hlb. cbn [mbind option_bind].
    rewrite Has. cbn [mbind option_bind]. rewrite Hun. cbn [mbind option_bind].
    rewrite Hsl. cbn [mbind option_bind].
    rewrite tree_fix_page_Some by notin_list. cbn [mbind option_bind].
    change [child_of (page' t p) key; p] with (held (Some p) (child_of (page' t p) key)).
    rewrite Heq. replace (S fuel - (S l - l')) with (fuel - (l - l')) by lia.
    by rewrite !(assoc_L (++)).
  - apply Forall_app. split.
    { eapply Forall_impl; [exact Hev1|]. by intros e [x ->]. }
    apply Forall_app. split; [|done]. repeat constructor. simpl.
    by eapply Hmode.
Qed.

(** The loop of [insert] follows the path of the key as long as the nodes
    have space. *)
Lemma insert_loop_path exclusive fuel key t L lo hi pp p l lo' hi' qp q :
  on_path (page' t) (λ nd, count nd < cap) key L lo hi pp p l lo' hi' qp q →
  wf cap (page' t) L lo hi p →
  pp ≠ Some p → L < fuel →
  ∀ tr, ∃ evs,
    BTree_insert_loop PageSize NDEBUG fuel key exclusive pp p
      (with_fixed (held pp p) tr t)
    = BTree_insert_loop PageSize NDEBUG (fuel - (L - l)) key exclusive qp q
        (with_fixed (held qp q) (tr ++ evs) t) ∧
    Forall (descent_event (λ c, exclusive || is_leaf (page' t c))) evs ∧
    qp ≠ Some q.
Proof.
  intros Hp. revert fuel.
  induction Hp as [l lo hi pp p|l lo hi pp p l' lo' hi' qp q Hsp Hp IH];
    intros fuel Hwf Hne Hfuel tr.
  { exists []. rewrite app_nil_r. replace (fuel - (l - l)) with fuel by lia. done. }
  destruct fuel as [|fuel]; [lia|].
  destruct (inner_step _ _ _ _ _ key Hwf) as (Hleaf & [b Hlb] & Has & Hsl & Hcne).
  destruct (unfix_if_parent pp p false tr t Hne) as (ev1 & Hun & Hev1 & _).
  pose proof (on_path_le _ _ _ _ _ _ _ _ _ _ _ _ _ Hp) as Hle.
  set (c := child_of (page' t p) key) in *.
  set (x := exclusive || (level (page' t p) =? 1)).
  destruct (IH fuel (wf_child_of cap _ l lo hi p key Hwf)) with
    (tr := (tr ++ ev1) ++ [Fix c x])
    as (ev2 & Heq & Hev2 & Hne'); [congruence|lia|].
  exists (ev1 ++ [Fix c x] ++ ev2).
  split; [|split; [|done]].
  - cbn [BTree_insert_loop]. rewrite page_with_fixed, Hleaf.
    unfold InnerNode_has_space. rewrite (proj2 (Nat.ltb_lt _ _) Hsp).
    cbn [negb]. rewrite Hlb. cbn [mbind option_bind].
    rewrite Has. cbn [mbind option_bind]. rewrite Hun. cbn [mbind option_bind].
    rewrite Hsl. cbn [mbind option_bind].
    rewrite tree_fix_page_Some by notin_list. cbn [mbind option_bind].
    change [c; p] with (held (Some p) c). fold x.
    rewrite Heq. replace (S fuel - (S l - l')) with (fuel - (l - l')) by lia.
    by rewrite !(assoc_L (++)).
  - apply Forall_app. split.
    { eapply Forall_impl; [exact Hev1|]. by intros e [y ->]. }
    apply Forall_app. split; [|done]. repeat constructor. simpl. subst x c.
    f_equal. unfold is_leaf.
    rewrite (wf_level _ _ _ _ _ _ Hwf).
    rewrite (wf_level _ _ _ _ _ _ (wf_child_of cap _ l lo hi p key Hwf)).
    by destruct l.
Qed.
End descents.
(** ** Leaves as finite maps *)

Lemma strictly_increasing_inj ks i j k :
  strictly_increasing ks → ks !! i = Some k → ks !! j = Some k → i = j.
Proof.
  intros Hs Hi Hj. destruct (Nat.lt_trichotomy i j) as [Hlt|[?|Hgt]]; [|done|].
  - pose proof (Hs i j k k Hlt Hi Hj). lia.
  - pose proof (Hs j i k k Hgt Hj Hi). lia.
Qed.

Lemma pairs_ins (ks vs : list Z) (key value k v : Z) :
  strictly_increasing ks → length ks = length vs → key ∉ ks →
  (∃ i, list_ins (ref_lb ks key) key ks !! i = Some k ∧
        list_ins (ref_lb ks key) value vs !! i = Some v) ↔
  (k = key ∧ v = value) ∨ (k ≠ key ∧ ∃ i, ks !! i = Some k ∧ vs !! i = Some v).
Proof.
  intros Hs Hlen Hnot. pose proof (ref_lb_le ks key) as Hle.
  set (pos := ref_lb ks key) in *.
  assert (Hne : ∀ i, ks !! i = Some k → k ≠ key).
  { intros i Hi ->. apply Hnot. by eapply list_elem_of_lookup_2. }
  split.
  - intros (i & Hk & Hv). rewrite list_ins_lookup in Hk, Hv by lia.
    repeat case_decide; simplify_eq; eauto 6.
  - intros [[-> ->]|(_ & i & Hk & Hv)].
    + exists pos. by rewrite !list_ins_lookup_eq by lia.
    + destruct (decide (i < pos)).
      * exists i. by rewrite !list_ins_lookup_lt by lia.
      * exists (S i). rewrite !list_ins_lookup_gt by lia.
        by replace (S i - 1) with i by lia.
Qed.

Lemma pairs_upd (ks vs : list Z) (key value k v : Z) :
  strictly_increasing ks → length ks = length vs → key ∈ ks →
  (∃ i, ks !! i = Some k ∧ <[ref_lb ks key:=value]> vs !! i = Some v) ↔
  (k = key ∧ v = value) ∨ (k ≠ key ∧ ∃ i, ks !! i = Some k ∧ vs !! i = Some v).
Proof.
  intros Hs Hlen Hin. apply (ref_lb_found ks key Hs) in Hin.
  set (pos := ref_lb ks key) in *.
  pose proof (lookup_lt_Some _ _ _ Hin) as Hlt.
  split.
  - intros (i & Hk & Hv). rewrite list_lookup_insert in Hv.
    case_decide as Hc.
    + destruct Hc as [<- _]. left. by simplify_eq.
    + right. split; [|by eauto]. intros ->.
      apply Hc. split; [|lia]. by eapply strictly_increasing_inj.
  - intros [[-> ->]|(Hne & i & Hk & Hv)].
    + exists pos. split; [done|]. rewrite list_lookup_insert.
      rewrite decide_True; [done|]. split; [done|lia].
    + exists i. split; [done|]. rewrite list_lookup_insert.
      rewrite decide_False; [done|]. intros [<- _]. congruence.
Qed.

Lemma pairs_del (ks vs : list Z) (key k v : Z) :
  strictly_increasing ks → length ks = length vs → key ∈ ks →
  (∃ i, delete (ref_lb ks key) ks !! i = Some k ∧
        delete (ref_lb ks key) vs !! i = Some v) ↔
  k ≠ key ∧ ∃ i, ks !! i = Some k ∧ vs !! i = Some v.
Proof.
  intros Hs Hlen Hin. apply (ref_lb_found ks key Hs) in Hin.
  set (pos := ref_lb ks key) in *.
  split.
  - intros (i & Hk & Hv). rewrite list_lookup_delete in Hk, Hv.
    split; [|by eauto]. intros ->.
    pose proof (strictly_increasing_inj _ _ _ _ Hs Hk Hin). case_decide; lia.
  - intros (Hne & i & Hk & Hv).
    assert (i ≠ pos) by (intros ->; congruence).
    destruct (decide (i < pos)).
    + exists i. rewrite !list_lookup_delete. by rewrite decide_True by done.
    + exists (i - 1). rewrite !list_lookup_delete. rewrite decide_False by lia.
      by replace (S (i - 1)) with i by lia.
Qed.

Lemma pairs_absent (ks vs : list Z) (key v : Z) :
  key ∉ ks → ¬ ∃ i, ks !! i = Some key ∧ vs !! i = Some v.
Proof. intros Hnot (i & Hk & _). apply Hnot. by eapply list_elem_of_lookup_2. Qed.

Section tree_ops.
Variable PageSize : nat.
Variable NDEBUG : bool.
Abbreviation cap := (InnerNode_kCapacity PageSize).
Abbreviation page' := (page PageSize).

Lemma page_set_page x nd t y :
  page' (set_page x nd t) y = if decide (y = x) then nd else page' t y.
Proof.
  unfold page, set_page. cbn. case_decide as Hd.
  - subst. by rewrite lookup_insert_eq.
  - by rewrite lookup_insert_ne.
Qed.

Lemma tree_fix_page_start p x t :
  fixed t = [] →
  tree_fix_page p x t = Some (with_fixed [p] (trace t ++ [Fix p x]) t).
Proof.
  intros Hfx. unfold tree_fix_page, with_fixed. rewrite Hfx.
  rewrite decide_False by apply not_elem_of_nil. done.
Qed.

Lemma treeHeight_pred B t : tree_inv PageSize B t → treeHeight t = S (pred (treeHeight t)).
Proof. intros [? _ _ _ _ _ _]. lia. Qed.

(** What the leaf on the path of [key] says about [key] is what the tree
    says. *)
Lemma leaf_lookup pg key lo hi q :
  wf cap pg 0 lo hi q →
  LeafNode_lower_bound (pg q) key
  = Some (ref_lb (lkeys (pg q)) key, bool_decide (key ∈ lkeys (pg q))) ∧
  cassert NDEBUG (Some (ref_lb (lkeys (pg q)) key <=? count (pg q))) = Some () ∧
  (key ∈ lkeys (pg q) →
   ∃ v, slots (pg q) !! ref_lb (lkeys (pg q)) key = Some v ∧ holds pg 0 q key v) ∧
  (key ∉ lkeys (pg q) → ∀ v, ¬ holds pg 0 q key v) ∧
  (∀ v v', holds pg 0 q key v → holds pg 0 q key v' → v = v').
Proof.
  intros (Hl & Hlf & Hr). pose proof Hlf as ((Hk & Hv) & Hc & Hs).
  destruct (leaf_wf_lengths _ _ Hlf) as [Hlk Hlv].
  pose proof (ref_lb_le (lkeys (pg q)) key) as Hle.
  split. { apply LeafNode_lower_bound_spec; [lia|done]. }
  split. { apply cassert_true. apply Nat.leb_le. lia. }
  split.
  { intros Hin. apply (ref_lb_found _ _ Hs) in Hin.
    pose proof (lookup_lt_Some _ _ _ Hin) as Hlt.
    destruct (lookup_lt_is_Some_2 (lvals (pg q)) (ref_lb (lkeys (pg q)) key))
      as [v Hv']; [lia|].
    exists v. split; [|by eexists].
    unfold LeafNode_get_value_vector in Hv'.
    apply lookup_take_Some in Hv'. by destruct Hv'. }
  split. { intros Hnot v. by apply pairs_absent. }
  intros v v' (i & Hi & Hvi) (j & Hj & Hvj).
  assert (i = j) as -> by by eapply strictly_increasing_inj. congruence.
Qed.

(** [lookup] returns what the tree holds for the key. *)
Lemma BTree_lookup_pass_spec B t m fuel key :
  tree_inv PageSize B t → tree_contents PageSize t m → treeHeight t ≤ fuel →
  ∃ evs,
    BTree_lookup_pass PageSize NDEBUG fuel key t
    = Some (Done (m !! key), with_fixed [] (trace t ++ evs) t) ∧
    Forall (descent_event (λ _, false)) evs.
Proof.
  intros Hinv Hm Hfuel.
  pose proof (treeHeight_pred _ _ Hinv) as HL.
  destruct Hinv as [Hh Hwf Hmint Hcnt Hw Hfx Hsz].
  set (L := pred (treeHeight t)) in *.
  destruct (path_to_leaf cap (page' t) key L None None None (root t) Hwf)
    as (lo' & hi' & qp & q & Hp).
  destruct (on_path_wf cap _ _ _ _ _ _ _ _ _ _ _ _ _ Hp Hwf I I) as (Hwq & Ha & Hb).
  destruct (descend_path PageSize NDEBUG (λ _, false) (λ _, false) fuel key t
              _ _ _ _ _ _ _ _ _ _ Hp Hwf) with (tr := trace t ++ [Fix (root t) false])
    as (ev1 & Hdesc & Hev1 & Hne); [done|done|lia|].
  destruct (leaf_lookup (page' t) key lo' hi' q Hwq) as (Hlb & Has & Hin & Hnot & Huniq).
  destruct (unfix_if_parent qp q false
              ((trace t ++ [Fix (root t) false]) ++ ev1) t Hne) as (ev2 & Hun & Hev2 & _).
  assert (Hres : ∃ val, (if bool_decide (key ∈ lkeys (page' t q))
            then v ← slots (page' t q) !! ref_lb (lkeys (page' t q)) key; Some (Some v)
            else Some None) = Some val ∧ val = m !! key).
  { case_bool_decide as Hk.
    - destruct (Hin Hk) as (v & -> & Hv). exists (Some v). split; [done|].
      symmetry. apply Hm.
      by apply (on_path_holds cap _ _ _ _ _ _ _ _ _ _ _ _ _ v Hp Hwf I I).
    - exists None. split; [done|]. symmetry.
      destruct (m !! key) as [v|] eqn:Hmk; [|done].
      apply Hm in Hmk. exfalso. apply (Hnot Hk v).
      by apply (on_path_holds cap _ _ _ _ _ _ _ _ _ _ _ _ _ v Hp Hwf I I). }
  destruct Hres as (val & Hval & ->).
  assert (Hleafq : is_leaf (page' t q) = true).
  { unfold is_leaf. by rewrite (wf_level _ _ _ _ _ _ Hwq). }
  eexists. split.
  - unfold BTree_lookup_pass. rewrite tree_fix_page_start by done.
    cbn [mbind option_bind].
    rewrite decide_False by (cbn; congruence).
    change (root (with_fixed _ _ t)) with (root t).
    change [root t] with (held None (root t)).
    rewrite Hdesc. replace (fuel - (L - 0)) with (S (fuel - L - 1)) by lia.
    cbn [descend]. rewrite page_with_fixed, Hleafq.
    cbn [mbind option_bind]. rewrite page_with_fixed.
    rewrite cassert_true by done.
    cbn [mbind option_bind]. rewrite Hlb. cbn [mbind option_bind].
    rewrite Has. cbn [mbind option_bind]. rewrite Hval. cbn [mbind option_bind].
    rewrite Hun. cbn [mbind option_bind].
    rewrite tree_unfix_page_Some by in_list. cbn [mbind option_bind].
    rewrite release_head. rewrite <- !(assoc_L (++)). done.
  - apply Forall_app. split; [by repeat constructor|].
    apply Forall_app. split; [done|]. apply Forall_app. split.
    + eapply Forall_impl; [exact Hev2|]. by intros e [y ->].
    + by repeat constructor.
Qed.
End tree_ops.
(** ** Writing a leaf *)

Lemma lookup_exists_dec {A} (P : nat → A → Prop) (l : list A) :
  (∀ i x, P i x ∨ ¬ P i x) →
  (∃ i x, l !! i = Some x ∧ P i x) ∨ ¬ (∃ i x, l !! i = Some x ∧ P i x).
Proof.
  revert P. induction l as [|a l IH]; intros P HP.
  - right. by intros (i & x & ? & _).
  - destruct (HP 0 a) as [Ha|Hna]; [left; by exists 0, a|].
    destruct (IH (λ i x, P (S i) x)) as [(i & x & Hi & Hx)|Hn]; [by auto| |].
    + left. by exists (S i), x.
    + right. intros ([|i] & x & Hi & Hx); simplify_eq/=; [done|].
      apply Hn. by exists i, x.
Qed.

Lemma holds_dec pg l p k v : holds pg l p k v ∨ ¬ holds pg l p k v.
Proof.
  revert p. induction l as [|l IH]; intros p; simpl.
  - destruct (lookup_exists_dec (λ i k', k' = k ∧ lvals (pg p) !! i = Some v)
                (lkeys (pg p))) as [(i & k' & Hi & -> & Hv)|Hn].
    + intros i k'. destruct (decide (k' = k ∧ lvals (pg p) !! i = Some v)); [by left|by right].
    + left. by exists i.
    + right. intros (i & Hi & Hv). apply Hn. by exists i, k.
  - destruct (lookup_exists_dec (λ _ c, holds pg l c k v) (ichildren (pg p)))
      as [(i & c & Hi & Hc)|Hn]; [by auto|left; by exists i, c|].
    right. intros (i & c & Hi & Hc). apply Hn. by exists i, c.
Qed.

Lemma elem_of_delete_lookup {A} (l : list A) i x : x ∈ delete i l → x ∈ l.
Proof.
  intros [j Hj]%list_elem_of_lookup_1. rewrite list_lookup_delete in Hj.
  by eapply list_elem_of_lookup_2.
Qed.

Lemma elem_of_list_ins {A} (l : list A) i x y :
  y ∈ list_ins i x l → y = x ∨ y ∈ l.
Proof.
  unfold list_ins. rewrite elem_of_app, elem_of_cons.
  intros [Hy|[->|Hy]]; [right|by left|right].
  - by apply (subseteq_take i l).
  - by apply (subseteq_drop i l).
Qed.

Section leaf_write.
Variable PageSize : nat.
Variable NDEBUG : bool.
Abbreviation cap := (InnerNode_kCapacity PageSize).
Abbreviation page' := (page PageSize).

(** A new leaf at the end of a path. *)
Lemma leaf_update B d t ok key lo' hi' qp q nd' tr :
  tree_inv PageSize B t →
  on_path (page' t) ok key (pred (treeHeight t)) None None None (root t)
    0 lo' hi' qp q →
  level nd' = 0 → leaf_wf cap nd' →
  (∀ k, k ∈ lkeys nd' → above lo' k ∧ below hi' k) →
  node_weight cap nd' ≤ node_weight cap (page' t q) + d →
  let t' := with_fixed [] tr (set_page q nd' t) in
  tree_inv PageSize (B + Z.of_nat d) t' ∧
  ∀ k v, holds (page' t') (pred (treeHeight t')) (root t') k v ↔
         (holds (page' t) (pred (treeHeight t)) (root t) k v ∧
          ¬ holds (page' t) 0 q k v) ∨
         (∃ i, lkeys nd' !! i = Some k ∧ lvals nd' !! i = Some v).
Proof.
  intros [Hh Hwf Hmint Hcnt Hw Hfx Hsz] Hp Hlv Hlf Hr Hd t'.
  set (L := pred (treeHeight t)) in *.
  set (pg := page' t) in *. set (pg' := page' t').
  assert (Hpg' : ∀ x, pg' x = if decide (x = q) then nd' else pg x).
  { intros x. unfold pg', t'. rewrite page_with_fixed. apply page_set_page. }
  assert (Hq : pg' q = nd') by (rewrite Hpg'; by rewrite decide_True).
  destruct (replace_subtree cap pg pg' _ _ _ _ _ _ _ _ _ _ _ _ Hp Hwf I I)
    as (Hwf' & _ & Hown & Hholds & Hsum & _).
  { intros x _ Hx. rewrite Hpg'. rewrite decide_False; [done|].
    intros ->. apply Hx. by left. }
  { simpl. rewrite Hq. done. }
  { intros x [->|[]]. left. by left. }
  split; [split|].
  - done.
  - done.
  - intros x Hx. apply Hmint.
    apply Hown in Hx as [[Hx _]|[->|[]]]; [done|].
    eapply on_path_own; [exact Hp|done|by left].
  - change (nodeCount t') with (nodeCount t).
    change (root t') with (root t). change (treeHeight t') with (treeHeight t).
    fold L pg'. specialize (Hsum (λ _, 1)). cbn [wsum] in Hsum. lia.
  - change (root t') with (root t). change (treeHeight t') with (treeHeight t).
    fold L pg'. specialize (Hsum (node_weight cap)). cbn [wsum] in Hsum.
    rewrite Hq in Hsum. fold pg in Hd. lia.
  - done.
  - intros x. fold pg'. rewrite Hpg'. case_decide; [by destruct Hlf|apply Hsz].
  - intros k v. change (root t') with (root t).
    change (treeHeight t') with (treeHeight t). fold L pg'.
    rewrite Hholds. simpl. by rewrite Hq.
Qed.

(** [LeafNode::erase] on the leaf of a tree. *)
Lemma leaf_erase_spec pg lo hi q key :
  cap < 2 ^ 16 → wf cap pg 0 lo hi q →
  ∃ nd' erased,
    LeafNode_erase NDEBUG (pg q) key = Some (nd', erased) ∧
    level nd' = 0 ∧ leaf_wf cap nd' ∧
    (∀ k, k ∈ lkeys nd' → above lo k ∧ below hi k) ∧
    count nd' ≤ count (pg q) ∧
    ∀ k v, (∃ i, lkeys nd' !! i = Some k ∧ lvals nd' !! i = Some v) ↔
           k ≠ key ∧ holds pg 0 q k v.
Proof.
  intros Hcap (Hl & Hlf & Hr). pose proof Hlf as (Hsz & Hc & Hs).
  destruct (leaf_wf_lengths _ _ Hlf) as [Hlk Hlv].
  destruct (decide (key ∈ lkeys (pg q))) as [Hin|Hnot].
  - destruct (LeafNode_erase_present PageSize NDEBUG (pg q) key Hlf Hcap Hin)
      as (nd' & He & Hl' & Hc' & Hsz' & Hk' & Hv').
    exists nd', true. split; [done|]. split; [congruence|].
    split. { split; [done|]. split; [lia|]. rewrite Hk'. by apply strictly_increasing_delete. }
    split. { intros k Hk. rewrite Hk' in Hk. apply Hr. by eapply elem_of_delete_lookup. }
    split; [lia|]. intros k v. rewrite Hk', Hv'. apply pairs_del; [done|lia|done].
  - exists (pg q), false. split; [by apply (LeafNode_erase_absent PageSize NDEBUG)|].
    split; [done|]. split; [done|]. split; [done|]. split; [done|].
    intros k v. simpl. split; [|tauto]. intros (i & Hi & Hv). split; [|by eauto].
    intros ->. apply Hnot. by eapply list_elem_of_lookup_2.
Qed.

(** [LeafNode::insert] on a leaf of a tree that has space. *)
Lemma leaf_insert_spec pg lo hi q key value :
  cap < 2 ^ 16 → wf cap pg 0 lo hi q → count (pg q) < cap →
  above lo key → below hi key →
  ∃ nd',
    LeafNode_insert PageSize NDEBUG (pg q) key value = Some nd' ∧
    level nd' = 0 ∧ leaf_wf cap nd' ∧
    (∀ k, k ∈ lkeys nd' → above lo k ∧ below hi k) ∧
    count nd' ≤ S (count (pg q)) ∧
    (key ∈ lkeys (pg q) → count nd' = count (pg q)) ∧
    ∀ k v, (∃ i, lkeys nd' !! i = Some k ∧ lvals nd' !! i = Some v) ↔
           (k = key ∧ v = value) ∨ (k ≠ key ∧ holds pg 0 q k v).
Proof.
  intros Hcap (Hl & Hlf & Hr) Hsp Ha Hb. pose proof Hlf as (Hsz & Hc & Hs).
  destruct (leaf_wf_lengths _ _ Hlf) as [Hlk Hlv].
  assert (Hhs : LeafNode_has_space PageSize (pg q) = true) by by apply Nat.ltb_lt.
  destruct (decide (key ∈ lkeys (pg q))) as [Hin|Hnot].
  - destruct (LeafNode_insert_present PageSize NDEBUG (pg q) key value Hlf
                (or_intror Hhs) Hin)
      as (nd' & He & Hl' & Hc' & Hsz' & Hk' & Hv').
    exists nd'. split; [done|]. split; [congruence|].
    split. { split; [done|]. split; [lia|]. by rewrite Hk'. }
    split. { intros k Hk. rewrite Hk' in Hk. by apply Hr. }
    split; [lia|]. split; [done|].
    intros k v. rewrite Hk', Hv'. apply pairs_upd; [done|lia|done].
  - destruct (LeafNode_insert_absent PageSize NDEBUG (pg q) key value Hlf Hcap Hhs Hnot)
      as (nd' & He & Hl' & Hc' & Hsz' & Hk' & Hv').
    exists nd'. split; [done|]. split; [congruence|].
    split. { split; [done|]. split; [change (S (count (pg q)) ≤ cap) in Hsp; lia|].
             rewrite Hk'. by apply strictly_increasing_ins. }
    split. { intros k Hk. rewrite Hk' in Hk.
             apply elem_of_list_ins in Hk as [->|Hk]; [done|by apply Hr]. }
    split; [lia|]. split; [done|].
    intros k v. rewrite Hk', Hv'. apply pairs_ins; [done|lia|done].
Qed.

(** [erase] removes the key from the tree. *)
Lemma BTree_erase_pass_spec B t m fuel key :
  cap < 2 ^ 16 →
  tree_inv PageSize B t → tree_contents PageSize t m → treeHeight t ≤ fuel →
  ∃ t',
    BTree_erase_pass PageSize NDEBUG fuel key t = Some (Done (), t') ∧
    tree_inv PageSize B t' ∧ tree_contents PageSize t' (delete key m) ∧
    segment_id t' = segment_id t ∧
    nodeCount t' = nodeCount t ∧ treeHeight t' = treeHeight t ∧ root t' = root t ∧
    ∃ evs, trace t' = trace t ++ evs ∧
           Forall (leaf_event (λ c, is_leaf (page' t c))) evs.
Proof.
  intros Hcap Hinv Hm Hfuel.
  pose proof (treeHeight_pred _ _ _ Hinv) as HL.
  pose proof Hinv as [Hh Hwf Hmint Hcnt Hw Hfx Hsz].
  set (L := pred (treeHeight t)) in *.
  destruct (path_to_leaf cap (page' t) key L None None None (root t) Hwf)
    as (lo' & hi' & qp & q & Hp).
  destruct (on_path_wf cap _ _ _ _ _ _ _ _ _ _ _ _ _ Hp Hwf I I) as (Hwq & Ha & Hb).
  set (x0 := treeHeight t =? 1).
  destruct (descend_path PageSize NDEBUG (λ nd, level nd =? 1)
              (λ c, level (page' t c) =? 0) fuel key t
              _ _ _ _ _ _ _ _ _ _ Hp Hwf) with (tr := trace t ++ [Fix (root t) x0])
    as (ev1 & Hdesc & Hev1 & Hne); [|done|lia|].
  { intros x l lo hi Hx. rewrite (wf_level _ _ _ _ _ _ Hx).
    rewrite (wf_level _ _ _ _ _ _ (wf_child_of cap _ l lo hi x key Hx)).
    by destruct l. }
  destruct (leaf_erase_spec (page' t) lo' hi' q key Hcap Hwq)
    as (nd' & erased & Her & Hl' & Hlf' & Hr' & Hc' & Hh').
  set (tr1 := (trace t ++ [Fix (root t) x0]) ++ ev1) in *.
  destruct (unfix_if_parent qp q false tr1 (set_page q nd' t) Hne) as (ev2 & Hun & _ & Hev2).
  assert (Hleafq : is_leaf (page' t q) = true).
  { unfold is_leaf. by rewrite (wf_level _ _ _ _ _ _ Hwq). }
  destruct (leaf_update B 0 t _ key lo' hi' qp q nd'
              ((tr1 ++ ev2) ++ [Unfix q erased]) Hinv Hp Hl' Hlf' Hr')
    as [Hinv' Hholds'].
  { unfold node_weight. lia. }
  eexists. split; [|split; [|split; [|split; [|split; [|split; [|split]]]]]].
  - unfold BTree_erase_pass. rewrite tree_fix_page_start by done.
    cbn [mbind option_bind].
    rewrite decide_False by (cbn; congruence).
    change (root (with_fixed _ _ t)) with (root t).
    change [root t] with (held None (root t)). fold x0.
    rewrite Hdesc. replace (fuel - (L - 0)) with (S (fuel - L - 1)) by lia.
    cbn [descend]. rewrite page_with_fixed, Hleafq.
    cbn [mbind option_bind]. rewrite page_with_fixed.
    rewrite cassert_true by done.
    cbn [mbind option_bind]. rewrite Her. cbn [mbind option_bind].
    change (set_page q nd' (with_fixed (held qp q) tr1 t))
      with (with_fixed (held qp q) tr1 (set_page q nd' t)).
    rewrite Hun. cbn [mbind option_bind].
    rewrite tree_unfix_page_Some by in_list. cbn [mbind option_bind].
    rewrite release_head. done.
  - by rewrite Z.add_0_r in Hinv'.
  - intros k v. rewrite Hholds', Hh'. rewrite lookup_delete.
    fold L. case_decide as Hk.
    + subst k. split; [|done]. intros [[Hr1 Hr2]|[? _]]; [|done].
      exfalso. apply Hr2.
      by apply (on_path_holds cap _ _ _ _ _ _ _ _ _ _ _ _ _ v Hp Hwf I I).
    + rewrite <- (Hm k v). fold L. split.
      * intros [[? _]|[_ Hq]]; [done|].
        by eapply on_path_holds_sub.
      * intros Hr1. destruct (holds_dec (page' t) 0 q k v) as [Hq|Hnq]; [right|left]; done.
  - done.
  - done.
  - done.
  - done.
  - exists ([Fix (root t) x0] ++ ev1 ++ ev2 ++ [Unfix q erased]). split.
    { cbn [trace with_fixed]. unfold tr1. by rewrite !(assoc_L (++)). }
    apply Forall_app. split.
    { repeat constructor. cbn. unfold x0, is_leaf.
      rewrite (wf_level _ _ _ _ _ _ Hwf). fold L.
      destruct (treeHeight t) as [|[|h]]; [lia|done|done]. }
    apply Forall_app. split.
    { eapply Forall_impl; [exact Hev1|]. intros [x b|x b]; cbn; [done|by intros ->]. }
    apply Forall_app. split.
    { subst ev2. destruct qp; repeat constructor; by cbn. }
    repeat constructor. by cbn.
Qed.
End leaf_write.
(** ** [insert] without a split *)

Lemma descent_event_fix_mode m evs :
  Forall (descent_event m) evs → Forall (fix_mode m) evs.
Proof. intros H. eapply Forall_impl; [exact H|]. by intros [p x|p d]. Qed.

Section insert_pass.
Variable PageSize : nat.
Variable NDEBUG : bool.
Abbreviation cap := (InnerNode_kCapacity PageSize).
Abbreviation page' := (page PageSize).

Lemma unfix_if_only pp d tr t :
  ∃ evs, unfix_if pp d (with_fixed (option_list pp) tr t)
         = Some (with_fixed [] (tr ++ evs) t) ∧
         evs = match pp with Some x => [Unfix x d] | None => [] end.
Proof.
  destruct pp as [x|]; cbn [unfix_if].
  - exists [Unfix x d]. change (option_list (Some x)) with [x].
    rewrite tree_unfix_page_Some by in_list.
    by rewrite release_head.
  - exists []. by rewrite app_nil_r.
Qed.

(** Unfixing the current page, before its parent. *)
Lemma tree_unfix_current qp q d tr t :
  tree_unfix_page q d (with_fixed (held qp q) tr t)
  = Some (with_fixed (option_list qp) (tr ++ [Unfix q d]) t).
Proof. rewrite tree_unfix_page_Some by in_list. unfold held. by rewrite release_head. Qed.

Lemma unfix_events_fix_mode m q d qp d' :
  Forall (fix_mode m)
    ([Unfix q d] ++ match qp with Some x => [Unfix x d'] | None => [] end).
Proof. destruct qp; by repeat constructor. Qed.

Lemma root_mode B t exclusive :
  tree_inv PageSize B t →
  exclusive || (treeHeight t =? 1) = exclusive || is_leaf (page' t (root t)).
Proof.
  intros [Hh Hwf _ _ _ _ _]. f_equal. unfold is_leaf.
  rewrite (wf_level _ _ _ _ _ _ Hwf). destruct (treeHeight t) as [|[|h]]; [lia|done|done].
Qed.

(** The descent of a pass of [insert], up to the first full node or the
    leaf. *)
Lemma insert_descent B t fuel key value exclusive l lo' hi' qp q :
  tree_inv PageSize B t → treeHeight t ≤ fuel →
  on_path (page' t) (λ nd, count nd < cap) key (pred (treeHeight t))
    None None None (root t) l lo' hi' qp q →
  ∃ evs,
    BTree_insert_pass PageSize NDEBUG fuel key value exclusive t
    = ('(exit, t) ← BTree_insert_loop PageSize NDEBUG (fuel - (pred (treeHeight t) - l))
                      key exclusive qp q
                      (with_fixed (held qp q) (trace t ++ evs) t);
       match exit with
       | Goto e => Some (Restart e, t)
       | AtLeaf parentFrame currentPid =>
           let leafNode := page' t currentPid in
           _ ← cassert NDEBUG (Some (is_leaf leafNode));
           if negb (LeafNode_has_space PageSize leafNode) then
             if negb exclusive then
               t ← tree_unfix_page currentPid false t;
               t ← unfix_if parentFrame false t;
               Some (Restart true, t)
             else
               t ← split_node PageSize NDEBUG LeafNode_split parentFrame currentPid t;
               Some (Restart false, t)
           else
             leafNode ← LeafNode_insert PageSize NDEBUG leafNode key value;
             let t := set_page currentPid leafNode t in
             t ← tree_unfix_page currentPid true t;
             t ← unfix_if parentFrame false t;
             Some (Done (), t)
       end) ∧
    Forall (fix_mode (λ c, exclusive || is_leaf (page' t c))) evs ∧
    qp ≠ Some q ∧
    ∃ rest, evs = Fix (root t) (exclusive || is_leaf (page' t (root t))) :: rest.
Proof.
  intros Hinv Hfuel Hp.
  pose proof (treeHeight_pred _ _ _ Hinv) as HL.
  pose proof Hinv as [Hh Hwf Hmint Hcnt Hw Hfx Hsz].
  set (L := pred (treeHeight t)) in *.
  set (x0 := exclusive || (treeHeight t =? 1)).
  destruct (insert_loop_path PageSize NDEBUG exclusive fuel key t
              _ _ _ _ _ _ _ _ _ _ Hp Hwf) with (tr := trace t ++ [Fix (root t) x0])
    as (ev1 & Hdesc & Hev1 & Hne); [done|lia|].
  exists ([Fix (root t) x0] ++ ev1). split; [|split; [|split; [done|]]].
  - unfold BTree_insert_pass. rewrite tree_fix_page_start by done.
    cbn [mbind option_bind].
    rewrite decide_False by (cbn; congruence).
    change (root (with_fixed _ _ t)) with (root t).
    change [root t] with (held None (root t)). fold x0.
    rewrite Hdesc. by rewrite (assoc_L (++)).
  - apply Forall_app. split; [|by apply descent_event_fix_mode].
    repeat constructor. simpl. by eapply root_mode.
  - exists ev1. unfold x0. by rewrite (root_mode B t exclusive Hinv).
Qed.

(** A pass that finds space all the way inserts. *)
Lemma BTree_insert_pass_free B t m fuel key value exclusive lo' hi' qp q :
  cap < 2 ^ 16 →
  tree_inv PageSize B t → tree_contents PageSize t m → treeHeight t ≤ fuel →
  on_path (page' t) (λ nd, count nd < cap) key (pred (treeHeight t))
    None None None (root t) 0 lo' hi' qp q →
  count (page' t q) < cap →
  ∃ t' evs,
    BTree_insert_pass PageSize NDEBUG fuel key value exclusive t = Some (Done (), t') ∧
    tree_inv PageSize (B + 2) t' ∧ tree_contents PageSize t' (<[key:=value]> m) ∧
    trace t' = trace t ++ evs ∧
    Forall (fix_mode (λ c, exclusive || is_leaf (page' t c))) evs ∧
    nodeCount t' = nodeCount t ∧ treeHeight t' = treeHeight t ∧ root t' = root t ∧
    segment_id t' = segment_id t ∧
    (∀ x, x ≠ q → page' t' x = page' t x) ∧
    level (page' t' q) = 0 ∧
    (key ∈ lkeys (page' t q) → count (page' t' q) = count (page' t q)) ∧
    ∃ rest, evs = Fix (root t) (exclusive || is_leaf (page' t (root t))) :: rest.
Proof.
  intros Hcap Hinv Hm Hfuel Hp Hsp.
  pose proof (treeHeight_pred _ _ _ Hinv) as HL.
  pose proof Hinv as [Hh Hwf Hmint Hcnt Hw Hfx Hsz].
  destruct (insert_descent B t fuel key value exclusive 0 lo' hi' qp q Hinv Hfuel Hp)
    as (ev1 & Hpass & Hev1 & Hne & Hhd).
  set (L := pred (treeHeight t)) in *.
  destruct (on_path_wf cap _ _ _ _ _ _ _ _ _ _ _ _ _ Hp Hwf I I) as (Hwq & Ha & Hb).
  destruct (leaf_insert_spec PageSize NDEBUG (page' t) lo' hi' q key value
              Hcap Hwq Hsp Ha Hb)
    as (nd' & Hins & Hl' & Hlf' & Hr' & Hc' & Hc'' & Hh').
  assert (Hleafq : is_leaf (page' t q) = true).
  { unfold is_leaf. by rewrite (wf_level _ _ _ _ _ _ Hwq). }
  destruct (unfix_if_only qp false ((trace t ++ ev1) ++ [Unfix q true]) (set_page q nd' t))
    as (ev2 & Hun & Hev2).
  destruct (leaf_update PageSize B 2 t _ key lo' hi' qp q nd'
              (((trace t ++ ev1) ++ [Unfix q true]) ++ ev2) Hinv Hp Hl' Hlf' Hr')
    as [Hinv' Hholds'].
  { unfold node_weight. lia. }
  eexists _, (ev1 ++ [Unfix q true] ++ ev2). split; [|split; [|split; [|split; [|split]]]].
  - rewrite Hpass. replace (fuel - (L - 0)) with (S (fuel - L - 1)) by lia.
    cbn [BTree_insert_loop]. rewrite page_with_fixed, Hleafq.
    cbn [mbind option_bind]. rewrite page_with_fixed.
    rewrite cassert_true by done. cbn [mbind option_bind].
    unfold LeafNode_has_space. change (LeafNode_kCapacity PageSize) with cap.
    rewrite (proj2 (Nat.ltb_lt _ _) Hsp). cbn [negb].
    rewrite Hins. cbn [mbind option_bind].
    change (set_page q nd' (with_fixed (held qp q) (trace t ++ ev1) t))
      with (with_fixed (held qp q) (trace t ++ ev1) (set_page q nd' t)).
    rewrite tree_unfix_current. cbn [mbind option_bind]. rewrite Hun. done.
  - exact Hinv'.
  - intros k v. rewrite Hholds', Hh'. rewrite lookup_insert.
    fold L. case_decide as Hk.
    + subst k. split.
      * intros [[Hr1 Hr2]|[[_ ->]|[? _]]]; [|done|done].
        exfalso. apply Hr2.
        by apply (on_path_holds cap _ _ _ _ _ _ _ _ _ _ _ _ _ v Hp Hwf I I).
      * intros [= ->]. right. by left.
    + rewrite <- (Hm k v). fold L. split.
      * intros [[? _]|[[? _]|[_ Hq]]]; [done|congruence|].
        by eapply on_path_holds_sub.
      * intros Hr1. destruct (holds_dec (page' t) 0 q k v) as [Hq|Hnq]; [right|left]; auto.
  - cbn [trace with_fixed]. by rewrite !(assoc_L (++)).
  - apply Forall_app. split; [done|]. subst ev2. apply unfix_events_fix_mode.
  - split; [done|]. split; [done|]. split; [done|]. split; [done|].
    split. { intros x Hx. rewrite page_with_fixed, page_set_page. by rewrite decide_False. }
    rewrite page_with_fixed, page_set_page. rewrite decide_True by done.
    split; [done|]. split; [done|]. destruct Hhd as [rest ->]. by eexists.
Qed.

(** A pass without the right to split that meets a full node gives up. *)
Lemma BTree_insert_pass_full_shared B t fuel key value l lo' hi' qp q :
  tree_inv PageSize B t → treeHeight t ≤ fuel →
  on_path (page' t) (λ nd, count nd < cap) key (pred (treeHeight t))
    None None None (root t) l lo' hi' qp q →
  ¬ count (page' t q) < cap →
  ∃ evs,
    BTree_insert_pass PageSize NDEBUG fuel key value false t
    = Some (Restart true, with_fixed [] (trace t ++ evs) t) ∧
    Forall (fix_mode (λ c, is_leaf (page' t c))) evs ∧
    ∃ rest, evs = Fix (root t) (is_leaf (page' t (root t))) :: rest.
Proof.
  intros Hinv Hfuel Hp Hfull.
  pose proof (treeHeight_pred _ _ _ Hinv) as HL.
  pose proof Hinv as [Hh Hwf Hmint Hcnt Hw Hfx Hsz].
  destruct (insert_descent B t fuel key value false l lo' hi' qp q Hinv Hfuel Hp)
    as (ev1 & Hpass & Hev1 & Hne & Hhd).
  set (L := pred (treeHeight t)) in *.
  destruct (on_path_wf cap _ _ _ _ _ _ _ _ _ _ _ _ _ Hp Hwf I I) as (Hwq & Ha & Hb).
  pose proof (on_path_le _ _ _ _ _ _ _ _ _ _ _ _ _ Hp) as Hle.
  destruct (unfix_if_only qp false ((trace t ++ ev1) ++ [Unfix q false]) t)
    as (ev2 & Hun & Hev2).
  assert (Hns : (count (page' t q) <? cap) = false) by (apply Nat.ltb_ge; lia).
  exists (ev1 ++ [Unfix q false] ++ ev2). split; [|split].
  - rewrite Hpass. replace (fuel - (L - l)) with (S (fuel - (L - l) - 1)) by lia.
    cbn [BTree_insert_loop]. rewrite page_with_fixed.
    assert (Hleafq : is_leaf (page' t q) = Nat.eqb l 0).
    { unfold is_leaf. by rewrite (wf_level _ _ _ _ _ _ Hwq). }
    rewrite Hleafq. destruct l as [|l]; cbn [Nat.eqb].
    + cbn [mbind option_bind]. rewrite ?page_with_fixed, Hleafq.
      rewrite cassert_true by done.
      cbn [mbind option_bind]. unfold LeafNode_has_space.
      change (LeafNode_kCapacity PageSize) with cap. rewrite Hns. cbn [negb].
      rewrite tree_unfix_current. cbn [mbind option_bind].
      rewrite Hun. cbn [mbind option_bind]. by rewrite !(assoc_L (++)).
    + unfold InnerNode_has_space. rewrite Hns. cbn [negb].
      rewrite tree_unfix_current. cbn [mbind option_bind].
      rewrite Hun. cbn [mbind option_bind]. by rewrite !(assoc_L (++)).
  - apply Forall_app. split; [done|]. subst ev2. apply unfix_events_fix_mode.
  - destruct Hhd as [rest ->]. by eexists.
Qed.
End insert_pass.
(** ** Splitting a full node *)

Lemma ref_lb_take ks key n sep :
  strictly_increasing ks → ks !! n = Some sep → (key ≤ sep)%Z →
  ref_lb (take n ks) key = ref_lb ks key ∧ ref_lb ks key ≤ n.
Proof.
  intros Hs Hn Hk.
  assert (Hle : ref_lb ks key ≤ n).
  { destruct (decide (ref_lb ks key ≤ n)) as [|Hgt]; [done|].
    assert (sep < key)%Z by (eapply (ref_lb_lt ks key n); [lia|done]). lia. }
  split; [|done]. apply ref_lb_unique.
  - by apply strictly_increasing_take.
  - rewrite length_take. apply lookup_lt_Some in Hn. lia.
  - intros j x Hj Hx. apply lookup_take_Some in Hx as [Hx _].
    by eapply ref_lb_lt.
  - intros j x Hj Hx. apply lookup_take_Some in Hx as [Hx _].
    by eapply (ref_lb_ge ks key j).
Qed.

Lemma ref_lb_drop ks key n sep :
  strictly_increasing ks → ks !! n = Some sep → (sep < key)%Z →
  ref_lb (drop (S n) ks) key = ref_lb ks key - S n ∧ S n ≤ ref_lb ks key.
Proof.
  intros Hs Hn Hk.
  assert (Hle : S n ≤ ref_lb ks key).
  { destruct (decide (S n ≤ ref_lb ks key)) as [|Hgt]; [done|].
    assert (key ≤ sep)%Z by (eapply (ref_lb_ge ks key n); [done|lia|done]). lia. }
  split; [|done]. pose proof (ref_lb_le ks key). apply ref_lb_unique.
  - by apply strictly_increasing_drop.
  - rewrite length_drop. lia.
  - intros j x Hj Hx. rewrite lookup_drop in Hx.
    eapply (ref_lb_lt ks key (S n + j)); [lia|done].
  - intros j x Hj Hx. rewrite lookup_drop in Hx.
    eapply (ref_lb_ge ks key (S n + j)); [done|lia|done].
Qed.

Lemma sum_list_take_drop (g : Z → nat) n cs :
  sum_list (map g (take n cs)) + sum_list (map g (drop n cs)) = sum_list (map g cs).
Proof.
  rewrite <- (take_drop n cs) at 3. rewrite map_app.
  induction (map g (take n cs)) as [|a l IH]; simpl; [done|]. lia.
Qed.

Lemma half_bounds cap : 4 ≤ cap → 2 ≤ cap / 2 ∧ 2 ≤ cap - cap / 2 ∧ cap / 2 < cap.
Proof.
  intros Hc. pose proof (Nat.div_mod_eq cap 2) as Hd.
  pose proof (Nat.mod_upper_bound cap 2). lia.
Qed.

Section split_facts.
Variable cap : nat.
Hypothesis cap_ge : 4 ≤ cap.

(** A full leaf split by [LeafNode::split]. *)
Lemma split_leaf_halves pg pg' lo hi c r nd other sep :
  wf cap pg 0 lo hi c → count (pg c) = cap → r ≠ c →
  pg' c = nd → pg' r = other →
  level nd = 0 → level other = 0 →
  count nd = cap - cap / 2 → count other = cap / 2 →
  node_sized cap nd → node_sized cap other →
  lkeys nd = take (count nd) (lkeys (pg c)) →
  lkeys other = drop (count nd) (lkeys (pg c)) →
  lvals nd = take (count nd) (lvals (pg c)) →
  lvals other = drop (count nd) (lvals (pg c)) →
  lkeys (pg c) !! (count nd - 1) = Some sep →
  halves cap pg pg' 0 lo hi c r sep.
Proof.
  intros (Hl & Hlf & Hr) Hfull Hrc Hc Hro Hln Hlo Hcn Hco Hsn Hso Hkn Hko Hvn Hvo Hsep.
  destruct (half_bounds cap cap_ge) as (Hh1 & Hh2 & Hh3).
  destruct (leaf_wf_lengths _ _ Hlf) as [Hlk Hlv].
  pose proof Hlf as (_ & _ & Hs).
  set (ks := lkeys (pg c)) in *. set (vs := lvals (pg c)) in *.
  set (n := count nd) in *.
  assert (Hlast : ∃ z, ks !! (cap - 1) = Some z) by (apply lookup_lt_is_Some_2; lia).
  destruct Hlast as [z Hz].
  split.
  - simpl. rewrite Hc. split; [done|]. split.
    + split; [done|]. split; [lia|]. rewrite Hkn. by apply strictly_increasing_take.
    + intros k. rewrite Hkn. intros [j Hj]%list_elem_of_lookup_1.
      apply lookup_take_Some in Hj as [Hj Hjn].
      split; [apply Hr; by eapply list_elem_of_lookup_2|]. simpl.
      destruct (decide (j = n - 1)) as [->|Hne]; [fold n in Hsep; simplify_eq; lia|].
      assert (k < sep)%Z by (eapply (Hs j (n - 1)); [lia|done|done]). lia.
  - simpl. rewrite Hro. split; [done|]. split.
    + split; [done|]. split; [lia|]. rewrite Hko. by apply strictly_increasing_drop.
    + intros k. rewrite Hko. intros [j Hj]%list_elem_of_lookup_1.
      rewrite lookup_drop in Hj.
      split; [|apply Hr; by eapply list_elem_of_lookup_2]. simpl.
      eapply (Hs (n - 1) (n + j)); [lia|done|done].
  - apply Hr. by eapply list_elem_of_lookup_2.
  - assert (sep < z)%Z by (eapply (Hs (n - 1) (cap - 1)); [lia|done|done]).
    assert (below hi z) by (apply Hr; by eapply list_elem_of_lookup_2).
    destruct hi; simpl in *; [lia|done].
  - intros x. simpl. split; [intros [[->|[]]|[->|[]]]; auto|].
    intros [[->|[]]| ->]; auto.
  - intros x. simpl. intros [->|[]] [?|[]]. done.
  - intros k v. simpl. rewrite Hc, Hro, Hkn, Hko, Hvn, Hvo. fold ks vs. split.
    + intros [(i & Hi & Hv)|(i & Hi & Hv)].
      * apply lookup_take_Some in Hi as [Hi _]. apply lookup_take_Some in Hv as [Hv _].
        by exists i.
      * rewrite lookup_drop in Hi, Hv. by exists (n + i).
    + intros (i & Hi & Hv). destruct (decide (i < n)).
      * left. exists i. by rewrite !lookup_take_lt by done.
      * right. exists (i - n). rewrite !lookup_drop.
        by replace (n + (i - n)) with i by lia.
  - intros f. simpl. rewrite Hc, Hro. lia.
  - done.
  - by rewrite Hc.
  - by rewrite Hro.
  - intros C key. simpl.
    assert (Hif : ∀ x, x = c ∨ x = r → (count (pg' x) <? cap) = true).
    { intros x [->| ->]; apply Nat.ltb_lt; [rewrite Hc|rewrite Hro]; lia. }
    rewrite Hif by (case_bool_decide; auto).
    rewrite Hfull, Nat.ltb_irrefl. lia.
Qed.

(** A full inner node split by [InnerNode::split]. *)
Lemma split_inner_halves pg pg' l lo hi c r nd other sep :
  wf cap pg (S l) lo hi c → count (pg c) = cap → r ≠ c → ¬ own pg (S l) c r →
  pg' c = nd → pg' r = other →
  (∀ j cj, ichildren (pg c) !! j = Some cj → ∀ x, own pg l cj x → pg' x = pg x) →
  level nd = S l → level other = S l →
  count nd = cap - cap / 2 → count other = cap / 2 →
  node_sized cap nd → node_sized cap other →
  ikeys nd = take (count nd - 1) (ikeys (pg c)) →
  ikeys other = drop (count nd) (ikeys (pg c)) →
  ichildren nd = take (count nd) (ichildren (pg c)) →
  ichildren other = drop (count nd) (ichildren (pg c)) →
  ikeys (pg c) !! (count nd - 1) = Some sep →
  halves cap pg pg' (S l) lo hi c r sep.
Proof.
  intros Hwf Hfull Hrc Hfresh Hc Hro Hfr Hln Hlo Hcn Hco Hsn Hso Hkn Hko Hvn Hvo Hsep.
  pose proof Hwf as (Hl & Hin & Hcnt & Hkb & Hch & Hdis).
  destruct (half_bounds cap cap_ge) as (Hh1 & Hh2 & Hh3).
  destruct (inner_wf_lengths _ _ Hin) as [Hlk Hlc].
  pose proof Hin as (_ & _ & Hs).
  set (ks := ikeys (pg c)) in *. set (cs := ichildren (pg c)) in *.
  set (n := count nd) in *.
  assert (Hfr_wf : ∀ i ci, cs !! i = Some ci →
            wf cap pg' l (clo lo ks i) (chi hi ks i) ci).
  { intros i ci Hi. apply (wf_frame cap pg pg'); [by eapply Hfr|by apply Hch]. }
  assert (Hfr_own : ∀ i ci x, cs !! i = Some ci → own pg' l ci x ↔ own pg l ci x).
  { intros i ci x Hi. apply own_frame. by eapply Hfr. }
  assert (Hfr_holds : ∀ i ci k v, cs !! i = Some ci →
            holds pg' l ci k v ↔ holds pg l ci k v).
  { intros i ci k v Hi. apply holds_frame. by eapply Hfr. }
  assert (Hclo_l : ∀ i, i < n → clo lo (take (n - 1) ks) i = clo lo ks i).
  { intros [|j] Hj; simpl; [done|]. by rewrite lookup_take_lt by lia. }
  assert (Hchi_l : ∀ i, i < n → chi (Some sep) (take (n - 1) ks) i = chi hi ks i).
  { intros i Hi. unfold chi. rewrite lookup_take. case_decide.
    - destruct (lookup_lt_is_Some_2 ks i) as [b ->]; [lia|done].
    - replace i with (n - 1) by lia. fold n in Hsep. by rewrite Hsep. }
  assert (Hclo_r : ∀ i, clo (Some sep) (drop n ks) i = clo lo ks (n + i)).
  { intros [|j].
    - replace (n + 0) with (S (n - 1)) by lia. simpl. by fold n in Hsep.
    - replace (n + S j) with (S (n + j)) by lia. simpl. by rewrite lookup_drop. }
  assert (Hchi_r : ∀ i, chi hi (drop n ks) i = chi hi ks (n + i)).
  { intros i. unfold chi. by rewrite lookup_drop. }
  split.
  - simpl. rewrite Hc. split; [done|]. split.
    { split; [done|]. split; [lia|]. rewrite Hkn. by apply strictly_increasing_take. }
    split; [lia|]. split.
    { intros k. rewrite Hkn. intros [j Hj]%list_elem_of_lookup_1.
      apply lookup_take_Some in Hj as [Hj Hjn].
      split; [apply Hkb; by eapply list_elem_of_lookup_2|]. simpl.
      eapply (Hs j (n - 1)); [lia|done|done]. }
    split.
    { intros i ci. rewrite Hvn, Hkn. intros [Hi Hilt]%lookup_take_Some.
      fold n. rewrite Hclo_l, Hchi_l by done. by apply Hfr_wf. }
    intros i j ci cj x. rewrite Hvn.
    intros [Hi _]%lookup_take_Some [Hj _]%lookup_take_Some Hxi Hxj.
    apply (Hdis i j ci cj x); [done|done|by eapply Hfr_own|by eapply Hfr_own].
  - simpl. rewrite Hro. split; [done|]. split.
    { split; [done|]. split; [lia|]. rewrite Hko. by apply strictly_increasing_drop. }
    split; [lia|]. split.
    { intros k. rewrite Hko. intros [j Hj]%list_elem_of_lookup_1.
      rewrite lookup_drop in Hj.
      split; [|apply Hkb; by eapply list_elem_of_lookup_2]. simpl.
      eapply (Hs (n - 1) (n + j)); [lia|done|done]. }
    split.
    { intros i ci. rewrite Hvo, Hko. rewrite lookup_drop. intros Hi.
      fold n. rewrite Hclo_r, Hchi_r. by apply Hfr_wf. }
    intros i j ci cj x. rewrite Hvo, !lookup_drop. intros Hi Hj Hxi Hxj.
    assert (n + i = n + j); [|lia].
    apply (Hdis _ _ ci cj x); [done|done|by eapply Hfr_own|by eapply Hfr_own].
  - apply Hkb. by eapply list_elem_of_lookup_2.
  - apply Hkb. by eapply list_elem_of_lookup_2.
  - intros x. simpl. rewrite Hc, Hro, Hvn, Hvo. fold cs. split.
    + intros [[->|(i & ci & Hi & Hx)]|[->|(i & ci & Hi & Hx)]]; [by auto| |by auto|].
      * apply lookup_take_Some in Hi as [Hi _]. left. right. exists i, ci.
        split; [done|]. by eapply Hfr_own.
      * rewrite lookup_drop in Hi. left. right. exists (n + i), ci.
        split; [done|]. by eapply Hfr_own.
    + intros [[->|(i & ci & Hi & Hx)]| ->]; [by auto| |by auto].
      apply (Hfr_own i ci x Hi) in Hx. destruct (decide (i < n)).
      * left. right. exists i, ci. by rewrite lookup_take_lt by done.
      * right. right. exists (i - n), ci. rewrite lookup_drop.
        by replace (n + (i - n)) with i by lia.
  - intros x. simpl. rewrite Hc, Hro, Hvn, Hvo. fold cs.
    intros [->|(i & ci & [Hi Hilt]%lookup_take_Some & Hxi)]
           [?|(j & cj & Hj & Hxj)]; [done| | |].
    + rewrite lookup_drop in Hj. apply (Hfr_own _ cj c Hj) in Hxj.
      pose proof (own_level cap pg l _ _ cj c (Hch _ _ Hj) Hxj). lia.
    + subst x. apply Hfresh. right. exists i, ci. split; [done|]. by eapply Hfr_own.
    + rewrite lookup_drop in Hj.
      assert (i = n + j); [|lia].
      apply (Hdis _ _ ci cj x); [done|done|by eapply Hfr_own|by eapply Hfr_own].
  - intros k v. simpl. rewrite Hc, Hro, Hvn, Hvo. fold cs. split.
    + intros [(i & ci & Hi & Hx)|(i & ci & Hi & Hx)].
      * apply lookup_take_Some in Hi as [Hi _]. exists i, ci.
        split; [done|]. by eapply Hfr_holds.
      * rewrite lookup_drop in Hi. exists (n + i), ci.
        split; [done|]. by eapply Hfr_holds.
    + intros (i & ci & Hi & Hx).
      apply (Hfr_holds i ci k v Hi) in Hx. destruct (decide (i < n)).
      * left. exists i, ci. by rewrite lookup_take_lt by done.
      * right. exists (i - n), ci. rewrite lookup_drop.
        by replace (n + (i - n)) with i by lia.
  - intros f. simpl. rewrite Hc, Hro, Hvn, Hvo. fold cs n.
    pose proof (sum_list_take_drop (wsum pg' f l) n cs) as Hsum.
    rewrite (sum_list_map_ext (wsum pg' f l) (wsum pg f l) cs) in Hsum.
    2:{ intros ci [i Hi]%list_elem_of_lookup_1. apply wsum_frame. by eapply Hfr. }
    lia.
  - done.
  - by rewrite Hc.
  - by rewrite Hro.
  - intros C key. cbn [phi].
    assert (Hif : ∀ x, x = c ∨ x = r → (count (pg' x) <? cap) = true).
    { intros x [->| ->]; apply Nat.ltb_lt; [rewrite Hc|rewrite Hro]; lia. }
    rewrite Hif by (case_bool_decide; auto).
    rewrite Hfull, Nat.ltb_irrefl.
    pose proof (child_of_lookup cap pg l lo hi c key Hwf) as Hco'. fold ks cs in Hco'.
    assert (Hchild : child_of (pg' (if bool_decide (key ≤ sep)%Z then c else r)) key
                     = child_of (pg c) key).
    { unfold child_of at 1. case_bool_decide as Hk.
      - rewrite Hc, Hvn, Hkn. fold ks cs n.
        destruct (ref_lb_take ks key (n - 1) sep Hs) as [-> Hle]; [by fold n in Hsep|done|].
        rewrite lookup_take_lt by lia. by rewrite Hco'.
      - rewrite Hro, Hvo, Hko. fold ks cs n.
        destruct (ref_lb_drop ks key (n - 1) sep Hs) as [Hrl Hle]; [by fold n in Hsep|lia|].
        replace (S (n - 1)) with n in * by lia. rewrite Hrl.
        rewrite lookup_drop. replace (n + (ref_lb ks key - n)) with (ref_lb ks key) by lia.
        by rewrite Hco'. }
    rewrite Hchild.
    rewrite (phi_frame cap pg pg' C key l _ _ _ (wf_child_of cap pg l lo hi c key Hwf)).
    2:{ eapply Hfr. exact Hco'. }
    lia.
Qed.
End split_facts.
(** ** The parent of a split node *)

Lemma sum_list_app' (l1 l2 : list nat) : sum_list (l1 ++ l2) = sum_list l1 + sum_list l2.
Proof. induction l1 as [|a l1 IH]; simpl; lia. Qed.

Lemma sbelow_trans hi b k : sbelow hi b → (k ≤ b)%Z → sbelow hi k.
Proof. destruct hi; simpl; lia. Qed.

Lemma ref_lb_list_ins ks key sep i :
  strictly_increasing ks → ref_lb ks key = i →
  strictly_increasing (list_ins i sep ks) →
  ref_lb (list_ins i sep ks) key = if bool_decide (key ≤ sep)%Z then i else S i.
Proof.
  intros Hs Hi Hs'. pose proof (ref_lb_le ks key) as Hle. rewrite Hi in Hle.
  assert (Hlt : ∀ j x, j < i → ks !! j = Some x → (x < key)%Z).
  { intros j x Hj Hx. eapply (ref_lb_lt ks key j); [lia|done]. }
  assert (Hge : ∀ j x, i ≤ j → ks !! j = Some x → (key ≤ x)%Z).
  { intros j x Hj Hx. eapply (ref_lb_ge ks key j); [done|lia|done]. }
  clear Hi.
  case_bool_decide; (apply ref_lb_unique; [done|rewrite list_ins_length; lia|..]);
    intros j x Hj Hx; rewrite list_ins_lookup in Hx by done;
    repeat case_decide; simplify_eq; try lia;
    first [by eapply Hlt | eapply (Hge (j - 1)); [lia|done]].
Qed.

Section parent_facts.
Variable cap : nat.
Hypothesis cap_ge : 4 ≤ cap.

Lemma split_under_parent pg pg' l lo hi pf r sep key P' :
  wf cap pg (S l) lo hi pf → count (pg pf) < cap → above lo key → below hi key →
  halves cap pg pg' l
    (clo lo (ikeys (pg pf)) (ref_lb (ikeys (pg pf)) key))
    (chi hi (ikeys (pg pf)) (ref_lb (ikeys (pg pf)) key))
    (child_of (pg pf) key) r sep →
  pg' pf = P' →
  level P' = S l → count P' = S (count (pg pf)) → node_sized cap P' →
  (sep ∉ ikeys (pg pf) →
   ikeys P' = list_ins (ref_lb (ikeys (pg pf)) sep) sep (ikeys (pg pf)) ∧
   ichildren P' = list_ins (S (ref_lb (ikeys (pg pf)) sep)) r (ichildren (pg pf))) →
  (∀ j cj, ichildren (pg pf) !! j = Some cj → j ≠ ref_lb (ikeys (pg pf)) key →
           ∀ x, own pg l cj x → pg' x = pg x) →
  ¬ own pg (S l) pf r →
  (sep ∉ ikeys (pg pf)) ∧
  wf cap pg' (S l) lo hi pf ∧
  (∀ x, own pg' (S l) pf x ↔ own pg (S l) pf x ∨ x = r) ∧
  (∀ k v, holds pg' (S l) pf k v ↔ holds pg (S l) pf k v) ∧
  (∀ f, wsum pg' f (S l) pf + f (pg pf) + f (pg (child_of (pg pf) key))
        = wsum pg f (S l) pf + f P' + f (pg' (child_of (pg pf) key)) + f (pg' r)) ∧
  (∀ C, l < C → phi cap pg' C key (S l) pf < phi cap pg C key (S l) pf).
Proof.
  intros Hwf Hsp Ha Hb Hhv Hpf Hlv Hcn Hsz Hins Hfr Hfresh.
  pose proof Hwf as (Hl & Hin & Hcnt & Hkb & Hch & Hdis).
  destruct (inner_wf_lengths _ _ Hin) as [Hlk Hlc].
  pose proof Hin as (_ & _ & Hs).
  pose proof (child_of_lookup cap pg l lo hi pf key Hwf) as Hic.
  pose proof (ref_lb_le (ikeys (pg pf)) key) as Hile.
  set (kp := ikeys (pg pf)) in *. set (cs := ichildren (pg pf)) in *.
  set (i := ref_lb kp key) in *. set (c := child_of (pg pf) key) in *.
  destruct Hhv as [Hleft Hright Hlo Hhi Hown Hdisj Hholds Hsum Hfull Hcl Hcr Hphi].
  (* the separator goes where the split child is *)
  assert (Hlow : ∀ j x, j < i → kp !! j = Some x → (x < sep)%Z).
  { intros j x Hj Hx. destruct i as [|i']; [lia|]. simpl in Hlo.
    destruct (lookup_lt_is_Some_2 kp i') as [a Ha']; [lia|]. rewrite Ha' in Hlo.
    simpl in Hlo. destruct (decide (j = i')) as [->|]; [by simplify_eq|].
    assert (x < a)%Z by (eapply (Hs j i'); [lia|done|done]). lia. }
  assert (Hhigh : ∀ j x, i ≤ j → kp !! j = Some x → (sep < x)%Z).
  { intros j x Hj Hx. pose proof (lookup_lt_Some _ _ _ Hx).
    destruct (lookup_lt_is_Some_2 kp i) as [b Hb']; [lia|].
    unfold chi in Hhi. rewrite Hb' in Hhi. simpl in Hhi.
    destruct (decide (j = i)) as [->|]; [by simplify_eq|].
    assert (b < x)%Z by (eapply (Hs i j); [lia|done|done]). lia. }
  assert (Hnotin : sep ∉ kp).
  { intros [j Hj]%list_elem_of_lookup_1. destruct (decide (j < i)).
    - pose proof (Hlow j sep ltac:(done) Hj). lia.
    - pose proof (Hhigh j sep ltac:(lia) Hj). lia. }
  assert (Hsi : ref_lb kp sep = i).
  { apply ref_lb_unique; [done|lia|done|].
    intros j x Hj Hx. pose proof (Hhigh j x Hj Hx). lia. }
  destruct (Hins Hnotin) as [Hkp' Hcs']. rewrite Hsi in Hkp', Hcs'. clear Hins.
  set (kp' := ikeys P') in *. set (cs' := ichildren P') in *.
  assert (Hs' : strictly_increasing kp').
  { rewrite Hkp', <- Hsi. by apply strictly_increasing_ins. }
  assert (Hsep_b : above lo sep ∧ sbelow hi sep).
  { split.
    - destruct i as [|i']; [done|]. simpl in Hlo.
      destruct (lookup_lt_is_Some_2 kp i') as [a Ha']; [lia|]. rewrite Ha' in Hlo.
      simpl in Hlo. apply (above_trans lo a); [|lia].
      apply Hkb. by eapply list_elem_of_lookup_2.
    - unfold chi in Hhi. destruct (kp !! i) as [b|] eqn:Hb'; [|done].
      simpl in Hhi. apply (sbelow_trans hi b); [|lia].
      apply Hkb. by eapply list_elem_of_lookup_2. }
  (* the children of the new parent *)
  assert (Hcs_lt : ∀ j, j < S i → cs' !! j = cs !! j).
  { intros j Hj. rewrite Hcs'. apply list_ins_lookup_lt; lia. }
  assert (Hcs_eq : cs' !! S i = Some r).
  { rewrite Hcs'. apply list_ins_lookup_eq. lia. }
  assert (Hcs_gt : ∀ j, S i < j → cs' !! j = cs !! (j - 1)).
  { intros j Hj. rewrite Hcs'. apply list_ins_lookup_gt; lia. }
  assert (Hkp_lt : ∀ j, j < i → kp' !! j = kp !! j).
  { intros j Hj. rewrite Hkp'. apply list_ins_lookup_lt; lia. }
  assert (Hkp_eq : kp' !! i = Some sep).
  { rewrite Hkp'. apply list_ins_lookup_eq. lia. }
  assert (Hkp_gt : ∀ j, i < j → kp' !! j = kp !! (j - 1)).
  { intros j Hj. rewrite Hkp'. apply list_ins_lookup_gt; lia. }
  assert (Hclo_le : ∀ j, j ≤ i → clo lo kp' j = clo lo kp j).
  { intros [|j'] Hj; simpl; [done|]. apply Hkp_lt. lia. }
  assert (Hchi_lt : ∀ j, j < i → chi hi kp' j = chi hi kp j).
  { intros j Hj. unfold chi. by rewrite Hkp_lt. }
  assert (Hclo_gt : ∀ j, S i < j → clo lo kp' j = clo lo kp (j - 1)).
  { intros j Hj. destruct j as [|[|j']]; [lia|lia|]. simpl.
    rewrite Hkp_gt by lia. simpl. by rewrite Nat.sub_0_r. }
  assert (Hchi_gt : ∀ j, i < j → chi hi kp' j = chi hi kp (j - 1)).
  { intros j Hj. unfold chi. by rewrite Hkp_gt. }
  (* the siblings are untouched *)
  assert (Hsib_own : ∀ j cj x, cs !! j = Some cj → j ≠ i → own pg' l cj x ↔ own pg l cj x).
  { intros j cj x Hj Hne. apply own_frame. by eapply Hfr. }
  assert (Hsib_holds : ∀ j cj k v, cs !! j = Some cj → j ≠ i →
            holds pg' l cj k v ↔ holds pg l cj k v).
  { intros j cj k v Hj Hne. apply holds_frame. by eapply Hfr. }
  assert (Hsib_wf : ∀ j cj, cs !! j = Some cj → j ≠ i →
            wf cap pg' l (clo lo kp j) (chi hi kp j) cj).
  { intros j cj Hj Hne. apply (wf_frame cap pg pg'); [by eapply Hfr|by apply Hch]. }
  (* where the pages of the new children come from *)
  assert (Hweak : ∀ j cj x, cs' !! j = Some cj → own pg' l cj x →
            (x = r ∧ (j = i ∨ j = S i)) ∨
            (∃ o co, cs !! o = Some co ∧ own pg l co x ∧
                     o = (if decide (j ≤ i) then j else j - 1))).
  { intros j cj x Hj Hx.
    destruct (Nat.lt_total j i) as [Hlt|[->|Hgt]].
    - rewrite Hcs_lt in Hj by lia. right. exists j, cj.
      rewrite decide_True by lia. split; [done|]. split; [|done].
      by apply (Hsib_own j cj x Hj ltac:(lia)).
    - rewrite Hcs_lt in Hj by lia. assert (cj = c) as -> by congruence.
      destruct (proj1 (Hown x) (or_introl Hx)) as [Hx'| ->]; [right|left; auto].
      exists i, c. by rewrite decide_True by lia.
    - destruct (decide (j = S i)) as [->|Hne].
      + assert (cj = r) as -> by congruence.
        destruct (proj1 (Hown x) (or_intror Hx)) as [Hx'| ->]; [right|left; auto].
        exists i, c. rewrite decide_False by lia. split; [done|]. split; [done|lia].
      + rewrite Hcs_gt in Hj by lia. right. exists (j - 1), cj.
        rewrite decide_False by lia. split; [done|]. split; [|done].
        by apply (Hsib_own (j - 1) cj x Hj ltac:(lia)). }
  split; [done|]. split; [|split; [|split; [|split]]].
  - (* wf *)
    simpl. rewrite Hpf. fold kp' cs'. split; [done|]. split.
    { split; [done|]. split; [lia|done]. }
    split; [lia|]. split.
    { intros k Hk. rewrite Hkp' in Hk.
      apply elem_of_list_ins in Hk as [->|Hk]; [done|by apply Hkb]. }
    split.
    + intros j cj Hj. destruct (Nat.lt_total j i) as [Hlt|[->|Hgt]].
      * rewrite Hcs_lt in Hj by lia. rewrite Hclo_le, Hchi_lt by lia.
        apply Hsib_wf; [done|lia].
      * rewrite Hcs_lt in Hj by lia. assert (cj = c) as -> by congruence.
        rewrite Hclo_le by lia. unfold chi at 1. by rewrite Hkp_eq.
      * destruct (decide (j = S i)) as [->|Hne].
        -- assert (cj = r) as -> by congruence.
           simpl. rewrite Hkp_eq. rewrite Hchi_gt by lia.
           by replace (S i - 1) with i by lia.
        -- rewrite Hcs_gt in Hj by lia. rewrite Hclo_gt, Hchi_gt by lia.
           apply Hsib_wf; [done|lia].
    + intros j1 j2 c1 c2 x Hj1 Hj2 Hx1 Hx2.
      assert (Hcr' : ∀ j cj, cs' !! j = Some cj → j = i ∨ j = S i →
                (j = i ∧ cj = c) ∨ (j = S i ∧ cj = r)).
      { intros j cj Hj [->| ->]; [left|right].
        - rewrite Hcs_lt in Hj by lia. split; congruence.
        - split; congruence. }
      assert (Hpair : ∀ j j' cj cj', cs' !! j = Some cj → cs' !! j' = Some cj' →
                own pg' l cj x → own pg' l cj' x →
                j = i ∨ j = S i → j' = i ∨ j' = S i → j = j').
      { intros j j' cj cj' Hj Hj' Hx Hx' Hji Hji'.
        destruct (Hcr' j cj Hj Hji) as [[-> ->]|[-> ->]],
                 (Hcr' j' cj' Hj' Hji') as [[-> ->]|[-> ->]]; try done.
        - by destruct (Hdisj x).
        - by destruct (Hdisj x). }
      destruct (Hweak j1 c1 x Hj1 Hx1) as [[Hxr1 Hr1]|(o1 & co1 & Ho1 & Hxo1 & Heq1)];
        destruct (Hweak j2 c2 x Hj2 Hx2) as [[Hxr2 Hr2]|(o2 & co2 & Ho2 & Hxo2 & Heq2)].
      * by eapply Hpair.
      * exfalso. apply Hfresh. rewrite <- Hxr1. by eapply (own_child pg l pf o2 co2).
      * exfalso. apply Hfresh. rewrite <- Hxr2. by eapply (own_child pg l pf o1 co1).
      * assert (o1 = o2) by by eapply (Hdis o1 o2 co1 co2 x).
        destruct (decide (j1 = j2)) as [|Hne]; [done|].
        eapply Hpair; try done; repeat case_decide; lia.
  - (* pages *)
    intros x. simpl. rewrite Hpf. fold kp' cs' cs. split.
    + intros [->|(j & cj & Hj & Hx)]; [by auto|].
      destruct (Hweak j cj x Hj Hx) as [[-> _]|(o & co & Ho & Hxo & _)]; [by auto|].
      left. right. by exists o, co.
    + intros [[->|(j & cj & Hj & Hx)]| ->]; [by auto| |].
      * right. destruct (Nat.lt_total j i) as [Hlt|[->|Hgt]].
        -- exists j, cj. rewrite Hcs_lt by lia. split; [done|].
           by apply (Hsib_own j cj x Hj ltac:(lia)).
        -- assert (cj = c) as -> by congruence.
           destruct (proj2 (Hown x) (or_introl Hx)) as [Hx'|Hx'].
           ++ exists i, c. by rewrite Hcs_lt by lia.
           ++ by exists (S i), r.
        -- exists (S j), cj. rewrite Hcs_gt by lia.
           replace (S j - 1) with j by lia. split; [done|].
           by apply (Hsib_own j cj x Hj ltac:(lia)).
      * right. destruct (proj2 (Hown r) (or_intror eq_refl)) as [Hx'|Hx'].
        -- exists i, c. by rewrite Hcs_lt by lia.
        -- by exists (S i), r.
  - (* contents *)
    intros k v. simpl. rewrite Hpf. fold kp' cs' cs. split.
    + intros (j & cj & Hj & Hx).
      destruct (Nat.lt_total j i) as [Hlt|[->|Hgt]].
      * rewrite Hcs_lt in Hj by lia. exists j, cj. split; [done|].
        by apply (Hsib_holds j cj k v Hj ltac:(lia)).
      * rewrite Hcs_lt in Hj by lia. assert (cj = c) as -> by congruence.
        exists i, c. split; [done|]. apply Hholds. by left.
      * destruct (decide (j = S i)) as [->|Hne].
        -- assert (cj = r) as -> by congruence.
           exists i, c. split; [done|]. apply Hholds. by right.
        -- rewrite Hcs_gt in Hj by lia. exists (j - 1), cj. split; [done|].
           by apply (Hsib_holds (j - 1) cj k v Hj ltac:(lia)).
    + intros (j & cj & Hj & Hx).
      destruct (Nat.lt_total j i) as [Hlt|[->|Hgt]].
      * exists j, cj. rewrite Hcs_lt by lia. split; [done|].
        by apply (Hsib_holds j cj k v Hj ltac:(lia)).
      * assert (cj = c) as -> by congruence.
        destruct (proj2 (Hholds k v) Hx) as [Hx'|Hx'].
        -- exists i, c. by rewrite Hcs_lt by lia.
        -- by exists (S i), r.
      * exists (S j), cj. rewrite Hcs_gt by lia.
        replace (S j - 1) with j by lia. split; [done|].
        by apply (Hsib_holds j cj k v Hj ltac:(lia)).
  - (* weights *)
    intros f. cbn [wsum]. rewrite Hpf. fold cs' cs. specialize (Hsum f).
    assert (Hold : sum_list (map (wsum pg f l) cs)
                   = sum_list (map (wsum pg f l) (take i cs)) + wsum pg f l c
                     + sum_list (map (wsum pg f l) (drop (S i) cs))).
    { rewrite <- (take_drop_middle cs i c Hic) at 1.
      rewrite map_app, sum_list_app'. cbn [map sum_list_with id]. lia. }
    assert (Hnew : sum_list (map (wsum pg' f l) cs')
                   = sum_list (map (wsum pg' f l) (take i cs)) + wsum pg' f l c
                     + wsum pg' f l r
                     + sum_list (map (wsum pg' f l) (drop (S i) cs))).
    { rewrite Hcs'. unfold list_ins. rewrite (take_S_r cs i c) by done.
      rewrite !map_app, !sum_list_app'. cbn [map sum_list_with id]. lia. }
    rewrite (sum_list_map_ext (wsum pg' f l) (wsum pg f l) (take i cs)) in Hnew.
    2:{ intros cj [j Hj]%list_elem_of_lookup_1.
        apply lookup_take_Some in Hj as [Hj Hlt].
        apply wsum_frame. eapply Hfr; [exact Hj|lia]. }
    rewrite (sum_list_map_ext (wsum pg' f l) (wsum pg f l) (drop (S i) cs)) in Hnew.
    2:{ intros cj [j Hj]%list_elem_of_lookup_1. rewrite lookup_drop in Hj.
        apply wsum_frame. eapply Hfr; [exact Hj|lia]. }
    lia.
  - (* full nodes on the path *)
    intros C HC. cbn [phi]. rewrite Hpf.
    rewrite (proj2 (Nat.ltb_lt _ _) Hsp).
    assert (Hchild : child_of P' key = if bool_decide (key ≤ sep)%Z then c else r).
    { unfold child_of. fold kp' cs'. rewrite Hkp'.
      rewrite (ref_lb_list_ins kp key sep i Hs eq_refl) by by rewrite <- Hkp'.
      case_bool_decide.
      - rewrite Hcs_lt by lia. by rewrite Hic.
      - by rewrite Hcs_eq. }
    rewrite Hchild. specialize (Hphi C key). fold c.
    destruct (count P' <? cap); lia.
Qed.
End parent_facts.
(** ** A new root over a split node *)

Lemma ref_lb_singleton sep key :
  ref_lb [sep] key = if bool_decide (key ≤ sep)%Z then 0 else 1.
Proof.
  simpl. destruct (Z.ltb_spec sep key); case_bool_decide; (done || lia).
Qed.

(** Where the separator of a split child goes in the parent. *)
Lemma sep_position lo hi kp i sep :
  strictly_increasing kp → i ≤ length kp →
  above (clo lo kp i) sep → sbelow (chi hi kp i) sep →
  (sep ∉ kp) ∧ ref_lb kp sep = i.
Proof.
  intros Hs Hile Hlo Hhi.
  assert (Hlow : ∀ j x, j < i → kp !! j = Some x → (x < sep)%Z).
  { intros j x Hj Hx. destruct i as [|i']; [lia|]. simpl in Hlo.
    destruct (lookup_lt_is_Some_2 kp i') as [a Ha']; [lia|]. rewrite Ha' in Hlo.
    simpl in Hlo. destruct (decide (j = i')) as [->|]; [by simplify_eq|].
    assert (x < a)%Z by (eapply (Hs j i'); [lia|done|done]). lia. }
  assert (Hhigh : ∀ j x, i ≤ j → kp !! j = Some x → (sep < x)%Z).
  { intros j x Hj Hx. pose proof (lookup_lt_Some _ _ _ Hx).
    destruct (lookup_lt_is_Some_2 kp i) as [b Hb']; [lia|].
    unfold chi in Hhi. rewrite Hb' in Hhi. simpl in Hhi.
    destruct (decide (j = i)) as [->|]; [by simplify_eq|].
    assert (b < x)%Z by (eapply (Hs i j); [lia|done|done]). lia. }
  split.
  - intros [j Hj]%list_elem_of_lookup_1. destruct (decide (j < i)).
    + pose proof (Hlow j sep ltac:(done) Hj). lia.
    + pose proof (Hhigh j sep ltac:(lia) Hj). lia.
  - apply ref_lb_unique; [done|lia|done|].
    intros j x Hj Hx. pose proof (Hhigh j x Hj Hx). lia.
Qed.

Section root_facts.
Variable cap : nat.
Hypothesis cap_ge : 4 ≤ cap.

Lemma split_root pg pg' l c r sep R Rn :
  halves cap pg pg' l None None c r sep →
  pg' R = Rn → level Rn = S l → count Rn = 2 → node_sized cap Rn →
  ikeys Rn = [sep] → ichildren Rn = [c; r] →
  wf cap pg' (S l) None None R ∧
  (∀ x, own pg' (S l) R x ↔ x = R ∨ own pg l c x ∨ x = r) ∧
  (∀ k v, holds pg' (S l) R k v ↔ holds pg l c k v) ∧
  (∀ f, wsum pg' f (S l) R + f (pg c)
        = f Rn + wsum pg f l c + f (pg' c) + f (pg' r)) ∧
  (∀ C key, phi cap pg' C key (S l) R + (C - l) = phi cap pg C key l c).
Proof.
  intros [Hleft Hright Hlo Hhi Hown Hdisj Hholds Hsum Hfull Hcl Hcr Hphi]
    HR Hlv Hcn Hsz Hk Hc.
  destruct (half_bounds cap cap_ge) as (Hh1 & Hh2 & Hh3).
  assert (Hch : ∀ i ci, [c; r] !! i = Some ci → (i = 0 ∧ ci = c) ∨ (i = 1 ∧ ci = r)).
  { intros [|[|i]] ci Hi; simplify_eq/=; auto. }
  split; [|split; [|split; [|split]]].
  - simpl. rewrite HR, Hk, Hc. split; [done|]. split.
    { split; [done|]. split; [lia|]. rewrite Hk.
      intros i j x y Hij Hx Hy. apply lookup_lt_Some in Hy. simpl in Hy. lia. }
    split; [lia|]. split; [done|]. split.
    + intros i ci [[-> ->]|[-> ->]]%Hch; done.
    + intros i j ci cj x [[-> ->]|[-> ->]]%Hch [[-> ->]|[-> ->]]%Hch Hxi Hxj;
        try done; by destruct (Hdisj x).
  - intros x. simpl. rewrite HR, Hc. split.
    + intros [->|(i & ci & [[-> ->]|[-> ->]]%Hch & Hx)]; [by auto| |].
      * destruct (proj1 (Hown x) (or_introl Hx)); auto.
      * destruct (proj1 (Hown x) (or_intror Hx)); auto.
    + intros [->|Hx]; [by auto|]. right.
      destruct (proj2 (Hown x)) as [Hx'|Hx']; [tauto| |].
      * by exists 0, c.
      * by exists 1, r.
  - intros k v. simpl. rewrite HR, Hc. split.
    + intros (i & ci & [[-> ->]|[-> ->]]%Hch & Hx); apply Hholds; auto.
    + intros [Hx|Hx]%Hholds; [by exists 0, c|by exists 1, r].
  - intros f. cbn [wsum]. rewrite HR, Hc. cbn [map sum_list_with id].
    specialize (Hsum f). lia.
  - intros C key. cbn [phi]. rewrite HR, Hcn.
    rewrite (proj2 (Nat.ltb_lt 2 cap)) by lia.
    assert (Hchild : child_of Rn key = if bool_decide (key ≤ sep)%Z then c else r).
    { unfold child_of. rewrite Hk, Hc, ref_lb_singleton. by case_bool_decide. }
    rewrite Hchild. apply Hphi.
Qed.
End root_facts.
(** ** [split_node], step by step *)

Lemma mint_inj seg a b : mint seg a = mint seg b → a = b.
Proof.
  unfold mint. intros H.
  apply (f_equal (Z.lxor (Z.shiftl seg 48))) in H.
  by rewrite <- !Z.lxor_assoc, Z.lxor_nilpotent, !Z.lxor_0_l in H.
Qed.

Lemma u64_small z : (0 ≤ z < 2 ^ 64)%Z → u64 z = z.
Proof. intros. unfold u64. by apply Z.mod_small. Qed.

Lemma release_skip p q l : p ≠ q → release q (p :: l) = p :: release q l.
Proof. intros. simpl. by rewrite decide_False. Qed.

Section split_steps.
Variable PageSize : nat.
Variable NDEBUG : bool.
Abbreviation cap := (InnerNode_kCapacity PageSize).
Abbreviation page' := (page PageSize).

Lemma split_node_parent split tr t q pf r nd other sep P' :
  r = mint (segment_id t) (nodeCount t) →
  (0 ≤ nodeCount t < 2 ^ 64 - 1)%Z →
  r ≠ q → r ≠ pf → pf ≠ q →
  split (page' t q) (page' t r) = Some (nd, other, sep) →
  InnerNode_insert_split PageSize NDEBUG (page' t pf) sep r = Some P' →
  ∃ t',
    split_node PageSize NDEBUG split (Some pf) q (with_fixed (held (Some pf) q) tr t)
    = Some t' ∧
    segment_id t' = segment_id t ∧ root t' = root t ∧
    nodeCount t' = (nodeCount t + 1)%Z ∧ treeHeight t' = treeHeight t ∧
    fixed t' = [] ∧
    trace t' = tr ++ [Fix r true; Unfix r true; Unfix q true; Unfix pf true] ∧
    ∀ x, page' t' x =
         if decide (x = pf) then P'
         else if decide (x = q) then nd
         else if decide (x = r) then other else page' t x.
Proof.
  intros Hr Hn Hrq Hrp Hpq Hsplit Hins.
  unfold split_node, BTree_create_new_node, tree_fix_page, set_page, page in *.
  cbn [with_fixed segment_id nodeCount root treeHeight pages fixed trace].
  change (Z.lxor (Z.shiftl (segment_id t) 48) (nodeCount t))
    with (mint (segment_id t) (nodeCount t)).
  rewrite <- Hr.
  rewrite decide_False by (unfold held; change (option_list (Some pf)) with [pf]; notin_list).
  cbn [mbind option_bind segment_id nodeCount root treeHeight pages fixed trace].
  rewrite Hsplit.
  cbn [mbind option_bind segment_id nodeCount root treeHeight pages fixed trace].
  rewrite lookup_insert_ne by done. rewrite lookup_insert_ne by done.
  rewrite Hins.
  cbn [mbind option_bind segment_id nodeCount root treeHeight pages fixed trace].
  unfold tree_unfix_page, held. change (option_list (Some pf)) with [pf].
  cbn [mbind option_bind segment_id nodeCount root treeHeight pages fixed trace].
  rewrite decide_True by in_list. rewrite release_head.
  cbn [mbind option_bind segment_id nodeCount root treeHeight pages fixed trace].
  rewrite decide_True by in_list. rewrite release_head.
  cbn [mbind option_bind segment_id nodeCount root treeHeight pages fixed trace].
  rewrite decide_True by in_list. rewrite release_head.
  eexists. split; [done|]. cbn [segment_id nodeCount root treeHeight pages fixed trace].
  split; [done|]. split; [done|]. split; [apply u64_small; lia|].
  split; [done|]. split; [done|]. split; [by rewrite <- !(assoc_L (++))|].
  intros x. rewrite !lookup_insert. repeat case_decide; simpl; congruence.
Qed.

Lemma split_node_root split tr t q r R nd other sep :
  r = mint (segment_id t) (nodeCount t) →
  R = mint (segment_id t) (nodeCount t + 1) →
  (0 ≤ nodeCount t < 2 ^ 64 - 2)%Z →
  r ≠ q → R ≠ q →
  level nd + 1 < 2 ^ 16 → treeHeight t + 1 < 2 ^ 16 → 2 ≤ cap →
  node_sized cap (page' t R) →
  split (page' t q) (page' t r) = Some (nd, other, sep) →
  ∃ t',
    split_node PageSize NDEBUG split None q (with_fixed (held None q) tr t) = Some t' ∧
    segment_id t' = segment_id t ∧ root t' = R ∧
    nodeCount t' = (nodeCount t + 2)%Z ∧ treeHeight t' = S (treeHeight t) ∧
    fixed t' = [] ∧
    trace t' = tr ++ [Fix r true; Fix R true; Unfix r true; Unfix q true; Unfix R true] ∧
    ∀ x, page' t' x =
         if decide (x = R)
         then mkNode (S (level nd)) 2 (<[0:=sep]> (keys (page' t R)))
                (<[1:=r]> (<[0:=q]> (slots (page' t R))))
         else if decide (x = q) then nd
         else if decide (x = r) then other else page' t x.
Proof.
  intros Hr HR Hn Hrq HRq Hlv Hth Hcap [Hsk Hss] Hsplit.
  assert (HRr : R ≠ r).
  { rewrite Hr, HR. intros Heq%mint_inj. lia. }
  unfold split_node, BTree_grow_root, BTree_create_new_node, tree_fix_page,
    set_page, page, held in *. change (option_list None) with (@nil Z).
  cbn [with_fixed segment_id nodeCount root treeHeight pages fixed trace].
  change (Z.lxor (Z.shiftl (segment_id t) 48) (nodeCount t))
    with (mint (segment_id t) (nodeCount t)).
  rewrite <- Hr.
  rewrite decide_False by (unfold held; change (option_list None) with (@nil Z); notin_list).
  cbn [mbind option_bind segment_id nodeCount root treeHeight pages fixed trace].
  rewrite Hsplit.
  cbn [mbind option_bind segment_id nodeCount root treeHeight pages fixed trace].
  rewrite (u64_small (nodeCount t + 1)) by lia.
  change (Z.lxor (Z.shiftl (segment_id t) 48) (nodeCount t + 1))
    with (mint (segment_id t) (nodeCount t + 1)).
  rewrite <- HR.
  rewrite decide_False by (unfold held; change (option_list None) with (@nil Z); notin_list).
  cbn [mbind option_bind segment_id nodeCount root treeHeight pages fixed trace].
  rewrite !(lookup_insert_ne _ _ R) by done.
  rewrite !store_Some by (rewrite ?length_insert; lia).
  cbn [mbind option_bind segment_id nodeCount root treeHeight pages fixed trace].
  rewrite !store_Some by (rewrite ?length_insert; lia).
  cbn [mbind option_bind segment_id nodeCount root treeHeight pages fixed trace].
  unfold tree_unfix_page.
  cbn [mbind option_bind segment_id nodeCount root treeHeight pages fixed trace].
  rewrite decide_True by in_list. rewrite (release_skip R r), release_head by done.
  cbn [mbind option_bind segment_id nodeCount root treeHeight pages fixed trace].
  rewrite decide_True by in_list. rewrite (release_skip R q), release_head by done.
  cbn [mbind option_bind segment_id nodeCount root treeHeight pages fixed trace].
  rewrite decide_True by in_list. rewrite release_head.
  eexists. split; [done|]. cbn [segment_id nodeCount root treeHeight pages fixed trace].
  split; [done|]. split; [done|].
  split; [rewrite u64_small by lia; lia|].
  split; [rewrite u16_small by lia; lia|].
  split; [done|]. split; [by rewrite <- !(assoc_L (++))|].
  intros x. rewrite !lookup_insert. rewrite (decide_True (P := q = q)) by done.
  cbn [default from_option id level]. rewrite u16_small by lia.
  replace (level nd + 1) with (S (level nd)) by lia.
  repeat case_decide; simpl; congruence.
Qed.
End split_steps.
(** ** The state after a split *)

Lemma half_le cap : cap / 2 ≤ cap - cap / 2.
Proof.
  pose proof (Nat.div_mod_eq cap 2) as Hd.
  pose proof (Nat.mod_upper_bound cap 2). lia.
Qed.

Section split_inv.
Variable PageSize : nat.
Variable NDEBUG : bool.
Abbreviation cap := (InnerNode_kCapacity PageSize).
Abbreviation page' := (page PageSize).
Lemma wf_sized pg l lo hi p : wf cap pg l lo hi p → node_sized cap (pg p).
Proof. destruct l; [by intros (_ & (? & _) & _)|by intros (_ & (? & _) & _)]. Qed.

Lemma tree_inv_with_fixed B t tr :
  tree_inv PageSize B t → tree_inv PageSize B (with_fixed [] tr t).
Proof. intros [? ? ? ? ? ? ?]. by split. Qed.

(** The tree has fewer than 64 levels while its weight fits 64 bits. *)
Lemma tree_inv_height B t :
  tree_inv PageSize B t → (B < 2 ^ 64)%Z → treeHeight t ≤ 64.
Proof.
  intros [Hh Hwf _ _ Hw _ _] HB.
  pose proof (wsum_pow cap _ _ _ _ _ Hwf) as Hpow.
  pose proof (wsum_mono (page' t) (λ _, 1) (node_weight cap)
                (pred (treeHeight t)) (root t)) as Hmono.
  assert (Hle : 2 ^ pred (treeHeight t)
                ≤ wsum (page' t) (node_weight cap) (pred (treeHeight t)) (root t)).
  { etrans; [exact Hpow|]. apply Hmono. intros nd. unfold node_weight. lia. }
  apply Nat2Z.inj_le in Hle. rewrite Nat2Z.inj_pow in Hle.
  destruct (decide (treeHeight t ≤ 64)) as [|Hgt]; [done|].
  assert (2 ^ 64 ≤ 2 ^ Z.of_nat (pred (treeHeight t)))%Z.
  { apply Z.pow_le_mono_r; lia. }
  change (Z.of_nat 2) with 2%Z in Hle. lia.
Qed.

Lemma tree_inv_count B t :
  tree_inv PageSize B t → (0 ≤ nodeCount t ≤ B)%Z.
Proof.
  intros [Hh Hwf _ Hc Hw _ _].
  pose proof (wsum_mono (page' t) (λ _, 1) (node_weight cap)
                (pred (treeHeight t)) (root t)) as Hmono.
  assert (wsum (page' t) (λ _, 1) (pred (treeHeight t)) (root t)
          ≤ wsum (page' t) (node_weight cap) (pred (treeHeight t)) (root t)).
  { apply Hmono. intros nd. unfold node_weight. lia. }
  lia.
Qed.

(** A page made from the current node counter is not in the tree. *)
Lemma mint_fresh B t k :
  tree_inv PageSize B t → (0 ≤ k)%Z →
  ¬ own (page' t) (pred (treeHeight t)) (root t)
      (mint (segment_id t) (nodeCount t + k)).
Proof.
  intros [_ _ Hm _ _ _ _] Hk Hown.
  destruct (Hm _ Hown) as (n & Hn & Heq%mint_inj). lia.
Qed.

Hypothesis cap_ge : 4 ≤ cap.

(** Both [split]s, on a full node of a tree. *)
Lemma node_split_halves pg l lo hi q buffer :
  wf cap pg l lo hi q → count (pg q) = cap → node_sized cap buffer →
  ∃ nd other sep,
    split_function l (pg q) buffer = Some (nd, other, sep) ∧
    level nd = l ∧ node_sized cap nd ∧ node_sized cap other ∧
    ∀ pg' r,
      pg' q = nd → pg' r = other → r ≠ q → ¬ own pg l q r →
      (∀ x, own pg l q x → x ≠ q → pg' x = pg x) →
      halves cap pg pg' l lo hi q r sep.
Proof.
  intros Hwf Hfull Hbuf. destruct l as [|l].
  - pose proof Hwf as (Hl & Hlf & Hr). pose proof Hlf as (Hsz & _).
    destruct (LeafNode_split_spec cap (pg q) buffer Hsz Hbuf)
      as (nd & other & sep & Hsp & Hln & Hlo & Hcn & Hco & Hsn & Hso
          & Hkn & Hko & Hvn & Hvo & Hsep); [lia|].
    exists nd, other, sep. split; [done|]. split; [congruence|].
    split; [done|]. split; [done|].
    intros pg' r Hq Hr' Hrq Hfresh Hfr. rewrite Hfull in Hcn, Hco.
    eapply (split_leaf_halves cap cap_ge pg pg' lo hi q r nd other sep);
      try done; congruence.
  - pose proof Hwf as (Hl & Hin & Hcnt & _). pose proof Hin as (Hsz & _).
    destruct (InnerNode_split_spec cap (pg q) buffer Hsz Hbuf)
      as (nd & other & sep & Hsp & Hln & Hlo & Hcn & Hco & Hsn & Hso
          & Hkn & Hko & Hvn & Hvo & Hsep); [lia|].
    exists nd, other, sep. split; [done|]. split; [congruence|].
    split; [done|]. split; [done|].
    intros pg' r Hq Hr' Hrq Hfresh Hfr. rewrite Hfull in Hcn, Hco.
    eapply (split_inner_halves cap cap_ge pg pg' l lo hi q r nd other sep);
      try done; try congruence.
    + intros j cj Hj x Hx. apply Hfr; [by eapply own_child|].
      by eapply own_child_ne.
    + apply Hsep. lia.
Qed.

(** The tree after the split of a node below a parent with space. *)
Lemma split_parent_inv B t t' m key ok l blo bhi pp pf r sep P' :
  tree_inv PageSize B t → tree_contents PageSize t m →
  on_path (page' t) ok key (pred (treeHeight t)) None None None (root t)
    (S l) blo bhi pp pf →
  count (page' t pf) < cap →
  halves cap (page' t) (page' t') l
    (clo blo (ikeys (page' t pf)) (ref_lb (ikeys (page' t pf)) key))
    (chi bhi (ikeys (page' t pf)) (ref_lb (ikeys (page' t pf)) key))
    (child_of (page' t pf) key) r sep →
  page' t' pf = P' →
  level P' = S l → count P' = S (count (page' t pf)) → node_sized cap P' →
  ikeys P' = list_ins (ref_lb (ikeys (page' t pf)) sep) sep (ikeys (page' t pf)) →
  ichildren P' = list_ins (S (ref_lb (ikeys (page' t pf)) sep)) r
                   (ichildren (page' t pf)) →
  (∀ x, x ≠ pf → x ≠ child_of (page' t pf) key → x ≠ r → page' t' x = page' t x) →
  r = mint (segment_id t) (nodeCount t) →
  segment_id t' = segment_id t → root t' = root t →
  nodeCount t' = (nodeCount t + 1)%Z → treeHeight t' = treeHeight t →
  fixed t' = [] →
  tree_inv PageSize B t' ∧ tree_contents PageSize t' m ∧
  ∀ C, pred (treeHeight t) < C →
       phi cap (page' t') C key (pred (treeHeight t')) (root t')
       < phi cap (page' t) C key (pred (treeHeight t)) (root t).
Proof.
  intros Hinv Hm Hp Hsp Hhv HP' Hlv Hcn Hsz Hk Hc Hfr Hr Hseg Hroot Hnc Hth Hfx.
  pose proof Hinv as [Hh Hwf Hmint Hcnt Hw Hfix Hsized].
  rewrite Hth, Hroot.
  set (L := pred (treeHeight t)) in *.
  set (pg := page' t) in *. set (pg' := page' t') in *.
  set (q := child_of (pg pf) key) in *.
  destruct (on_path_wf cap _ _ _ _ _ _ _ _ _ _ _ _ _ Hp Hwf I I) as (Hwpf & Ha & Hb).
  pose proof (on_path_le _ _ _ _ _ _ _ _ _ _ _ _ _ Hp) as HlL.
  pose proof (child_of_lookup cap pg l blo bhi pf key Hwpf) as Hiq. fold q in Hiq.
  assert (Hfresh : ¬ own pg L (root t) r).
  { rewrite Hr. replace (nodeCount t) with (nodeCount t + 0)%Z by lia.
    by eapply mint_fresh. }
  assert (Hsub : ∀ x, own pg (S l) pf x → own pg L (root t) x).
  { intros x. by eapply on_path_own. }
  assert (Hqpf : own pg (S l) pf q).
  { eapply own_child; [exact Hiq|apply own_self]. }
  destruct (split_under_parent cap cap_ge pg pg' l blo bhi pf r sep key P'
              Hwpf Hsp Ha Hb Hhv HP' Hlv Hcn Hsz)
    as (Hnotin & Hwpf' & Hown_pf & Hholds_pf & Hsum_pf & Hphi_pf).
  { by intros _. }
  { intros j cj Hj Hne x Hx. apply Hfr.
    - by eapply (own_child_ne cap pg l blo bhi pf j cj).
    - intros ->. apply Hne. pose proof Hwpf as (_ & _ & _ & _ & _ & Hdis).
      eapply (Hdis j _ cj q q); [done|exact Hiq|done|apply own_self].
    - intros ->. apply Hfresh, Hsub. by eapply own_child. }
  { intros Hx. by apply Hfresh, Hsub. }
  fold q in Hsum_pf.
  destruct (replace_subtree cap pg pg' ok key L None None None (root t)
              (S l) blo bhi pp pf Hp Hwf I I)
    as (Hwf' & _ & Hown' & Hholds' & Hsum' & Hphi').
  { intros x Hx Hnx. apply Hfr.
    - intros ->. apply Hnx, own_self.
    - intros ->. by apply Hnx.
    - intros ->. by apply Hfresh. }
  { exact Hwpf'. }
  { intros x Hx. apply Hown_pf in Hx as [?| ->]; [by left|by right]. }
  destruct Hhv as [Hleft Hright _ _ _ _ _ _ Hfull Hcl Hcr _].
  destruct (half_bounds cap cap_ge) as (Hh1 & Hh2 & Hh3).
  pose proof (half_le cap) as Hh4.
  split; [split|split].
  - by rewrite Hth.
  - by rewrite Hth, Hroot.
  - rewrite Hth, Hroot, Hseg, Hnc. fold L pg'. intros x Hx.
    apply Hown' in Hx as [[Hx _]|Hx].
    + destruct (Hmint x Hx) as (n & Hn & ->). exists n. split; [lia|done].
    + apply Hown_pf in Hx as [Hx| ->].
      * destruct (Hmint x (Hsub x Hx)) as (n & Hn & ->). exists n. split; [lia|done].
      * exists (nodeCount t). split; [lia|done].
  - rewrite Hth, Hroot, Hnc. fold L pg'.
    specialize (Hsum' (λ _, 1)). specialize (Hsum_pf (λ _, 1)). cbn beta in *.
    fold L pg in Hcnt. lia.
  - rewrite Hth, Hroot. fold L pg'.
    specialize (Hsum' (node_weight cap)). specialize (Hsum_pf (node_weight cap)).
    fold L pg in Hw.
    assert (Hnw : ∀ nd, node_weight cap nd = 1 + 2 * (count nd - (cap - cap / 2))) by done.
    rewrite (Hnw (pg pf)), (Hnw (pg q)), (Hnw P'), (Hnw (pg' q)), (Hnw (pg' r)) in Hsum_pf.
    rewrite Hfull, Hcl, Hcr, Hcn in Hsum_pf. clear Hnw.
    set (h := cap / 2) in *. lia.
  - done.
  - intros x. fold pg'.
    destruct (decide (x = pf)) as [->|Hx1]; [by rewrite HP'|].
    destruct (decide (x = q)) as [->|Hx2]; [by eapply wf_sized|].
    destruct (decide (x = r)) as [->|Hx3]; [by eapply wf_sized|].
    rewrite Hfr by done. apply Hsized.
  - intros k v. rewrite Hth, Hroot. fold L pg'. rewrite Hholds', Hholds_pf.
    rewrite <- (Hm k v). fold L pg. split.
    + intros [[? _]|Hx]; [done|]. by eapply on_path_holds_sub.
    + intros Hx. destruct (holds_dec pg (S l) pf k v); [by right|by left].
  - intros C HC. specialize (Hphi' C). specialize (Hphi_pf C). lia.
Qed.

(** The tree after the split of the root. *)
Lemma split_root_inv B t t' m key r R sep Rn :
  tree_inv PageSize B t → tree_contents PageSize t m →
  halves cap (page' t) (page' t') (pred (treeHeight t)) None None (root t) r sep →
  page' t' R = Rn →
  level Rn = treeHeight t → count Rn = 2 → node_sized cap Rn →
  ikeys Rn = [sep] → ichildren Rn = [root t; r] →
  (∀ x, x ≠ R → x ≠ root t → x ≠ r → page' t' x = page' t x) →
  r = mint (segment_id t) (nodeCount t) →
  R = mint (segment_id t) (nodeCount t + 1) →
  segment_id t' = segment_id t → root t' = R →
  nodeCount t' = (nodeCount t + 2)%Z → treeHeight t' = S (treeHeight t) →
  fixed t' = [] →
  tree_inv PageSize B t' ∧ tree_contents PageSize t' m ∧
  ∀ C, pred (treeHeight t) < C →
       phi cap (page' t') C key (pred (treeHeight t')) (root t')
       < phi cap (page' t) C key (pred (treeHeight t)) (root t).
Proof.
  intros Hinv Hm Hhv HRn Hlv Hcn Hsz Hk Hc Hfr Hr HR Hseg Hroot Hnc Hth Hfx.
  pose proof Hinv as [Hh Hwf Hmint Hcnt Hw Hfix Hsized].
  pose proof (treeHeight_pred _ _ _ Hinv) as HL.
  rewrite Hth, Hroot. cbn [pred].
  set (L := pred (treeHeight t)) in *.
  set (pg := page' t) in *. set (pg' := page' t') in *.
  rewrite HL in *.
  destruct (split_root cap cap_ge pg pg' L (root t) r sep R Rn Hhv HRn Hlv Hcn Hsz Hk Hc)
    as (Hwf' & Hown' & Hholds' & Hsum' & Hphi').
  destruct Hhv as [Hleft Hright _ _ _ _ _ _ Hfull Hcl Hcr _].
  destruct (half_bounds cap cap_ge) as (Hh1 & Hh2 & Hh3).
  pose proof (half_le cap) as Hh4.
  split; [split|split].
  - rewrite Hth. lia.
  - by rewrite Hth, Hroot.
  - rewrite Hth, Hroot, Hseg, Hnc. cbn [pred]. fold pg'. intros x Hx.
    apply Hown' in Hx as [->|[Hx| ->]].
    + exists (nodeCount t + 1)%Z. split; [lia|done].
    + destruct (Hmint x Hx) as (n & Hn & ->). exists n. split; [lia|done].
    + exists (nodeCount t). split; [lia|done].
  - rewrite Hth, Hroot, Hnc. cbn [pred]. fold pg'.
    specialize (Hsum' (λ _, 1)). cbn beta in *. fold pg in Hcnt. lia.
  - rewrite Hth, Hroot. cbn [pred]. fold pg'.
    specialize (Hsum' (node_weight cap)). fold pg in Hw.
    assert (Hnw : ∀ nd, node_weight cap nd = 1 + 2 * (count nd - (cap - cap / 2))) by done.
    rewrite (Hnw (pg (root t))), (Hnw Rn), (Hnw (pg' (root t))), (Hnw (pg' r)) in Hsum'.
    rewrite Hfull, Hcl, Hcr, Hcn in Hsum'. clear Hnw.
    set (h := cap / 2) in *. lia.
  - done.
  - intros x. fold pg'.
    destruct (decide (x = R)) as [->|Hx1]; [by rewrite HRn|].
    destruct (decide (x = root t)) as [->|Hx2]; [by eapply wf_sized|].
    destruct (decide (x = r)) as [->|Hx3]; [by eapply wf_sized|].
    rewrite Hfr by done. apply Hsized.
  - intros k v. rewrite Hth, Hroot. cbn [pred]. fold pg'. rewrite Hholds'.
    apply Hm.
  - intros C HC. specialize (Hphi' C key). lia.
Qed.
End split_inv.
(** ** A pass of [insert] that splits *)

Section split_pass.
Variable PageSize : nat.
Variable NDEBUG : bool.
Abbreviation cap := (InnerNode_kCapacity PageSize).
Abbreviation page' := (page PageSize).
Hypothesis cap_ge : 4 ≤ cap.
Hypothesis cap_lt : cap < 2 ^ 16.

(** The pass after the descent, at a full node, with the right to split. *)
Lemma insert_at_full fuel key value l qp q tr t t' :
  level (page' t q) = l → ¬ count (page' t q) < cap → 1 ≤ fuel →
  split_node PageSize NDEBUG (split_function l) qp q (with_fixed (held qp q) tr t)
  = Some t' →
  ('(exit, t) ← BTree_insert_loop PageSize NDEBUG fuel key true qp q
                  (with_fixed (held qp q) tr t);
   match exit with
   | Goto e => Some (Restart e, t)
   | AtLeaf parentFrame currentPid =>
       let leafNode := page' t currentPid in
       _ ← cassert NDEBUG (Some (is_leaf leafNode));
       if negb (LeafNode_has_space PageSize leafNode) then
         if negb true then
           t ← tree_unfix_page currentPid false t;
           t ← unfix_if parentFrame false t;
           Some (Restart true, t)
         else
           t ← split_node PageSize NDEBUG LeafNode_split parentFrame currentPid t;
           Some (Restart false, t)
       else
         leafNode ← LeafNode_insert PageSize NDEBUG leafNode key value;
         let t := set_page currentPid leafNode t in
         t ← tree_unfix_page currentPid true t;
         t ← unfix_if parentFrame false t;
         Some (Done (), t)
   end) = Some (Restart false, t').
Proof.
  clear cap_ge cap_lt. intros Hl Hfull Hfuel Hsn. destruct fuel as [|fuel]; [lia|].
  assert (Hns : (count (page' t q) <? cap) = false) by (apply Nat.ltb_ge; lia).
  cbn [BTree_insert_loop]. rewrite page_with_fixed.
  assert (Hleafq : is_leaf (page' t q) = Nat.eqb l 0) by (unfold is_leaf; by rewrite Hl).
  rewrite Hleafq. destruct l as [|l]; cbn [Nat.eqb].
  - cbn [mbind option_bind]. rewrite ?page_with_fixed, Hleafq.
    rewrite cassert_true by done.
    cbn [mbind option_bind]. unfold LeafNode_has_space.
    change (LeafNode_kCapacity PageSize) with cap. rewrite Hns. cbn [negb].
    cbn [split_function] in Hsn. rewrite Hsn. done.
  - unfold InnerNode_has_space. rewrite Hns. cbn [negb].
    cbn [split_function] in Hsn. rewrite Hsn. done.
Qed.

Lemma grow_root_node (ks cs : list Z) lv sep q r :
  1 ≤ length ks → 2 ≤ length cs →
  let Rn := mkNode lv 2 (<[0:=sep]> ks) (<[1:=r]> (<[0:=q]> cs)) in
  ikeys Rn = [sep] ∧ ichildren Rn = [q; r] ∧
  length (keys Rn) = length ks ∧ length (slots Rn) = length cs.
Proof.
  clear cap_ge cap_lt. intros Hk Hc. destruct ks as [|k0 ks]; [simpl in Hk; lia|].
  destruct cs as [|c0 [|c1 cs]]; [simpl in Hc; lia..|]. done.
Qed.

Lemma BTree_insert_pass_full_excl B t m fuel key value l lo' hi' qp q :
  tree_inv PageSize B t → (B + 2 < 2 ^ 64)%Z →
  tree_contents PageSize t m → treeHeight t ≤ fuel →
  on_path (page' t) (λ nd, count nd < cap) key (pred (treeHeight t))
    None None None (root t) l lo' hi' qp q →
  ¬ count (page' t q) < cap →
  ∃ t',
    BTree_insert_pass PageSize NDEBUG fuel key value true t = Some (Restart false, t') ∧
    tree_inv PageSize B t' ∧ tree_contents PageSize t' m ∧
    segment_id t' = segment_id t ∧ (nodeCount t < nodeCount t')%Z ∧
    ∀ C, pred (treeHeight t) < C →
         phi cap (page' t') C key (pred (treeHeight t')) (root t')
         < phi cap (page' t) C key (pred (treeHeight t)) (root t).
Proof.
  intros Hinv HB Hm Hfuel Hp Hfull.
  pose proof (treeHeight_pred _ _ _ Hinv) as HL.
  pose proof (tree_inv_height PageSize B t Hinv ltac:(lia)) as Hh64.
  pose proof (tree_inv_count PageSize B t Hinv) as Hnb.
  pose proof Hinv as [Hh Hwf Hmint Hcnt Hw Hfx Hsized].
  destruct (insert_descent PageSize NDEBUG B t fuel key value true l lo' hi' qp q
              Hinv Hfuel Hp) as (ev1 & Hpass & Hev1 & Hne & _).
  set (L := pred (treeHeight t)) in *. set (pg := page' t) in *.
  destruct (on_path_wf cap _ _ _ _ _ _ _ _ _ _ _ _ _ Hp Hwf I I) as (Hwq & Ha & Hb).
  pose proof (on_path_le _ _ _ _ _ _ _ _ _ _ _ _ _ Hp) as Hle.
  assert (Hcq : count (pg q) = cap).
  { pose proof (wf_sized PageSize pg l lo' hi' q Hwq).
    destruct l; [destruct Hwq as (_ & (_ & ? & _) & _)|destruct Hwq as (_ & (_ & ? & _) & _)]; lia. }
  set (r := mint (segment_id t) (nodeCount t)).
  assert (Hfresh : ∀ k, (0 ≤ k)%Z →
            ¬ own pg L (root t) (mint (segment_id t) (nodeCount t + k))).
  { intros k Hk. by eapply mint_fresh. }
  assert (Hfr : ¬ own pg L (root t) r).
  { unfold r. replace (nodeCount t) with (nodeCount t + 0)%Z by lia. by apply Hfresh. }
  assert (Hqroot : ∀ x, own pg l q x → own pg L (root t) x).
  { intros x. by eapply on_path_own. }
  assert (Hrq : r ≠ q).
  { intros Heq. apply Hfr. rewrite Heq. apply Hqroot, own_self. }
  destruct (node_split_halves PageSize cap_ge pg l lo' hi' q (pg r) Hwq Hcq (Hsized r))
    as (nd & other & sep & Hsplit & Hlnd & Hsznd & Hszo & Hhalves).
  assert (Hrown : ¬ own pg l q r) by (intros ?%Hqroot; done).
  destruct (on_path_parent _ _ _ _ _ _ _ _ _ _ _ _ _ Hp)
    as [(-> & -> & -> & -> & ->)|(pf & blo & bhi & xp & -> & Hppf & Hokpf & Hqc & -> & ->)].
  - (* the root is split *)
    set (R := mint (segment_id t) (nodeCount t + 1)).
    assert (HRroot : R ≠ root t).
    { intros Heq. apply (Hfresh 1%Z ltac:(lia)). fold R. rewrite Heq. apply own_self. }
    assert (HRr : R ≠ r) by (intros Heq%mint_inj; lia).
    destruct (split_node_root PageSize NDEBUG (split_function L) (trace t ++ ev1) t
                (root t) r R nd other sep)
      as (t' & Hsn & Hseg & Hroot & Hnc & Hth & Hfx' & Htr & Hpg');
      try done; [lia|rewrite Hlnd, pow2_16; lia|rewrite pow2_16; lia|lia|].
    exists t'. split.
    { rewrite Hpass. apply (insert_at_full _ key value L); try done; [|lia].
      by apply wf_level in Hwq. }
    destruct (grow_root_node (keys (pg R)) (slots (pg R)) (S (level nd)) sep (root t) r)
      as (HkR & HcR & HlkR & HlcR).
    { destruct (Hsized R) as [-> _]. lia. }
    { destruct (Hsized R) as [_ ->]. lia. }
    destruct (split_root_inv PageSize cap_ge B t t' m key r R sep
                (mkNode (S (level nd)) 2 (<[0:=sep]> (keys (pg R)))
                   (<[1:=r]> (<[0:=root t]> (slots (pg R))))))
      as (Hinv' & Hm' & Hphi); try done.
    { apply Hhalves.
      - rewrite Hpg'. rewrite decide_False, decide_True by done. done.
      - rewrite Hpg'. rewrite decide_False, decide_False, decide_True by done. done.
      - done.
      - done.
      - intros x Hx Hxq. rewrite Hpg'.
        rewrite !decide_False; [done|..]; try done.
        + intros ->. by apply Hfr, Hqroot.
        + intros ->. apply (Hfresh 1%Z ltac:(lia)). by apply Hqroot. }
    { rewrite Hpg'. by rewrite decide_True by done. }
    { cbn [level]. rewrite Hlnd. fold L. lia. }
    { split; [rewrite HlkR|rewrite HlcR]; by destruct (Hsized R). }
    { intros x Hx1 Hx2 Hx3. rewrite Hpg'. by rewrite !decide_False by done. }
    split; [done|]. split; [done|]. split; [done|]. split; [lia|]. done.
  - (* the node has a parent with space *)
    subst q.
    destruct (on_path_wf cap _ _ _ _ _ _ _ _ _ _ _ _ _ Hppf Hwf I I) as (Hwpf & Hpa & Hpb).
    pose proof (child_of_lookup cap pg l blo bhi pf key Hwpf) as Hiq.
    set (kp := ikeys (pg pf)) in *. set (i := ref_lb kp key) in *.
    assert (Hpfroot : own pg L (root t) pf).
    { eapply on_path_own; [exact Hppf|done|apply own_self]. }
    assert (Hpq : pf ≠ child_of (pg pf) key).
    { intros Heq. symmetry in Heq. revert Heq.
      eapply (own_child_ne cap pg l blo bhi pf); [done|exact Hiq|apply own_self]. }
    assert (Hrpf : r ≠ pf) by (intros Heq; apply Hfr; by rewrite Heq).
    (* the bounds of the separator do not depend on the new pages *)
    set (pg0 := λ x, if decide (x = child_of (pg pf) key) then nd
                     else if decide (x = r) then other else pg x).
    assert (Hhv0 : halves cap pg pg0 l (clo blo kp i) (chi bhi kp i)
                     (child_of (pg pf) key) r sep).
    { apply Hhalves.
      - unfold pg0. by rewrite decide_True.
      - unfold pg0. by rewrite decide_False, decide_True.
      - done.
      - done.
      - intros x Hx Hxq. unfold pg0. rewrite !decide_False; [done|..]; try done.
        intros ->. by apply Hfr, Hqroot. }
    pose proof Hwpf as (_ & Hinpf & Hcntpf & _). pose proof Hinpf as (_ & _ & Hspf).
    destruct (inner_wf_lengths _ _ Hinpf) as [Hlkpf _].
    destruct (sep_position blo bhi kp i sep Hspf) as [Hnotin Hsi];
      [pose proof (ref_lb_le kp key); lia|apply Hhv0|apply Hhv0|].
    destruct (InnerNode_insert_split_spec PageSize NDEBUG (pg pf) sep r Hinpf cap_lt)
      as (P' & Hins & HlP & HcP & HszP & HkP & HchP);
      [lia|by apply Nat.ltb_lt|done|].
    destruct (split_node_parent PageSize NDEBUG (split_function l) (trace t ++ ev1) t
                (child_of (pg pf) key) pf r nd other sep P')
      as (t' & Hsn & Hseg & Hroot & Hnc & Hth & Hfx' & Htr & Hpg');
      try done; [lia|].
    exists t'. split.
    { rewrite Hpass. apply (insert_at_full _ key value l); try done; [|lia].
      by apply wf_level in Hwq. }
    destruct (split_parent_inv PageSize cap_ge B t t' m key _ l blo bhi xp pf r sep P'
                Hinv Hm Hppf Hokpf) as (Hinv' & Hm' & Hphi); try done.
    { apply Hhalves.
      - rewrite Hpg'. rewrite decide_False, decide_True by done. done.
      - rewrite Hpg'. rewrite decide_False, decide_False, decide_True by done. done.
      - done.
      - done.
      - intros x Hx Hxq. rewrite Hpg'.
        rewrite !decide_False; [done|..]; try done.
        + intros ->. by apply Hfr, Hqroot.
        + intros ->. revert Hx.
          intros Hx. pose proof (own_level cap pg l _ _ _ pf Hwq Hx) as Hlv.
          rewrite (wf_level _ _ _ _ _ _ Hwpf) in Hlv. lia. }
    { rewrite Hpg'. by rewrite decide_True. }
    { by rewrite HlP, (wf_level _ _ _ _ _ _ Hwpf). }
    { intros x Hx1 Hx2 Hx3. rewrite Hpg'. by rewrite !decide_False by done. }
    split; [done|]. split; [done|]. split; [done|]. split; [lia|]. done.
Qed.
End split_pass.
(** ** [insert], [erase] and [lookup] on a tree *)

Section tree_ops_spec.
Variable PageSize : nat.
Variable NDEBUG : bool.
Abbreviation cap := (InnerNode_kCapacity PageSize).
Abbreviation page' := (page PageSize).

Lemma phi_bound pg C key l p : phi cap pg C key l p ≤ S l * C.
Proof.
  revert p. induction l as [|l IH]; intros p; cbn [phi].
  - destruct (count (pg p) <? cap); lia.
  - specialize (IH (child_of (pg p) key)). destruct (count (pg p) <? cap); lia.
Qed.

Lemma phi_full_pos pg ok C key L lo hi pp p l lo' hi' qp q :
  on_path pg ok key L lo hi pp p l lo' hi' qp q →
  ¬ count (pg q) < cap → L < C → 1 ≤ phi cap pg C key L p.
Proof.
  induction 1 as [l lo hi pp p|l lo hi pp p l' lo' hi' qp q _ Hp IH]; intros Hfull HC.
  - assert (Hns : (count (pg p) <? cap) = false) by (apply Nat.ltb_ge; lia).
    destruct l; cbn [phi]; rewrite Hns; lia.
  - cbn [phi]. specialize (IH Hfull). lia.
Qed.

Lemma phi_free pg C key L lo hi pp p lo' hi' qp q :
  on_path pg (λ nd, count nd < cap) key L lo hi pp p 0 lo' hi' qp q →
  count (pg q) < cap → phi cap pg C key L p = 0.
Proof.
  remember 0 as l0 eqn:Hl0.
  induction 1 as [l lo hi pp p|l lo hi pp p l' lo' hi' qp q Hok Hp IH]; intros Hsp.
  - subst l. cbn [phi]. by rewrite (proj2 (Nat.ltb_lt _ _) Hsp).
  - cbn [phi]. rewrite (proj2 (Nat.ltb_lt _ _) Hok). rewrite IH by done. done.
Qed.

Lemma tree_inv_mono B B' t : (B ≤ B')%Z → tree_inv PageSize B t → tree_inv PageSize B' t.
Proof. intros HB [? ? ? ? ? ? ?]. split; try done. lia. Qed.

Hypothesis cap_ge : 4 ≤ cap.
Hypothesis cap_lt : cap < 2 ^ 16.

(** The passes of [insert] come to an end.  [n] bounds the weight of the
    full nodes on the way to the key. *)
Lemma insert_restart_spec B m fuel key value n :
  (B + 2 < 2 ^ 64)%Z → 64 ≤ fuel →
  ∀ t exclusive k,
    tree_inv PageSize B t → tree_contents PageSize t m →
    phi cap (page' t) 65 key (pred (treeHeight t)) (root t) ≤ n →
    2 * n + 2 ≤ k →
    ∃ t',
      restart_loop (BTree_insert_pass PageSize NDEBUG fuel key value) k exclusive t
      = Some ((), t') ∧
      tree_inv PageSize (B + 2) t' ∧
      tree_contents PageSize t' (<[key:=value]> m) ∧
      segment_id t' = segment_id t ∧
      (nodeCount t ≤ nodeCount t')%Z ∧
      (1 ≤ phi cap (page' t) 65 key (pred (treeHeight t)) (root t) →
       (nodeCount t < nodeCount t')%Z).
Proof using cap_ge cap_lt.
  intros HB Hfuel. induction n as [|n IH]; intros t exclusive k Hinv Hm Hphi Hk.
  - pose proof (tree_inv_height PageSize B t Hinv ltac:(lia)) as Hh64.
    destruct (path_to_full cap (page' t) key (pred (treeHeight t)) None None None
                (root t) (inv_wf _ _ _ Hinv))
      as (l & lo' & hi' & qp & q & Hp & Hq).
    destruct (decide (count (page' t q) < cap)) as [Hsp|Hfull].
    + destruct Hq as [->|?]; [|done].
      destruct (BTree_insert_pass_free PageSize NDEBUG B t m fuel key value exclusive
                  lo' hi' qp q cap_lt Hinv Hm ltac:(lia) Hp Hsp)
        as (t' & evs & Hpass & Hinv' & Hm' & _ & _ & Hnc & _ & _ & Hseg & _).
      exists t'. destruct k as [|k]; [lia|]. cbn [restart_loop].
      rewrite Hpass. cbn [mbind option_bind].
      split; [done|]. split; [done|]. split; [done|]. split; [done|].
      split; [lia|]. rewrite (phi_free _ _ _ _ _ _ _ _ _ _ _ _ Hp Hsp). lia.
    + pose proof (phi_full_pos _ _ 65 _ _ _ _ _ _ _ _ _ _ _ Hp Hfull ltac:(lia)). lia.
  - pose proof (tree_inv_height PageSize B t Hinv ltac:(lia)) as Hh64.
    destruct (path_to_full cap (page' t) key (pred (treeHeight t)) None None None
                (root t) (inv_wf _ _ _ Hinv))
      as (l & lo' & hi' & qp & q & Hp & Hq).
    destruct (decide (count (page' t q) < cap)) as [Hsp|Hfull].
    + destruct Hq as [->|?]; [|done].
      destruct (BTree_insert_pass_free PageSize NDEBUG B t m fuel key value exclusive
                  lo' hi' qp q cap_lt Hinv Hm ltac:(lia) Hp Hsp)
        as (t' & evs & Hpass & Hinv' & Hm' & _ & _ & Hnc & _ & _ & Hseg & _).
      exists t'. destruct k as [|k]; [lia|]. cbn [restart_loop].
      rewrite Hpass. cbn [mbind option_bind].
      split; [done|]. split; [done|]. split; [done|]. split; [done|].
      split; [lia|]. rewrite (phi_free _ _ _ _ _ _ _ _ _ _ _ _ Hp Hsp). lia.
    + assert (Hsplit : ∀ t0 k0,
                tree_inv PageSize B t0 → tree_contents PageSize t0 m →
                page' t0 = page' t → treeHeight t0 = treeHeight t → root t0 = root t →
                segment_id t0 = segment_id t → nodeCount t0 = nodeCount t →
                2 * n + 3 ≤ k0 →
                ∃ t',
                  restart_loop (BTree_insert_pass PageSize NDEBUG fuel key value) k0 true t0
                  = Some ((), t') ∧
                  tree_inv PageSize (B + 2) t' ∧
                  tree_contents PageSize t' (<[key:=value]> m) ∧
                  segment_id t' = segment_id t ∧ (nodeCount t < nodeCount t')%Z).
      { intros t0 k0 Hinv0 Hm0 Hpg0 Hth0 Hroot0 Hseg0 Hnc0 Hk0.
        rewrite <- Hpg0 in Hp, Hfull, Hphi. rewrite <- Hth0, <- Hroot0 in Hp, Hphi.
        destruct (BTree_insert_pass_full_excl PageSize NDEBUG cap_ge cap_lt B t0 m fuel
                    key value l lo' hi' qp q Hinv0 HB Hm0 ltac:(lia) Hp Hfull)
          as (t1 & Hpass & Hinv1 & Hm1 & Hseg1 & Hnc1 & Hphi1).
        specialize (Hphi1 65 ltac:(lia)).
        destruct (IH t1 false (k0 - 1) Hinv1 Hm1 ltac:(lia) ltac:(lia))
          as (t' & Hloop & Hinv' & Hm' & Hseg' & Hnc' & _).
        exists t'. destruct k0 as [|k0]; [lia|]. cbn [restart_loop].
        rewrite Hpass. cbn [mbind option_bind].
        replace (S k0 - 1) with k0 in Hloop by lia.
        split; [done|]. split; [done|]. split; [done|]. split; [congruence|]. lia. }
      destruct exclusive.
      * destruct (Hsplit t k Hinv Hm) as (t' & Hloop & Hinv' & Hm' & Hseg' & Hnc');
          try done; [lia|].
        exists t'. split; [done|]. split; [done|]. split; [done|]. split; [done|].
        split; lia.
      * destruct (BTree_insert_pass_full_shared PageSize NDEBUG B t fuel key value
                    l lo' hi' qp q Hinv ltac:(lia) Hp Hfull) as (evs & Hpass & _).
        destruct (Hsplit (with_fixed [] (trace t ++ evs) t) (k - 1))
          as (t' & Hloop & Hinv' & Hm' & Hseg' & Hnc');
          try done; [by apply tree_inv_with_fixed|lia|].
        exists t'. destruct k as [|k]; [lia|]. cbn [restart_loop].
        rewrite Hpass. cbn [mbind option_bind].
        replace (S k - 1) with k in Hloop by lia.
        split; [done|]. split; [done|]. split; [done|]. split; [done|].
        split; lia.
Qed.

(** [insert] puts the pair into the tree. *)
Lemma BTree_insert_spec B t m fuel key value :
  tree_inv PageSize B t → tree_contents PageSize t m →
  (B + 2 < 2 ^ 64)%Z → enough_fuel ≤ fuel →
  ∃ t',
    BTree_insert PageSize NDEBUG fuel key value t = Some t' ∧
    tree_inv PageSize (B + 2) t' ∧
    tree_contents PageSize t' (<[key:=value]> m) ∧
    segment_id t' = segment_id t ∧
    (nodeCount t ≤ nodeCount t')%Z ∧
    (1 ≤ phi cap (page' t) 65 key (pred (treeHeight t)) (root t) →
     (nodeCount t < nodeCount t')%Z).
Proof using cap_ge cap_lt.
  intros Hinv Hm HB Hfuel. unfold enough_fuel in Hfuel.
  pose proof (tree_inv_height PageSize B t Hinv ltac:(lia)) as Hh64.
  pose proof (phi_bound (page' t) 65 key (pred (treeHeight t)) (root t)) as Hphi.
  destruct (insert_restart_spec B m fuel key value (64 * 65) HB ltac:(lia)
              t false fuel Hinv Hm) as (t' & Hloop & Hrest); [nia|lia|].
  exists t'. split; [|done]. unfold BTree_insert. by rewrite Hloop.
Qed.

(** [erase] takes the key out of the tree. *)
Lemma BTree_erase_spec B t m fuel key :
  tree_inv PageSize B t → tree_contents PageSize t m →
  (B < 2 ^ 64)%Z → enough_fuel ≤ fuel →
  ∃ t',
    BTree_erase PageSize NDEBUG fuel key t = Some t' ∧
    tree_inv PageSize B t' ∧ tree_contents PageSize t' (delete key m).
Proof using cap_lt.
  clear cap_ge.
  intros Hinv Hm HB Hfuel. unfold enough_fuel in Hfuel.
  pose proof (tree_inv_height PageSize B t Hinv HB) as Hh64.
  destruct (BTree_erase_pass_spec PageSize NDEBUG B t m fuel key cap_lt Hinv Hm)
    as (t' & Hpass & Hinv' & Hm' & _); [lia|].
  exists t'. split; [|done]. unfold BTree_erase.
  destruct fuel as [|fuel]; [lia|]. cbn [restart_loop]. by rewrite Hpass.
Qed.

(** [lookup] returns what the tree holds for the key. *)
Lemma BTree_lookup_spec B t m fuel key :
  tree_inv PageSize B t → tree_contents PageSize t m →
  (B < 2 ^ 64)%Z → enough_fuel ≤ fuel →
  ∃ t', BTree_lookup PageSize NDEBUG fuel key t = Some (m !! key, t') ∧
        tree_inv PageSize B t' ∧ tree_contents PageSize t' m.
Proof.
  clear cap_ge cap_lt.
  intros Hinv Hm HB Hfuel. unfold enough_fuel in Hfuel.
  pose proof (tree_inv_height PageSize B t Hinv HB) as Hh64.
  destruct (BTree_lookup_pass_spec PageSize NDEBUG B t m fuel key Hinv Hm)
    as (evs & Hpass & _); [lia|].
  eexists. split; [|split].
  - unfold BTree_lookup. destruct fuel as [|fuel]; [lia|]. cbn [restart_loop].
    rewrite Hpass. done.
  - by apply tree_inv_with_fixed.
  - done.
Qed.

(** The constructor makes an empty tree. *)
Lemma BTree_new_spec seg :
  ∃ t, BTree_new PageSize seg = Some t ∧ tree_inv PageSize 1 t ∧
       tree_contents PageSize t ∅ ∧ segment_id t = seg.
Proof.
  clear cap_ge cap_lt.
  unfold BTree_new, BTree_create_new_node, tree_fix_page, tree_unfix_page, set_page.
  cbn [segment_id nodeCount root treeHeight pages fixed trace].
  rewrite decide_False by apply not_elem_of_nil.
  cbn [mbind option_bind segment_id nodeCount root treeHeight pages fixed trace].
  rewrite decide_True by in_list. rewrite release_head.
  eexists. split; [done|].
  set (r := Z.lxor (Z.shiftl seg 48) 0).
  assert (Hpg : ∀ x, page' {| segment_id := seg; root := r; nodeCount := u64 (0 + 1);
                  treeHeight := 1;
                  pages := <[r:=mkNode 0 0 (keys (page' (mkBTree seg 0 (u64 (0 + 1)) 0 ∅ [r]
                                                             ([] ++ [Fix r true])) r))
                                   (slots (page' (mkBTree seg 0 (u64 (0 + 1)) 0 ∅ [r]
                                                             ([] ++ [Fix r true])) r))]> ∅;
                  fixed := [];
                  trace := ([] ++ [Fix r true]) ++ [Unfix r true] |} x
                = blank_page PageSize).
  { intros x. unfold page. cbn [pages]. rewrite lookup_insert, lookup_empty.
    case_decide; done. }
  assert (Hbs : node_sized cap (blank_page PageSize)).
  { split; cbn; by rewrite length_replicate. }
  split; [split|split].
  - cbn. lia.
  - cbn [treeHeight root pred wf]. rewrite Hpg. split; [done|]. split.
    + split; [done|]. split; [cbn; lia|]. intros i j x y Hij Hx Hy. done.
    + intros k Hk. by apply elem_of_nil in Hk.
  - cbn [treeHeight root pred own segment_id nodeCount]. intros x [->|[]].
    exists 0%Z. split; [|done]. rewrite u64_small; lia.
  - cbn [treeHeight root pred wsum nodeCount]. rewrite u64_small; lia.
  - cbn [treeHeight root pred wsum]. rewrite Hpg. cbn. lia.
  - done.
  - intros x. by rewrite Hpg.
  - intros k v. cbn [treeHeight root pred holds]. rewrite Hpg, lookup_empty.
    split; [|done]. by intros (i & Hi & _).
  - done.
Qed.

Lemma last_write_foldl ops m k :
  foldl apply_op m ops !! k =
  foldl (λ acc o,
           match o with
           | OpInsert k' v => if decide (k' = k) then Some v else acc
           | OpErase k' => if decide (k' = k) then None else acc
           end) (m !! k) ops.
Proof.
  revert m. induction ops as [|o ops IH]; intros m; [done|].
  cbn [foldl]. rewrite IH. f_equal. destruct o as [k' v|k']; cbn [apply_op].
  - by rewrite lookup_insert.
  - by rewrite lookup_delete.
Qed.

Lemma last_write_model ops k : foldl apply_op ∅ ops !! k = last_write ops k.
Proof. by rewrite last_write_foldl, lookup_empty. Qed.

(** A sequence of operations does to the tree what it does to a map. *)
Lemma run_ops_spec fuel ops :
  enough_fuel ≤ fuel →
  ∀ B t m,
    tree_inv PageSize B t → tree_contents PageSize t m →
    (B + 2 * Z.of_nat (length ops) < 2 ^ 64)%Z →
    ∃ t', run_ops PageSize NDEBUG fuel ops t = Some t' ∧
          tree_inv PageSize (B + 2 * Z.of_nat (length ops)) t' ∧
          tree_contents PageSize t' (foldl apply_op m ops).
Proof using cap_ge cap_lt.
  intros Hfuel. induction ops as [|o ops IH]; intros B t m Hinv Hm HB.
  - exists t. split; [done|]. split; [|done]. eapply tree_inv_mono; [|done]. cbn. lia.
  - cbn [length] in HB. rewrite Nat2Z.inj_succ in HB.
    assert (Hstep : ∃ t1, run_op PageSize NDEBUG fuel o t = Some t1 ∧
              tree_inv PageSize (B + 2) t1 ∧ tree_contents PageSize t1 (apply_op m o)).
    { destruct o as [k v|k]; cbn [run_op apply_op].
      - destruct (BTree_insert_spec B t m fuel k v Hinv Hm ltac:(lia) Hfuel)
          as (t1 & H1 & H2 & H3 & _). by exists t1.
      - destruct (BTree_erase_spec B t m fuel k Hinv Hm ltac:(lia) Hfuel)
          as (t1 & H1 & H2 & H3). exists t1. split; [done|]. split; [|done].
        eapply tree_inv_mono; [|done]. lia. }
    destruct Hstep as (t1 & Hrun & Hinv1 & Hm1).
    destruct (IH (B + 2)%Z t1 (apply_op m o) Hinv1 Hm1 ltac:(lia))
      as (t' & Hrun' & Hinv' & Hm').
    exists t'. cbn [run_ops foldl length]. rewrite Hrun. cbn [mbind option_bind].
    split; [done|]. split; [|done]. rewrite Nat2Z.inj_succ.
    eapply tree_inv_mono; [|done]. lia.
Qed.
End tree_ops_spec.
(** ** States reached by operations *)

Lemma on_path_leaf_of pg ok key L lo hi pp p lo' hi' qp q :
  on_path pg ok key L lo hi pp p 0 lo' hi' qp q → q = leaf_of pg key L p.
Proof.
  remember 0 as l0 eqn:Hl0.
  induction 1 as [l lo hi pp p|l lo hi pp p l' lo' hi' qp q Hok Hp IH].
  - by subst l.
  - cbn [leaf_of]. by apply IH.
Qed.

Section reachable.
Variable PageSize : nat.
Variable NDEBUG : bool.
Abbreviation cap := (InnerNode_kCapacity PageSize).
Abbreviation page' := (page PageSize).
Hypothesis cap_ge : 4 ≤ cap.
Hypothesis cap_lt : cap < 2 ^ 16.

(** The constructor followed by operations gives a tree that holds what
    the operations left. *)
Lemma reachable_tree seg ops fuel :
  (2 * Z.of_nat (length ops) + 1 < 2 ^ 64)%Z → enough_fuel ≤ fuel →
  ∃ t0 t,
    BTree_new PageSize seg = Some t0 ∧
    run_ops PageSize NDEBUG fuel ops t0 = Some t ∧
    tree_inv PageSize (1 + 2 * Z.of_nat (length ops)) t ∧
    tree_contents PageSize t (foldl apply_op ∅ ops).
Proof using cap_ge cap_lt.
  intros Hlen Hfuel.
  destruct (BTree_new_spec PageSize seg) as (t0 & Hnew & Hinv0 & Hm0 & _).
  destruct (run_ops_spec PageSize NDEBUG cap_ge cap_lt fuel ops Hfuel 1 t0 ∅ Hinv0 Hm0)
    as (t & Hrun & Hinv & Hm); [lia|].
  by exists t0, t.
Qed.

(** The leaf of a key is at the end of its path. *)
Lemma path_to_leaf_of pg key l lo hi pp p :
  wf cap pg l lo hi p →
  ∃ lo' hi' qp,
    on_path pg (λ _, True) key l lo hi pp p 0 lo' hi' qp (leaf_of pg key l p).
Proof.
  clear cap_ge cap_lt. intros Hwf.
  destruct (path_to_leaf cap pg key l lo hi pp p Hwf) as (lo' & hi' & qp & q & Hp).
  exists lo', hi', qp. by rewrite <- (on_path_leaf_of _ _ _ _ _ _ _ _ _ _ _ _ Hp).
Qed.

(** The first pass of [insert] fixes the leaf exclusively and every inner
    node shared. *)
Lemma insert_first_pass B t m fuel key value :
  tree_inv PageSize B t → tree_contents PageSize t m →
  (B < 2 ^ 64)%Z → enough_fuel ≤ fuel →
  ∃ r t' evs,
    BTree_insert_pass PageSize NDEBUG fuel key value false t = Some (r, t') ∧
    trace t' = trace t ++ evs ∧
    Forall (fix_mode (λ p, is_leaf (page' t p))) evs ∧
    ∃ rest, evs = Fix (root t) (is_leaf (page' t (root t))) :: rest.
Proof using cap_lt.
  clear cap_ge. intros Hinv Hm HB Hfuel. unfold enough_fuel in Hfuel.
  pose proof (tree_inv_height PageSize B t Hinv HB) as Hh64.
  destruct (path_to_full cap (page' t) key (pred (treeHeight t)) None None None
              (root t) (inv_wf _ _ _ Hinv))
    as (l & lo' & hi' & qp & q & Hp & Hq).
  destruct (decide (count (page' t q) < cap)) as [Hsp|Hfull].
  - destruct Hq as [->|?]; [|done].
    destruct (BTree_insert_pass_free PageSize NDEBUG B t m fuel key value false
                lo' hi' qp q cap_lt Hinv Hm ltac:(lia) Hp Hsp)
      as (t' & evs & Hpass & _ & _ & Htr & Hev & _ & _ & _ & _ & _ & _ & _ & Hhd).
    by exists (Done ()), t', evs.
  - destruct (BTree_insert_pass_full_shared PageSize NDEBUG B t fuel key value
                l lo' hi' qp q Hinv ltac:(lia) Hp Hfull) as (evs & Hpass & Hev & Hhd).
    by eexists (Restart true), _, evs.
Qed.
(** [insert] at a full leaf: the first pass writes nothing and asks for
    the exclusive pass, and the exclusive pass splits a node and leaves
    the pairs of the tree as they were. *)
Lemma insert_full_passes B t m fuel key value :
  tree_inv PageSize B t → tree_contents PageSize t m →
  (B + 2 < 2 ^ 64)%Z → enough_fuel ≤ fuel →
  ¬ count (page' t (leaf_of (page' t) key (pred (treeHeight t)) (root t))) < cap →
  ∃ t1 t2,
    BTree_insert_pass PageSize NDEBUG fuel key value false t = Some (Restart true, t1) ∧
    pages t1 = pages t ∧ nodeCount t1 = nodeCount t ∧
    BTree_insert_pass PageSize NDEBUG fuel key value true t1 = Some (Restart false, t2) ∧
    tree_inv PageSize B t2 ∧ tree_contents PageSize t2 m ∧
    (nodeCount t < nodeCount t2)%Z.
Proof using cap_ge cap_lt.
  intros Hinv Hm HB Hfuel Hfull. unfold enough_fuel in Hfuel.
  pose proof (tree_inv_height PageSize B t Hinv ltac:(lia)) as Hh64.
  destruct (path_to_full cap (page' t) key (pred (treeHeight t)) None None None
              (root t) (inv_wf _ _ _ Hinv))
    as (l & lo' & hi' & qp & q & Hp & Hq).
  assert (Hqf : ¬ count (page' t q) < cap).
  { destruct Hq as [->|?]; [|done].
    by rewrite (on_path_leaf_of _ _ _ _ _ _ _ _ _ _ _ _ Hp). }
  destruct (BTree_insert_pass_full_shared PageSize NDEBUG B t fuel key value
              l lo' hi' qp q Hinv ltac:(lia) Hp Hqf) as (evs & Hpass & _).
  set (t1 := with_fixed [] (trace t ++ evs) t) in *.
  destruct (BTree_insert_pass_full_excl PageSize NDEBUG cap_ge cap_lt B t1 m fuel
              key value l lo' hi' qp q) as (t2 & Hpass2 & Hinv2 & Hm2 & _ & Hn & _);
    [by apply tree_inv_with_fixed|done|done|cbn; lia|done|done|].
  exists t1, t2. done.
Qed.
End reachable.
(** ** Page ids, the constructor, paths with space *)

Lemma mint_segment seg n :
  (0 ≤ seg)%Z → (0 ≤ n < 2 ^ 48)%Z →
  get_segment_id (mint seg n) = seg ∧ get_segment_page_id (mint seg n) = n.
Proof.
  intros Hs Hn. unfold get_segment_id, get_segment_page_id, mint. split.
  - rewrite Z.shiftr_lxor, Z.shiftr_shiftl_l by lia.
    replace (48 - 48)%Z with 0%Z by lia. rewrite Z.shiftl_0_r.
    rewrite (Z.shiftr_div_pow2 n) by lia. rewrite Z.div_small by lia.
    apply Z.lxor_0_r.
  - change (2 ^ 48 - 1)%Z with (Z.ones 48).
    rewrite Z.land_ones by lia.
    apply Z.bits_inj'. intros i Hi.
    destruct (Z.lt_ge_cases i 48) as [Hlt|Hge].
    + rewrite Z.mod_pow2_bits_low by lia.
      rewrite Z.lxor_spec, Z.shiftl_spec_low by lia. done.
    + rewrite Z.mod_pow2_bits_high by lia.
      symmetry. apply (Z.bits_above_log2 n i); [lia|].
      destruct (decide (n = 0%Z)) as [->|Hnz]; [cbn; lia|].
      assert (Z.log2 n < 48)%Z by (apply Z.log2_lt_pow2; lia). lia.
Qed.

Lemma BTree_new_eq PageSize seg :
  BTree_new PageSize seg =
  Some (mkBTree seg (mint seg 0) 1 1 {[mint seg 0 := blank_page PageSize]} []
          [Fix (mint seg 0) true; Unfix (mint seg 0) true]).
Proof.
  unfold BTree_new, BTree_create_new_node, tree_fix_page, tree_unfix_page, set_page.
  cbn [segment_id nodeCount root treeHeight pages fixed trace].
  rewrite decide_False by apply not_elem_of_nil.
  cbn [mbind option_bind segment_id nodeCount root treeHeight pages fixed trace].
  rewrite decide_True by in_list. rewrite release_head.
  unfold page. cbn [pages]. rewrite lookup_empty. cbn [default].
  done.
Qed.

(** A path without a full node. *)
Lemma path_has_space_on_path cap pg key l lo hi pp p :
  path_has_space cap pg key l p = true →
  wf cap pg l lo hi p →
  ∃ lo' hi' qp,
    on_path pg (λ nd, count nd < cap) key l lo hi pp p 0 lo' hi' qp
      (leaf_of pg key l p) ∧
    count (pg (leaf_of pg key l p)) < cap.
Proof.
  revert lo hi pp p. induction l as [|l IH]; intros lo hi pp p Hsp Hwf;
    cbn [path_has_space leaf_of] in *; apply andb_true_iff in Hsp as [Hc Hrest];
    apply Nat.ltb_lt in Hc.
  - eexists _, _, _. split; [constructor|done].
  - destruct (IH _ _ (Some p) _ Hrest (wf_child_of cap pg l lo hi p key Hwf))
      as (lo' & hi' & qp & Hp & Hq).
    exists lo', hi', qp. split; [by constructor|done].
Qed.
(** * The specification's statements about the search and the nodes *)

(** C2: on every range sorted under the comparator, the empty one
    included, [lower_bound_branchless] returns the reference lower bound:
    the index [r] in [[0, len]] such that every element before [r] is less
    than [val] and no element from [r] on is. *)
Theorem lower_bound_branchless_correct {T} (cmp : T → T → bool)
    (rng : list T) (val : T) :
  (∀ a b c, cmp a c = true → cmp a b = true ∨ cmp b c = true) →
  sorted_under cmp rng →
  ∃ r, lower_bound_branchless cmp rng val = Some r ∧
    r = reference_lower_bound cmp rng val ∧ r ≤ length rng ∧
    (∀ j x, j < r → rng !! j = Some x → cmp x val = true) ∧
    (∀ j x, r ≤ j → rng !! j = Some x → cmp x val = false).
Proof.
  intros Hco Hs. exists (reference_lower_bound cmp rng val).
  split; [by apply lower_bound_branchless_reference|].
  split; [done|]. split; [apply reference_le_length|]. split.
  - intros j x. apply reference_below.
  - intros j x. by apply reference_above.
Qed.

Lemma strictly_increasing_1357 : strictly_increasing [1; 3; 5; 7]%Z.
Proof. by apply increasingb_sound. Qed.

Lemma lower_bound_branchless_correct_witness :
  (∀ a b c, Z.ltb a c = true → Z.ltb a b = true ∨ Z.ltb b c = true) ∧
  sorted_under Z.ltb [1; 3; 5; 7]%Z ∧
  ∃ r, lower_bound_branchless Z.ltb [1; 3; 5; 7]%Z 4%Z = Some r ∧
    r = reference_lower_bound Z.ltb [1; 3; 5; 7]%Z 4%Z ∧ r ≤ 4 ∧
    (∀ j x, j < r → [1; 3; 5; 7]%Z !! j = Some x → Z.ltb x 4 = true) ∧
    (∀ j x, r ≤ j → [1; 3; 5; 7]%Z !! j = Some x → Z.ltb x 4 = false).
Proof.
  split; [exact ltb_cotrans|].
  split; [exact (increasing_sorted_under _ strictly_increasing_1357)|].
  exact (lower_bound_branchless_correct Z.ltb [1; 3; 5; 7]%Z 4%Z ltb_cotrans
           (increasing_sorted_under _ strictly_increasing_1357)).
Defined.

(** C3: [LeafNode::split] of a leaf with [2 <= count <= capacity] and
    strictly increasing keys keeps the lower [count - count / 2] entries,
    puts the upper [count / 2] entries into a new leaf of the same level,
    and returns the largest key kept on the left, [keys[new_count - 1]];
    the entries of the two leaves together are the entries before. *)
Theorem LeafNode_split_correct (cap : nat) (nd buffer : Node) :
  leaf_wf cap nd → node_sized cap buffer → 2 ≤ count nd →
  ∃ l r sep, LeafNode_split nd buffer = Some (l, r, sep) ∧
    count l = count nd - count nd / 2 ∧ count r = count nd / 2 ∧
    level l = level nd ∧ level r = level nd ∧
    LeafNode_get_key_vector nd = LeafNode_get_key_vector l ++ LeafNode_get_key_vector r ∧
    LeafNode_get_value_vector nd = LeafNode_get_value_vector l ++ LeafNode_get_value_vector r ∧
    length (LeafNode_get_key_vector l) = count l ∧
    length (LeafNode_get_value_vector l) = count l ∧
    keys l !! (count l - 1) = Some sep ∧
    sep ∈ LeafNode_get_key_vector l ∧
    (∀ k, k ∈ LeafNode_get_key_vector l → (k ≤ sep)%Z) ∧
    (∀ k, k ∈ LeafNode_get_key_vector r → (sep < k)%Z).
Proof.
  intros (Hsz & Hc & Hs) Hb Htwo.
  destruct (LeafNode_split_spec cap nd buffer Hsz Hb) as
    (l & r & sep & Hsplit & Hll & Hlr & Hcl & Hcr & Hsl & Hsr & Hkl & Hkr & Hvl & Hvr & Hsep);
    [lia|].
  assert (Hhalf : 2 * (count nd / 2) ≤ count nd) by apply Nat.Div0.mul_div_le.
  assert (Hpos : 1 ≤ count nd / 2) by (apply Nat.div_le_lower_bound; lia).
  exists l, r, sep. split; [done|].
  split; [done|]. split; [done|]. split; [done|]. split; [done|].
  rewrite Hkl, Hkr, Hvl, Hvr, !take_drop.
  split; [done|]. split; [done|].
  destruct Hsz as [Hk Hv].
  unfold LeafNode_get_key_vector, LeafNode_get_value_vector in *.
  split; [solve_len|]. split; [solve_len|].
  assert (Hsep' : take (count l) (take (count nd) (keys nd)) !! (count l - 1) = Some sep).
  { rewrite lookup_take_lt by lia. done. }
  split.
  { apply lookup_take_Some in Hsep as [Hsep _].
    replace (keys l) with (keys nd); [done|].
    unfold LeafNode_split in Hsplit.
    destruct (copy_upper _ _ _ _ _ _ _) as [[??]|]; [|done]. simpl in Hsplit.
    destruct (_ =? _); [done|]. destruct (keys nd !! _); [|done].
    by simplify_eq/=. }
  split; [by eapply list_elem_of_lookup_2|].
  split.
  - intros k (j & Hj)%list_elem_of_lookup_1.
    apply lookup_take_Some in Hj as [Hj Hlt].
    destruct (decide (j = count l - 1)) as [->|Hne]; [by simplify_eq|].
    assert (k < sep)%Z; [|lia].
    eapply (Hs j (count l - 1)); [lia|done|done].
  - intros k (j & Hj)%list_elem_of_lookup_1. rewrite lookup_drop in Hj.
    eapply (Hs (count l - 1) (count l + j)); [lia|done|done].
Qed.

Definition leaf4 : Node := mkNode 0 4 [5; 7; 10; 20]%Z [50; 70; 100; 200]%Z.
Definition blank4 : Node := mkNode 0 0 [0; 0; 0; 0]%Z [0; 0; 0; 0]%Z.

Lemma strictly_increasing_leaf4 : strictly_increasing [5; 7; 10; 20]%Z.
Proof. by apply increasingb_sound. Qed.

Lemma leaf_wf_leaf4 : leaf_wf 4 leaf4.
Proof.
  split; [by split|]. split; [simpl; lia|]. exact strictly_increasing_leaf4.
Qed.

Lemma LeafNode_split_correct_witness :
  leaf_wf 4 leaf4 ∧ node_sized 4 blank4 ∧ 2 ≤ count leaf4 ∧
  ∃ l r sep, LeafNode_split leaf4 blank4 = Some (l, r, sep) ∧
    count l = count leaf4 - count leaf4 / 2 ∧ count r = count leaf4 / 2 ∧
    level l = level leaf4 ∧ level r = level leaf4 ∧
    LeafNode_get_key_vector leaf4 = LeafNode_get_key_vector l ++ LeafNode_get_key_vector r ∧
    LeafNode_get_value_vector leaf4 = LeafNode_get_value_vector l ++ LeafNode_get_value_vector r ∧
    length (LeafNode_get_key_vector l) = count l ∧
    length (LeafNode_get_value_vector l) = count l ∧
    keys l !! (count l - 1) = Some sep ∧
    sep ∈ LeafNode_get_key_vector l ∧
    (∀ k, k ∈ LeafNode_get_key_vector l → (k ≤ sep)%Z) ∧
    (∀ k, k ∈ LeafNode_get_key_vector r → (sep < k)%Z).
Proof.
  split; [exact leaf_wf_leaf4|]. split; [by split|]. split; [simpl; lia|].
  apply (LeafNode_split_correct 4 leaf4 blank4 leaf_wf_leaf4); [by split|simpl; lia].
Defined.

(** C4 (as stated, refuted): the separator [InnerNode::split] returns is
    not among the separator keys the left node keeps.  An inner node with
    four children and the keys 10, 20, 30 keeps the one key 10 and returns
    20. *)
Definition inner4 : Node := mkNode 1 4 [10; 20; 30; 0]%Z [1; 2; 3; 4]%Z.

Lemma InnerNode_split_separator_not_kept :
  inner_wf 4 inner4 ∧
  ∃ l r, InnerNode_split inner4 blank4 = Some (l, r, 20%Z) ∧
    InnerNode_get_key_vector l = [10%Z] ∧
    20%Z ∉ InnerNode_get_key_vector l.
Proof.
  split.
  { split; [by split|]. split; [simpl; lia|]. by apply increasingb_sound. }
  eexists _, _. split; [reflexivity|]. split; [reflexivity|].
  cbn. by intros [= ]%list_elem_of_singleton.
Qed.

(** C4 (amended): [InnerNode::split] of an inner node with [c >= 2]
    children and strictly increasing separators keeps the lower [c - c / 2]
    children, puts the upper [c / 2] children into a new inner node of the
    same level, and returns the key that stood between the two halves: it
    is greater than every key kept on the left, less than every key of the
    new node, and kept by neither. *)
Theorem InnerNode_split_correct (cap : nat) (nd buffer : Node) :
  inner_wf cap nd → node_sized cap buffer → 2 ≤ count nd →
  ∃ l r sep, InnerNode_split nd buffer = Some (l, r, sep) ∧
    count l = count nd - count nd / 2 ∧ count r = count nd / 2 ∧
    level l = level nd ∧ level r = level nd ∧
    InnerNode_get_children_vector nd =
      InnerNode_get_children_vector l ++ InnerNode_get_children_vector r ∧
    length (InnerNode_get_children_vector l) = count l ∧
    InnerNode_get_key_vector nd =
      InnerNode_get_key_vector l ++ sep :: InnerNode_get_key_vector r ∧
    (∀ k, k ∈ InnerNode_get_key_vector l → (k < sep)%Z) ∧
    (∀ k, k ∈ InnerNode_get_key_vector r → (sep < k)%Z).
Proof.
  intros (Hsz & Hc & Hs) Hb Htwo.
  destruct (InnerNode_split_spec cap nd buffer Hsz Hb) as
    (l & r & sep & Hsplit & Hll & Hlr & Hcl & Hcr & Hsl & Hsr & Hkl & Hkr & Hvl & Hvr & Hsep);
    [lia|].
  specialize (Hsep Htwo).
  assert (Hhalf : 2 * (count nd / 2) ≤ count nd) by apply Nat.Div0.mul_div_le.
  assert (Hpos : 1 ≤ count nd / 2) by (apply Nat.div_le_lower_bound; lia).
  exists l, r, sep. split; [done|].
  split; [done|]. split; [done|]. split; [done|]. split; [done|].
  rewrite Hkl, Hkr, Hvl, Hvr, !take_drop.
  split; [done|].
  destruct Hsz as [Hk Hv].
  split; [unfold InnerNode_get_children_vector; solve_len|].
  split.
  { rewrite <- (take_drop_middle _ _ _ Hsep) at 1.
    do 2 f_equal. f_equal. lia. }
  split.
  - intros k (j & Hj)%list_elem_of_lookup_1.
    apply lookup_take_Some in Hj as [Hj Hlt].
    eapply (Hs j (count l - 1)); [lia|done|done].
  - intros k (j & Hj)%list_elem_of_lookup_1. rewrite lookup_drop in Hj.
    eapply (Hs (count l - 1) (count l + j)); [lia|done|done].
Qed.

Lemma inner_wf_inner4 : inner_wf 4 inner4.
Proof. split; [by split|]. split; [simpl; lia|]. by apply increasingb_sound. Qed.

Lemma InnerNode_split_correct_witness :
  inner_wf 4 inner4 ∧ node_sized 4 blank4 ∧ 2 ≤ count inner4 ∧
  ∃ l r sep, InnerNode_split inner4 blank4 = Some (l, r, sep) ∧
    count l = count inner4 - count inner4 / 2 ∧ count r = count inner4 / 2 ∧
    level l = level inner4 ∧ level r = level inner4 ∧
    InnerNode_get_children_vector inner4 =
      InnerNode_get_children_vector l ++ InnerNode_get_children_vector r ∧
    length (InnerNode_get_children_vector l) = count l ∧
    InnerNode_get_key_vector inner4 =
      InnerNode_get_key_vector l ++ sep :: InnerNode_get_key_vector r ∧
    (∀ k, k ∈ InnerNode_get_key_vector l → (k < sep)%Z) ∧
    (∀ k, k ∈ InnerNode_get_key_vector r → (sep < k)%Z).
Proof.
  split; [exact inner_wf_inner4|]. split; [by split|]. split; [simpl; lia|].
  apply (InnerNode_split_correct 4 inner4 blank4 inner_wf_inner4); [by split|simpl; lia].
Defined.

(** C5: [InnerNode::lower_bound] on a node with [k >= 1] children and
    [k - 1] strictly increasing separators returns [(i, found)] where [i]
    is the smallest index in [[0, k - 1]] whose separator is not less than
    [key], [k - 1] if there is none, and [found] holds iff [i < k - 1] and
    [keys[i]] is [key]; on a node with no children it returns
    [(0, false)].  So the chosen child [i] is the one with
    [sep[i - 1] < key <= sep[i]]. *)
Theorem InnerNode_lower_bound_correct (cap : nat) (nd : Node) (key : Z) :
  inner_wf cap nd →
  ∃ i found, InnerNode_lower_bound nd key = Some (i, found) ∧
    (count nd = 0 → i = 0 ∧ found = false) ∧
    (1 ≤ count nd →
       i ≤ count nd - 1 ∧
       (∀ j x, j < i → keys nd !! j = Some x → (x < key)%Z) ∧
       (∀ j x, i ≤ j < count nd - 1 → keys nd !! j = Some x → (key ≤ x)%Z) ∧
       (found = true ↔ i < count nd - 1 ∧ keys nd !! i = Some key)).
Proof.
  intros ((Hk & Hv) & Hc & Hs).
  rewrite InnerNode_lower_bound_spec by (try done; lia).
  eexists _, _. split; [done|].
  pose proof (ref_lb_le (InnerNode_get_key_vector nd) key) as Hle.
  unfold InnerNode_get_key_vector in *. rewrite length_take in Hle.
  split.
  { intros Hz. rewrite Hz. simpl. done. }
  intros Hone. split; [lia|]. split; [|split].
  - intros j x Hj Hx. eapply ref_lb_lt; [done|].
    rewrite lookup_take_lt by lia. done.
  - intros j x Hj Hx. eapply (ref_lb_ge _ key j); [done|lia|].
    rewrite lookup_take_lt by lia. done.
  - rewrite bool_decide_eq_true, <- ref_lb_found by done.
    rewrite lookup_take_Some. tauto.
Qed.

Lemma InnerNode_lower_bound_correct_witness :
  inner_wf 4 inner4 ∧
  ∃ i found, InnerNode_lower_bound inner4 25%Z = Some (i, found) ∧
    (count inner4 = 0 → i = 0 ∧ found = false) ∧
    (1 ≤ count inner4 →
       i ≤ count inner4 - 1 ∧
       (∀ j x, j < i → keys inner4 !! j = Some x → (x < 25)%Z) ∧
       (∀ j x, i ≤ j < count inner4 - 1 → keys inner4 !! j = Some x → (25 ≤ x)%Z) ∧
       (found = true ↔ i < count inner4 - 1 ∧ keys inner4 !! i = Some 25%Z)).
Proof.
  split; [exact inner_wf_inner4|].
  exact (InnerNode_lower_bound_correct 4 inner4 25%Z inner_wf_inner4).
Defined.

Lemma LeafNode_insert_keeps_wf PageSize NDEBUG nd key value nd' :
  LeafNode_kCapacity PageSize < 2 ^ 16 →
  leaf_wf (LeafNode_kCapacity PageSize) nd →
  LeafNode_has_space PageSize nd = true ∨ key ∈ LeafNode_get_key_vector nd →
  LeafNode_insert PageSize NDEBUG nd key value = Some nd' →
  leaf_wf (LeafNode_kCapacity PageSize) nd'.
Proof.
  intros Hcap Hwf Hpre Hins.
  destruct (decide (key ∈ LeafNode_get_key_vector nd)) as [Hin|Hnot].
  - destruct (decide (NDEBUG = true ∨ LeafNode_has_space PageSize nd = true)) as [Hok|Hno].
    + destruct (LeafNode_insert_present PageSize NDEBUG nd key value Hwf Hok Hin)
        as (nd2 & Hins2 & _ & Hc & Hsz & Hk & _).
      simplify_eq. destruct Hwf as (_ & Hcnt & Hs).
      split; [done|]. split; [lia|]. by rewrite Hk.
    + unfold LeafNode_insert, cassert in Hins.
      destruct NDEBUG; [by destruct Hno; left|].
      destruct (LeafNode_has_space PageSize nd); [by destruct Hno; right|done].
  - destruct Hpre as [Hsp|?]; [|done].
    destruct (LeafNode_insert_absent PageSize NDEBUG nd key value Hwf Hcap Hsp Hnot)
      as (nd2 & Hins2 & _ & Hc & Hsz & Hk & _).
    simplify_eq. destruct Hwf as (_ & Hcnt & Hs).
    apply Nat.ltb_lt in Hsp.
    split; [done|]. split; [lia|]. rewrite Hk. by apply strictly_increasing_ins.
Qed.

Lemma LeafNode_erase_keeps_wf PageSize NDEBUG nd key :
  LeafNode_kCapacity PageSize < 2 ^ 16 →
  leaf_wf (LeafNode_kCapacity PageSize) nd →
  ∃ nd' erased, LeafNode_erase NDEBUG nd key = Some (nd', erased) ∧
    leaf_wf (LeafNode_kCapacity PageSize) nd'.
Proof.
  intros Hcap Hwf.
  destruct (decide (key ∈ LeafNode_get_key_vector nd)) as [Hin|Hnot].
  - destruct (LeafNode_erase_present PageSize NDEBUG nd key Hwf Hcap Hin)
      as (nd' & He & _ & Hc & Hsz & Hk & _).
    exists nd', true. split; [done|]. destruct Hwf as (_ & Hcnt & Hs).
    split; [done|]. split; [lia|]. rewrite Hk. by apply strictly_increasing_delete.
  - exists nd, false. split; [|done]. by eapply LeafNode_erase_absent.
Qed.

Lemma InnerNode_insert_split_empty_keys PageSize NDEBUG nd key split_page nd' :
  count nd = 0 →
  InnerNode_insert_split PageSize NDEBUG nd key split_page = Some nd' →
  InnerNode_get_key_vector nd' = [].
Proof.
  intros Hz. unfold InnerNode_insert_split, InnerNode_lower_bound.
  rewrite Hz. intros Hins.
  apply bind_Some in Hins as (? & _ & Hins). cbn in Hins.
  apply bind_Some in Hins as (? & _ & Hins).
  apply bind_Some in Hins as (? & _ & Hins).
  apply bind_Some in Hins as (? & _ & Hins).
  simplify_eq. unfold InnerNode_get_key_vector. cbn [count keys].
  replace (u16 (0 + 1)) with 1 by (symmetry; apply u16_small; rewrite pow2_16; lia).
  done.
Qed.

(** C6: strictly increasing key order is kept by [LeafNode::insert]
    (with space, or on a key the leaf holds), [LeafNode::erase],
    [InnerNode::insert_split] (with space and a new separator) and both
    [split]s. *)
Theorem key_order_invariant (PageSize : nat) (NDEBUG : bool) :
  LeafNode_kCapacity PageSize < 2 ^ 16 →
  InnerNode_kCapacity PageSize < 2 ^ 16 →
  key_order_kept PageSize NDEBUG.
Proof.
  intros Hlcap Hicap.
  split; [|split; [|split; [|split]]].
  - intros nd key value Hwf Hpre. split.
    { intros nd'. by apply LeafNode_insert_keeps_wf. }
    intros Hok.
    destruct (decide (key ∈ LeafNode_get_key_vector nd)) as [Hin|Hnot].
    + destruct (LeafNode_insert_present PageSize NDEBUG nd key value) as (? & -> & _);
        [done|tauto|done|done].
    + destruct Hpre as [Hsp|?]; [|done].
      destruct (LeafNode_insert_absent PageSize NDEBUG nd key value) as (? & -> & _); done.
  - intros nd key Hwf. by apply LeafNode_erase_keeps_wf.
  - intros nd key split_page Hwf Hsp Hnot. split.
    + intros nd' Hins. destruct (decide (count nd = 0)) as [Hz|Hnz].
      * rewrite (InnerNode_insert_split_empty_keys _ _ _ _ _ _ Hz Hins).
        by intros [|?] ? ? ? ? ?.
      * destruct (InnerNode_insert_split_spec PageSize NDEBUG nd key split_page)
          as (nd2 & Hins2 & _ & _ & _ & Hk & _); [done|done|lia|done|done|].
        simplify_eq. rewrite Hk. apply strictly_increasing_ins; [|done].
        by destruct Hwf as (_ & _ & ?).
    + intros Hone.
      destruct (InnerNode_insert_split_spec PageSize NDEBUG nd key split_page)
        as (nd2 & Hins2 & _ & Hc & Hsz & Hk & _); [done|done|lia|done|done|].
      exists nd2. split; [done|]. destruct Hwf as (_ & Hcnt & Hs).
      apply Nat.ltb_lt in Hsp.
      split; [done|]. split; [lia|]. rewrite Hk. by apply strictly_increasing_ins.
  - intros nd buffer l r sep (Hsz & Hc & Hs) Hb Hsplit.
    destruct (decide (count nd = 0)) as [Hz|Hnz].
    { by rewrite LeafNode_split_empty in Hsplit. }
    assert (Hhalf : 2 * (count nd / 2) ≤ count nd) by apply Nat.Div0.mul_div_le.
    destruct (LeafNode_split_spec _ nd buffer Hsz Hb) as
      (l2 & r2 & sep2 & Hsplit2 & _ & _ & Hcl & Hcr & Hsl & Hsr & Hkl & Hkr & _); [lia|].
    simplify_eq. split.
    + split; [done|]. split; [lia|]. rewrite Hkl. by apply strictly_increasing_take.
    + split; [done|]. split; [lia|]. rewrite Hkr. by apply strictly_increasing_drop.
  - intros nd buffer l r sep (Hsz & Hc & Hs) Hb Hsplit.
    destruct (decide (count nd = 0)) as [Hz|Hnz].
    { by rewrite InnerNode_split_empty in Hsplit. }
    assert (Hhalf : 2 * (count nd / 2) ≤ count nd) by apply Nat.Div0.mul_div_le.
    destruct (InnerNode_split_spec _ nd buffer Hsz Hb) as
      (l2 & r2 & sep2 & Hsplit2 & _ & _ & Hcl & Hcr & Hsl & Hsr & Hkl & Hkr & _); [lia|].
    simplify_eq. split.
    + split; [done|]. split; [lia|]. rewrite Hkl. by apply strictly_increasing_take.
    + split; [done|]. split; [lia|]. rewrite Hkr. by apply strictly_increasing_drop.
Qed.

Lemma key_order_invariant_witness :
  LeafNode_kCapacity 68 < 2 ^ 16 ∧ InnerNode_kCapacity 68 < 2 ^ 16 ∧
  key_order_kept 68 false.
Proof.
  assert (Hl : LeafNode_kCapacity 68 < 2 ^ 16).
  { rewrite pow2_16. unfold LeafNode_kCapacity.
    change ((68 - 4) / (8 + 8)) with 4. lia. }
  assert (Hi : InnerNode_kCapacity 68 < 2 ^ 16).
  { rewrite pow2_16. unfold InnerNode_kCapacity.
    change ((68 - 4) / (8 + 8)) with 4. lia. }
  split; [exact Hl|]. split; [exact Hi|].
  exact (key_order_invariant 68 false Hl Hi).
Defined.

(** * The specification's statements about the buffer manager *)

Lemma bump_malloc_nonnull h : bump_malloc h ≠ 0%Z.
Proof.
  unfold bump_malloc.
  assert (0 ≤ map_fold (λ (a : Z) (_ : list Z) (m : Z), Z.max a m) 0 h)%Z; [|lia].
  apply (map_fold_weak_ind (λ r _, 0 ≤ r)%Z); [done|]. intros. lia.
Qed.

(** C8 (as stated, refuted): with room for one page, fixing and unfixing
    page 0 and then fixing page 1 evicts page 0; its frame is then
    [NOT_LOADED] and its [data] is still the address of the freed buffer,
    not null. *)
Lemma evicted_frame_keeps_data_pointer :
  ∃ bm f, bm_reachable false bump_malloc bm ∧
    pageTable bm !! 0%Z = Some f ∧ pageState f = NOT_LOADED ∧ data f ≠ 0%Z.
Proof.
  eexists _, _. split.
  - eapply reach_fix with (page_id := 1%Z) (exclusive := false).
    + eapply reach_unfix with (page := 0%Z) (is_dirty := true).
      * eapply reach_fix with (page_id := 0%Z) (exclusive := true).
        -- apply (reach_new _ _ 4 1).
        -- vm_compute. reflexivity.
      * vm_compute. reflexivity.
    + vm_compute. reflexivity.
  - vm_compute. split; [reflexivity|]. split; [reflexivity|]. discriminate.
Qed.

(** C8 (amended): with a [malloc] that never returns null, in every
    state of a run of construction, [fix_page] (returning or throwing,
    loads and evictions included) and [unfix_page]: no frame is in
    [LOADING]; a frame in [IN_FIFO] or [IN_LRU] has a non-null [data]; and
    the [data] of a frame is null exactly when its page has never been
    loaded.  So a frame that was never loaded has the null pointer its
    constructor gave it, and a frame that was loaded and evicted is
    [NOT_LOADED] with the address of the freed buffer. *)
Theorem frame_data_pointer (NDEBUG : bool) (malloc : gmap Z (list Z) → Z)
    (bm : BufferManager) (hist : list BufferManager) :
  (∀ h, malloc h ≠ 0%Z) →
  bm_run NDEBUG malloc (bm :: hist) →
  ∀ p f, pageTable bm !! p = Some f →
    pageState f ≠ LOADING ∧
    (pageState f = IN_FIFO ∨ pageState f = IN_LRU → data f ≠ 0%Z) ∧
    (data f = 0%Z ↔ ¬ was_loaded (bm :: hist) p).
Proof.
  intros Hm Hrun p f Hp.
  destruct (bm_run_inv NDEBUG malloc Hm bm hist Hrun) as (Hn & Hnz & Hwas).
  split; [by apply (Hn p f)|]. split.
  - intros Hres. destruct (Hwas p) as (g & Hg & Hd); [|congruence].
    exists bm, f. split; [by left|done].
  - split.
    + intros Hz (g & Hg & Hd)%Hwas. congruence.
    + intros Hnot. destruct (decide (data f = 0%Z)) as [|Hd]; [done|].
      destruct Hnot. by apply (Hnz p f).
Qed.

Lemma bm_after_evict_run :
  bm_run false bump_malloc
    [bm_after_evict; bm_after_unfix; bm_after_fix; BufferManager_new 4 1].
Proof.
  eapply run_fix with (page_id := 1%Z) (exclusive := false) (frame := 1%Z).
  - eapply run_unfix with (page := 0%Z) (is_dirty := true).
    + eapply run_fix with (page_id := 0%Z) (exclusive := true) (frame := 0%Z).
      * apply (run_new _ _ 4 1).
      * vm_compute. reflexivity.
    + vm_compute. reflexivity.
  - vm_compute. reflexivity.
Defined.

Lemma frame_data_pointer_witness :
  (∀ h, bump_malloc h ≠ 0%Z) ∧
  bm_run false bump_malloc
    [bm_after_evict; bm_after_unfix; bm_after_fix; BufferManager_new 4 1] ∧
  ∀ p f, pageTable bm_after_evict !! p = Some f →
    pageState f ≠ LOADING ∧
    (pageState f = IN_FIFO ∨ pageState f = IN_LRU → data f ≠ 0%Z) ∧
    (data f = 0%Z ↔
     ¬ was_loaded [bm_after_evict; bm_after_unfix; bm_after_fix;
                   BufferManager_new 4 1] p).
Proof.
  split; [exact bump_malloc_nonnull|]. split; [exact bm_after_evict_run|].
  exact (frame_data_pointer false bump_malloc bm_after_evict
           [bm_after_unfix; bm_after_fix; BufferManager_new 4 1]
           bump_malloc_nonnull bm_after_evict_run).
Defined.

Lemma fix_page_not_loaded_eq NDEBUG malloc bm p exclusive l :
  (∀ h, malloc h ≠ 0%Z) → queues_ok bm → not_loaded bm p →
  acquire exclusive (pageLatch (frame_of bm p)) = Some l →
  fix_page NDEBUG malloc p exclusive bm = fix_page_not_loaded malloc bm p l.
Proof.
  intros Hm Hq Hnl Hacq.
  pose (res := fix_page_not_loaded malloc bm p l).
  assert (Htwp : twp (fix_page NDEBUG malloc p exclusive)
            (λ a s, res = Ok a s) (λ e s, res = Throw e s) bm).
  { eapply fix_page_not_loaded_twp; try done.
    - intros Hlt. unfold res, fix_page_not_loaded.
      apply Nat.ltb_lt in Hlt. by rewrite Hlt.
    - intros Hge. unfold res, fix_page_not_loaded.
      apply Nat.ltb_ge in Hge. rewrite Hge.
      destruct (first_evictable bm (fifoList bm)) as [j|].
      + intros q fq Hj Hfq _ _. by rewrite Hj, Hfq.
      + destruct (first_evictable bm (lruList bm)) as [j|]; [|done].
        intros q fq Hj Hfq _ _. by rewrite Hj, Hfq. }
  apply twp_eq in Htwp as [(a & s & -> & Hres)|(e & s & -> & Hres)]; by rewrite <- Hres.
Qed.

(** C7: [fix_page] of a page that is not loaded throws
    [buffer_full_error] exactly when the two queues hold [pageCount] frames
    and the page latch of none of them can be acquired without blocking.
    When it throws, the state is the one before the call but for the frame
    of the page, which exists with its latch as before: the caller holds
    nothing.  Otherwise the fix succeeds, and if the queues were full the
    frame evicted is the first one, in the order FIFO front to back then
    LRU front to back, whose latch [try_lock] acquires, flushed first if
    dirty. *)
Theorem fix_page_buffer_full (NDEBUG : bool) (malloc : gmap Z (list Z) → Z)
    (bm : BufferManager) (p : Z) (exclusive : bool) (l : Latch) :
  (∀ h, malloc h ≠ 0%Z) → queues_ok bm → not_loaded bm p →
  acquire exclusive (pageLatch (frame_of bm p)) = Some l →
  fix_page NDEBUG malloc p exclusive bm = fix_page_not_loaded malloc bm p l ∧
  ((∃ e bm', fix_page NDEBUG malloc p exclusive bm = Throw e bm') ↔
   pageCount bm ≤ length (fifoList bm ++ lruList bm) ∧
   ∀ q, q ∈ fifoList bm ++ lruList bm → evictable bm q = false) ∧
  (∀ e bm', fix_page NDEBUG malloc p exclusive bm = Throw e bm' →
     e = buffer_full_error ∧ bm' = with_frame p (frame_of bm p) bm ∧
     pageLatch <$> pageTable bm' !! p = Some (pageLatch (frame_of bm p))) ∧
  (pageCount bm ≤ length (fifoList bm ++ lruList bm) →
   ∀ j, first_evictable bm (fifoList bm ++ lruList bm) = Some j →
     ∃ q fq bm', (fifoList bm ++ lruList bm) !! j = Some q ∧
       pageTable bm !! q = Some fq ∧ pageLatch fq = Unlocked ∧
       (∀ i q', i < j → (fifoList bm ++ lruList bm) !! i = Some q' →
                evictable bm q' = false) ∧
       fix_page NDEBUG malloc p exclusive bm = Ok p bm' ∧
       pageTable bm' !! q =
         Some (mkFrame (pid fq) NOT_LOADED Unlocked (loadingLatch fq) false (data fq)) ∧
       fifoList bm' ++ lruList bm' ≡ₚ delete j (fifoList bm ++ lruList bm) ++ [p]).
Proof.
  intros Hm Hq Hnl Hacq.
  pose proof (fix_page_not_loaded_eq NDEBUG malloc bm p exclusive l Hm Hq Hnl Hacq) as Heq.
  destruct (not_loaded_not_queued bm p Hq Hnl) as [Hpf Hpl].
  assert (Hex : ∀ q, q ∈ fifoList bm ++ lruList bm → is_Some (pageTable bm !! q)).
  { destruct Hq as [Hf Hl]. intros q [Hin|Hin]%elem_of_app.
    - destruct (Hf q Hin) as (f & -> & _). by eexists.
    - destruct (Hl q Hin) as (f & -> & _). by eexists. }
  split; [done|]. rewrite Heq. unfold fix_page_not_loaded. rewrite length_app.
  rewrite first_evictable_app.
  destruct (Nat.ltb_spec (length (fifoList bm) + length (lruList bm)) (pageCount bm))
    as [Hlt|Hge].
  { split; [|split].
    - split; [by intros (? & ? & ?)|]. intros [? _]. lia.
    - by intros ? ? ?.
    - intros ?. lia. }
  destruct (first_evictable bm (fifoList bm)) as [j|] eqn:Hj.
  - destruct (first_evictable_Some _ _ _ Hj) as (q & Hqj & Hev & Hmin).
    destruct (Hex q) as [fq Hfq]; [apply elem_of_app; left; by eapply list_elem_of_lookup_2|].
    rewrite Hqj, Hfq. split; [|split].
    + split; [by intros (? & ? & ?)|]. intros [_ Hnone].
      rewrite Hnone in Hev; [done|]. apply elem_of_app. left.
      by eapply list_elem_of_lookup_2.
    + by intros ? ? ?.
    + intros _ j' [= <-]. exists q, fq. eexists.
      pose proof (lookup_lt_Some _ _ _ Hqj) as Hjlt.
      assert (q ≠ p) by (intros ->; apply Hpf; by eapply list_elem_of_lookup_2).
      split; [by rewrite lookup_app_l|]. split; [done|].
      split. { unfold evictable in Hev. rewrite Hfq in Hev. by apply bool_decide_eq_true in Hev. }
      split. { intros i q' Hi Hq'. rewrite lookup_app_l in Hq' by lia. by eapply Hmin. }
      split; [done|]. split.
      * cbn. rewrite lookup_insert_ne by done. by rewrite lookup_insert_eq.
      * cbn. rewrite delete_take_drop, (delete_take_drop (_ ++ _)).
        rewrite take_app_le, drop_app_le by lia.
        rewrite <- !(assoc_L (++)). do 2 apply Permutation_app_head.
        apply Permutation_app_comm.
  - destruct (first_evictable bm (lruList bm)) as [j|] eqn:Hj'; cbn [fmap option_fmap option_map].
    + destruct (first_evictable_Some _ _ _ Hj') as (q & Hqj & Hev & Hmin).
      destruct (Hex q) as [fq Hfq]; [apply elem_of_app; right; by eapply list_elem_of_lookup_2|].
      rewrite Hqj, Hfq. split; [|split].
      * split; [by intros (? & ? & ?)|]. intros [_ Hnone].
        rewrite Hnone in Hev; [done|]. apply elem_of_app. right.
        by eapply list_elem_of_lookup_2.
      * by intros ? ? ?.
      * intros _ j' [= <-]. exists q, fq. eexists.
        assert (q ≠ p) by (intros ->; apply Hpl; by eapply list_elem_of_lookup_2).
        split. { rewrite lookup_app_r by lia. rewrite <- Hqj. f_equal. lia. }
        split; [done|].
        split. { unfold evictable in Hev. rewrite Hfq in Hev. by apply bool_decide_eq_true in Hev. }
        split.
        { intros i q' Hi Hq'.
          destruct (decide (i < length (fifoList bm))) as [Hlt|Hnlt].
          - rewrite lookup_app_l in Hq' by done.
            eapply first_evictable_None; [exact Hj|]. by eapply list_elem_of_lookup_2.
          - rewrite lookup_app_r in Hq' by lia. eapply Hmin; [|exact Hq']. lia. }
        split; [done|]. split.
        -- cbn. rewrite lookup_insert_ne by done. by rewrite lookup_insert_eq.
        -- cbn. rewrite (delete_take_drop (_ ++ _)).
           rewrite take_app_ge, drop_app_ge by lia.
           replace (length (fifoList bm) + j - length (fifoList bm)) with j by lia.
           replace (S (length (fifoList bm) + j) - length (fifoList bm)) with (S j) by lia.
           rewrite delete_take_drop.
           rewrite <- !(assoc_L (++)). apply Permutation_app_head.
           rewrite (assoc_L (++) (take j _)). apply Permutation_app_comm.
    + split; [|split].
      * split; [|by eauto]. intros _. split; [lia|].
        intros q [Hin|Hin]%elem_of_app;
          [eapply first_evictable_None; [exact Hj|exact Hin]
          |eapply first_evictable_None; [exact Hj'|exact Hin]].
      * intros e bm' [= <- <-]. split; [done|]. split; [done|].
        cbn. by rewrite lookup_insert_eq.
      * intros _ j. done.
Qed.

(** One frame, page 7 loaded into it and still fixed exclusively. *)
Definition bm_full : BufferManager :=
  match fix_page false bump_malloc 7%Z true (BufferManager_new 4 1) with
  | Ok _ bm => bm
  | _ => BufferManager_new 4 1
  end.

Lemma bm_full_queues_ok : queues_ok bm_full.
Proof.
  split; intros q Hq.
  - change (fifoList bm_full) with [7%Z] in Hq.
    apply list_elem_of_singleton in Hq as ->.
    eexists. split; [vm_compute; reflexivity|].
    split; [reflexivity|]. split; [by vm_compute|].
    split; eexists; vm_compute; reflexivity.
  - change (lruList bm_full) with (@nil Z) in Hq. by apply elem_of_nil in Hq.
Qed.

Lemma fix_page_buffer_full_witness :
  (∀ h, bump_malloc h ≠ 0%Z) ∧ queues_ok bm_full ∧ not_loaded bm_full 1%Z ∧
  acquire false (pageLatch (frame_of bm_full 1%Z)) = Some (SharedBy 0) ∧
  fix_page false bump_malloc 1%Z false bm_full =
    Throw buffer_full_error (with_frame 1%Z (BufferFrame_new 1%Z) bm_full).
Proof.
  assert (Hnl : not_loaded bm_full 1%Z) by (vm_compute; exact I).
  assert (Hacq : acquire false (pageLatch (frame_of bm_full 1%Z)) = Some (SharedBy 0))
    by (vm_compute; reflexivity).
  split; [exact bump_malloc_nonnull|]. split; [exact bm_full_queues_ok|].
  split; [exact Hnl|]. split; [exact Hacq|].
  destruct (fix_page_buffer_full false bump_malloc bm_full 1%Z false (SharedBy 0)
              bump_malloc_nonnull bm_full_queues_ok Hnl Hacq)
    as (_ & Hiff & Hthrow & _).
  destruct (proj2 Hiff) as (e & bm' & Hfix).
  - split; [vm_compute; lia|].
    intros q Hq. change (fifoList bm_full ++ lruList bm_full) with [7%Z] in Hq.
    apply list_elem_of_singleton in Hq as ->. vm_compute. reflexivity.
  - destruct (Hthrow e bm' Hfix) as (-> & -> & _). exact Hfix.
Defined.

(** * The specification's statements about the tree *)

(** C1: after any sequence of [insert] and [erase] calls on a new tree,
    [lookup(k)] returns the value of the last [insert(k, v)] when no
    [erase(k)] came after it, and nothing when [k] was never inserted or
    was erased last.  The node capacity is at least 4 and fits [uint16_t],
    and the sequence is short enough for the 64-bit node counter. *)
Theorem BTree_lookup_last_write (PageSize : nat) (NDEBUG : bool) (seg : Z)
    (ops : list Op) (fuel : nat) :
  4 ≤ InnerNode_kCapacity PageSize →
  InnerNode_kCapacity PageSize < 2 ^ 16 →
  (2 * Z.of_nat (length ops) + 1 < 2 ^ 64)%Z →
  enough_fuel ≤ fuel →
  ∃ t0 t,
    BTree_new PageSize seg = Some t0 ∧
    run_ops PageSize NDEBUG fuel ops t0 = Some t ∧
    ∀ k, ∃ t', BTree_lookup PageSize NDEBUG fuel k t = Some (last_write ops k, t').
Proof.
  intros Hge Hlt Hlen Hfuel.
  destruct (reachable_tree PageSize NDEBUG Hge Hlt seg ops fuel Hlen Hfuel)
    as (t0 & t & Hnew & Hrun & Hinv & Hm).
  exists t0, t. split; [done|]. split; [done|]. intros k.
  destruct (BTree_lookup_spec PageSize NDEBUG _ t _ fuel k Hinv Hm ltac:(lia) Hfuel)
    as (t' & Hl & _).
  exists t'. by rewrite <- last_write_model.
Qed.

Lemma kCapacity_68 : InnerNode_kCapacity 68 = 4.
Proof. reflexivity. Qed.

Lemma BTree_lookup_last_write_witness :
  ∃ t0 t,
    BTree_new 68 0 = Some t0 ∧
    run_ops 68 false enough_fuel three_ops t0 = Some t ∧
    ∀ k, ∃ t', BTree_lookup 68 false enough_fuel k t
               = Some (last_write three_ops k, t').
Proof.
  apply (BTree_lookup_last_write 68 false 0 three_ops enough_fuel).
  - rewrite kCapacity_68. lia.
  - rewrite kCapacity_68, pow2_16. lia.
  - cbn. lia.
  - reflexivity.
Defined.

(** C9 (as stated, refuted): in the tree of two levels that the inserts
    of 1 to 5 leave with capacity 4, the first pass of [insert(6, 60)]
    fixes the root, an inner node of level 1 and the parent of the leaf,
    in shared mode; only the leaf is fixed exclusively. *)
Lemma insert_fixes_leaf_parent_shared :
  (t0 ← BTree_new 68 0;
   t ← run_ops 68 false enough_fuel five_keys t0;
   '(r, t') ← BTree_insert_pass 68 false enough_fuel 6 60 false t;
   Some (root t, level (page 68 t (root t)), level (page 68 t 1),
         r, drop (length (trace t)) (trace t')))
  = Some (2%Z, 1, 0, Done (),
          [Fix 2 false; Fix 1 true; Unfix 1 true; Unfix 2 false]).
Proof. vm_compute. reflexivity. Qed.

(** C9 (amended): in the first pass of [insert], on any tree that a
    sequence of operations has made, [fix_page] asks for exclusive mode
    exactly when the page is a leaf; every inner node, the parent of the
    leaf included, is fixed shared.  The first call fixes the root. *)
Theorem insert_first_pass_modes (PageSize : nat) (NDEBUG : bool) (seg : Z)
    (ops : list Op) (fuel : nat) (key value : Z) :
  4 ≤ InnerNode_kCapacity PageSize →
  InnerNode_kCapacity PageSize < 2 ^ 16 →
  (2 * Z.of_nat (length ops) + 1 < 2 ^ 64)%Z →
  enough_fuel ≤ fuel →
  ∃ t0 t r t' evs,
    BTree_new PageSize seg = Some t0 ∧
    run_ops PageSize NDEBUG fuel ops t0 = Some t ∧
    BTree_insert_pass PageSize NDEBUG fuel key value false t = Some (r, t') ∧
    trace t' = trace t ++ evs ∧
    (∃ rest, evs = Fix (root t) (is_leaf (page PageSize t (root t))) :: rest) ∧
    ∀ p x, Fix p x ∈ evs →
      x = is_leaf (page PageSize t p) ∧
      (1 ≤ level (page PageSize t p) → x = false).
Proof.
  intros Hge Hlt Hlen Hfuel.
  destruct (reachable_tree PageSize NDEBUG Hge Hlt seg ops fuel Hlen Hfuel)
    as (t0 & t & Hnew & Hrun & Hinv & Hm).
  destruct (insert_first_pass PageSize NDEBUG Hlt _ t _ fuel key value Hinv Hm
              ltac:(lia) Hfuel) as (r & t' & evs & Hpass & Htr & Hev & Hhd).
  exists t0, t, r, t', evs. do 5 (split; [done|]).
  intros p x Hin. rewrite Forall_forall in Hev. specialize (Hev _ Hin).
  cbn in Hev. split; [done|]. intros Hl. subst x. unfold is_leaf.
  apply Nat.eqb_neq. lia.
Qed.

Lemma insert_first_pass_modes_witness :
  ∃ t0 t r t' evs,
    BTree_new 68 0 = Some t0 ∧
    run_ops 68 false enough_fuel five_keys t0 = Some t ∧
    BTree_insert_pass 68 false enough_fuel 6 60 false t = Some (r, t') ∧
    trace t' = trace t ++ evs ∧
    (∃ rest, evs = Fix (root t) (is_leaf (page 68 t (root t))) :: rest) ∧
    ∀ p x, Fix p x ∈ evs →
      x = is_leaf (page 68 t p) ∧ (1 ≤ level (page 68 t p) → x = false).
Proof.
  apply (insert_first_pass_modes 68 false 0 five_keys enough_fuel 6 60).
  - rewrite kCapacity_68. lia.
  - rewrite kCapacity_68, pow2_16. lia.
  - cbn. lia.
  - reflexivity.
Defined.

(** C10: when the leaf that [key] belongs to is full and holds [key],
    [insert(key, value)] still splits before it replaces the value.  The
    first pass writes no page and asks for the exclusive pass; the
    exclusive pass calls [create_new_node], so the node counter grows,
    splits, and leaves a tree that still maps every key as before.  The
    call as a whole ends with a larger node counter and a tree that maps
    [key] to [value] and every other key as before; and
    [LeafNode::insert] of a key that a leaf with space holds leaves the
    count and the keys of the leaf as they are. *)
Theorem insert_present_key_full_leaf (PageSize : nat) (NDEBUG : bool) (seg : Z)
    (ops : list Op) (fuel : nat) (key value : Z) (t0 t : BTree) :
  4 ≤ InnerNode_kCapacity PageSize →
  InnerNode_kCapacity PageSize < 2 ^ 16 →
  (2 * Z.of_nat (length ops) + 3 < 2 ^ 64)%Z →
  enough_fuel ≤ fuel →
  BTree_new PageSize seg = Some t0 →
  run_ops PageSize NDEBUG fuel ops t0 = Some t →
  count (page PageSize t (leaf_of (page PageSize t) key (pred (treeHeight t)) (root t)))
    = InnerNode_kCapacity PageSize →
  key ∈ lkeys (page PageSize t
                 (leaf_of (page PageSize t) key (pred (treeHeight t)) (root t))) →
  ∃ t1 t2 t',
    BTree_insert_pass PageSize NDEBUG fuel key value false t = Some (Restart true, t1) ∧
    pages t1 = pages t ∧ nodeCount t1 = nodeCount t ∧
    BTree_insert_pass PageSize NDEBUG fuel key value true t1 = Some (Restart false, t2) ∧
    (nodeCount t < nodeCount t2)%Z ∧
    (∀ k, ∃ t'', BTree_lookup PageSize NDEBUG fuel k t2
                 = Some (last_write ops k, t'')) ∧
    BTree_insert PageSize NDEBUG fuel key value t = Some t' ∧
    (nodeCount t < nodeCount t')%Z ∧
    is_Some (last_write ops key) ∧
    (∀ k, ∃ t'', BTree_lookup PageSize NDEBUG fuel k t'
                 = Some (if decide (k = key) then Some value else last_write ops k,
                         t'')) ∧
    (∀ nd, leaf_wf (InnerNode_kCapacity PageSize) nd →
           count nd < InnerNode_kCapacity PageSize → key ∈ lkeys nd →
           ∃ nd', LeafNode_insert PageSize NDEBUG nd key value = Some nd' ∧
                  count nd' = count nd ∧ lkeys nd' = lkeys nd).
Proof.
  intros Hge Hlt Hlen Hfuel Hnew Hrun Hfull Hin.
  destruct (reachable_tree PageSize NDEBUG Hge Hlt seg ops fuel ltac:(lia) Hfuel)
    as (t0' & t1 & Hnew' & Hrun' & Hinv & Hm).
  rewrite Hnew in Hnew'. injection Hnew' as <-.
  rewrite Hrun in Hrun'. injection Hrun' as <-.
  set (B := (1 + 2 * Z.of_nat (length ops))%Z) in *.
  set (q := leaf_of (page PageSize t) key (pred (treeHeight t)) (root t)) in *.
  pose proof (inv_wf _ _ _ Hinv) as Hwf.
  destruct (path_to_leaf_of PageSize (page PageSize t) key _ None None None (root t) Hwf)
    as (lo' & hi' & qp & Hp). fold q in Hp.
  pose proof (tree_inv_height PageSize B t Hinv ltac:(lia)) as Hh64.
  destruct (BTree_insert_spec PageSize NDEBUG Hge Hlt B t _ fuel key value Hinv Hm
              ltac:(lia) Hfuel) as (t' & Hins & Hinv' & Hm' & _ & _ & Hgrow).
  destruct (insert_full_passes PageSize NDEBUG Hge Hlt B t _ fuel key value Hinv Hm
              ltac:(lia) Hfuel) as (t1 & t2 & Hp1 & Hpg1 & Hn1 & Hp2 & Hinv2 & Hm2 & Hn2).
  { fold q. lia. }
  exists t1, t2, t'. do 5 (split; [done|]). split.
  { intros k.
    destruct (BTree_lookup_spec PageSize NDEBUG _ t2 _ fuel k Hinv2 Hm2 ltac:(lia) Hfuel)
      as (t'' & Hl & _).
    exists t''. by rewrite <- last_write_model. }
  split; [done|]. split.
  { apply Hgrow. eapply (phi_full_pos PageSize); [exact Hp|lia|lia]. }
  destruct (on_path_wf _ _ _ _ _ _ _ _ _ _ _ _ _ _ Hp Hwf I I) as ((_ & Hlf & _) & _).
  split.
  { apply list_elem_of_lookup_1 in Hin as [i Hi].
    destruct (leaf_wf_lengths _ _ Hlf) as [Hlk Hlv].
    destruct (lookup_lt_is_Some_2 (lvals (page PageSize t q)) i) as [v Hv].
    { apply lookup_lt_Some in Hi. lia. }
    exists v. rewrite <- last_write_model. apply Hm.
    eapply on_path_holds_sub; [exact Hp|exact Hwf|]. by exists i. }
  split.
  { intros k.
    destruct (BTree_lookup_spec PageSize NDEBUG _ t' _ fuel k Hinv' Hm' ltac:(lia) Hfuel)
      as (t'' & Hl & _).
    exists t''. rewrite Hl. f_equal. f_equal.
    rewrite lookup_insert. case_decide; subst.
    - by rewrite decide_True.
    - rewrite decide_False by done. apply last_write_model. }
  intros nd Hnd Hsp Hk.
  destruct (LeafNode_insert_present PageSize NDEBUG nd key value Hnd) as
    (nd' & Hi & _ & Hc & _ & Hks & _); [|done|].
  { right. by apply Nat.ltb_lt. }
  by exists nd'.
Qed.

Lemma insert_present_key_full_leaf_witness :
  ∃ t1 t2 t',
    BTree_insert_pass 68 false enough_fuel 2 99 false tree_one_full_leaf
      = Some (Restart true, t1) ∧
    pages t1 = pages tree_one_full_leaf ∧
    nodeCount t1 = nodeCount tree_one_full_leaf ∧
    BTree_insert_pass 68 false enough_fuel 2 99 true t1 = Some (Restart false, t2) ∧
    (nodeCount tree_one_full_leaf < nodeCount t2)%Z ∧
    (∀ k, ∃ t'', BTree_lookup 68 false enough_fuel k t2
                 = Some (last_write four_keys k, t'')) ∧
    BTree_insert 68 false enough_fuel 2 99 tree_one_full_leaf = Some t' ∧
    (nodeCount tree_one_full_leaf < nodeCount t')%Z ∧
    is_Some (last_write four_keys 2) ∧
    (∀ k, ∃ t'', BTree_lookup 68 false enough_fuel k t'
                 = Some (if decide (k = 2%Z) then Some 99%Z else last_write four_keys k,
                         t'')) ∧
    (∀ nd, leaf_wf (InnerNode_kCapacity 68) nd →
           count nd < InnerNode_kCapacity 68 → 2%Z ∈ lkeys nd →
           ∃ nd', LeafNode_insert 68 false nd 2 99 = Some nd' ∧
                  count nd' = count nd ∧ lkeys nd' = lkeys nd).
Proof.
  apply (insert_present_key_full_leaf 68 false 0 four_keys enough_fuel 2 99
           tree_new_0 tree_one_full_leaf).
  - rewrite kCapacity_68. lia.
  - rewrite kCapacity_68, pow2_16. lia.
  - cbn. lia.
  - reflexivity.
  - vm_compute. reflexivity.
  - vm_compute. reflexivity.
  - vm_compute. reflexivity.
  - vm_compute. apply list_elem_of_further, list_elem_of_here.
Defined.
(** * More of the nodes and of the tree *)

(** [LeafNode::insert] on a leaf with space, seen as a map: the leaf
    then maps [key] to [value] and every other key as before, is still a
    leaf in order, and has one entry more exactly when [key] was new.
    [LeafNode::lower_bound] then finds [key] where it was put. *)
Theorem LeafNode_insert_as_map (PageSize : nat) (NDEBUG : bool) (nd : Node)
    (key value : Z) :
  LeafNode_kCapacity PageSize < 2 ^ 16 →
  leaf_wf (LeafNode_kCapacity PageSize) nd →
  LeafNode_has_space PageSize nd = true →
  ∃ nd',
    LeafNode_insert PageSize NDEBUG nd key value = Some nd' ∧
    leaf_wf (LeafNode_kCapacity PageSize) nd' ∧
    level nd' = level nd ∧
    count nd' = (if bool_decide (key ∈ lkeys nd) then count nd else S (count nd)) ∧
    (∀ k v, (∃ i, lkeys nd' !! i = Some k ∧ lvals nd' !! i = Some v) ↔
            (k = key ∧ v = value) ∨
            (k ≠ key ∧ ∃ i, lkeys nd !! i = Some k ∧ lvals nd !! i = Some v)) ∧
    LeafNode_lower_bound nd' key = Some (ref_lb (lkeys nd) key, true) ∧
    slots nd' !! ref_lb (lkeys nd) key = Some value.
Proof.
  intros Hcap Hwf Hsp. pose proof Hwf as (Hsz & Hc & Hs).
  destruct (leaf_wf_lengths _ _ Hwf) as [Hlk Hlv].
  pose proof (ref_lb_le (lkeys nd) key) as Hle.
  assert (Hsp' : count nd < LeafNode_kCapacity PageSize) by by apply Nat.ltb_lt.
  destruct (decide (key ∈ lkeys nd)) as [Hin|Hnot].
  - destruct (LeafNode_insert_present PageSize NDEBUG nd key value Hwf
                (or_intror Hsp) Hin) as (nd' & He & Hl' & Hc' & Hsz' & Hk' & Hv').
    assert (Hwf' : leaf_wf (LeafNode_kCapacity PageSize) nd').
    { split; [done|]. split; [lia|]. by rewrite Hk'. }
    pose proof (proj2 (ref_lb_found _ key Hs) Hin) as Hr.
    pose proof (lookup_lt_Some _ _ _ Hr) as Hlt.
    exists nd'. split; [done|]. split; [done|]. split; [done|].
    split; [by rewrite bool_decide_eq_true_2|].
    split. { intros k v. rewrite Hk', Hv'. apply pairs_upd; [done|lia|done]. }
    split.
    + rewrite LeafNode_lower_bound_spec; [|destruct Hsz'; lia|by rewrite Hk'].
      rewrite Hk'. by rewrite bool_decide_eq_true_2.
    + assert (Hv2 : lvals nd' !! ref_lb (lkeys nd) key = Some value).
      { rewrite Hv'. rewrite list_lookup_insert. rewrite decide_True; [done|].
        split; [done|lia]. }
      unfold LeafNode_get_value_vector in Hv2.
      by apply lookup_take_Some in Hv2 as [? _].
  - destruct (LeafNode_insert_absent PageSize NDEBUG nd key value Hwf Hcap Hsp Hnot)
      as (nd' & He & Hl' & Hc' & Hsz' & Hk' & Hv').
    pose proof (strictly_increasing_ins _ key Hs Hnot) as Hs'.
    assert (Hwf' : leaf_wf (LeafNode_kCapacity PageSize) nd').
    { split; [done|]. split; [lia|]. by rewrite Hk'. }
    exists nd'. split; [done|]. split; [done|]. split; [done|].
    split; [by rewrite bool_decide_eq_false_2|].
    split. { intros k v. rewrite Hk', Hv'. apply pairs_ins; [done|lia|done]. }
    assert (Hpos : ref_lb (lkeys nd') key = ref_lb (lkeys nd) key).
    { rewrite Hk'. rewrite (ref_lb_list_ins _ key key _ Hs eq_refl Hs').
      by rewrite bool_decide_eq_true_2 by lia. }
    split.
    + rewrite LeafNode_lower_bound_spec; [|destruct Hsz'; lia|by rewrite Hk'].
      rewrite Hpos. rewrite bool_decide_eq_true_2; [done|].
      rewrite Hk'. eapply list_elem_of_lookup_2. by apply list_ins_lookup_eq.
    + assert (Hv2 : lvals nd' !! ref_lb (lkeys nd) key = Some value).
      { rewrite Hv'. apply list_ins_lookup_eq. lia. }
      unfold LeafNode_get_value_vector in Hv2.
      by apply lookup_take_Some in Hv2 as [? _].
Qed.

Lemma strictly_increasing_5_10 : strictly_increasing [5; 10]%Z.
Proof. apply increasingb_sound. reflexivity. Qed.

Lemma leaf_wf_leaf2 : leaf_wf 4 leaf2.
Proof. split; [done|]. split; [cbn; lia|exact strictly_increasing_5_10]. Qed.

Lemma lcap_68_lt : LeafNode_kCapacity 68 < 2 ^ 16.
Proof. rewrite pow2_16. change (LeafNode_kCapacity 68) with 4. lia. Qed.

Lemma LeafNode_insert_as_map_witness :
  ∃ nd',
    LeafNode_insert 68 false leaf2 7 70 = Some nd' ∧
    leaf_wf (LeafNode_kCapacity 68) nd' ∧
    level nd' = level leaf2 ∧
    count nd' = (if bool_decide (7%Z ∈ lkeys leaf2) then count leaf2
                 else S (count leaf2)) ∧
    (∀ k v, (∃ i, lkeys nd' !! i = Some k ∧ lvals nd' !! i = Some v) ↔
            (k = 7%Z ∧ v = 70%Z) ∨
            (k ≠ 7%Z ∧ ∃ i, lkeys leaf2 !! i = Some k ∧ lvals leaf2 !! i = Some v)) ∧
    LeafNode_lower_bound nd' 7 = Some (ref_lb (lkeys leaf2) 7%Z, true) ∧
    slots nd' !! ref_lb (lkeys leaf2) 7%Z = Some 70%Z.
Proof.
  apply (LeafNode_insert_as_map 68 false leaf2 7 70).
  - exact lcap_68_lt.
  - exact leaf_wf_leaf2.
  - reflexivity.
Defined.

(** [LeafNode::erase], seen as a map: it returns whether the leaf held
    [key]; the leaf then holds no [key] and every other key as before, and
    is still a leaf in order.  A leaf that did not hold [key] is left as
    it is. *)
Theorem LeafNode_erase_as_map (PageSize : nat) (NDEBUG : bool) (nd : Node) (key : Z) :
  LeafNode_kCapacity PageSize < 2 ^ 16 →
  leaf_wf (LeafNode_kCapacity PageSize) nd →
  ∃ nd',
    LeafNode_erase NDEBUG nd key = Some (nd', bool_decide (key ∈ lkeys nd)) ∧
    leaf_wf (LeafNode_kCapacity PageSize) nd' ∧
    level nd' = level nd ∧
    count nd' = (if bool_decide (key ∈ lkeys nd) then count nd - 1 else count nd) ∧
    (∀ k v, (∃ i, lkeys nd' !! i = Some k ∧ lvals nd' !! i = Some v) ↔
            k ≠ key ∧ ∃ i, lkeys nd !! i = Some k ∧ lvals nd !! i = Some v) ∧
    (key ∉ lkeys nd → nd' = nd) ∧
    ∃ i, LeafNode_lower_bound nd' key = Some (i, false).
Proof.
  intros Hcap Hwf. pose proof Hwf as (Hsz & Hc & Hs).
  destruct (leaf_wf_lengths _ _ Hwf) as [Hlk Hlv].
  destruct (decide (key ∈ lkeys nd)) as [Hin|Hnot].
  - destruct (LeafNode_erase_present PageSize NDEBUG nd key Hwf Hcap Hin)
      as (nd' & He & Hl' & Hc' & Hsz' & Hk' & Hv').
    pose proof (strictly_increasing_delete _ (ref_lb (lkeys nd) key) Hs) as Hs'.
    assert (Hpairs : ∀ k v, (∃ i, lkeys nd' !! i = Some k ∧ lvals nd' !! i = Some v) ↔
              k ≠ key ∧ ∃ i, lkeys nd !! i = Some k ∧ lvals nd !! i = Some v).
    { intros k v. rewrite Hk', Hv'. apply pairs_del; [done|lia|done]. }
    assert (Hgone : key ∉ lkeys nd').
    { intros [i Hi]%list_elem_of_lookup_1.
      destruct (leaf_wf_lengths (LeafNode_kCapacity PageSize) nd') as [Hlk' Hlv'].
      { split; [done|]. split; [lia|]. by rewrite Hk'. }
      destruct (lookup_lt_is_Some_2 (lvals nd') i) as [v Hv].
      { apply lookup_lt_Some in Hi. lia. }
      destruct (proj1 (Hpairs key v)) as [Hne _]; [by exists i|done]. }
    exists nd'. rewrite bool_decide_eq_true_2 by done.
    split; [done|]. split. { split; [done|]. split; [lia|]. by rewrite Hk'. }
    split; [done|]. split; [lia|]. split; [done|]. split; [done|].
    eexists. rewrite LeafNode_lower_bound_spec; [|destruct Hsz'; lia|by rewrite Hk'].
    by rewrite bool_decide_eq_false_2.
  - rewrite (LeafNode_erase_absent PageSize NDEBUG nd key Hwf Hnot).
    exists nd. rewrite bool_decide_eq_false_2 by done.
    split; [done|]. split; [done|]. split; [done|]. split; [done|].
    split.
    { intros k v. split.
      - intros (i & Hk & Hv). split; [|by exists i]. intros ->.
        apply Hnot. by eapply list_elem_of_lookup_2.
      - by intros [_ ?]. }
    split; [done|].
    eexists. rewrite LeafNode_lower_bound_spec; [|destruct Hsz; lia|done].
    by rewrite bool_decide_eq_false_2.
Qed.

Lemma LeafNode_erase_as_map_witness :
  ∃ nd',
    LeafNode_erase false leaf2 5 = Some (nd', bool_decide (5%Z ∈ lkeys leaf2)) ∧
    leaf_wf (LeafNode_kCapacity 68) nd' ∧
    level nd' = level leaf2 ∧
    count nd' = (if bool_decide (5%Z ∈ lkeys leaf2) then count leaf2 - 1
                 else count leaf2) ∧
    (∀ k v, (∃ i, lkeys nd' !! i = Some k ∧ lvals nd' !! i = Some v) ↔
            k ≠ 5%Z ∧ ∃ i, lkeys leaf2 !! i = Some k ∧ lvals leaf2 !! i = Some v) ∧
    (5%Z ∉ lkeys leaf2 → nd' = leaf2) ∧
    ∃ i, LeafNode_lower_bound nd' 5 = Some (i, false).
Proof.
  apply (LeafNode_erase_as_map 68 false leaf2 5).
  - exact lcap_68_lt.
  - exact leaf_wf_leaf2.
Defined.

(** Inserting a new key into a leaf with space and erasing it again
    gives back the keys, the values and the count of the leaf. *)
Theorem LeafNode_insert_erase_round_trip (PageSize : nat) (NDEBUG : bool)
    (nd : Node) (key value : Z) :
  LeafNode_kCapacity PageSize < 2 ^ 16 →
  leaf_wf (LeafNode_kCapacity PageSize) nd →
  LeafNode_has_space PageSize nd = true →
  key ∉ lkeys nd →
  ∃ nd1 nd2,
    LeafNode_insert PageSize NDEBUG nd key value = Some nd1 ∧
    LeafNode_erase NDEBUG nd1 key = Some (nd2, true) ∧
    lkeys nd2 = lkeys nd ∧ lvals nd2 = lvals nd ∧
    count nd2 = count nd ∧ level nd2 = level nd.
Proof.
  intros Hcap Hwf Hsp Hnot. pose proof Hwf as (Hsz & Hc & Hs).
  destruct (leaf_wf_lengths _ _ Hwf) as [Hlk Hlv].
  pose proof (ref_lb_le (lkeys nd) key) as Hle.
  assert (Hsp' : count nd < LeafNode_kCapacity PageSize) by by apply Nat.ltb_lt.
  destruct (LeafNode_insert_absent PageSize NDEBUG nd key value Hwf Hcap Hsp Hnot)
    as (nd1 & He & Hl1 & Hc1 & Hsz1 & Hk1 & Hv1).
  pose proof (strictly_increasing_ins _ key Hs Hnot) as Hs1.
  assert (Hwf1 : leaf_wf (LeafNode_kCapacity PageSize) nd1).
  { split; [done|]. split; [lia|]. by rewrite Hk1. }
  assert (Hin1 : key ∈ lkeys nd1).
  { rewrite Hk1. eapply list_elem_of_lookup_2. by apply list_ins_lookup_eq. }
  destruct (LeafNode_erase_present PageSize NDEBUG nd1 key Hwf1 Hcap Hin1)
    as (nd2 & He2 & Hl2 & Hc2 & Hsz2 & Hk2 & Hv2).
  assert (Hpos : ref_lb (lkeys nd1) key = ref_lb (lkeys nd) key).
  { rewrite Hk1. rewrite (ref_lb_list_ins _ key key _ Hs eq_refl Hs1).
    by rewrite bool_decide_eq_true_2 by lia. }
  exists nd1, nd2. split; [done|]. split; [done|].
  rewrite Hpos, Hk1 in Hk2. rewrite Hpos, Hv1 in Hv2.
  assert (Hdel : ∀ (l : list Z) x i, i ≤ length l → delete i (list_ins i x l) = l).
  { intros l x i Hi. unfold list_ins. list_idx. }
  split; [by rewrite Hk2, Hdel by lia|].
  split; [by rewrite Hv2, Hdel by lia|].
  split; [lia|congruence].
Qed.

Lemma LeafNode_insert_erase_round_trip_witness :
  ∃ nd1 nd2,
    LeafNode_insert 68 false leaf2 7 70 = Some nd1 ∧
    LeafNode_erase false nd1 7 = Some (nd2, true) ∧
    lkeys nd2 = lkeys leaf2 ∧ lvals nd2 = lvals leaf2 ∧
    count nd2 = count leaf2 ∧ level nd2 = level leaf2.
Proof.
  apply (LeafNode_insert_erase_round_trip 68 false leaf2 7 70).
  - exact lcap_68_lt.
  - exact leaf_wf_leaf2.
  - reflexivity.
  - vm_compute. intros H. repeat (apply elem_of_cons in H as [H|H]; [discriminate H|]).
    by apply elem_of_nil in H.
Defined.

(** [InnerNode::insert_split] and the descent: after the separator [sep]
    and the page [split_page] have been put into an inner node with
    space, [lower_bound] sends a key to [split_page] when it is above
    [sep] and was sent to the same child as [sep], and to the child it
    was sent to before otherwise. *)
Theorem InnerNode_insert_split_routes (PageSize : nat) (NDEBUG : bool) (nd : Node)
    (sep split_page : Z) :
  InnerNode_kCapacity PageSize < 2 ^ 16 →
  inner_wf (InnerNode_kCapacity PageSize) nd →
  1 ≤ count nd →
  InnerNode_has_space PageSize nd = true →
  sep ∉ ikeys nd →
  ∃ nd',
    InnerNode_insert_split PageSize NDEBUG nd sep split_page = Some nd' ∧
    inner_wf (InnerNode_kCapacity PageSize) nd' ∧
    level nd' = level nd ∧ count nd' = S (count nd) ∧
    ∀ key, ∃ pos found,
      InnerNode_lower_bound nd' key = Some (pos, found) ∧
      slots nd' !! pos =
        Some (if bool_decide ((sep < key)%Z ∧
                              ref_lb (ikeys nd) key = ref_lb (ikeys nd) sep)
              then split_page else child_of nd key).
Proof.
  intros Hcap Hwf Hone Hsp Hnot. pose proof Hwf as (Hsz & Hc & Hs).
  destruct (inner_wf_lengths _ _ Hwf) as [Hlk Hlc].
  assert (Hsp' : count nd < InnerNode_kCapacity PageSize) by by apply Nat.ltb_lt.
  destruct (InnerNode_insert_split_spec PageSize NDEBUG nd sep split_page
              Hwf Hcap Hone Hsp Hnot) as (nd' & He & Hl' & Hc' & Hsz' & Hk' & Hch').
  pose proof (strictly_increasing_ins _ sep Hs Hnot) as Hs'.
  exists nd'. split; [done|].
  split. { split; [done|]. split; [lia|]. by rewrite Hk'. }
  split; [done|]. split; [done|]. intros key.
  pose proof (ref_lb_le (ikeys nd) key) as Hlek.
  pose proof (ref_lb_le (ikeys nd) sep) as Hles.
  eexists _, _. split.
  { apply InnerNode_lower_bound_spec; [destruct Hsz'; lia|by rewrite Hk']. }
  assert (Hget : ∀ p, slots nd' !! p = ichildren nd' !! p ∨ count nd' ≤ p).
  { intros p. destruct (decide (p < count nd')); [left|right; lia].
    unfold InnerNode_get_children_vector. by rewrite lookup_take_lt. }
  rewrite Hk', (ref_lb_list_ins_any _ key sep Hs Hnot).
  set (rk := ref_lb (ikeys nd) key) in *. set (rs := ref_lb (ikeys nd) sep) in *.
  assert (Hchild : ichildren nd !! rk = Some (child_of nd key)).
  { unfold child_of. fold rk.
    destruct (lookup_lt_is_Some_2 (ichildren nd) rk) as [c Hcc]; [lia|].
    by rewrite Hcc. }
  assert (Hord : if bool_decide (key ≤ sep)%Z then rk ≤ rs else rs ≤ rk).
  { case_bool_decide as Hk.
    - destruct (decide (rk ≤ rs)) as [|Hn]; [done|].
      destruct (lookup_lt_is_Some_2 (ikeys nd) rs) as [x Hx]; [lia|].
      pose proof (ref_lb_lt (ikeys nd) key rs x ltac:(fold rk; lia) Hx).
      pose proof (ref_lb_ge (ikeys nd) sep rs x Hs ltac:(fold rs; lia) Hx). lia.
    - destruct (decide (rs ≤ rk)) as [|Hn]; [done|].
      destruct (lookup_lt_is_Some_2 (ikeys nd) rk) as [x Hx]; [lia|].
      pose proof (ref_lb_lt (ikeys nd) sep rk x ltac:(fold rs; lia) Hx).
      pose proof (ref_lb_ge (ikeys nd) key rk x Hs ltac:(fold rk; lia) Hx). lia. }
  case_bool_decide as Hk.
  - rewrite bool_decide_eq_false_2 by lia.
    destruct (Hget rk) as [->|?]; [|lia].
    rewrite Hch'. rewrite list_ins_lookup by lia.
    rewrite decide_True by lia. done.
  - destruct (Hget (S rk)) as [->|?]; [|lia].
    rewrite Hch'. rewrite list_ins_lookup by lia.
    rewrite decide_False by lia.
    destruct (decide (rk = rs)) as [Heq|Hne].
    + rewrite bool_decide_eq_true_2 by (split; [lia|done]).
      by rewrite decide_True by lia.
    + rewrite bool_decide_eq_false_2 by (intros [_ ?]; done).
      rewrite decide_False by lia. replace (S rk - 1) with rk by lia. done.
Qed.

Lemma inner_wf_inner3 : inner_wf 4 inner3.
Proof.
  split; [done|]. split; [cbn; lia|]. apply increasingb_sound. reflexivity.
Qed.

Lemma icap_68_lt : InnerNode_kCapacity 68 < 2 ^ 16.
Proof. rewrite pow2_16. change (InnerNode_kCapacity 68) with 4. lia. Qed.

Lemma InnerNode_insert_split_routes_witness :
  ∃ nd',
    InnerNode_insert_split 68 false inner3 15 9 = Some nd' ∧
    inner_wf (InnerNode_kCapacity 68) nd' ∧
    level nd' = level inner3 ∧ count nd' = S (count inner3) ∧
    ∀ key, ∃ pos found,
      InnerNode_lower_bound nd' key = Some (pos, found) ∧
      slots nd' !! pos =
        Some (if bool_decide ((15 < key)%Z ∧
                              ref_lb (ikeys inner3) key = ref_lb (ikeys inner3) 15%Z)
              then 9%Z else child_of inner3 key).
Proof.
  apply (InnerNode_insert_split_routes 68 false inner3 15 9).
  - exact icap_68_lt.
  - exact inner_wf_inner3.
  - cbn. lia.
  - reflexivity.
  - vm_compute. intros H. repeat (apply elem_of_cons in H as [H|H]; [discriminate H|]).
    by apply elem_of_nil in H.
Defined.



(** [create_new_node] and the page ids of the buffer manager: with a
    16-bit segment id and a node counter below 2^48, two calls in a row
    give different page ids, whose segment id ([get_segment_id]) is that
    of the tree and whose page number ([get_segment_page_id]) is the value
    the counter had. *)
Theorem create_new_node_page_ids (t : BTree) :
  (0 ≤ segment_id t < 2 ^ 16)%Z →
  (0 ≤ nodeCount t < 2 ^ 48 - 1)%Z →
  ∃ p1 t1 p2 t2,
    BTree_create_new_node t = (p1, t1) ∧
    BTree_create_new_node t1 = (p2, t2) ∧
    p1 ≠ p2 ∧
    get_segment_id p1 = segment_id t ∧ get_segment_page_id p1 = nodeCount t ∧
    get_segment_id p2 = segment_id t ∧
    get_segment_page_id p2 = (nodeCount t + 1)%Z ∧
    nodeCount t2 = (nodeCount t + 2)%Z ∧
    pages t2 = pages t ∧ root t2 = root t ∧ trace t2 = trace t.
Proof.
  intros Hs Hn. unfold BTree_create_new_node.
  cbn [segment_id nodeCount root treeHeight pages fixed trace].
  rewrite !u64_small by (rewrite ?u64_small; lia).
  eexists _, _, _, _. split; [done|]. split; [done|].
  cbn [segment_id nodeCount root treeHeight pages fixed trace].
  rewrite ?u64_small by lia.
  change (Z.lxor (Z.shiftl (segment_id t) 48) (nodeCount t))
    with (mint (segment_id t) (nodeCount t)).
  change (Z.lxor (Z.shiftl (segment_id t) 48) (nodeCount t + 1))
    with (mint (segment_id t) (nodeCount t + 1)).
  destruct (mint_segment (segment_id t) (nodeCount t)) as [H1 H2]; [lia|lia|].
  destruct (mint_segment (segment_id t) (nodeCount t + 1)) as [H3 H4]; [lia|lia|].
  split. { intros Heq%mint_inj. lia. }
  split; [done|]. split; [done|]. split; [done|]. split; [done|].
  split; [lia|done].
Qed.

Lemma create_new_node_page_ids_witness :
  ∃ p1 t1 p2 t2,
    BTree_create_new_node tree_one_full_leaf = (p1, t1) ∧
    BTree_create_new_node t1 = (p2, t2) ∧
    p1 ≠ p2 ∧
    get_segment_id p1 = segment_id tree_one_full_leaf ∧
    get_segment_page_id p1 = nodeCount tree_one_full_leaf ∧
    get_segment_id p2 = segment_id tree_one_full_leaf ∧
    get_segment_page_id p2 = (nodeCount tree_one_full_leaf + 1)%Z ∧
    nodeCount t2 = (nodeCount tree_one_full_leaf + 2)%Z ∧
    pages t2 = pages tree_one_full_leaf ∧ root t2 = root tree_one_full_leaf ∧
    trace t2 = trace tree_one_full_leaf.
Proof.
  apply (create_new_node_page_ids tree_one_full_leaf).
  - cbn. lia.
  - cbn. lia.
Defined.

(** The constructor makes a tree of one empty leaf: it takes the first
    page id of the segment, fixes that page exclusively and unfixes it
    dirty, and [lookup] finds nothing in it. *)
Theorem BTree_new_empty_tree (PageSize : nat) (NDEBUG : bool) (seg : Z) (fuel : nat) :
  enough_fuel ≤ fuel →
  ∃ t,
    BTree_new PageSize seg = Some t ∧
    segment_id t = seg ∧ root t = mint seg 0 ∧ nodeCount t = 1%Z ∧
    treeHeight t = 1 ∧ fixed t = [] ∧
    trace t = [Fix (mint seg 0) true; Unfix (mint seg 0) true] ∧
    is_leaf (page PageSize t (root t)) = true ∧
    count (page PageSize t (root t)) = 0 ∧
    ∀ k, ∃ t', BTree_lookup PageSize NDEBUG fuel k t = Some (None, t').
Proof.
  intros Hfuel. rewrite BTree_new_eq. eexists. split; [done|].
  cbn [segment_id nodeCount root treeHeight pages fixed trace].
  do 6 (split; [done|]).
  unfold page. cbn [pages]. rewrite lookup_singleton_eq. cbn [default].
  split; [done|]. split; [done|]. intros k.
  destruct (BTree_new_spec PageSize seg) as (t & Hnew & Hinv & Hm & _).
  rewrite BTree_new_eq in Hnew. injection Hnew as <-.
  destruct (BTree_lookup_spec PageSize NDEBUG 1 _ _ fuel k Hinv Hm ltac:(lia) Hfuel)
    as (t' & Hl & _).
  exists t'. by rewrite Hl, lookup_empty.
Qed.

Lemma BTree_new_empty_tree_witness :
  ∃ t,
    BTree_new 68 7 = Some t ∧
    segment_id t = 7%Z ∧ root t = mint 7 0 ∧ nodeCount t = 1%Z ∧
    treeHeight t = 1 ∧ fixed t = [] ∧
    trace t = [Fix (mint 7 0) true; Unfix (mint 7 0) true] ∧
    is_leaf (page 68 t (root t)) = true ∧
    count (page 68 t (root t)) = 0 ∧
    ∀ k, ∃ t', BTree_lookup 68 false enough_fuel k t = Some (None, t').
Proof. apply (BTree_new_empty_tree 68 false 7 enough_fuel). reflexivity. Defined.

(** [lookup] only reads: on a tree that operations have made it returns
    what was last written for the key, fixes pages in shared mode only and
    unfixes them clean, leaves no page fixed, and changes neither a page
    nor the root, the height or the node counter. *)
Theorem BTree_lookup_read_only (PageSize : nat) (NDEBUG : bool) (seg : Z)
    (ops : list Op) (fuel : nat) (key : Z) :
  4 ≤ InnerNode_kCapacity PageSize →
  InnerNode_kCapacity PageSize < 2 ^ 16 →
  (2 * Z.of_nat (length ops) + 1 < 2 ^ 64)%Z →
  enough_fuel ≤ fuel →
  ∃ t0 t t' evs,
    BTree_new PageSize seg = Some t0 ∧
    run_ops PageSize NDEBUG fuel ops t0 = Some t ∧
    BTree_lookup PageSize NDEBUG fuel key t = Some (last_write ops key, t') ∧
    pages t' = pages t ∧ root t' = root t ∧ treeHeight t' = treeHeight t ∧
    nodeCount t' = nodeCount t ∧ fixed t' = [] ∧
    trace t' = trace t ++ evs ∧
    ∀ e, e ∈ evs → (∃ p, e = Fix p false) ∨ (∃ p, e = Unfix p false).
Proof.
  intros Hge Hlt Hlen Hfuel.
  destruct (reachable_tree PageSize NDEBUG Hge Hlt seg ops fuel Hlen Hfuel)
    as (t0 & t & Hnew & Hrun & Hinv & Hm).
  pose proof (tree_inv_height PageSize _ t Hinv ltac:(lia)) as Hh64.
  destruct (BTree_lookup_pass_spec PageSize NDEBUG _ t _ fuel key Hinv Hm)
    as (evs & Hpass & Hev); [unfold enough_fuel in Hfuel; lia|].
  exists t0, t, (with_fixed [] (trace t ++ evs) t), evs.
  split; [done|]. split; [done|]. split.
  { unfold BTree_lookup. destruct fuel as [|fuel]; [unfold enough_fuel in Hfuel; lia|].
    cbn [restart_loop]. rewrite Hpass. cbn [mbind option_bind].
    by rewrite last_write_model. }
  do 6 (split; [done|]).
  intros e He. rewrite Forall_forall in Hev. specialize (Hev e He).
  destruct e as [p x|p d]; cbn in Hev; subst; [left|right]; by eexists.
Qed.

Lemma BTree_lookup_read_only_witness :
  ∃ t0 t t' evs,
    BTree_new 68 0 = Some t0 ∧
    run_ops 68 false enough_fuel five_keys t0 = Some t ∧
    BTree_lookup 68 false enough_fuel 3 t = Some (last_write five_keys 3, t') ∧
    pages t' = pages t ∧ root t' = root t ∧ treeHeight t' = treeHeight t ∧
    nodeCount t' = nodeCount t ∧ fixed t' = [] ∧
    trace t' = trace t ++ evs ∧
    ∀ e, e ∈ evs → (∃ p, e = Fix p false) ∨ (∃ p, e = Unfix p false).
Proof.
  apply (BTree_lookup_read_only 68 false 0 five_keys enough_fuel 3).
  - rewrite kCapacity_68. lia.
  - rewrite kCapacity_68, pow2_16. lia.
  - cbn. lia.
  - reflexivity.
Defined.

(** [erase] on a tree that operations have made: the key is gone and
    every other key is found as before; the root, the height and the node
    counter stay as they are, so no node is merged or given back; the leaf
    is the only page fixed exclusively and the only one that can be
    unfixed dirty. *)
Theorem BTree_erase_removes_key (PageSize : nat) (NDEBUG : bool) (seg : Z)
    (ops : list Op) (fuel : nat) (key : Z) :
  4 ≤ InnerNode_kCapacity PageSize →
  InnerNode_kCapacity PageSize < 2 ^ 16 →
  (2 * Z.of_nat (length ops) + 1 < 2 ^ 64)%Z →
  enough_fuel ≤ fuel →
  ∃ t0 t t' evs,
    BTree_new PageSize seg = Some t0 ∧
    run_ops PageSize NDEBUG fuel ops t0 = Some t ∧
    BTree_erase PageSize NDEBUG fuel key t = Some t' ∧
    root t' = root t ∧ treeHeight t' = treeHeight t ∧
    nodeCount t' = nodeCount t ∧ fixed t' = [] ∧
    trace t' = trace t ++ evs ∧
    (∀ p x, Fix p x ∈ evs → x = is_leaf (page PageSize t p)) ∧
    (∀ p, Unfix p true ∈ evs → is_leaf (page PageSize t p) = true) ∧
    ∀ k, ∃ t'', BTree_lookup PageSize NDEBUG fuel k t'
                = Some (if decide (k = key) then None else last_write ops k, t'').
Proof.
  intros Hge Hlt Hlen Hfuel.
  destruct (reachable_tree PageSize NDEBUG Hge Hlt seg ops fuel Hlen Hfuel)
    as (t0 & t & Hnew & Hrun & Hinv & Hm).
  pose proof (tree_inv_height PageSize _ t Hinv ltac:(lia)) as Hh64.
  destruct (BTree_erase_pass_spec PageSize NDEBUG _ t _ fuel key Hlt Hinv Hm)
    as (t' & Hpass & Hinv' & Hm' & Hseg & Hnc & Hth & Hroot & evs & Htr & Hev);
    [unfold enough_fuel in Hfuel; lia|].
  exists t0, t, t', evs. split; [done|]. split; [done|]. split.
  { unfold BTree_erase. destruct fuel as [|fuel]; [unfold enough_fuel in Hfuel; lia|].
    cbn [restart_loop]. rewrite Hpass. done. }
  split; [done|]. split; [done|]. split; [done|].
  split; [by destruct Hinv'|]. split; [done|].
  rewrite Forall_forall in Hev.
  split. { intros p x Hin. exact (Hev _ Hin). }
  split. { intros p Hin. by apply (Hev _ Hin). }
  intros k.
  destruct (BTree_lookup_spec PageSize NDEBUG _ t' _ fuel k Hinv' Hm' ltac:(lia) Hfuel)
    as (t'' & Hl & _).
  exists t''. rewrite Hl. f_equal. f_equal. rewrite lookup_delete.
  case_decide; subst.
  - by rewrite decide_True.
  - rewrite decide_False by done. apply last_write_model.
Qed.

Lemma BTree_erase_removes_key_witness :
  ∃ t0 t t' evs,
    BTree_new 68 0 = Some t0 ∧
    run_ops 68 false enough_fuel five_keys t0 = Some t ∧
    BTree_erase 68 false enough_fuel 3 t = Some t' ∧
    root t' = root t ∧ treeHeight t' = treeHeight t ∧
    nodeCount t' = nodeCount t ∧ fixed t' = [] ∧
    trace t' = trace t ++ evs ∧
    (∀ p x, Fix p x ∈ evs → x = is_leaf (page 68 t p)) ∧
    (∀ p, Unfix p true ∈ evs → is_leaf (page 68 t p) = true) ∧
    ∀ k, ∃ t'', BTree_lookup 68 false enough_fuel k t'
                = Some (if decide (k = 3%Z) then None else last_write five_keys k, t'').
Proof.
  apply (BTree_erase_removes_key 68 false 0 five_keys enough_fuel 3).
  - rewrite kCapacity_68. lia.
  - rewrite kCapacity_68, pow2_16. lia.
  - cbn. lia.
  - reflexivity.
Defined.

(** What every tree made by operations is: a search tree of [treeHeight]
    levels with all leaves on the last one, keys in order and within the
    separators above them, inner nodes of at least two children and no
    page used twice; at most 64 levels; pages made by [create_new_node]
    of this tree; no page left fixed; and a node counter of at most one
    plus two for every operation. *)
Theorem tree_after_operations (PageSize : nat) (NDEBUG : bool) (seg : Z)
    (ops : list Op) (fuel : nat) :
  4 ≤ InnerNode_kCapacity PageSize →
  InnerNode_kCapacity PageSize < 2 ^ 16 →
  (2 * Z.of_nat (length ops) + 1 < 2 ^ 64)%Z →
  enough_fuel ≤ fuel →
  ∃ t0 t,
    BTree_new PageSize seg = Some t0 ∧
    run_ops PageSize NDEBUG fuel ops t0 = Some t ∧
    wf (InnerNode_kCapacity PageSize) (page PageSize t) (pred (treeHeight t))
      None None (root t) ∧
    1 ≤ treeHeight t ≤ 64 ∧
    level (page PageSize t (root t)) = pred (treeHeight t) ∧
    (∀ x, own (page PageSize t) (pred (treeHeight t)) (root t) x →
          ∃ n, (0 ≤ n < nodeCount t)%Z ∧ x = mint (segment_id t) n) ∧
    (1 ≤ nodeCount t ≤ 1 + 2 * Z.of_nat (length ops))%Z ∧
    fixed t = [].
Proof.
  intros Hge Hlt Hlen Hfuel.
  destruct (reachable_tree PageSize NDEBUG Hge Hlt seg ops fuel Hlen Hfuel)
    as (t0 & t & Hnew & Hrun & Hinv & Hm).
  pose proof (tree_inv_height PageSize _ t Hinv ltac:(lia)) as Hh64.
  pose proof Hinv as [Hh Hwf Hmint Hcnt Hw Hfx Hsz].
  exists t0, t. split; [done|]. split; [done|]. split; [done|].
  split; [lia|]. split; [by apply (wf_level _ _ _ _ _ _ Hwf)|].
  split; [done|]. split; [|done].
  destruct (Hmint (root t)) as (n & Hn & _); [apply own_self|].
  pose proof (wsum_mono (page PageSize t) (λ _, 1)
                (node_weight (InnerNode_kCapacity PageSize))
                (pred (treeHeight t)) (root t)) as Hmono.
  assert (∀ nd, 1 ≤ node_weight (InnerNode_kCapacity PageSize) nd)
    by (intros; unfold node_weight; lia).
  specialize (Hmono ltac:(done)). lia.
Qed.

Lemma tree_after_operations_witness :
  ∃ t0 t,
    BTree_new 68 0 = Some t0 ∧
    run_ops 68 false enough_fuel five_keys t0 = Some t ∧
    wf (InnerNode_kCapacity 68) (page 68 t) (pred (treeHeight t)) None None (root t) ∧
    1 ≤ treeHeight t ≤ 64 ∧
    level (page 68 t (root t)) = pred (treeHeight t) ∧
    (∀ x, own (page 68 t) (pred (treeHeight t)) (root t) x →
          ∃ n, (0 ≤ n < nodeCount t)%Z ∧ x = mint (segment_id t) n) ∧
    (1 ≤ nodeCount t ≤ 1 + 2 * Z.of_nat (length five_keys))%Z ∧
    fixed t = [].
Proof.
  apply (tree_after_operations 68 false 0 five_keys enough_fuel).
  - rewrite kCapacity_68. lia.
  - rewrite kCapacity_68, pow2_16. lia.
  - cbn. lia.
  - reflexivity.
Defined.

(** [insert] when no node on the way to the key is full: one pass, no
    restart and no split.  The node counter, the root and the height stay
    as they are, the leaf of the key is the only page written, and the
    tree then maps the key to the value and every other key as before. *)
Theorem insert_with_space_single_pass (PageSize : nat) (NDEBUG : bool) (seg : Z)
    (ops : list Op) (fuel : nat) (key value : Z) (t0 t : BTree) :
  4 ≤ InnerNode_kCapacity PageSize →
  InnerNode_kCapacity PageSize < 2 ^ 16 →
  (2 * Z.of_nat (length ops) + 3 < 2 ^ 64)%Z →
  enough_fuel ≤ fuel →
  BTree_new PageSize seg = Some t0 →
  run_ops PageSize NDEBUG fuel ops t0 = Some t →
  path_has_space (InnerNode_kCapacity PageSize) (page PageSize t) key
    (pred (treeHeight t)) (root t) = true →
  ∃ t',
    BTree_insert_pass PageSize NDEBUG fuel key value false t = Some (Done (), t') ∧
    BTree_insert PageSize NDEBUG fuel key value t = Some t' ∧
    nodeCount t' = nodeCount t ∧ root t' = root t ∧ treeHeight t' = treeHeight t ∧
    (∀ x, x ≠ leaf_of (page PageSize t) key (pred (treeHeight t)) (root t) →
          page PageSize t' x = page PageSize t x) ∧
    ∀ k, ∃ t'', BTree_lookup PageSize NDEBUG fuel k t'
                = Some (if decide (k = key) then Some value else last_write ops k, t'').
Proof.
  intros Hge Hlt Hlen Hfuel Hnew Hrun Hsp.
  destruct (reachable_tree PageSize NDEBUG Hge Hlt seg ops fuel ltac:(lia) Hfuel)
    as (t0' & t1 & Hnew' & Hrun' & Hinv & Hm).
  rewrite Hnew in Hnew'. injection Hnew' as <-.
  rewrite Hrun in Hrun'. injection Hrun' as <-.
  pose proof (tree_inv_height PageSize _ t Hinv ltac:(lia)) as Hh64.
  destruct (path_has_space_on_path _ _ key _ None None None (root t) Hsp
              (inv_wf _ _ _ Hinv)) as (lo' & hi' & qp & Hp & Hq).
  destruct (BTree_insert_pass_free PageSize NDEBUG _ t _ fuel key value false
              lo' hi' qp _ Hlt Hinv Hm ltac:(unfold enough_fuel in Hfuel; lia) Hp Hq)
    as (t' & evs & Hpass & Hinv' & Hm' & _ & _ & Hnc & Hth & Hroot & _ & Hpg & _).
  exists t'. split; [done|]. split.
  { unfold BTree_insert. destruct fuel as [|fuel]; [unfold enough_fuel in Hfuel; lia|].
    cbn [restart_loop]. rewrite Hpass. done. }
  do 3 (split; [done|]). split; [done|]. intros k.
  destruct (BTree_lookup_spec PageSize NDEBUG _ t' _ fuel k Hinv' Hm' ltac:(lia) Hfuel)
    as (t'' & Hl & _).
  exists t''. rewrite Hl. f_equal. f_equal. rewrite lookup_insert.
  case_decide; subst.
  - by rewrite decide_True.
  - rewrite decide_False by done. apply last_write_model.
Qed.

Lemma insert_with_space_single_pass_witness :
  ∃ t',
    BTree_insert_pass 68 false enough_fuel 9 90 false tree_new_0 = Some (Done (), t') ∧
    BTree_insert 68 false enough_fuel 9 90 tree_new_0 = Some t' ∧
    nodeCount t' = nodeCount tree_new_0 ∧ root t' = root tree_new_0 ∧
    treeHeight t' = treeHeight tree_new_0 ∧
    (∀ x, x ≠ leaf_of (page 68 tree_new_0) 9 (pred (treeHeight tree_new_0))
                 (root tree_new_0) →
          page 68 t' x = page 68 tree_new_0 x) ∧
    ∀ k, ∃ t'', BTree_lookup 68 false enough_fuel k t'
                = Some (if decide (k = 9%Z) then Some 90%Z else last_write [] k, t'').
Proof.
  apply (insert_with_space_single_pass 68 false 0 [] enough_fuel 9 90
           tree_new_0 tree_new_0).
  - rewrite kCapacity_68. lia.
  - rewrite kCapacity_68, pow2_16. lia.
  - cbn. lia.
  - reflexivity.
  - vm_compute. reflexivity.
  - reflexivity.
  - vm_compute. reflexivity.
Defined.
(** * More of the buffer manager *)

(** The buffer never holds more than [pageCount] pages: in every state
    reached from construction by [fix_page] and [unfix_page] the two
    queues together have at most [pageCount] entries, as have the lists
    that [get_fifo_list] and [get_lru_list] return, and every frame in
    [IN_FIFO] or [IN_LRU] is in the queue of its state. *)
Theorem queues_within_capacity (NDEBUG : bool) (malloc : gmap Z (list Z) → Z)
    (bm : BufferManager) :
  bm_reachable NDEBUG malloc bm →
  length (fifoList bm) + length (lruList bm) ≤ pageCount bm ∧
  length (get_fifo_list bm) + length (get_lru_list bm) ≤ pageCount bm ∧
  ∀ p f, pageTable bm !! p = Some f →
    (pageState f = IN_FIFO → p ∈ fifoList bm) ∧
    (pageState f = IN_LRU → p ∈ lruList bm).
Proof.
  intros Hr.
  destruct (reachable_queues_within NDEBUG malloc bm Hr) as (_ & _ & _ & Hlen & Htab).
  split; [done|]. split.
  - unfold get_fifo_list, get_lru_list.
    pose proof (length_omap_le (λ p, pid <$> pageTable bm !! p) (fifoList bm)).
    pose proof (length_omap_le (λ p, pid <$> pageTable bm !! p) (lruList bm)). lia.
  - intros p f Hp. apply (Htab p f Hp). apply not_elem_of_nil.
Qed.

Lemma bm_after_evict_reachable : bm_reachable false bump_malloc bm_after_evict.
Proof. exact (bm_run_reachable _ _ _ _ bm_after_evict_run). Defined.

Lemma queues_within_capacity_witness :
  length (fifoList bm_after_evict) + length (lruList bm_after_evict)
    ≤ pageCount bm_after_evict ∧
  length (get_fifo_list bm_after_evict) + length (get_lru_list bm_after_evict)
    ≤ pageCount bm_after_evict ∧
  ∀ p f, pageTable bm_after_evict !! p = Some f →
    (pageState f = IN_FIFO → p ∈ fifoList bm_after_evict) ∧
    (pageState f = IN_LRU → p ∈ lruList bm_after_evict).
Proof.
  exact (queues_within_capacity false bump_malloc bm_after_evict
           bm_after_evict_reachable).
Defined.

(** [fix_page] of a resident page whose latch can be acquired: a page in
    the FIFO queue is taken out of it and put at the back of the LRU
    queue, its frame now [IN_LRU]; a page in the LRU queue is moved to the
    back of the LRU queue.  Nothing else changes but the page latch, and
    nothing is loaded or evicted. *)
Theorem fix_page_resident (NDEBUG : bool) (malloc : gmap Z (list Z) → Z)
    (bm : BufferManager) (p : Z) (f : BufferFrame) (exclusive : bool) (l : Latch)
    (l1 l2 : list Z) :
  pageTable bm !! p = Some f →
  acquire exclusive (pageLatch f) = Some l →
  p ∉ l1 →
  (pageState f = IN_FIFO → fifoList bm = l1 ++ p :: l2 →
   fix_page NDEBUG malloc p exclusive bm =
   Ok p (mkBM (pageSize bm) (pageCount bm) (segments bm)
           (<[p:=mkFrame (pid f) IN_LRU l (loadingLatch f) (isDirty f) (data f)]>
              (pageTable bm))
           (l1 ++ l2) (lruList bm ++ [p]) (heap bm))) ∧
  (pageState f = IN_LRU → lruList bm = l1 ++ p :: l2 →
   fix_page NDEBUG malloc p exclusive bm =
   Ok p (mkBM (pageSize bm) (pageCount bm) (segments bm)
           (<[p:=mkFrame (pid f) IN_LRU l (loadingLatch f) (isDirty f) (data f)]>
              (pageTable bm))
           (fifoList bm) ((l1 ++ l2) ++ [p]) (heap bm))).
Proof.
  intros Hp Hacq Hn. split; intros Hst Hlist.
  - assert (Htwp : twp (fix_page NDEBUG malloc p exclusive)
              (λ a s, Ok a s = Ok p (mkBM (pageSize bm) (pageCount bm) (segments bm)
                 (<[p:=mkFrame (pid f) IN_LRU l (loadingLatch f) (isDirty f) (data f)]>
                    (pageTable bm))
                 (l1 ++ l2) (lruList bm ++ [p]) (heap bm)))
              (λ _ _, False) bm).
    { eapply fix_page_resident_twp; [exact Hp|exact Hacq|]. rewrite Hst.
      by exists l1, l2. }
    apply twp_eq in Htwp as [(a & s & -> & Hres)|(e & s & _ & [])]. done.
  - assert (Htwp : twp (fix_page NDEBUG malloc p exclusive)
              (λ a s, Ok a s = Ok p (mkBM (pageSize bm) (pageCount bm) (segments bm)
                 (<[p:=mkFrame (pid f) IN_LRU l (loadingLatch f) (isDirty f) (data f)]>
                    (pageTable bm))
                 (fifoList bm) ((l1 ++ l2) ++ [p]) (heap bm)))
              (λ _ _, False) bm).
    { eapply fix_page_resident_twp; [exact Hp|exact Hacq|]. rewrite Hst.
      exists l1, l2. split; [done|]. split; [done|].
      unfold with_latch. by rewrite Hst. }
    apply twp_eq in Htwp as [(a & s & -> & Hres)|(e & s & _ & [])]. done.
Qed.

Lemma fix_page_resident_witness :
  (pageState (frame_of bm_after_unfix 0) = IN_FIFO →
   fifoList bm_after_unfix = [] ++ 0%Z :: [] →
   fix_page false bump_malloc 0 false bm_after_unfix =
   Ok 0%Z (mkBM (pageSize bm_after_unfix) (pageCount bm_after_unfix)
           (segments bm_after_unfix)
           (<[0%Z:=mkFrame (pid (frame_of bm_after_unfix 0)) IN_LRU (SharedBy 0)
                     (loadingLatch (frame_of bm_after_unfix 0))
                     (isDirty (frame_of bm_after_unfix 0))
                     (data (frame_of bm_after_unfix 0))]>
              (pageTable bm_after_unfix))
           ([] ++ []) (lruList bm_after_unfix ++ [0%Z]) (heap bm_after_unfix))) ∧
  (pageState (frame_of bm_after_unfix 0) = IN_LRU →
   lruList bm_after_unfix = [] ++ 0%Z :: [] →
   fix_page false bump_malloc 0 false bm_after_unfix =
   Ok 0%Z (mkBM (pageSize bm_after_unfix) (pageCount bm_after_unfix)
           (segments bm_after_unfix)
           (<[0%Z:=mkFrame (pid (frame_of bm_after_unfix 0)) IN_LRU (SharedBy 0)
                     (loadingLatch (frame_of bm_after_unfix 0))
                     (isDirty (frame_of bm_after_unfix 0))
                     (data (frame_of bm_after_unfix 0))]>
              (pageTable bm_after_unfix))
           (fifoList bm_after_unfix) (([] ++ []) ++ [0%Z]) (heap bm_after_unfix))).
Proof.
  apply (fix_page_resident false bump_malloc bm_after_unfix 0
           (frame_of bm_after_unfix 0) false (SharedBy 0) [] []).
  - vm_compute. reflexivity.
  - vm_compute. reflexivity.
  - apply not_elem_of_nil.
Defined.

Lemma unfix_page_eq p is_dirty bm f l0 :
  pageTable bm !! p = Some f → latch_unlock (pageLatch f) = Some l0 →
  unfix_page p is_dirty bm =
  Ok () (with_frame p (mkFrame (pid f) (pageState f) l0 (loadingLatch f)
                         (isDirty f || is_dirty) (data f)) bm).
Proof.
  intros Hp Hl.
  assert (Htwp : twp (unfix_page p is_dirty)
            (λ a s, Ok a s = Ok () (with_frame p (mkFrame (pid f) (pageState f) l0
                        (loadingLatch f) (isDirty f || is_dirty) (data f)) bm))
            (λ _ _, False) bm).
  { unfold unfix_page. twp_go. eapply twp_some; [exact Hl|]. twp_go.
    by rewrite with_frame_twice. }
  apply twp_eq in Htwp as [(a & s & -> & Hres)|(e & s & _ & [])]. done.
Qed.

(** Fixing a page that is not loaded while there is room, and unfixing
    it: the page is loaded into a new buffer with the bytes of its place
    in the segment file, it is last in the FIFO queue, its latch is as
    before the two calls, and it is dirty when it was unfixed dirty. *)
Theorem fix_unfix_new_page (NDEBUG : bool) (malloc : gmap Z (list Z) → Z)
    (bm : BufferManager) (p : Z) (exclusive is_dirty : bool) (l : Latch) :
  (∀ h, malloc h ≠ 0%Z) → queues_ok bm → not_loaded bm p →
  acquire exclusive (pageLatch (frame_of bm p)) = Some l →
  length (fifoList bm) + length (lruList bm) < pageCount bm →
  ∃ bm1 bm2,
    fix_page NDEBUG malloc p exclusive bm = Ok p bm1 ∧
    unfix_page p is_dirty bm1 = Ok () bm2 ∧
    pageTable bm2 !! p =
      Some (mkFrame (pid (frame_of bm p)) IN_FIFO (pageLatch (frame_of bm p)) false
              (isDirty (frame_of bm p) || is_dirty) (malloc (heap bm))) ∧
    (∀ q, q ≠ p → pageTable bm2 !! q = pageTable bm !! q) ∧
    fifoList bm2 = fifoList bm ++ [p] ∧ lruList bm2 = lruList bm ∧
    ∃ bytes, heap bm2 !! malloc (heap bm) = Some bytes ∧ length bytes = pageSize bm.
Proof.
  intros Hm Hq Hnl Hacq Hroom.
  rewrite (fix_page_not_loaded_eq NDEBUG malloc bm p exclusive l Hm Hq Hnl Hacq).
  unfold fix_page_not_loaded. rewrite (proj2 (Nat.ltb_lt _ _) Hroom).
  eexists _, _. split; [done|]. split.
  { eapply unfix_page_eq.
    - unfold loaded. cbn [pageTable]. apply lookup_insert_eq.
    - cbn [pageLatch loading with_latch]. by apply (acquire_unlock exclusive). }
  unfold loaded, loading, with_latch, with_frame.
  cbn [pageTable fifoList lruList heap pageSize segments pageCount
       pid pageState pageLatch loadingLatch isDirty data].
  split. { by rewrite lookup_insert_eq. }
  split. { intros q Hne. by rewrite !lookup_insert_ne by done. }
  split; [done|]. split; [done|].
  eexists. split; [apply lookup_insert_eq|].
  unfold File_read_block. rewrite !length_take, length_drop.
  set (segId := get_segment_id (pid (frame_of bm p))).
  set (n := Z.to_nat (get_segment_page_id (pid (frame_of bm p)))).
  set (file := default [] (segments bm !! segId)).
  destruct (Nat.ltb_spec (length file) (n * pageSize bm + pageSize bm)).
  - unfold File_resize. rewrite length_app, length_take, length_replicate. lia.
  - lia.
Qed.

Lemma queues_ok_new page_size page_count :
  queues_ok (BufferManager_new page_size page_count).
Proof. split; intros q Hq; by apply elem_of_nil in Hq. Qed.

Lemma fix_unfix_new_page_witness :
  ∃ bm1 bm2,
    fix_page false bump_malloc 3 true (BufferManager_new 4 2) = Ok 3%Z bm1 ∧
    unfix_page 3 true bm1 = Ok () bm2 ∧
    pageTable bm2 !! 3%Z =
      Some (mkFrame (pid (frame_of (BufferManager_new 4 2) 3)) IN_FIFO
              (pageLatch (frame_of (BufferManager_new 4 2) 3)) false
              (isDirty (frame_of (BufferManager_new 4 2) 3) || true)
              (bump_malloc (heap (BufferManager_new 4 2)))) ∧
    (∀ q, q ≠ 3%Z → pageTable bm2 !! q = pageTable (BufferManager_new 4 2) !! q) ∧
    fifoList bm2 = fifoList (BufferManager_new 4 2) ++ [3%Z] ∧
    lruList bm2 = lruList (BufferManager_new 4 2) ∧
    ∃ bytes, heap bm2 !! bump_malloc (heap (BufferManager_new 4 2)) = Some bytes ∧
             length bytes = pageSize (BufferManager_new 4 2).
Proof.
  apply (fix_unfix_new_page false bump_malloc (BufferManager_new 4 2) 3 true true
           Exclusive).
  - exact bump_malloc_nonnull.
  - apply queues_ok_new.
  - vm_compute. exact I.
  - vm_compute. reflexivity.
  - cbn. lia.
Defined.

(** ** Write-back on eviction *)

Section persistence.
Variable NDEBUG : bool.
Variable malloc : gmap Z (list Z) → Z.
Hypothesis malloc_nonnull : ∀ h, malloc h ≠ 0%Z.

(** Eviction writes a dirty page back and a later [fix_page] reads it
    again.  In a buffer of one frame holding the unfixed dirty page
    [p] with bytes [b], fix_page of another page [q] evicts [p] (its
    frame becomes NOT_LOADED); after unfix_page of [q], fix_page of [p]
    evicts [q] and loads [p] anew: the frame is IN_FIFO and clean, and its
    buffer holds the bytes [b] again, read from the segment file. *)
Theorem evict_and_reload bm p q fp b :
  pageCount bm = 1 → fifoList bm = [p] → lruList bm = [] →
  pageTable bm !! p = Some fp →
  pid fp = p → pageState fp = IN_FIFO → pageLatch fp = Unlocked →
  loadingLatch fp = false → isDirty fp = true →
  data fp ≠ 0%Z → heap bm !! data fp = Some b → length b = pageSize bm →
  is_Some (segments bm !! get_segment_id p) →
  pageTable bm !! q = None → q ≠ p →
  ∃ bm1 bm2 bm3 f3,
    fix_page NDEBUG malloc q false bm = Ok q bm1 ∧
    unfix_page q false bm1 = Ok () bm2 ∧
    fix_page NDEBUG malloc p false bm2 = Ok p bm3 ∧
    pageState <$> pageTable bm1 !! p = Some NOT_LOADED ∧
    pageTable bm3 !! p = Some f3 ∧ pageState f3 = IN_FIFO ∧ isDirty f3 = false ∧
    heap bm3 !! data f3 = Some b.
Proof.
  intros HN HF HL Hp Hpid Hst Hlatch Hll Hdirty Hd Hheap Hlen Hseg Hq Hne.
  assert (Hqok : queues_ok bm).
  { split; intros x Hx; [|rewrite HL in Hx; by apply elem_of_nil in Hx].
    rewrite HF in Hx. apply list_elem_of_singleton in Hx as ->.
    exists fp. rewrite Hpid. split; [done|]. split; [done|]. split; [done|].
    split; [by eexists|done]. }
  assert (Hnl : not_loaded bm q) by (unfold not_loaded; by rewrite Hq).
  assert (Hfq : frame_of bm q = BufferFrame_new q) by (unfold frame_of; by rewrite Hq).
  assert (Hacq : acquire false (pageLatch (frame_of bm q)) = Some (SharedBy 0))
    by (by rewrite Hfq).
  pose proof (fix_page_not_loaded_eq NDEBUG malloc bm q false _ malloc_nonnull
                Hqok Hnl Hacq) as Hfix1.
  unfold fix_page_not_loaded in Hfix1. rewrite HF, HL, HN in Hfix1.
  cbn [length Nat.add Nat.ltb Nat.leb first_evictable] in Hfix1.
  unfold evictable in Hfix1. rewrite Hp, Hlatch in Hfix1.
  rewrite bool_decide_eq_true_2 in Hfix1 by done.
  cbn [lookup list_lookup] in Hfix1. rewrite Hp in Hfix1.
  rewrite Hfq in Hfix1.
  set (fl := loading (with_latch (SharedBy 0) (BufferFrame_new q))) in *.
  set (s0 := mkBM (pageSize bm) 1 (segments bm)
               (<[p:=with_latch Exclusive fp]> (<[q:=fl]> (pageTable bm)))
               (delete 0 [p] ++ [q]) [] (heap bm)) in *.
  set (bm1 := loaded malloc q fl (evicted p (with_latch Exclusive fp) s0)) in *.
  set (off := Z.to_nat (get_segment_page_id p) * pageSize bm).
  set (f0 := default [] (segments bm !! get_segment_id p)).
  set (dq := malloc (delete (data fp) (heap bm))).
  (* the frames and the file after the first call *)
  assert (Hp1 : pageTable bm1 !! p
                = Some (mkFrame p NOT_LOADED Unlocked false false (data fp))).
  { unfold bm1, loaded, evicted, s0. cbn [pageTable pid with_latch loadingLatch data].
    rewrite lookup_insert_ne by done. rewrite lookup_insert_eq.
    by rewrite Hpid, Hll. }
  assert (Hq1 : pageTable bm1 !! q = Some (mkFrame q IN_FIFO (SharedBy 0) false false dq)).
  { unfold bm1, loaded, evicted, s0.
    cbn [pageTable pid with_latch loadingLatch data heap pageLatch isDirty fl loading
         BufferFrame_new].
    by rewrite lookup_insert_eq. }
  assert (Hfile1 : ∃ file1, segments bm1 !! get_segment_id p = Some file1 ∧
                     off + pageSize bm ≤ length file1 ∧
                     File_read_block file1 off (pageSize bm) = b).
  { assert (Hw : File_read_block (File_write_block f0 b off (pageSize bm)) off (pageSize bm) = b).
    { rewrite File_read_write by lia. apply take_ge. lia. }
    assert (Hwl : off + pageSize bm ≤ length (File_write_block f0 b off (pageSize bm))).
    { rewrite File_write_block_length by lia. lia. }
    unfold bm1, loaded, evicted, s0.
    cbn [segments pid with_latch isDirty heap data pageSize fl loading BufferFrame_new].
    rewrite Hdirty, Hpid, Hheap. cbn [default from_option id]. fold off f0.
    destruct (decide (get_segment_id q = get_segment_id p)) as [Heq|Hneq].
    - rewrite Heq, !lookup_insert_eq. cbn [default from_option id].
      eexists. split; [reflexivity|].
      destruct (Nat.ltb_spec (length (File_write_block f0 b off (pageSize bm)))
                  (Z.to_nat (get_segment_page_id q) * pageSize bm + pageSize bm)).
      + rewrite File_resize_length by lia. split; [lia|].
        rewrite File_read_resize by lia. done.
      + done.
    - rewrite lookup_insert_ne by done. rewrite lookup_insert_eq. by eexists. }
  destruct Hfile1 as (file1 & Hs1 & Hl1 & Hr1).
  assert (Hlists1 : fifoList bm1 = [q] ∧ lruList bm1 = [] ∧ pageCount bm1 = 1 ∧
                    pageSize bm1 = pageSize bm).
  { done. }
  destruct Hlists1 as (HF1 & HL1 & HN1 & HS1).
  assert (Hheap1 : is_Some (heap bm1 !! dq)).
  { unfold bm1, loaded, evicted, s0.
    cbn [heap data with_latch]. fold dq. rewrite lookup_insert_eq. by eexists. }
  assert (Hsq1 : is_Some (segments bm1 !! get_segment_id q)).
  { unfold bm1, loaded. cbn [segments pid fl loading with_latch BufferFrame_new].
    rewrite lookup_insert_eq. by eexists. }
  (* the second call *)
  set (fq2 := mkFrame q IN_FIFO Unlocked false (false || false) dq).
  pose proof (unfix_page_eq q false bm1 _ Unlocked Hq1 eq_refl) as Hunfix.
  cbn [pid pageState loadingLatch isDirty data] in Hunfix. fold fq2 in Hunfix.
  set (bm2 := with_frame q fq2 bm1) in *.
  assert (Hq2 : pageTable bm2 !! q = Some fq2) by apply lookup_insert_eq.
  assert (Hp2 : pageTable bm2 !! p
                = Some (mkFrame p NOT_LOADED Unlocked false false (data fp))).
  { unfold bm2, with_frame. cbn [pageTable]. by rewrite lookup_insert_ne. }
  assert (Hqok2 : queues_ok bm2).
  { split; intros x Hx; [|by apply elem_of_nil in Hx].
    change (fifoList bm2) with [q] in Hx. apply list_elem_of_singleton in Hx as ->.
    exists fq2. split; [done|]. split; [done|]. split; [apply malloc_nonnull|].
    split; done. }
  assert (Hnl2 : not_loaded bm2 p) by (unfold not_loaded; by rewrite Hp2).
  assert (Hfp2 : frame_of bm2 p = mkFrame p NOT_LOADED Unlocked false false (data fp))
    by (unfold frame_of; by rewrite Hp2).
  assert (Hacq2 : acquire false (pageLatch (frame_of bm2 p)) = Some (SharedBy 0))
    by (by rewrite Hfp2).
  pose proof (fix_page_not_loaded_eq NDEBUG malloc bm2 p false _ malloc_nonnull
                Hqok2 Hnl2 Hacq2) as Hfix2.
  unfold fix_page_not_loaded in Hfix2.
  change (fifoList bm2) with [q] in Hfix2. change (lruList bm2) with (@nil Z) in Hfix2.
  change (pageCount bm2) with 1 in Hfix2.
  cbn [length Nat.add Nat.ltb Nat.leb first_evictable] in Hfix2.
  unfold evictable in Hfix2. rewrite Hq2 in Hfix2.
  rewrite bool_decide_eq_true_2 in Hfix2 by done.
  cbn [lookup list_lookup] in Hfix2. rewrite Hq2 in Hfix2.
  rewrite Hfp2 in Hfix2.
  eexists bm1, bm2, _, _. split; [exact Hfix1|]. split; [exact Hunfix|].
  split; [exact Hfix2|]. split; [by rewrite Hp1|].
  unfold loaded.
  cbn [pageTable heap pid pageState pageLatch loadingLatch isDirty data loading
       with_latch].
  split; [apply lookup_insert_eq|]. split; [done|]. split; [done|].
  cbn [data]. rewrite lookup_insert_eq. f_equal.
  unfold evicted.
  cbn [segments pid pageState pageLatch loadingLatch isDirty data loading with_latch
       fq2 pageSize orb].
  change (segments bm2) with (segments bm1). change (pageSize bm2) with (pageSize bm).
  rewrite Hs1. cbn [default from_option id].
  fold off.
  rewrite (proj2 (Nat.ltb_ge _ _)) by lia.
  rewrite Hr1. apply take_ge. lia.
Qed.
End persistence.

Lemma evict_and_reload_witness :
  ∃ bm1 bm2 bm3 f3,
    fix_page false bump_malloc 1%Z false bm_after_unfix = Ok 1%Z bm1 ∧
    unfix_page 1%Z false bm1 = Ok () bm2 ∧
    fix_page false bump_malloc 0%Z false bm2 = Ok 0%Z bm3 ∧
    pageState <$> pageTable bm1 !! 0%Z = Some NOT_LOADED ∧
    pageTable bm3 !! 0%Z = Some f3 ∧ pageState f3 = IN_FIFO ∧ isDirty f3 = false ∧
    heap bm3 !! data f3 = Some [0; 0; 0; 0]%Z.
Proof.
  apply (evict_and_reload false bump_malloc bump_malloc_nonnull bm_after_unfix
           0%Z 1%Z (mkFrame 0%Z IN_FIFO Unlocked false true 1%Z) [0; 0; 0; 0]%Z);
    try (vm_compute; reflexivity).
  - vm_compute. discriminate.
  - vm_compute. by eexists.
  - discriminate.
Defined.
